(** * Hex engine: board state, win checks, evaluator, opening book,
      bounded search, Monte-Carlo tree search and the array-backed
      connectivity tracker, embedded from the JavaScript sources and
      checked against the written specification. *)

From Stdlib Require Import ZArith List Bool Lia Arith Relations QArith FinFun Permutation Sorted.
Import ListNotations.
Local Open Scope Z_scope.

(** ** JavaScript arrays as lists *)

(** [0, 1, ..., n-1], the index range of a [for (let i = 0; i < n; i++)] loop. *)
Definition zrange (n : Z) : list Z := map Z.of_nat (seq 0 (Z.to_nat n)).

(** In-place write [a[i] = v] on a list; like a typed array, an index past
    the end is ignored. *)
Fixpoint upd {A : Type} (i : nat) (v : A) (l : list A) : list A :=
  match l, i with
  | [], _ => []
  | _ :: t, O => v :: t
  | h :: t, S j => h :: upd j v t
  end.

(** Read [a[i]] and write [a[i] = v] on a flat numeric array indexed by a
    JavaScript number.  Reads are only ever performed at indices inside the
    array (see the range invariants below); the default is never observed. *)
Definition zget (l : list Z) (i : Z) : Z := nth (Z.to_nat i) l 0.
Definition zset (l : list Z) (i : Z) (v : Z) : list Z :=
  if (0 <=? i) && (i <? Z.of_nat (length l)) then upd (Z.to_nat i) v l else l.

(** Typed-array element conversions. *)
Definition toInt8 (v : Z) : Z := (v + 128) mod 256 - 128.
Definition toUint8 (v : Z) : Z := v mod 256.
Definition toInt16 (v : Z) : Z := (v + 32768) mod 65536 - 32768.

(** ** Game constants *)

Definition PLAYER_RED : Z := 1.
Definition PLAYER_BLUE : Z := 2.
Definition EMPTY : Z := 0.

(** [p === PLAYER_RED ? PLAYER_BLUE : PLAYER_RED] *)
Definition other (p : Z) : Z := if p =? PLAYER_RED then PLAYER_BLUE else PLAYER_RED.

(** ** HexGame: the board state *)

Module HexGame.

Record move_entry := MoveEntry { m_row : Z; m_col : Z; m_player : Z }.

Record t := Make {
  size : Z;
  board : list (list Z);
  currentPlayer : Z;
  moveCount : Z;
  gameOver : bool;
  winner : option Z;
  swapAvailable : bool;
  history : list move_entry
}.

(** [Array(size).fill(null).map(() => Array(size).fill(v))] *)
Definition grid {A : Type} (n : Z) (v : A) : list (list A) :=
  repeat (repeat v (Z.to_nat n)) (Z.to_nat n).

(** [new HexGame(size)] *)
Definition create (n : Z) : t :=
  Make n (grid n EMPTY) PLAYER_RED 0 false None false [].

(** [b[r][c]] and [b[r][c] = v]. *)
Definition cell (b : list (list Z)) (r c : Z) : Z :=
  nth (Z.to_nat c) (nth (Z.to_nat r) b []) 0.
Definition setCell (b : list (list Z)) (r c v : Z) : list (list Z) :=
  upd (Z.to_nat r) (upd (Z.to_nat c) v (nth (Z.to_nat r) b [])) b.

Definition vcell (b : list (list bool)) (r c : Z) : bool :=
  nth (Z.to_nat c) (nth (Z.to_nat r) b []) false.
Definition vset (b : list (list bool)) (r c : Z) : list (list bool) :=
  upd (Z.to_nat r) (upd (Z.to_nat c) true (nth (Z.to_nat r) b [])) b.

Definition inBounds (n r c : Z) : bool :=
  (0 <=? r) && (r <? n) && (0 <=? c) && (c <? n).

(** [copy()] duplicates every field; in a value model this is the identity. *)
Definition copy (g : t) : t := g.

Definition isValidMove (g : t) (row col : Z) : bool :=
  if (row <? 0) || (row >=? size g) || (col <? 0) || (col >=? size g) then false
  else if negb (cell (board g) row col =? EMPTY) then false
  else if (size g =? 7) && (moveCount g =? 0) then
    let center := size g / 2 in
    if (row =? center) && (col =? center) then false else true
  else true.

Definition getNeighbors (g : t) (row col : Z) : list (Z * Z) :=
  filter (fun rc => inBounds (size g) (fst rc) (snd rc))
    [ (row - 1, col); (row - 1, col + 1);
      (row, col - 1); (row, col + 1);
      (row + 1, col - 1); (row + 1, col) ].

(** One pass of the [for (const [nr, nc] of this.getNeighbors(row, col))]
    body of the breadth-first scan: unvisited cells of the player's colour
    are marked and appended to the queue. *)
Definition visitNeighbors (g : t) (player : Z) (ns : list (Z * Z))
    (visited : list (list bool)) (queue : list (Z * Z))
  : list (list bool) * list (Z * Z) :=
  fold_left (fun (vq : list (list bool) * list (Z * Z)) (n : Z * Z) =>
               let (v, q) := vq in
               let (nr, nc) := n in
               if negb (vcell v nr nc) && (cell (board g) nr nc =? player)
               then (vset v nr nc, q ++ [(nr, nc)]) else (v, q))
            ns (visited, queue).

(** The [while (queue.length > 0)] loop of [checkWin]; [goal] is the test
    "reached the far edge" of the branch being run.  Every cell enters the
    queue at most once, so [size * size] iterations always suffice
    (lemma [bfsLoop_spec] below). *)
Fixpoint bfsLoop (fuel : nat) (g : t) (player : Z) (goal : Z -> Z -> bool)
    (visited : list (list bool)) (queue : list (Z * Z)) : bool :=
  match fuel with
  | O => false
  | S f =>
    match queue with
    | [] => false
    | (row, col) :: rest =>
      if goal row col then true
      else let (v', q') := visitNeighbors g player (getNeighbors g row col) visited rest in
           bfsLoop f g player goal v' q'
    end
  end.

(** The seeding loops of [checkWin]: the player's stones on its starting edge. *)
Definition seed (g : t) (player : Z) (edge : list (Z * Z))
  : list (list bool) * list (Z * Z) :=
  fold_left (fun (vq : list (list bool) * list (Z * Z)) (rc : Z * Z) =>
               let (v, q) := vq in
               let (r, c) := rc in
               if cell (board g) r c =? player then (vset v r c, q ++ [(r, c)]) else (v, q))
            edge (grid (size g) false, []).

Definition checkWin (g : t) (player : Z) : bool :=
  if player =? PLAYER_RED then
    let (v, q) := seed g PLAYER_RED (map (fun col => (0, col)) (zrange (size g))) in
    bfsLoop (Z.to_nat (size g * size g)) g PLAYER_RED
            (fun row _ => row =? size g - 1) v q
  else
    let (v, q) := seed g PLAYER_BLUE (map (fun row => (row, 0)) (zrange (size g))) in
    bfsLoop (Z.to_nat (size g * size g)) g PLAYER_BLUE
            (fun _ col => col =? size g - 1) v q.

(** [makeMove] returns the boolean result together with the state after
    the call. *)
Definition makeMove (g : t) (row col : Z) : bool * t :=
  if negb (isValidMove g row col) || gameOver g then (false, g)
  else
    let b1 := setCell (board g) row col (currentPlayer g) in
    let h1 := history g ++ [MoveEntry row col (currentPlayer g)] in
    let mc := moveCount g + 1 in
    let sw := if mc =? 1 then true else swapAvailable g in
    let g1 := Make (size g) b1 (currentPlayer g) mc (gameOver g) (winner g) sw h1 in
    if checkWin g1 (currentPlayer g) then
      (true, Make (size g) b1 (currentPlayer g) mc true (Some (currentPlayer g)) sw h1)
    else
      (true, Make (size g) b1 (other (currentPlayer g)) mc (gameOver g) (winner g) false h1).

Definition swapCellAt (b : list (list Z)) (r c : Z) : list (list Z) :=
  if cell b r c =? PLAYER_RED then setCell b r c PLAYER_BLUE
  else if cell b r c =? PLAYER_BLUE then setCell b r c PLAYER_RED
  else b.

Definition swapBoard (n : Z) (b : list (list Z)) : list (list Z) :=
  fold_left (fun b r => fold_left (fun b c => swapCellAt b r c) (zrange n) b)
            (zrange n) b.

Definition swapSides (g : t) : bool * t :=
  if negb (moveCount g =? 1) || negb (swapAvailable g) then (false, g)
  else (true, Make (size g) (swapBoard (size g) (board g)) PLAYER_RED (moveCount g)
                   (gameOver g) (winner g) false (history g)).

(** [getValidMoves]: every empty cell, row by row. *)
Definition getValidMoves (g : t) : list (Z * Z) :=
  flat_map (fun r =>
              flat_map (fun c => if cell (board g) r c =? EMPTY then [(r, c)] else [])
                       (zrange (size g)))
           (zrange (size g)).

(** A board of [size] rows of [size] cells, each empty, red or blue. *)
Definition wf (g : t) : Prop :=
  0 < size g /\
  length (board g) = Z.to_nat (size g) /\
  (forall row, In row (board g) -> length row = Z.to_nat (size g)) /\
  (forall r c, 0 <= r < size g -> 0 <= c < size g ->
      cell (board g) r c = EMPTY \/ cell (board g) r c = PLAYER_RED \/
      cell (board g) r c = PLAYER_BLUE).

Definition wfb (g : t) : bool :=
  (0 <? size g) && (length (board g) =? Z.to_nat (size g))%nat &&
  forallb (fun row => (length row =? Z.to_nat (size g))%nat &&
                      forallb (fun v => (v =? EMPTY) || (v =? PLAYER_RED) || (v =? PLAYER_BLUE)) row)
          (board g).

End HexGame.


(** ** What a move-returning call can produce *)

(** A JavaScript call returning a move either throws, or returns
    [undefined], [null] or a [[row, col]] pair. *)
Inductive outcome : Type :=
| Throw
| Undefined
| Null
| Move (m : Z * Z).

(** [Math.floor(Math.random() * l.length)] followed by the array read: the
    random draw is an explicit argument [rnd]; every index of a non-empty
    array can come out, and an empty array reads as [undefined] ([None]). *)
Definition pick {A : Type} (rnd : nat) (l : list A) : option A :=
  nth_error l (rnd mod length l)%nat.

(** ** HexEvaluator: bridge detection *)

Module HexEvaluator.

(** The [if / else if] chain that fills [intermediates]. *)
Definition intermediates (r1 c1 dr dc : Z) : list (Z * Z) :=
  if (dr =? 2) && (dc =? 0) then [(r1 + 1, c1 - 1); (r1 + 1, c1)]
  else if (dr =? -2) && (dc =? 0) then [(r1 - 1, c1); (r1 - 1, c1 + 1)]
  else if (dr =? 0) && (dc =? 2) then [(r1 - 1, c1 + 1); (r1, c1 + 1)]
  else if (dr =? 0) && (dc =? -2) then [(r1, c1 - 1); (r1 + 1, c1 - 1)]
  else if (dr =? 1) && (dc =? 1) then [(r1, c1 + 1); (r1 + 1, c1)]
  else if (dr =? -1) && (dc =? -1) then [(r1 - 1, c1); (r1, c1 - 1)]
  else if (dr =? 1) && (dc =? -2) then [(r1, c1 - 1); (r1 + 1, c1 - 1)]
  else if (dr =? -1) && (dc =? 2) then [(r1 - 1, c1 + 1); (r1, c1 + 1)]
  else if (dr =? 2) && (dc =? -1) then [(r1 + 1, c1 - 1); (r1 + 1, c1)]
  else if (dr =? -2) && (dc =? 1) then [(r1 - 1, c1); (r1 - 1, c1 + 1)]
  else [].

(** The loop over the intermediate cells, which clears [validBridge] and
    breaks at the first cell that is off the board or not empty. *)
Fixpoint checkIntermediates (g : HexGame.t) (validBridge : bool) (ims : list (Z * Z)) : bool :=
  match ims with
  | [] => validBridge
  | (ir, ic) :: rest =>
    if (ir <? 0) || (ir >=? HexGame.size g) || (ic <? 0) || (ic >=? HexGame.size g)
       || negb (HexGame.cell (HexGame.board g) ir ic =? EMPTY)
    then false
    else checkIntermediates g validBridge rest
  end.

Definition isVirtuallyConnected (g : HexGame.t) (pos1 pos2 : Z * Z) (player : Z) : bool :=
  let (r1, c1) := pos1 in
  let (r2, c2) := pos2 in
  let dr := r2 - r1 in
  let dc := c2 - c1 in
  if Z.abs dr + Z.abs dc =? 2 then
    let ims := intermediates r1 c1 dr dc in
    checkIntermediates g (length ims =? 2)%nat ims
  else false.

End HexEvaluator.

(** ** HexOpeningBook *)

Module HexOpeningBook.
Import HexGame.

Definition strongOpenings7 : list (Z * Z) :=
  [ (2, 3); (3, 2); (3, 4); (4, 3);
    (2, 3); (3, 2); (3, 4); (4, 3) ].
Definition goodOpenings7 : list (Z * Z) := [ (2, 2); (2, 4); (4, 2); (4, 4) ].

Definition goodOpenings11 : list (Z * Z) :=
  [ (4, 5); (5, 4); (5, 6); (6, 5);
    (4, 4); (4, 6); (6, 4); (6, 6);
    (3, 5); (5, 3); (5, 7); (7, 5) ].

Definition goodOpenings13 : list (Z * Z) :=
  [ (5, 6); (6, 5); (6, 7); (7, 6);
    (5, 5); (5, 7); (7, 5); (7, 7) ].

(** [dr] and [dc] running over [-k .. k]. *)
Definition offsets (k : Z) : list Z := map (fun i => i - k) (zrange (2 * k + 1)).

(** Returning [a[i]] of a table: a hit is the move, a miss is [undefined]. *)
Definition ofPick (o : option (Z * Z)) : outcome :=
  match o with Some m => Move m | None => Undefined end.

Definition getOpening7x7 (g : t) (moveCount : Z) (rnd : nat) : outcome :=
  let center := 3 in
  if moveCount =? 0 then
    ofPick (pick rnd (strongOpenings7 ++ goodOpenings7))
  else if (moveCount =? 1) && (currentPlayer g =? PLAYER_BLUE) then
    match history g with
    | [] => Throw (* reading [row] of [undefined] *)
    | lastMove :: _ =>
      let row := m_row lastMove in
      let col := m_col lastMove in
      let near := filter (fun n => isValidMove g (fst n) (snd n)) (getNeighbors g row col) in
      let wide :=
        flat_map (fun dr =>
          flat_map (fun dc =>
            let nr := row + dr in
            let nc := col + dc in
            let distToCenter := Z.abs (nr - center) + Z.abs (nc - center) in
            if isValidMove g nr nc && (distToCenter <=? 2) then [(nr, nc)] else [])
            (offsets 2))
          (offsets 2) in
      let strongResponses := near ++ wide in
      if (0 <? Z.of_nat (length strongResponses))
      then ofPick (pick rnd strongResponses)
      else Null
    end
  else Null.

Definition getOpening11x11 (g : t) (moveCount : Z) (rnd : nat) : outcome :=
  if moveCount =? 0 then ofPick (pick rnd goodOpenings11) else Null.

Definition getOpening13x13 (g : t) (moveCount : Z) (rnd : nat) : outcome :=
  if moveCount =? 0 then ofPick (pick rnd goodOpenings13) else Null.

Definition getDefaultOpening (g : t) (rnd : nat) : outcome :=
  let center := size g / 2 in
  let offset := if size g / 6 =? 0 then 1 else size g / 6 in
  let candidates :=
    flat_map (fun dr =>
      flat_map (fun dc =>
        if (dr =? 0) && (dc =? 0) then []
        else
          let r := center + dr in
          let c := center + dc in
          if isValidMove g r c then [(r, c)] else [])
        (offsets offset))
      (offsets offset) in
  match pick rnd candidates with
  | Some m => Move m
  | None => Null (* [undefined || null] *)
  end.

Definition getOpeningMove (g : t) (rnd : nat) : outcome :=
  if moveCount g >? 4 then Null
  else if size g =? 7 then getOpening7x7 g (moveCount g) rnd
  else if size g =? 11 then getOpening11x11 g (moveCount g) rnd
  else if size g =? 13 then getOpening13x13 g (moveCount g) rnd
  else getDefaultOpening g rnd.

End HexOpeningBook.

(** ** Scores of the bounded search *)

(** JavaScript numbers as used by the search: the two infinities that seed
    the window, and finite values.  The evaluator's floating-point results
    are abstracted as rationals; this covers boards of four or more rows,
    where the evaluator is finite.  On smaller boards it returns NaN or an
    infinity ([EvaluatorKind.evaluatePosition] below), which this type does
    not represent: statements that depend on what the evaluator returns
    carry the hypothesis [3 < size]. *)
Inductive score : Type :=
| NegInf
| Fin (q : Q)
| PosInf.

Definition sneg (s : score) : score :=
  match s with NegInf => PosInf | Fin q => Fin (Qopp q) | PosInf => NegInf end.

(** [a > b] *)
Definition sgt (a b : score) : bool :=
  match a, b with
  | NegInf, _ => false
  | _, PosInf => false
  | Fin x, Fin y => match Qcompare x y with Gt => true | _ => false end
  | _, _ => true
  end.

(** [a >= b] *)
Definition sge (a b : score) : bool :=
  match a, b with
  | PosInf, _ => true
  | _, NegInf => true
  | Fin x, Fin y => match Qcompare x y with Lt => false | _ => true end
  | _, _ => false
  end.

(** [Math.max(a, b)] *)
Definition smax (a b : score) : score := if sgt b a then b else a.

(** ** HexHeuristicSearch: depth-limited search with a memo table *)

Module HexHeuristicSearch.
Import HexGame.

Section Search.

(** [HexEvaluator.evaluatePosition], a floating-point blend of four
    heuristics, is a parameter of the search: any function giving its
    finite value on the boards of four or more rows. *)
Variable evaluatePosition : HexGame.t -> Z -> Q.

Definition result : Type := score * option (Z * Z).

(** The memo key: board contents, side to move, search side, depth. *)
Definition key : Type := list Z * Z * Z * nat.

Definition getCacheKey (g : t) (depth : nat) (player : Z) : key :=
  (concat (board g), currentPlayer g, player, depth).

Definition key_eqb (a b : key) : bool :=
  let '(ba, ca, pa, da) := a in
  let '(bb, cb, pb, db) := b in
  (if list_eq_dec Z.eq_dec ba bb then true else false)
  && (ca =? cb) && (pa =? pb) && (da =? db)%nat.

(** The [Map]: the latest binding of a key is the first in the list. *)
Definition cache : Type := list (key * (nat * result)).

Fixpoint cacheGet (k : key) (c : cache) : option (nat * result) :=
  match c with
  | [] => None
  | (k', v) :: rest => if key_eqb k k' then Some v else cacheGet k rest
  end.

Definition cacheSet (k : key) (v : nat * result) (c : cache) : cache := (k, v) :: c.

Definition evaluate (g : t) (player : Z) : score :=
  if gameOver g then
    match winner g with
    | Some w =>
      if w =? player then Fin (1000 # 1)
      else if w =? other player then Fin (- (1000 # 1))
      else Fin 0
    | None => Fin 0
    end
  else
    let playerScore := evaluatePosition g player in
    let opponent := other player in
    let opponentScore := evaluatePosition g opponent in
    Fin ((playerScore - opponentScore) * (100 # 1)).

(** [scoredMoves.sort((a, b) => b.score - a.score)]: a stable sort, highest
    score first. *)
Fixpoint insertScored (x : (Z * Z) * Q) (l : list ((Z * Z) * Q)) : list ((Z * Z) * Q) :=
  match l with
  | [] => [x]
  | y :: rest =>
    match Qcompare (snd x) (snd y) with
    | Lt => y :: insertScored x rest
    | _ => x :: y :: rest
    end
  end.

Definition sortScored (l : list ((Z * Z) * Q)) : list ((Z * Z) * Q) :=
  fold_right insertScored [] l.

Definition orderMoves (g : t) (beamWidth : Z) : list (Z * Z) :=
  let moves := getValidMoves g in
  let scoredMoves :=
    map (fun m : Z * Z =>
           let tempGame :=
             Make (size g) (setCell (board g) (fst m) (snd m) (currentPlayer g))
                  (currentPlayer g) (moveCount g) (gameOver g) (winner g)
                  (swapAvailable g) (history g) in
           (m, evaluatePosition tempGame (currentPlayer g)))
        moves in
  let limited := firstn (Z.to_nat (Z.max beamWidth 1)) (sortScored scoredMoves) in
  map fst limited.

(** [negamax]; the memo table is threaded through the calls.  The recursion
    is on [depth], which the source decrements by one per ply. *)
Fixpoint negamax (depth : nat) (c : cache) (g : t) (alpha beta : score)
    (player : Z) (beamWidth : Z) {struct depth} : result * cache :=
  let cacheKey := getCacheKey g depth player in
  let leaf :=
    let r : result := (evaluate g player, None) in
    (r, cacheSet cacheKey (depth, r) c) in
  let hit :=
    match cacheGet cacheKey c with
    | Some (d, r) => if (depth <=? d)%nat then Some r else None
    | None => None
    end in
  match hit with
  | Some r => (r, c)
  | None =>
    match depth with
    | O => leaf
    | S d =>
      if gameOver g then leaf
      else
        match orderMoves g beamWidth with
        | [] => leaf
        | orderedMoves =>
          let '(bestScore, bestMove, c') :=
            (fix loop (moves : list (Z * Z)) (alpha : score) (bestScore : score)
                 (bestMove : option (Z * Z)) (c : cache)
               : score * option (Z * Z) * cache :=
               match moves with
               | [] => (bestScore, bestMove, c)
               | m :: rest =>
                 let child := snd (makeMove (copy g) (fst m) (snd m)) in
                 let (next, c1) := negamax d c child (sneg beta) (sneg alpha) player beamWidth in
                 let sc := sneg (fst next) in
                 let (bestScore', bestMove') :=
                   if sgt sc bestScore then (sc, Some m) else (bestScore, bestMove) in
                 let alpha' := smax alpha sc in
                 if sge alpha' beta then (bestScore', bestMove', c1)
                 else loop rest alpha' bestScore' bestMove' c1
               end) orderedMoves alpha NegInf None c in
          let r : result := (bestScore, bestMove) in
          (r, cacheSet cacheKey (depth, r) c')
        end
    end
  end.

(** [getBestMove(game, player, options)] on a fresh memo table. *)
Definition getBestMove (c : cache) (g : t) (player : Z) (maxDepth : nat) (beamWidth : Z)
  : option (Z * Z) * cache :=
  let (r, c') := negamax maxDepth c (copy g) NegInf PosInf player beamWidth in
  (snd r, c').

End Search.

End HexHeuristicSearch.


(** ** UnionFind: parent pointers in an [Int16Array] *)

Module UnionFind.

(** [new UnionFind(size)]: [parent[i] = i] for every index. *)
Definition create (n : Z) : list Z := map toInt16 (zrange n).

(** First loop of [find]: [while (root !== parent[root]) root = parent[root]].
    The fuel is never exhausted on a forest of the array's length (lemma
    [findRoot_reaches_root]). *)
Fixpoint findRoot (fuel : nat) (parent : list Z) (root : Z) : Z :=
  match fuel with
  | O => root
  | S f => if root =? zget parent root then root
           else findRoot f parent (zget parent root)
  end.

(** Second loop of [find]: path compression. *)
Fixpoint compress (fuel : nat) (parent : list Z) (curr root : Z) : list Z :=
  match fuel with
  | O => parent
  | S f => if curr =? root then parent
           else let next := zget parent curr in
                compress f (zset parent curr (toInt16 root)) next root
  end.

(** [find(i)]: the root, and the parent array after compression. *)
Definition find (parent : list Z) (i : Z) : Z * list Z :=
  let root := findRoot (length parent) parent i in
  (root, compress (length parent) parent i root).

Definition union (parent : list Z) (i j : Z) : list Z :=
  let (rootI, p1) := find parent i in
  let (rootJ, p2) := find p1 j in
  if negb (rootI =? rootJ) then zset p2 rootI (toInt16 rootJ) else p2.

End UnionFind.

(** ** FastHexGame: flat board with the connectivity tracker *)

Module FastHexGame.

Record t := Make {
  size : Z;
  board : list Z;            (* Int8Array *)
  emptyCells : list Z;
  movesHistory : list (Z * Z);   (* {id, player} *)
  currentPlayer : Z;
  uf : list Z;               (* UnionFind.parent, Int16Array *)
  groupStatus : list Z;      (* Uint8Array *)
  initialBoard : list Z;
  initialPlayer : Z;
  initialEmpty : list Z;
  initialGroupStatus : list Z;
  initialUF : list Z;
  initialFilledCount : Z;
  filledCount : Z
}.

Definition getNeighborsIdx (size idx : Z) : list Z :=
  let r := idx / size in
  let c := Z.rem idx size in
  flat_map (fun d : Z * Z =>
              let nr := r + fst d in
              let nc := c + snd d in
              if (nr >=? 0) && (nr <? size) && (nc >=? 0) && (nc <? size)
              then [nr * size + nc] else [])
           [ (-1, 0); (-1, 1); (0, -1); (0, 1); (1, -1); (1, 0) ].

(** Boundary bits of a stone: 1 top, 2 bottom (red); 4 left, 8 right (blue). *)
Definition cellStatus (size idx player : Z) : Z :=
  let r := idx / size in
  let c := Z.rem idx size in
  if player =? 1 then
    Z.lor (if r =? 0 then 1 else 0) (if r =? size - 1 then 2 else 0)
  else
    Z.lor (if c =? 0 then 4 else 0) (if c =? size - 1 then 8 else 0).

(** [initCell], on the parent array and the status array. *)
Definition initCell (size idx player : Z) (ps : list Z * list Z) : list Z * list Z :=
  let (p, gs) := ps in
  let status := cellStatus size idx player in
  let (root, p') := UnionFind.find p idx in
  (p', zset gs root (toUint8 (Z.lor (zget gs root) status))).

Definition unionGroups (i j : Z) (ps : list Z * list Z) : list Z * list Z :=
  let (p, gs) := ps in
  let (rootI, p1) := UnionFind.find p i in
  let (rootJ, p2) := UnionFind.find p1 j in
  if negb (rootI =? rootJ) then
    let status := Z.lor (zget gs rootI) (zget gs rootJ) in
    let p3 := UnionFind.union p2 rootI rootJ in
    let (newRoot, p4) := UnionFind.find p3 rootI in
    (p4, zset gs newRoot (toUint8 status))
  else (p2, gs).

(** [for (const n of ns) if (board[n] === v) unionGroups(idx, n)] *)
Definition unionNeighbors (size : Z) (board : list Z) (idx v : Z) (ps : list Z * list Z)
  : list Z * list Z :=
  fold_left (fun ps n => if zget board n =? v then unionGroups idx n ps else ps)
            (getNeighborsIdx size idx) ps.

(** The source game's grid in row-major order, as the copy loop of the
    constructor fills it. *)
Definition flatten (src : HexGame.t) : list Z :=
  flat_map (fun r => map (fun c => HexGame.cell (HexGame.board src) r c)
                         (zrange (HexGame.size src)))
           (zrange (HexGame.size src)).

(** [new FastHexGame(sourceGame)] *)
Definition create (src : HexGame.t) : t :=
  let n := HexGame.size src in
  let vals := flatten src in
  let board := map toInt8 vals in
  let cells := zrange (n * n) in
  let emptyCells := filter (fun i => zget vals i =? 0) cells in
  let ps0 := (UnionFind.create (n * n), repeat 0 (Z.to_nat (n * n))) in
  let ps1 := fold_left (fun ps i => if negb (zget board i =? 0)
                                    then initCell n i (zget board i) ps else ps)
                       cells ps0 in
  let ps2 := fold_left (fun ps i => if negb (zget board i =? 0)
                                    then unionNeighbors n board i (zget board i) ps else ps)
                       cells ps1 in
  let filled := n * n - Z.of_nat (length emptyCells) in
  Make n board emptyCells [] (HexGame.currentPlayer src) (fst ps2) (snd ps2)
       board (HexGame.currentPlayer src) emptyCells (snd ps2) (fst ps2)
       filled filled.

Definition reset (g : t) : t :=
  Make (size g) (initialBoard g) (initialEmpty g) [] (initialPlayer g)
       (initialUF g) (initialGroupStatus g)
       (initialBoard g) (initialPlayer g) (initialEmpty g)
       (initialGroupStatus g) (initialUF g) (initialFilledCount g)
       (initialFilledCount g).

(** [indexOf]: position of the first occurrence, [None] for -1. *)
Fixpoint indexOf (x : Z) (l : list Z) : option nat :=
  match l with
  | [] => None
  | y :: rest => if y =? x then Some O
                 else match indexOf x rest with Some k => Some (S k) | None => None end
  end.

(** Swap-with-last and pop. *)
Definition swapRemove (x : Z) (l : list Z) : list Z :=
  match indexOf x l with
  | Some k => removelast (upd k (last l 0) l)
  | None => l
  end.

(** The stone placement shared by [makeMove] and the playout: board write,
    history, empty list, tracker update, turn change. *)
Definition place (g : t) (idx : Z) (filled : Z) : t :=
  let cur := currentPlayer g in
  let board := zset (board g) idx (toInt8 cur) in
  let hist := movesHistory g ++ [(idx, cur)] in
  let empt := swapRemove idx (emptyCells g) in
  let ps := initCell (size g) idx cur (uf g, groupStatus g) in
  let ps' := unionNeighbors (size g) board idx cur ps in
  Make (size g) board empt hist (if cur =? 1 then 2 else 1) (fst ps') (snd ps')
       (initialBoard g) (initialPlayer g) (initialEmpty g)
       (initialGroupStatus g) (initialUF g) (initialFilledCount g) filled.

Definition makeMove (g : t) (r c : Z) : t :=
  place g (r * size g + c) (filledCount g + 1).

(** The scan of [checkWin]; [find] compresses paths, so the parent array
    is returned too. *)
Fixpoint checkWinScan (cells : list Z) (board gs : list Z) (mask player : Z) (p : list Z)
  : bool * list Z :=
  match cells with
  | [] => (false, p)
  | i :: rest =>
    if zget board i =? player then
      let (root, p') := UnionFind.find p i in
      if Z.land (zget gs root) mask =? mask then (true, p')
      else checkWinScan rest board gs mask player p'
    else checkWinScan rest board gs mask player p
  end.

Definition withUF (g : t) (p : list Z) : t :=
  Make (size g) (board g) (emptyCells g) (movesHistory g) (currentPlayer g) p
       (groupStatus g) (initialBoard g) (initialPlayer g) (initialEmpty g)
       (initialGroupStatus g) (initialUF g) (initialFilledCount g) (filledCount g).

Definition checkWin (g : t) (player : Z) : bool * t :=
  let winningMask := if player =? 1 then 3 else 12 in
  let (b, p) := checkWinScan (zrange (Z.of_nat (length (board g)))) (board g)
                             (groupStatus g) winningMask player (uf g) in
  (b, withUF g p).

Definition getWinner (g : t) : Z * t :=
  let (w1, g1) := checkWin g 1 in
  if w1 then (1, g1)
  else let (w2, g2) := checkWin g1 2 in
       if w2 then (2, g2) else (0, g2).

Definition isValidFirstMove (g : t) (idx : Z) : bool :=
  if negb (size g =? 7) then true
  else if negb (filledCount g =? 0) then true
  else let center := size g / 2 in
       let r := idx / size g in
       let c := Z.rem idx (size g) in
       negb ((r =? center) && (c =? center)).

Definition getValidMoves (g : t) : list (Z * Z) :=
  flat_map (fun i => if (zget (board g) i =? 0) && isValidFirstMove g i
                     then [(i / size g, Z.rem i (size g))] else [])
           (zrange (Z.of_nat (length (board g)))).

(** [getCommonEmptyNeighbor]: [None] for -1. *)
Definition getCommonEmptyNeighbor (g : t) (n1 n2 exclude : Z) : option Z :=
  find (fun n => negb (n =? exclude) && (zget (board g) n =? 0)
                 && existsb (Z.eqb n) (getNeighborsIdx (size g) n2))
       (getNeighborsIdx (size g) n1).

(** The double loop over pairs [i < j] of the mover's stones next to the
    last move, stopping at the first pair with a common empty neighbour. *)
Fixpoint bridgeSave (g : t) (oppIdx : Z) (myNeighbors : list Z) : option Z :=
  match myNeighbors with
  | [] => None
  | n1 :: rest =>
    match (fix inner (l : list Z) : option Z :=
             match l with
             | [] => None
             | n2 :: l' =>
               match getCommonEmptyNeighbor g n1 n2 oppIdx with
               | Some y => Some y
               | None => inner l'
               end
             end) rest with
    | Some y => Some y
    | None => bridgeSave g oppIdx rest
    end
  end.

(** A draw [Math.floor(Math.random() * emptyCells.length)] and the read
    [emptyCells[randIndex]]; the random draws are an explicit list. *)
Definition draw (u : nat) (empt : list Z) : Z :=
  zget empt (Z.of_nat (u mod length empt)).

(** [while (bestMoveIdx === centerIdx)] redraw; [None] when the supply of
    draws ends while the loop is still running. *)
Fixpoint retryCenter (rs : list nat) (empt : list Z) (centerIdx best : Z)
  : option (Z * list nat) :=
  match rs with
  | [] => if best =? centerIdx then None else Some (best, [])
  | u :: rs' => if best =? centerIdx then retryCenter rs' empt centerIdx (draw u empt)
                else Some (best, rs)
  end.

(** [playoutSmart]: the winner, the state after the playout and the unused
    draws; [None] when [fuel] iterations or the draws do not suffice. *)
Fixpoint playoutSmart (fuel : nat) (rs : list nat) (g : t) : option (Z * t * list nat) :=
  match fuel with
  | O => None
  | S f =>
    let (w1, g1) := checkWin g 1 in
    if w1 then Some (1, g1, rs)
    else
      let (w2, g2) := checkWin g1 2 in
      if w2 then Some (2, g2, rs)
      else if Z.of_nat (length (emptyCells g2)) =? 0 then Some (0, g2, rs)
      else
        let saved :=
          match rev (movesHistory g2) with
          | [] => None
          | (oppIdx, _) :: _ =>
            let myPlayer := currentPlayer g2 in
            let neighbors := getNeighborsIdx (size g2) oppIdx in
            let myNeighbors := filter (fun n => zget (board g2) n =? myPlayer) neighbors in
            bridgeSave g2 oppIdx myNeighbors
          end in
        let chosen :=
          match saved with
          | Some y => Some (y, rs)
          | None =>
            match rs with
            | [] => None
            | u :: rs' =>
              let best := draw u (emptyCells g2) in
              if (size g2 =? 7) && (filledCount g2 =? 0) then
                let centerIdx := (size g2 / 2) * size g2 + size g2 / 2 in
                retryCenter rs' (emptyCells g2) centerIdx best
              else Some (best, rs')
            end
          end in
        match chosen with
        | None => None
        | Some (idx, rs'') => playoutSmart f rs'' (place g2 idx (filledCount g2))
        end
  end.

(** The calls a search makes on a game between two resets. *)
Inductive op : Type :=
| OpMove (r c : Z)
| OpPlayout (fuel : nat) (rs : list nat).

Fixpoint run (ops : list op) (g : t) : option t :=
  match ops with
  | [] => Some g
  | OpMove r c :: rest => run rest (makeMove g r c)
  | OpPlayout fuel rs :: rest =>
    match playoutSmart fuel rs g with
    | Some (_, g', _) => run rest g'
    | None => None
    end
  end.

End FastHexGame.


(** ** MCTS: the search tree with RAVE statistics *)

Module MCTS.
Import HexGame.

(** An entry of [playedMoves]: the move and the recorded [player]. *)
Record playedMove := Played { p_move : Z * Z; p_player : Z }.

(** [{ winner, playedMoves }] *)
Definition simResult : Type := option Z * list playedMove.

(** A tree node.  Nodes live in an arena (a list) and refer to each other
    by index: [parent] and [children] are the object references of the
    source; the root is node 0 and [expand] appends the node it creates. *)
Record node := Node {
  game : HexGame.t;
  aiPlayer : Z;
  move : option (Z * Z);
  parent : option nat;
  children : list nat;
  wins : Z;
  visits : Z;
  raveWins : Z;
  raveVisits : Z;
  untriedMoves : list (Z * Z)
}.

Definition tree : Type := list node.

(** [winner === this.aiPlayer] *)
Definition isAI (n : node) (winner : option Z) : bool :=
  match winner with Some w => w =? aiPlayer n | None => false end.

(** [this.visits++; if (winner === this.aiPlayer) this.wins++] *)
Definition bump (winner : option Z) (n : node) : node :=
  Node (game n) (aiPlayer n) (move n) (parent n) (children n)
       (if isAI n winner then wins n + 1 else wins n) (visits n + 1)
       (raveWins n) (raveVisits n) (untriedMoves n).

(** The test of the inner loop of [backpropagate], for one played move. *)
Definition matchesPlayed (this child : node) (pm : playedMove) : bool :=
  match move child with
  | Some m =>
    (fst m =? fst (p_move pm)) && (snd m =? snd (p_move pm))
    && (p_player pm =? currentPlayer (game this))
  | None => false
  end.

(** The body of [for (const child of this.parent.children)]: the first
    played move that matches credits the child once. *)
Definition raveBump (this : node) (res : simResult) (child : node) : node :=
  if existsb (matchesPlayed this child) (snd res) then
    Node (game child) (aiPlayer child) (move child) (parent child) (children child)
         (wins child) (visits child)
         (if isAI this (fst res) then raveWins child + 1 else raveWins child)
         (raveVisits child + 1) (untriedMoves child)
  else child.

Definition raveSiblings (this : node) (res : simResult) (siblings : list nat) (t : tree) : tree :=
  fold_left (fun t c => match nth_error t c with
                        | Some cn => upd c (raveBump this res cn) t
                        | None => t
                        end)
            siblings t.

(** [backpropagate(result)] called on node [i]; the recursion climbs the
    parent references, and [fuel] bounds the number of levels. *)
Fixpoint backpropagateFrom (fuel : nat) (t : tree) (i : nat) (res : simResult) : tree :=
  match fuel with
  | O => t
  | S f =>
    match nth_error t i with
    | None => t
    | Some n =>
      let t1 := upd i (bump (fst res) n) t in
      match parent n with
      | None => t1
      | Some p =>
        match nth_error t1 p with
        | None => t1
        | Some pn => backpropagateFrom f (raveSiblings n res (children pn) t1) p res
        end
      end
    end
  end.

(** A parent is created before its children, so node [i] has at most [i]
    ancestors. *)
Definition backpropagate (t : tree) (i : nat) (res : simResult) : tree :=
  backpropagateFrom (S i) t i res.

(** [simulate()] on an explicit list of selected moves: the loop of the
    source with the choice of [selectedMove] taken from [choices]; [None]
    when the list ends before the game does.  Every run of the source's
    loop is a run of this function on the moves it selected (lemma
    [simulateLoop_choices]), so what holds for every list holds for the
    code; the policy that selects the moves is [MCTSNode.simulateLoop]. *)
Fixpoint simulateFrom (choices : list (Z * Z)) (simGame : HexGame.t)
    (playedMoves : list playedMove) : option simResult :=
  if gameOver simGame then Some (winner simGame, playedMoves)
  else
    match getValidMoves simGame with
    | [] => Some (winner simGame, playedMoves)
    | _ =>
      match choices with
      | [] => None
      | selectedMove :: rest =>
        let g' := snd (makeMove simGame (fst selectedMove) (snd selectedMove)) in
        simulateFrom rest g' (playedMoves ++ [Played selectedMove (currentPlayer g')])
      end
    end.

Definition simulate (choices : list (Z * Z)) (n : node) : option simResult :=
  simulateFrom choices (copy (game n)) [].

End MCTS.


(** ** Test positions built by the strategies *)

(** [testGame = game.copy(); testGame.board[r][c] = v] *)
Definition withStone (g : HexGame.t) (m : Z * Z) (v : Z) : HexGame.t :=
  HexGame.Make (HexGame.size g) (HexGame.setCell (HexGame.board g) (fst m) (snd m) v)
               (HexGame.currentPlayer g) (HexGame.moveCount g) (HexGame.gameOver g)
               (HexGame.winner g) (HexGame.swapAvailable g) (HexGame.history g).

(** [testGame.makeMove(m); testGame.gameOver && testGame.winner === player] *)
Definition winsAtOnce (g : HexGame.t) (m : Z * Z) : bool :=
  let testGame := snd (HexGame.makeMove (HexGame.copy g) (fst m) (snd m)) in
  HexGame.gameOver testGame &&
  match HexGame.winner testGame with
  | Some w => w =? HexGame.currentPlayer g
  | None => false
  end.

(** [testGame.board[m] = opponent; testGame.checkWin(opponent)] *)
Definition threatens (g : HexGame.t) (opponent : Z) (m : Z * Z) : bool :=
  HexGame.checkWin (withStone g m opponent) opponent.

(** ** RandomAI *)

Module RandomAI.
Import HexGame.

Definition ofMove (o : option (Z * Z)) : outcome :=
  match o with Some m => Move m | None => Undefined end.

Definition getMove (smartMode : bool) (rnd : nat) (boardState : t) : outcome :=
  let validMoves := getValidMoves boardState in
  if (Z.of_nat (length validMoves) =? 0) then Null
  else
    let plain := ofMove (pick rnd validMoves) in
    if smartMode then
      match find (winsAtOnce boardState) validMoves with
      | Some m => Move m
      | None =>
        let opponent := other (currentPlayer boardState) in
        let blockingMoves := filter (threatens boardState opponent) validMoves in
        if 0 <? Z.of_nat (length blockingMoves) then ofMove (pick rnd blockingMoves)
        else if (size boardState =? 7) && (moveCount boardState =? 0) then
          let center := size boardState / 2 in
          let filteredMoves :=
            filter (fun m => negb ((fst m =? center) && (snd m =? center))) validMoves in
          if 0 <? Z.of_nat (length filteredMoves) then ofMove (pick rnd filteredMoves)
          else plain
        else plain
      end
    else plain.

End RandomAI.

(** ** HeuristicAI *)

Module HeuristicAI.
Import HexGame.

Definition findCriticalMove (g : t) : option (Z * Z) :=
  let moves := getValidMoves g in
  match find (winsAtOnce g) moves with
  | Some m => Some m
  | None =>
    let opponent := other (currentPlayer g) in
    match filter (threatens g opponent) moves with
    | [m] => Some m
    | _ => None
    end
  end.

Section Search.
Variable evaluatePosition : HexGame.t -> Z -> Q.

(** [getMove]; the class carries its own copy of [negamax], [evaluate] and
    [orderMoves], the same as those of [HexHeuristicSearch] when the
    evaluator is loaded. *)
Definition getMove (c : HexHeuristicSearch.cache) (maxDepth : nat) (beamWidth : Z)
    (aiPlayer : Z) (boardState : t) : outcome :=
  match findCriticalMove boardState with
  | Some m => Move m
  | None =>
    match snd (fst (HexHeuristicSearch.negamax evaluatePosition maxDepth c (copy boardState)
                      NegInf PosInf aiPlayer beamWidth)) with
    | Some m => Move m
    | None => Null
    end
  end.

End Search.

End HeuristicAI.

(** ** MCTSAI *)

Module MCTSAI.
Import HexGame MCTS.

Inductive label : Type := Easy | Medium | Hard.

Definition isHard (l : label) : bool := match l with Hard => true | _ => false end.
Definition isMedium (l : label) : bool := match l with Medium => true | _ => false end.

Definition shouldUseHeuristicSearch (difficultyLabel : label) (g : t) : bool :=
  let smallBoard := size g <=? 7 in
  let mediumBoard := size g <=? 11 in
  let remaining := Z.of_nat (length (getValidMoves g)) in
  let hardMode := isHard difficultyLabel in
  let mediumMode := isMedium difficultyLabel in
  if remaining <=? 15 then true
  else if smallBoard && (remaining <=? 25) then true
  else if mediumBoard && (mediumMode || hardMode) && (remaining <=? 35) then true
  else if hardMode && (remaining <=? 40) then true
  else false.

(** [{ maxDepth, beamWidth }] *)
Definition getHeuristicConfig (difficultyLabel : label) (g : t) : nat * Z :=
  let remaining := Z.of_nat (length (getValidMoves g)) in
  let hardMode := isHard difficultyLabel in
  if size g <=? 7 then
    if remaining >? 30 then ((if hardMode then 5 else 4)%nat, 12)
    else if remaining >? 20 then ((if hardMode then 6 else 5)%nat, 10)
    else if remaining >? 10 then ((if hardMode then 8 else 6)%nat, 8)
    else ((if hardMode then 10 else 8)%nat, 6)
  else if size g <=? 11 then
    if remaining <=? 15 then ((if hardMode then 7 else 5)%nat, 7)
    else if remaining <=? 25 then ((if hardMode then 5 else 4)%nat, 8)
    else (4%nat, 10)
  else
    if remaining <=? 12 then ((if hardMode then 6 else 5)%nat, 6)
    else (4%nat, 8).

(** The first move after which [player] has at least two winning replies. *)
Definition findTwoMoveWin (g : t) (player : Z) : option (Z * Z) :=
  find (fun move1 =>
          let testGame1 := withStone g move1 player in
          let winningFollowUps :=
            filter (fun move2 => checkWin (withStone testGame1 move2 player) player)
                   (getValidMoves testGame1) in
          2 <=? Z.of_nat (length winningFollowUps))
       (getValidMoves g).

(** [{stone1, stone2, bridge1, bridge2}] *)
Definition bridgePatterns : list ((Z * Z) * (Z * Z) * (Z * Z) * (Z * Z)) :=
  [ ((-1, -1), (1, 1), (0, -1), (1, 0));
    ((-1, 0), (1, -1), (0, -1), (-1, -1));
    ((-1, 1), (0, -1), (-1, 0), (0, 0));
    ((0, 1), (1, -1), (1, 0), (0, 0));
    ((1, 0), (-1, 1), (0, 1), (0, 0));
    ((0, -1), (-1, 1), (-1, 0), (0, 0)) ].

Definition findVirtualConnectionThreat (g : t) : option (Z * Z) :=
  let opponent := other (currentPlayer g) in
  find (fun mv : Z * Z =>
          let (row, col) := mv in
          let inb (p : Z * Z) :=
            (fst p >=? 0) && (fst p <? size g) && (snd p >=? 0) && (snd p <? size g) in
          let shifted (d : Z * Z) := (row + fst d, col + snd d) in
          let bridgeThreats :=
            filter (fun pat : (Z * Z) * (Z * Z) * (Z * Z) * (Z * Z) =>
                      let '(stone1, stone2, bridge1, bridge2) := pat in
                      let s1 := shifted stone1 in
                      let s2 := shifted stone2 in
                      let b1 := shifted bridge1 in
                      let b2 := shifted bridge2 in
                      inb s1 && inb s2 && inb b1 && inb b2
                      && (cell (board g) (fst s1) (snd s1) =? opponent)
                      && (cell (board g) (fst s2) (snd s2) =? opponent)
                      && (cell (board g) (fst b1) (snd b1) =? EMPTY)
                      && (cell (board g) (fst b2) (snd b2) =? EMPTY))
                   bridgePatterns in
          2 <=? Z.of_nat (length bridgeThreats))
       (getValidMoves g).

Definition firstSome {A : Type} (a b : option A) : option A :=
  match a with Some x => Some x | None => b end.

Definition findCriticalMove (g : t) : option (Z * Z) :=
  let opponent := other (currentPlayer g) in
  let moves := getValidMoves g in
  match find (winsAtOnce g) moves with
  | Some m => Some m
  | None =>
    match filter (threatens g opponent) moves with
    | m :: _ => Some m
    | [] =>
      let small := Z.of_nat (length moves) <=? 20 in
      firstSome (if small then findTwoMoveWin g (currentPlayer g) else None)
        (firstSome (if small then findTwoMoveWin g opponent else None)
           (findVirtualConnectionThreat g))
    end
  end.

Section Search.

(** The floating-point parts of the search are parameters: the position
    evaluator, the score [prioritizeMoves] sorts by, the comparison
    [ucb1Rave > bestUcb1Rave] of [selectChild], the products and quotients
    of the final selection, and the moves the playout policy selects in
    each iteration. *)
Variable evaluatePosition : HexGame.t -> Z -> Q.
Variable moveScore : HexGame.t -> Z * Z -> Q.
Variable better : node -> node -> node -> bool.
Variable timesF : Z -> Q -> Q.
Variable winRate : Z -> Z -> Q.
Variable playout : nat -> HexGame.t -> list (Z * Z).

Definition prioritizeMoves (g : t) (moves : list (Z * Z)) : list (Z * Z) :=
  map fst (HexHeuristicSearch.sortScored (map (fun m => (m, moveScore g m)) moves)).

(** [new MCTSNode(game, aiPlayer, move, parent)] *)
Definition newNode (g : t) (ai : Z) (mv : option (Z * Z)) (par : option nat) : node :=
  Node g ai mv par [] 0 0 0 0 (prioritizeMoves g (getValidMoves g)).

Definition isFullyExpanded (n : node) : bool := (Z.of_nat (length (untriedMoves n)) =? 0).
Definition isTerminal (n : node) : bool := gameOver (game n).

(** [this.children.reduce(...)] without an initial value: [None] stands for
    the [TypeError] raised on an empty array. *)
Definition selectChild (t : tree) (n : node) : option nat :=
  match children n with
  | [] => None
  | c0 :: rest =>
    Some (fold_left (fun best c =>
                       match nth_error t c, nth_error t best with
                       | Some cn, Some bn => if better n cn bn then c else best
                       | _, _ => best
                       end)
                    rest c0)
  end.

(** The selection loop; the outer [option] is the model's fuel, the inner
    one the [TypeError] of [selectChild]. *)
Fixpoint selectLoop (fuel : nat) (t : tree) (i : nat) : option (option nat) :=
  match nth_error t i with
  | None => Some None
  | Some n =>
    if isFullyExpanded n && negb (isTerminal n) then
      match fuel with
      | O => None
      | S f =>
        match selectChild t n with
        | None => Some None
        | Some c => selectLoop f t c
        end
      end
    else Some (Some i)
  end.

(** [expand()]: the new child is appended to the arena. *)
Definition expand (t : tree) (i : nat) : tree * nat :=
  match nth_error t i with
  | Some n =>
    match untriedMoves n with
    | mv :: rest =>
      let newGame := snd (makeMove (copy (game n)) (fst mv) (snd mv)) in
      let childNode := newNode newGame (aiPlayer n) (Some mv) (Some i) in
      let c := length t in
      let n' := Node (game n) (aiPlayer n) (move n) (parent n) (children n ++ [c])
                     (wins n) (visits n) (raveWins n) (raveVisits n) rest in
      (upd i n' t ++ [childNode], c)
    | [] => (t, i)
    end
  | None => (t, i)
  end.

(** One pass of the simulation loop of [getBestMove]. *)
Definition iteration (progressiveWidening : bool) (i : nat) (t : tree) : option (option tree) :=
  match selectLoop (length t) t O with
  | None => None
  | Some None => Some None
  | Some (Some sel) =>
    match nth_error t sel with
    | None => Some None
    | Some n =>
      let (t1, at1) :=
        if negb (isTerminal n) && (0 <? Z.of_nat (length (untriedMoves n))) then
          if negb progressiveWidening || (Nat.modulo i 50 =? 0)%nat then expand t sel
          else (t, sel)
        else (t, sel) in
      match nth_error t1 at1 with
      | None => Some None
      | Some n1 =>
        match simulate (playout i (game n1)) n1 with
        | None => None
        | Some result => Some (Some (backpropagate t1 at1 result))
        end
      end
    end
  end.

Fixpoint iterations (progressiveWidening : bool) (todo : nat) (i : nat) (t : tree)
  : option (option tree) :=
  match todo with
  | O => Some (Some t)
  | S k =>
    match iteration progressiveWidening i t with
    | None => None
    | Some None => Some None
    | Some (Some t') => iterations progressiveWidening k (S i) t'
    end
  end.

(** The robust-child selection that ends [getBestMove]. *)
Definition robustChild (t : tree) (first : node) (cs : list nat) : node :=
  let '(bestChild, _, _) :=
    fold_left (fun (acc : node * Z * Q) (c : nat) =>
                 let '(bestChild, maxVisits, bestWinRate) := acc in
                 match nth_error t c with
                 | None => acc
                 | Some child =>
                   let childWinRate := winRate (wins child) (Z.max (visits child) 1) in
                   let take := (child, visits child, childWinRate) in
                   if sgt (Fin (inject_Z (visits child))) (Fin (timesF maxVisits (115 # 100)))
                   then take
                   else if sge (Fin (inject_Z (visits child))) (Fin (timesF maxVisits (85 # 100)))
                   then
                     if (visits child >? maxVisits)
                        || (sge (Fin (inject_Z (visits child))) (Fin (timesF maxVisits (95 # 100)))
                            && sgt (Fin childWinRate) (Fin bestWinRate))
                     then take else acc
                   else acc
                 end)
              cs (first, visits first, winRate (wins first) (Z.max (visits first) 1)) in
  bestChild.

(** [getBestMove(game)].  The outer [option] is [None] when the model's
    fuel (selection depth, playout moves) runs out; [Some] carries what the
    JavaScript call produces. *)
Definition getBestMove (c : HexHeuristicSearch.cache) (difficultyLabel : label)
    (simulations : nat) (aiPlayer : Z) (rnd : nat) (g : t) : option outcome :=
  match HexOpeningBook.getOpeningMove g rnd with
  | Move m => Some (Move m)
  | Throw => Some Throw
  | _ =>
    match findCriticalMove g with
    | Some m => Some (Move m)
    | None =>
      let heuristicMove :=
        if shouldUseHeuristicSearch difficultyLabel g then
          let (maxDepth, beamWidth) := getHeuristicConfig difficultyLabel g in
          fst (HexHeuristicSearch.getBestMove evaluatePosition c g aiPlayer maxDepth beamWidth)
        else None in
      match heuristicMove with
      | Some m => Some (Move m)
      | None =>
        let root := newNode (copy g) aiPlayer None None in
        let progressiveWidening := size g >? 11 in
        match iterations progressiveWidening simulations O [root] with
        | None => None
        | Some None => Some Throw
        | Some (Some t) =>
          match nth_error t O with
          | None => Some Throw
          | Some rootNode =>
            match children rootNode with
            | [] => Some Throw (* [root.children[0]] is [undefined] *)
            | c0 :: _ =>
              match nth_error t c0 with
              | None => Some Throw
              | Some first =>
                match move (robustChild t first (children rootNode)) with
                | Some m => Some (Move m)
                | None => Some Null
                end
              end
            end
          end
        end
      end
    end
  end.

End Search.

End MCTSAI.


(** ** Vocabulary of the statements *)

(** What the recolouring of [swapSides] does to one cell. *)
Definition swapColor (v : Z) : Z :=
  if v =? PLAYER_RED then PLAYER_BLUE else if v =? PLAYER_BLUE then PLAYER_RED else v.

(** A grid of [n] rows of [n] cells. *)
Definition shaped (n : Z) (b : list (list Z)) : Prop :=
  length b = Z.to_nat n /\ forall k, (k < Z.to_nat n)%nat -> length (nth k b []) = Z.to_nat n.

(** Number of stones on a grid; the board-state invariant of the data model
    is [moveCount = stoneCount board]. *)
Definition stoneCount (b : list (list Z)) : Z :=
  Z.of_nat (length (filter (fun v => negb (v =? EMPTY)) (concat b))).

Definition moveCountInvariant (g : HexGame.t) : Prop :=
  HexGame.moveCount g = stoneCount (HexGame.board g).

(** The legal moves of a position: the empty cells that [isValidMove] accepts. *)
Definition legalMoves (g : HexGame.t) : list (Z * Z) :=
  filter (fun m => HexGame.isValidMove g (fst m) (snd m)) (HexGame.getValidMoves g).

(** Exact minimax, as the specification words it: the game-theoretic value
    of a position for the searching side, +1000 for a win of that side and
    -1000 for a win of its opponent, the searching side maximising and its
    opponent minimising over all legal moves.  [fuel] bounds the number of
    plies still to be played. *)
Fixpoint minimaxValue (fuel : nat) (g : HexGame.t) (player : Z) : Z :=
  if HexGame.gameOver g then
    match HexGame.winner g with
    | Some w => if w =? player then 1000 else -1000
    | None => 0
    end
  else
    match fuel with
    | O => 0
    | S f =>
      match map (fun m => minimaxValue f (snd (HexGame.makeMove g (fst m) (snd m))) player)
                (legalMoves g) with
      | [] => 0
      | v :: vs =>
        if HexGame.currentPlayer g =? player
        then fold_left Z.max vs v
        else fold_left Z.min vs v
      end
    end.

(** Positions used in the statements below. *)

(** A 3x3 game after red (0,1), blue (1,0), red (2,1). *)
Definition bridgeGame : HexGame.t :=
  snd (HexGame.makeMove (snd (HexGame.makeMove (snd (HexGame.makeMove (HexGame.create 3) 0 1)) 1 0)) 2 1).

(** A 2x2 game after red (1,0), blue (0,1), red (1,1): blue is to move and
    wins by playing the last empty cell (0,0). *)
Definition lastCellGame : HexGame.t :=
  snd (HexGame.makeMove (snd (HexGame.makeMove (snd (HexGame.makeMove (HexGame.create 2) 1 0)) 0 1)) 1 1).

(** The decided game that follows: blue has connected left to right. *)
Definition blueWonGame : HexGame.t := snd (HexGame.makeMove lastCellGame 0 0).

(** ** Union-find forests *)

(** [rootOfN p i r n]: following parent pointers from [i] reaches the root
    [r] (a fixed point of [p]) in [n] steps, all inside the array. *)
Inductive rootOfN (p : list Z) : Z -> Z -> nat -> Prop :=
| rootOfN_here r :
    0 <= r < Z.of_nat (length p) -> zget p r = r -> rootOfN p r r O
| rootOfN_step i r n :
    0 <= i < Z.of_nat (length p) -> zget p i <> i ->
    rootOfN p (zget p i) r n -> rootOfN p i r (S n).

Definition rootOf (p : list Z) (i r : Z) : Prop := exists n, rootOfN p i r n.

(** Every index leads to a root: the parent array is a forest. *)
Definition forest (p : list Z) : Prop :=
  forall i, 0 <= i < Z.of_nat (length p) -> exists r, rootOf p i r.

(** Two indices in the same set. *)
Definition sameSet (p : list Z) (x y : Z) : Prop :=
  exists r, rootOf p x r /\ rootOf p y r.

(** Two parent arrays describing the same partition with the same roots. *)
Definition sameRoots (p p' : list Z) : Prop :=
  length p' = length p /\ forall x r, rootOf p x r <-> rootOf p' x r.

(** ** Connectivity on the flat board *)

(** Hex adjacency on flat indices, as [getNeighborsIdx] enumerates it. *)
Definition adjF (n i j : Z) : Prop := In j (FastHexGame.getNeighborsIdx n i).

(** Two adjacent stones of one colour. *)
Definition edgeF (n : Z) (b : list Z) (i j : Z) : Prop :=
  0 <= i < n * n /\ adjF n i j /\ zget b i = zget b j /\ zget b i <> 0.

(** Joined by a chain of adjacent stones of one colour. *)
Definition connF (n : Z) (b : list Z) : Z -> Z -> Prop :=
  clos_refl_trans Z (edgeF n b).

(** What the tracker maintains at all times: the arrays have the board's
    size, the parent array is a forest, two cells of one set are joined on
    the board, and the status of a root collects the boundary bits of the
    stones of its set. *)
Record tracked (n : Z) (b p gs : list Z) : Prop := Tracked {
  tr_size : 0 < n;
  tr_fit : n * n <= 32768;
  tr_board : Z.of_nat (length b) = n * n;
  tr_parent : Z.of_nat (length p) = n * n;
  tr_status : Z.of_nat (length gs) = n * n;
  tr_colors : forall i, 0 <= i < n * n -> 0 <= zget b i <= 2;
  tr_forest : forest p;
  tr_sound : forall x y, sameSet p x y -> connF n b x y;
  tr_small : forall i, 0 <= i < n * n -> 0 <= zget gs i < 16;
  tr_bits : forall r k, rootOf p r r -> 0 <= k ->
      (Z.testbit (zget gs r) k = true <->
       exists x, rootOf p x r /\ zget b x <> 0 /\
                 Z.testbit (FastHexGame.cellStatus n x (zget b x)) k = true)
}.

(** Between moves, adjacent stones of one colour are also in one set. *)
Definition complete (n : Z) (b p : list Z) : Prop :=
  forall x y, edgeF n b x y -> sameSet p x y.

(** The first [k] cells of a board, the others still empty: the board as
    the constructor's first pass has seen it after [k] steps. *)
Definition masked (b : list Z) (k : nat) : list Z :=
  firstn k b ++ repeat 0 (length b - k).

(** The tracker of a game is in step with its board. *)
Definition inStep (g : FastHexGame.t) : Prop :=
  tracked (FastHexGame.size g) (FastHexGame.board g) (FastHexGame.uf g)
          (FastHexGame.groupStatus g) /\
  complete (FastHexGame.size g) (FastHexGame.board g) (FastHexGame.uf g) /\
  (FastHexGame.currentPlayer g = 1 \/ FastHexGame.currentPlayer g = 2).

(** The six neighbour offsets. *)
Definition hexOffsets : list (Z * Z) :=
  [ (-1, 0); (-1, 1); (0, -1); (0, 1); (1, -1); (1, 0) ].

(** A cell on the edge a side starts from, and on the edge it must reach:
    top and bottom rows for red (1), left and right columns for blue. *)
Definition onStart (n pl x : Z) : Prop :=
  0 <= x < n * n /\ (if pl =? 1 then x / n = 0 else Z.rem x n = 0).
Definition onFar (n pl y : Z) : Prop :=
  0 <= y < n * n /\ (if pl =? 1 then y / n = n - 1 else Z.rem y n = n - 1).

(** A side has connected its two edges on the flat board. *)
Definition linked (n : Z) (b : list Z) (pl : Z) : Prop :=
  exists x y, zget b x = pl /\ onStart n pl x /\ onFar n pl y /\ connF n b x y.

(** ** Reachability on the grid *)

(** One step of the reference scan: to a neighbour holding the side's stone. *)
Definition stepP (g : HexGame.t) (pl : Z) (x y : Z * Z) : Prop :=
  In y (HexGame.getNeighbors g (fst x) (snd x)) /\
  HexGame.cell (HexGame.board g) (fst y) (snd y) = pl.

Definition reachP (g : HexGame.t) (pl : Z) : Z * Z -> Z * Z -> Prop :=
  clos_refl_trans (Z * Z) (stepP g pl).

Definition vshaped (n : Z) (v : list (list bool)) : Prop :=
  length v = Z.to_nat n /\ forall k, (k < Z.to_nat n)%nat -> length (nth k v []) = Z.to_nat n.

(** The state of the breadth-first scan: [seen] lists the cells marked so
    far in the order they were marked (the dequeued ones, then the queue). *)
Record scanState (g : HexGame.t) (pl : Z) (seedP : Z * Z -> Prop)
    (visited : list (list bool)) (seen : list (Z * Z)) : Prop := ScanState {
  ss_seen : forall y, In y seen ->
      HexGame.inBounds (HexGame.size g) (fst y) (snd y) = true /\
      HexGame.cell (HexGame.board g) (fst y) (snd y) = pl /\
      exists s, seedP s /\ reachP g pl s y;
  ss_visited : forall r c, HexGame.inBounds (HexGame.size g) r c = true ->
      (HexGame.vcell visited r c = true <-> In (r, c) seen);
  ss_nodup : NoDup seen;
  ss_shape : vshaped (HexGame.size g) visited
}.

(** The side has a chain from a seed cell to a goal cell. *)
Definition chained (g : HexGame.t) (pl : Z) (seedP : Z * Z -> Prop)
    (goal : Z -> Z -> bool) : Prop :=
  exists s t, seedP s /\ reachP g pl s t /\ goal (fst t) (snd t) = true.

(** ** Replaying moves through the tracker *)

(** Every move of the sequence is played on an empty cell of the board. *)
Fixpoint playable (g : FastHexGame.t) (moves : list (Z * Z)) : Prop :=
  match moves with
  | [] => True
  | (r, c) :: rest =>
    0 <= r < FastHexGame.size g /\ 0 <= c < FastHexGame.size g /\
    zget (FastHexGame.board g) (r * FastHexGame.size g + c) = 0 /\
    playable (FastHexGame.makeMove g r c) rest
  end.

Definition replay (g : FastHexGame.t) (moves : list (Z * Z)) : FastHexGame.t :=
  fold_left (fun g m => FastHexGame.makeMove g (fst m) (snd m)) moves g.

(** A reference game showing the same grid as the flat board. *)
Definition sameGrid (g : HexGame.t) (fg : FastHexGame.t) : Prop :=
  HexGame.wf g /\ HexGame.size g = FastHexGame.size fg /\
  FastHexGame.flatten g = FastHexGame.board fg.

(** A 3x3 position with a red stone on (0,0), and the grid after red (1,0),
    blue (1,1), red (2,0): red has joined top and bottom. *)
Definition trackedStart : HexGame.t :=
  HexGame.Make 3 [[1; 0; 0]; [0; 0; 0]; [0; 0; 2]] 1 2 false None false
               [HexGame.MoveEntry 0 0 1; HexGame.MoveEntry 2 2 2].

Definition trackedEnd : HexGame.t :=
  HexGame.Make 3 [[1; 0; 0]; [1; 2; 0]; [1; 0; 2]] 1 5 true (Some 1) false
               [HexGame.MoveEntry 0 0 1; HexGame.MoveEntry 2 2 2; HexGame.MoveEntry 1 0 1;
                HexGame.MoveEntry 1 1 2; HexGame.MoveEntry 2 0 1].

(** ** Reset *)

(** The part of a game that [reset] reads. *)
Definition snapshot (g : FastHexGame.t) : Z * list Z * Z * list Z * list Z * list Z * Z :=
  (FastHexGame.size g, FastHexGame.initialBoard g, FastHexGame.initialPlayer g,
   FastHexGame.initialEmpty g, FastHexGame.initialGroupStatus g,
   FastHexGame.initialUF g, FastHexGame.initialFilledCount g).

(** Every [makeMove] of the sequence names a cell of the board. *)
Definition opInBounds (n : Z) (o : FastHexGame.op) : Prop :=
  match o with
  | FastHexGame.OpMove r c => 0 <= r < n /\ 0 <= c < n
  | FastHexGame.OpPlayout _ _ => True
  end.

(** A move on the centre of an empty 3x3 board followed by a playout. *)
Definition resetOps : list FastHexGame.op :=
  [ FastHexGame.OpMove 1 1;
    FastHexGame.OpPlayout 20 [3; 1; 4; 1; 5; 9; 2; 6]%nat ].

(** ** Search trees and simulated episodes *)

(** The references of a tree are consistent: a parent is older than its
    child and lists it among its children; children are listed once and
    point back to their parent. *)
Definition wfTree (t : MCTS.tree) : Prop :=
  forall i n, nth_error t i = Some n ->
    (forall p, MCTS.parent n = Some p ->
       (p < i)%nat /\ exists pn, nth_error t p = Some pn /\ In i (MCTS.children pn)) /\
    NoDup (MCTS.children n) /\
    (forall c, In c (MCTS.children n) ->
       exists cn, nth_error t c = Some cn /\ MCTS.parent cn = Some i).

(** Every child was created by [expand] playing a legal move on a position
    that was not decided, and red or blue is to move everywhere. *)
Definition grownByExpand (t : MCTS.tree) : Prop :=
  forall c nc, nth_error t c = Some nc ->
    (HexGame.currentPlayer (MCTS.game nc) = PLAYER_RED \/
     HexGame.currentPlayer (MCTS.game nc) = PLAYER_BLUE) /\
    forall p np, MCTS.parent nc = Some p -> nth_error t p = Some np ->
      HexGame.gameOver (MCTS.game np) = false /\
      exists m, MCTS.move nc = Some m /\
        HexGame.makeMove (HexGame.copy (MCTS.game np)) (fst m) (snd m) = (true, MCTS.game nc).

(** [onPath t i a]: [a] is [i] or one of its ancestors. *)
Inductive onPath (t : MCTS.tree) : nat -> nat -> Prop :=
| onPath_here i : onPath t i i
| onPath_parent i n p a :
    nth_error t i = Some n -> MCTS.parent n = Some p -> onPath t p a -> onPath t i a.

(** The fields of a node that backpropagation never writes. *)
Definition static (n : MCTS.node) :=
  (MCTS.game n, MCTS.aiPlayer n, MCTS.move n, MCTS.parent n, MCTS.children n).

Definition sameShape (t t' : MCTS.tree) : Prop :=
  length t' = length t /\
  forall i n, nth_error t i = Some n ->
    exists n', nth_error t' i = Some n' /\ static n' = static n.

(** The simulated sequence as it was played: each selected move with the
    side that played it and whether it ended the game. *)
Fixpoint episode (choices : list (Z * Z)) (g : HexGame.t) : list ((Z * Z) * Z * bool) :=
  if HexGame.gameOver g then []
  else
    match HexGame.getValidMoves g with
    | [] => []
    | _ =>
      match choices with
      | [] => []
      | sel :: rest =>
        let g' := snd (HexGame.makeMove g (fst sel) (snd sel)) in
        (sel, HexGame.currentPlayer g, HexGame.gameOver g') :: episode rest g'
      end
    end.

(** The playout policy only selects legal moves. *)
Fixpoint legalChoices (choices : list (Z * Z)) (g : HexGame.t) : Prop :=
  if HexGame.gameOver g then True
  else
    match HexGame.getValidMoves g with
    | [] => True
    | _ =>
      match choices with
      | [] => True
      | sel :: rest =>
        HexGame.isValidMove g (fst sel) (snd sel) = true /\
        legalChoices rest (snd (HexGame.makeMove g (fst sel) (snd sel)))
      end
    end.

Definition sameMove (a b : Z * Z) : bool := (fst a =? fst b) && (snd a =? snd b).

(** Move [m] was played in the episode by [side]. *)
Definition playedBy (ep : list ((Z * Z) * Z * bool)) (m : Z * Z) (side : Z) : bool :=
  existsb (fun e => sameMove m (fst (fst e)) && (snd (fst e) =? side)) ep.

(** Move [m] is the move that decided the episode. *)
Definition endsEpisode (ep : list ((Z * Z) * Z * bool)) (m : Z * Z) : bool :=
  existsb (fun e => sameMove m (fst (fst e)) && snd e) ep.

(** A tree of four nodes on a 3x3 board, searched for red: the root, its
    child after red (0,0), and that child's two children after blue (2,2)
    and after blue (0,2). *)
Definition raveRootGame : HexGame.t := HexGame.create 3.
Definition raveGameA : HexGame.t := snd (HexGame.makeMove raveRootGame 0 0).
Definition raveGameC1 : HexGame.t := snd (HexGame.makeMove raveGameA 2 2).
Definition raveGameC2 : HexGame.t := snd (HexGame.makeMove raveGameA 0 2).

Definition raveTree : MCTS.tree :=
  [ MCTS.Node raveRootGame PLAYER_RED None None [1%nat] 0 0 0 0 [];
    MCTS.Node raveGameA PLAYER_RED (Some (0, 0)) (Some 0%nat) [2%nat; 3%nat] 0 0 0 0 [];
    MCTS.Node raveGameC1 PLAYER_RED (Some (2, 2)) (Some 1%nat) [] 0 0 0 0 [];
    MCTS.Node raveGameC2 PLAYER_RED (Some (0, 2)) (Some 1%nat) [] 0 0 0 0 [] ].

(** How [simulate] records an episode entry: the [player] field is read
    after [makeMove], so it is the mover's opponent unless the move ended
    the game. *)
Definition recorded (e : (Z * Z) * Z * bool) : MCTS.playedMove :=
  MCTS.Played (fst (fst e)) (if snd e then snd (fst e) else other (snd (fst e))).

Definition raveLeaf : MCTS.node :=
  MCTS.Node raveGameC1 PLAYER_RED (Some (2, 2)) (Some 1%nat) [] 0 0 0 0 [].



(** ** Games played through [makeMove] *)

(** The state after a sequence of [makeMove] calls, accepted or not. *)
Definition playMoves (g : HexGame.t) (moves : list (Z * Z)) : HexGame.t :=
  fold_left (fun g m => snd (HexGame.makeMove g (fst m) (snd m))) moves g.

(** A cell on the edge a side starts from and on the edge it has to reach,
    on the grid: top and bottom rows for red, left and right columns for
    blue. *)
Definition startEdge (pl : Z) (x : Z * Z) : Prop :=
  if pl =? PLAYER_RED then fst x = 0 else snd x = 0.
Definition farEdge (g : HexGame.t) (pl : Z) (x : Z * Z) : Prop :=
  if pl =? PLAYER_RED then fst x = HexGame.size g - 1 else snd x = HexGame.size g - 1.

(** Consecutive cells of a path are neighbours. *)
Fixpoint stepwise (g : HexGame.t) (path : list (Z * Z)) : Prop :=
  match path with
  | x :: (y :: _) as rest => In y (HexGame.getNeighbors g (fst x) (snd x)) /\ stepwise g rest
  | _ => True
  end.

(** A winning path of a side: a sequence of its stones, each next to the
    one before, from its starting edge to the opposite edge. *)
Definition winningPath (g : HexGame.t) (pl : Z) (path : list (Z * Z)) : Prop :=
  (exists x, hd_error path = Some x /\ startEdge pl x) /\
  (exists y, hd_error (rev path) = Some y /\ farEdge g pl y) /\
  (forall x, In x path ->
     HexGame.inBounds (HexGame.size g) (fst x) (snd x) = true /\
     HexGame.cell (HexGame.board g) (fst x) (snd x) = pl) /\
  stepwise g path.

(** The bookkeeping of a game state: a well-formed grid, a move counter
    that counts the stones and the entries of the move log, and red or blue
    to move. *)
Definition consistent (g : HexGame.t) : Prop :=
  HexGame.wf g /\
  HexGame.moveCount g = stoneCount (HexGame.board g) /\
  Z.of_nat (length (HexGame.history g)) = HexGame.moveCount g /\
  (HexGame.currentPlayer g = PLAYER_RED \/ HexGame.currentPlayer g = PLAYER_BLUE).

(** The result fields of a game state agree with each other and with the
    board: an undecided game has no winner; a decided game was won by the
    side that moved last, which is still the recorded side to move and has
    a winning connection on the board. *)
Definition settled (g : HexGame.t) : Prop :=
  (HexGame.gameOver g = false -> HexGame.winner g = None) /\
  (HexGame.gameOver g = true ->
     HexGame.winner g = Some (HexGame.currentPlayer g) /\
     HexGame.checkWin g (HexGame.currentPlayer g) = true).

(** ** Bridges the evaluator detects *)

(** The offsets from the first stone to the second for which
    [isVirtuallyConnected] can answer [true], each with the offsets of the
    two cells it wants empty. *)
Definition detectedBridges : list ((Z * Z) * ((Z * Z) * (Z * Z))) :=
  [ ((2, 0), ((1, -1), (1, 0)));
    ((-2, 0), ((-1, 0), (-1, 1)));
    ((0, 2), ((-1, 1), (0, 1)));
    ((0, -2), ((0, -1), (1, -1)));
    ((1, 1), ((0, 1), (1, 0)));
    ((-1, -1), ((-1, 0), (0, -1))) ].

(** The offsets of the source's pattern list that lie three steps away. *)
Definition unreachedBridges : list (Z * Z) := [ (1, -2); (-1, 2); (2, -1); (-2, 1) ].

(** An empty cell of the board. *)
Definition emptyOnBoard (g : HexGame.t) (x : Z * Z) : Prop :=
  0 <= fst x < HexGame.size g /\ 0 <= snd x < HexGame.size g /\
  HexGame.cell (HexGame.board g) (fst x) (snd x) = EMPTY.

(** ** The bounded search *)

(** A finite score. *)
Definition finite (s : score) : Prop := exists q, s = Fin q.

(** Every memoised result carries a finite score. *)
Definition cacheFinite (c : HexHeuristicSearch.cache) : Prop :=
  Forall (fun e => finite (fst (snd (snd e)))) c.

(** The move loop of [negamax], with the recursive call as a parameter:
    [negamax] at depth [S d] runs this loop over the ordered moves with
    [negamax] at depth [d] for [rec] (lemma [negamax_step]). *)
Definition negamaxLoop
    (rec : HexHeuristicSearch.cache -> HexGame.t -> score -> score ->
           HexHeuristicSearch.result * HexHeuristicSearch.cache)
    (g : HexGame.t) (beta : score)
  : list (Z * Z) -> score -> score -> option (Z * Z) -> HexHeuristicSearch.cache ->
    score * option (Z * Z) * HexHeuristicSearch.cache :=
  fix loop (moves : list (Z * Z)) (alpha : score) (bestScore : score)
      (bestMove : option (Z * Z)) (c : HexHeuristicSearch.cache) :=
    match moves with
    | [] => (bestScore, bestMove, c)
    | m :: rest =>
      let child := snd (HexGame.makeMove (HexGame.copy g) (fst m) (snd m)) in
      let (next, c1) := rec c child (sneg beta) (sneg alpha) in
      let sc := sneg (fst next) in
      let (bestScore', bestMove') :=
        if sgt sc bestScore then (sc, Some m) else (bestScore, bestMove) in
      let alpha' := smax alpha sc in
      if sge alpha' beta then (bestScore', bestMove', c1)
      else loop rest alpha' bestScore' bestMove' c1
    end.

(** The score [orderMoves] sorts a move by: the evaluation, for the side to
    move, of the board with that side's stone on the cell. *)
Definition orderScore (evaluatePosition : HexGame.t -> Z -> Q) (g : HexGame.t) (m : Z * Z) : Q :=
  evaluatePosition (withStone g m (HexGame.currentPlayer g)) (HexGame.currentPlayer g).

(** ** Trees grown by the search *)

(** The moves of the children of a node. *)
Definition childMoves (t : MCTS.tree) (n : MCTS.node) : list (Z * Z) :=
  flat_map (fun c => match nth_error t c with
                     | Some cn => match MCTS.move cn with Some m => [m] | None => [] end
                     | None => []
                     end)
           (MCTS.children n).

(** Same nodes with the same references, games, moves and untried moves:
    only counters differ. *)
Definition sameNodes (t t' : MCTS.tree) : Prop :=
  length t' = length t /\
  forall i n, nth_error t i = Some n ->
    exists n', nth_error t' i = Some n' /\ static n' = static n /\
               MCTS.untriedMoves n' = MCTS.untriedMoves n.

(** What the search keeps about its tree: the references are consistent,
    every child was made by a legal move on its parent's undecided
    position, every position is a game as [makeMove] keeps it (and not the
    empty 7x7 board, which the opening book answers), and at every node the
    moves still untried together with the moves of the children are the
    empty cells of the node's board, each once. *)
Definition searchInv (t : MCTS.tree) : Prop :=
  wfTree t /\ grownByExpand t /\
  forall i n, nth_error t i = Some n ->
    consistent (MCTS.game n) /\
    ~ (HexGame.size (MCTS.game n) = 7 /\ HexGame.moveCount (MCTS.game n) = 0) /\
    Permutation (MCTS.untriedMoves n ++ childMoves t n) (HexGame.getValidMoves (MCTS.game n)).


(** ** HexGame.getWinningPath *)

Module WinningPath.
Import HexGame.

(** [parent[r][c]] and [parent[r][c] = [row, col]]; [None] is [null]. *)
Definition pcell (p : list (list (option (Z * Z)))) (r c : Z) : option (Z * Z) :=
  nth (Z.to_nat c) (nth (Z.to_nat r) p []) None.
Definition pset (p : list (list (option (Z * Z)))) (r c : Z) (v : Z * Z)
  : list (list (option (Z * Z))) :=
  upd (Z.to_nat r) (upd (Z.to_nat c) (Some v) (nth (Z.to_nat r) p [])) p.

(** The neighbour loop of [getWinningPath]: as in [checkWin], and the cell
    being expanded is recorded as parent of every cell it enqueues. *)
Definition markNeighbors (g : t) (player : Z) (from : Z * Z) (ns : list (Z * Z))
    (visited : list (list bool)) (parent : list (list (option (Z * Z))))
    (queue : list (Z * Z))
  : list (list bool) * list (list (option (Z * Z))) * list (Z * Z) :=
  fold_left (fun (vpq : list (list bool) * list (list (option (Z * Z))) * list (Z * Z))
                 (n : Z * Z) =>
               let '(v, p, q) := vpq in
               let (nr, nc) := n in
               if negb (vcell v nr nc) && (cell (board g) nr nc =? player)
               then (vset v nr nc, pset p nr nc from, q ++ [(nr, nc)]) else (v, p, q))
            ns (visited, parent, queue).

(** [while (current) { path.unshift(current); current = parent[...] }].
    Parents were enqueued before their children, so the walk ends within
    [size * size] steps (lemma [reconstruct_back]). *)
Fixpoint reconstruct (fuel : nat) (parent : list (list (option (Z * Z))))
    (current : Z * Z) (path : list (Z * Z)) : option (list (Z * Z)) :=
  match fuel with
  | O => None
  | S f =>
    match pcell parent (fst current) (snd current) with
    | None => Some (current :: path)
    | Some p => reconstruct f parent p (current :: path)
    end
  end.

(** The [while (queue.length > 0)] loop; the first dequeued cell on the far
    edge ends it with the reconstructed path. *)
Fixpoint pathLoop (fuel : nat) (g : t) (player : Z) (goal : Z -> Z -> bool)
    (visited : list (list bool)) (parent : list (list (option (Z * Z))))
    (queue : list (Z * Z)) : option (list (Z * Z)) :=
  match fuel with
  | O => None
  | S f =>
    match queue with
    | [] => None
    | (row, col) :: rest =>
      if goal row col then
        reconstruct (Z.to_nat (size g * size g)) parent (row, col) []
      else
        let '(v', p', q') :=
          markNeighbors g player (row, col) (getNeighbors g row col) visited parent rest in
        pathLoop f g player goal v' p' q'
    end
  end.

(** [getWinningPath(player)]: the path, or [None] for [null]. *)
Definition getWinningPath (g : t) (player : Z) : option (list (Z * Z)) :=
  if player =? PLAYER_RED then
    let (v, q) := seed g PLAYER_RED (map (fun col => (0, col)) (zrange (size g))) in
    pathLoop (Z.to_nat (size g * size g)) g PLAYER_RED
             (fun row _ => row =? size g - 1) v (grid (size g) None) q
  else
    let (v, q) := seed g PLAYER_BLUE (map (fun row => (row, 0)) (zrange (size g))) in
    pathLoop (Z.to_nat (size g * size g)) g PLAYER_BLUE
             (fun _ col => col =? size g - 1) v (grid (size g) None) q.

End WinningPath.

(** The parent references lead from a cell back to a cell without parent;
    [path] lists the cells met, that one first. *)
Inductive back (p : list (list (option (Z * Z)))) : Z * Z -> list (Z * Z) -> Prop :=
| back_root y : WinningPath.pcell p (fst y) (snd y) = None -> back p y [y]
| back_step y x path :
    WinningPath.pcell p (fst y) (snd y) = Some x -> back p x path -> back p y (path ++ [y]).

Definition pshaped (n : Z) (p : list (list (option (Z * Z)))) : Prop :=
  length p = Z.to_nat n /\ forall k, (k < Z.to_nat n)%nat -> length (nth k p []) = Z.to_nat n.

(** What the scan keeps about the parent grid: every marked cell leads
    back, through marked cells, to a seed cell, along a path of neighbours. *)
Definition parentInv (g : HexGame.t) (seedP : Z * Z -> Prop)
    (p : list (list (option (Z * Z)))) (seen : list (Z * Z)) : Prop :=
  pshaped (HexGame.size g) p /\
  forall y, In y seen ->
    exists path, back p y path /\ incl path seen /\ (length path <= length seen)%nat /\
                 (exists s, hd_error path = Some s /\ seedP s) /\ stepwise g path.


(** ** The flat game between playouts *)

(** [emptyCells] is in step with the board: it holds the index of every
    empty cell, once. *)
Definition emptySynced (g : FastHexGame.t) : Prop :=
  NoDup (FastHexGame.emptyCells g) /\
  forall i, In i (FastHexGame.emptyCells g) <->
            0 <= i < FastHexGame.size g * FastHexGame.size g /\
            zget (FastHexGame.board g) i = 0.

(** A flat game whose tracker and list of empty cells both describe its
    board, as the constructor leaves it. *)
Definition ready (g : FastHexGame.t) : Prop := inStep g /\ emptySynced g.

(** Every stone of [b] is still there in [b']. *)
Definition keepsStones (b b' : list Z) : Prop :=
  forall i, 0 <= i -> zget b i <> 0 -> zget b' i = zget b i.

(** A parent array of four cells with 0 and 1 joined under 1. *)
Definition pairForest : list Z := UnionFind.union (UnionFind.create 4) 0 1.


(** ** HexEvaluator.calculateResistance *)

Module Resistance.
Import HexGame.

Definition INF : Z := 1000000.

(** The loop over the starting edge: an empty cell gets 1, a stone of the
    player 0, a stone of the opponent stays at [INF]. *)
Definition seedEdge (g : t) (player : Z) (edge : list (Z * Z)) : list (list Z) :=
  fold_left (fun res rc =>
               let v := cell (board g) (fst rc) (snd rc) in
               if (v =? EMPTY) || (v =? player)
               then setCell res (fst rc) (snd rc) (if v =? player then 0 else 1)
               else res)
            edge (grid (size g) INF).

(** The body of the loops over [r] and [c]: the cell is relaxed against
    each of its neighbours; the flag is [updated]. *)
Definition relaxCell (g : t) (player r c : Z) (st : list (list Z) * bool)
  : list (list Z) * bool :=
  if cell (board g) r c =? other player then st
  else
    let cellResistance := if cell (board g) r c =? player then 0 else 1 in
    fold_left (fun st n =>
                 let newResistance := cell (fst st) (fst n) (snd n) + cellResistance in
                 if newResistance <? cell (fst st) r c
                 then (setCell (fst st) r c newResistance, true) else st)
              (getNeighbors g r c) st.

(** One iteration of the outer loop: every cell once, row by row. *)
Definition sweep (g : t) (player : Z) (res : list (list Z)) : list (list Z) * bool :=
  fold_left (fun st r => fold_left (fun st c => relaxCell g player r c st) (zrange (size g)) st)
            (zrange (size g)) (res, false).

(** [for (let iter = 0; iter < size * size; iter++)] with its
    [if (!updated) break]. *)
Fixpoint relaxLoop (iters : nat) (g : t) (player : Z) (res : list (list Z)) : list (list Z) :=
  match iters with
  | O => res
  | S k => let st := sweep g player res in
           if snd st then relaxLoop k g player (fst st) else fst st
  end.

Definition calculateResistance (g : t) (player : Z) : Z :=
  let res0 :=
    if player =? PLAYER_RED
    then seedEdge g player (map (fun col => (0, col)) (zrange (size g)))
    else seedEdge g player (map (fun row => (row, 0)) (zrange (size g))) in
  let res := relaxLoop (Z.to_nat (size g * size g)) g player res0 in
  if player =? PLAYER_RED
  then fold_left (fun m col => Z.min m (cell res (size g - 1) col)) (zrange (size g)) INF
  else fold_left (fun m row => Z.min m (cell res row (size g - 1))) (zrange (size g)) INF.

End Resistance.

(** A stone of the side on the edge it starts from. *)
Definition ownSeed (g : HexGame.t) (pl : Z) (s : Z * Z) : Prop :=
  HexGame.cell (HexGame.board g) (fst s) (snd s) = pl /\
  HexGame.inBounds (HexGame.size g) (fst s) (snd s) = true /\
  (if pl =? PLAYER_RED then fst s = 0 else snd s = 0).

(** The far-edge test of a side. *)
Definition farGoal (g : HexGame.t) (pl : Z) (row col : Z) : bool :=
  if pl =? PLAYER_RED then row =? HexGame.size g - 1 else col =? HexGame.size g - 1.

(** A resistance grid during the relaxation: one number between 0 and
    [INF] per cell, and 0 only on cells joined to the side's starting edge
    by its own stones. *)
Definition resGood (g : HexGame.t) (pl : Z) (res : list (list Z)) : Prop :=
  shaped (HexGame.size g) res /\
  (forall r c, HexGame.inBounds (HexGame.size g) r c = true ->
     0 <= HexGame.cell res r c <= Resistance.INF) /\
  (forall r c, HexGame.inBounds (HexGame.size g) r c = true -> HexGame.cell res r c = 0 ->
     exists s, ownSeed g pl s /\ reachP g pl s (r, c)).

(** Every cell joined to the starting edge has reached 0. *)
Definition resComplete (g : HexGame.t) (pl : Z) (res : list (list Z)) : Prop :=
  forall s t, ownSeed g pl s -> reachP g pl s t -> HexGame.cell res (fst t) (snd t) = 0.

(** The cells of the board, row by row, and how many of them are at 0. *)
Definition allCells (g : HexGame.t) : list (Z * Z) :=
  list_prod (zrange (HexGame.size g)) (zrange (HexGame.size g)).

Definition zeroCount (g : HexGame.t) (res : list (list Z)) : nat :=
  length (filter (fun x => HexGame.cell res (fst x) (snd x) =? 0) (allCells g)).

(** No cell of [res'] is above its value in [res]. *)
Definition resBelow (g : HexGame.t) (res' res : list (list Z)) : Prop :=
  forall r c, HexGame.inBounds (HexGame.size g) r c = true ->
    HexGame.cell res' r c <= HexGame.cell res r c.


(** ** Which numbers the evaluator returns *)

(** The kind of IEEE double a quantity is.  The finite values themselves
    are not computed here; what is computed is where the evaluator leaves
    the finite numbers, which decides every comparison made on its result. *)
Inductive kind : Type := KNaN | KNegInf | KPosInf | KFinite.

(** [a / b] for an exact numerator and an integer divisor: [0 / 0] is NaN,
    [x / 0] is an infinity with the sign of [x]. *)
Definition quotientKind (numerator divisor : Z) : kind :=
  if divisor =? 0 then
    if numerator =? 0 then KNaN
    else if 0 <? numerator then KPosInf else KNegInf
  else KFinite.

(** [a + b]; sums of finite terms stay finite for the magnitudes the
    evaluator produces (each term is at most a few units). *)
Definition kadd (a b : kind) : kind :=
  match a, b with
  | KNaN, _ | _, KNaN => KNaN
  | KPosInf, KNegInf | KNegInf, KPosInf => KNaN
  | KPosInf, _ | _, KPosInf => KPosInf
  | KNegInf, _ | _, KNegInf => KNegInf
  | KFinite, KFinite => KFinite
  end.

Module EvaluatorKind.
Import HexGame.

(** [lo, lo + 1, ..., hi], the range of a [for (x = lo; x <= hi; x++)] loop. *)
Definition fromTo (lo hi : Z) : list Z := map (fun i => lo + i) (zrange (hi - lo + 1)).

(** Twice the [control] sum of [evaluateCenterControl] (the source adds 1
    and subtracts 0.5): the cells of the square of the given radius around
    the centre that are on the board. *)
Definition centerControl2 (g : t) (player : Z) : Z :=
  let center := size g / 2 in
  let radius := size g / 4 in
  fold_left
    (fun control r =>
       fold_left
         (fun control c =>
            if (r >=? 0) && (r <? size g) && (c >=? 0) && (c <? size g) then
              if cell (board g) r c =? player then control + 2
              else if negb (cell (board g) r c =? EMPTY) then control - 1
              else control
            else control)
         (fromTo (center - radius) (center + radius)) control)
    (fromTo (center - radius) (center + radius)) 0.

(** [return control / (radius * radius * 4)] *)
Definition evaluateCenterControl (g : t) (player : Z) : kind :=
  let radius := size g / 4 in
  quotientKind (centerControl2 g player) (radius * radius * 4).

(** The [connections] count of [evaluateEdgeConnection]: the player's
    stones on its two edges. *)
Definition edgeConnections (g : t) (player : Z) : Z :=
  if player =? PLAYER_RED then
    fold_left (fun connections col =>
                 let connections :=
                   if cell (board g) 0 col =? player then connections + 1 else connections in
                 if cell (board g) (size g - 1) col =? player then connections + 1
                 else connections)
              (zrange (size g)) 0
  else
    fold_left (fun connections row =>
                 let connections :=
                   if cell (board g) row 0 =? player then connections + 1 else connections in
                 if cell (board g) row (size g - 1) =? player then connections + 1
                 else connections)
              (zrange (size g)) 0.

(** [return connections / (game.size * 2)] *)
Definition evaluateEdgeConnection (g : t) (player : Z) : kind :=
  quotientKind (edgeConnections g player) (size g * 2).

(** The [vcCount] of [countVirtualConnections]: ordered pairs of the
    player's stones at most two rows and two columns apart that
    [isVirtuallyConnected] accepts. *)
Definition vcCount (g : t) (player : Z) : Z :=
  fold_left
    (fun n r1 =>
       fold_left
         (fun n c1 =>
            if negb (cell (board g) r1 c1 =? player) then n
            else
              fold_left
                (fun n r2 =>
                   fold_left
                     (fun n c2 =>
                        if (r1 =? r2) && (c1 =? c2) then n
                        else if negb (cell (board g) r2 c2 =? player) then n
                        else if HexEvaluator.isVirtuallyConnected g (r1, c1) (r2, c2) player
                             then n + 1 else n)
                     (fromTo (Z.max 0 (c1 - 2)) (Z.min (size g - 1) (c1 + 2))) n)
                (fromTo (Z.max 0 (r1 - 2)) (Z.min (size g - 1) (r1 + 2))) n)
         (zrange (size g)) n)
    (zrange (size g)) 0.

(** [return vcCount / (game.size * game.size)] *)
Definition countVirtualConnections (g : t) (player : Z) : kind :=
  quotientKind (vcCount g player) (size g * size g).

(** [evaluatePosition]: [(1 / (1 + resistance)) * 0.5] is finite
    ([resistance] is a number from 0 to 1000000), and the other three terms
    are the quotients above scaled by positive constants. *)
Definition evaluatePosition (g : t) (player : Z) : kind :=
  kadd (kadd (kadd KFinite (evaluateCenterControl g player))
             (evaluateEdgeConnection g player))
       (countVirtualConnections g player).

End EvaluatorKind.

(** ** MCTSNode.simulate with its playout policy *)

(** What [Math.exp] returns. *)
Inductive expKind : Type := ENaN | EZero | EPositive | EInfinite.

Module MCTSNode.
Import HexGame MCTS.

(** [findSimulationCriticalMove]: the first empty cell on which the side
    to move connects its edges, else the first on which the opponent
    would, else [null]. *)
Definition findSimulationCriticalMove (game : t) : option (Z * Z) :=
  let moves := getValidMoves game in
  match find (fun move => checkWin (withStone game move (currentPlayer game))
                                   (currentPlayer game)) moves with
  | Some move => Some move
  | None =>
    let opponent := other (currentPlayer game) in
    find (fun move => checkWin (withStone game move opponent) opponent) moves
  end.

(** The kind of [evaluation] for one move: the evaluator on the board with
    the mover's stone on the cell, plus two finite bonuses. *)
Definition evaluation (simGame : t) (move : Z * Z) : kind :=
  kadd (kadd (EvaluatorKind.evaluatePosition
                (withStone simGame move (currentPlayer simGame)) (currentPlayer simGame))
             KFinite)
       KFinite.

(** [Math.exp(m.evaluation / temperature)] *)
Definition expScore (k : kind) : expKind :=
  match k with
  | KNaN => ENaN
  | KNegInf => EZero
  | KPosInf => EInfinite
  | KFinite => EPositive
  end.

(** [expScores.reduce((a, b) => a + b, 0)] *)
Definition sumExp (es : list expKind) : expKind :=
  fold_left (fun a b =>
               match a, b with
               | ENaN, _ | _, ENaN => ENaN
               | EInfinite, _ | _, EInfinite => EInfinite
               | EPositive, _ | _, EPositive => EPositive
               | EZero, EZero => EZero
               end) es EZero.

(** Whether [expScores[i] / sumExp] is NaN. *)
Definition ratioIsNaN (e total : expKind) : bool :=
  match total, e with
  | ENaN, _ => true
  | _, ENaN => true
  | EZero, _ => true
  | EInfinite, EInfinite => true
  | _, _ => false
  end.

(** The softmax draw.  [Math.random()] is called once; when the first
    ratio is NaN, [cumProb] is NaN from the first step, [rand < cumProb] is
    never true and the fallback takes [evaluatedMoves[0].move].  Otherwise
    the move depends on the finite scores and on the draw: any move of the
    list can come out, and the draw [u] names it.  [None] when the supply of
    draws has ended. *)
Definition softmaxMove (simGame : t) (moves : list (Z * Z)) (rs : list nat)
  : option ((Z * Z) * list nat) :=
  match rs, moves with
  | [], _ => None
  | _, [] => None
  | u :: rs', first :: _ =>
    let expScores := map (fun m => expScore (evaluation simGame m)) moves in
    if ratioIsNaN (expScore (evaluation simGame first)) (sumExp expScores)
    then Some (first, rs')
    else match nth_error moves (u mod length moves) with
         | Some m => Some (m, rs')
         | None => None
         end
  end.

(** The [while (!simGame.gameOver)] loop of [simulate]; [None] when [fuel]
    iterations or the draws do not suffice. *)
Fixpoint simulateLoop (fuel : nat) (rs : list nat) (simGame : t)
    (playedMoves : list playedMove) : option simResult :=
  match fuel with
  | O => None
  | S f =>
    if gameOver simGame then Some (winner simGame, playedMoves)
    else
      match getValidMoves simGame with
      | [] => Some (winner simGame, playedMoves)
      | moves =>
        let selected :=
          match findSimulationCriticalMove simGame with
          | Some criticalMove => Some (criticalMove, rs)
          | None => softmaxMove simGame moves rs
          end in
        match selected with
        | None => None
        | Some (selectedMove, rs') =>
          let g' := snd (makeMove simGame (fst selectedMove) (snd selectedMove)) in
          simulateLoop f rs' g' (playedMoves ++ [Played selectedMove (currentPlayer g')])
        end
      end
  end.

Definition simulate (fuel : nat) (rs : list nat) (n : node) : option simResult :=
  simulateLoop fuel rs (copy (game n)) [].

End MCTSNode.

(** The playout the code runs from the third node of [raveTree], whatever
    the random draws: on a 3x3 board every ratio of the softmax is NaN, so
    each move is the critical move if there is one and else the first empty
    cell.  Red (0,1), blue (0,2), red (1,0), blue blocks on (2,0), red
    blocks on (1,1), blue (2,1) joins its row: blue wins. *)
Definition raveMoves : list (Z * Z) := [ (0, 1); (0, 2); (1, 0); (2, 0); (1, 1); (2, 1) ].

Definition raveOutcome : MCTS.simResult :=
  (Some PLAYER_BLUE,
   [ MCTS.Played (0, 1) PLAYER_BLUE; MCTS.Played (0, 2) PLAYER_RED;
     MCTS.Played (1, 0) PLAYER_BLUE; MCTS.Played (2, 0) PLAYER_RED;
     MCTS.Played (1, 1) PLAYER_BLUE; MCTS.Played (2, 1) PLAYER_BLUE ]).


(** * Properties *)

(** ** Arrays *)

Lemma upd_length {A} (i : nat) (v : A) l : length (upd i v l) = length l.
Proof. revert i; induction l; intros [|i]; simpl; auto. Qed.

Lemma nth_upd_same {A} (i : nat) (v d : A) l :
  (i < length l)%nat -> nth i (upd i v l) d = v.
Proof. revert i; induction l; intros [|i]; simpl; intros; try lia; auto. apply IHl; lia. Qed.

Lemma nth_upd_other {A} (i j : nat) (v d : A) l :
  i <> j -> nth j (upd i v l) d = nth j l d.
Proof.
  revert i j; induction l; intros [|i] [|j]; simpl; intros; try congruence; auto.
Qed.

Lemma upd_nth_id {A} (i : nat) (d : A) l : (i < length l)%nat -> upd i (nth i l d) l = l.
Proof. revert i; induction l; intros [|i]; simpl; intros; try lia; auto. f_equal. apply IHl. lia. Qed.

Lemma zget_zset_same l i v : 0 <= i < Z.of_nat (length l) -> zget (zset l i v) i = v.
Proof.
  intros H. unfold zget, zset.
  destruct (Z.leb_spec 0 i); try lia. destruct (Z.ltb_spec i (Z.of_nat (length l))); try lia.
  simpl. apply nth_upd_same. lia.
Qed.

Lemma zget_zset_other l i j v : 0 <= i -> 0 <= j -> i <> j -> zget (zset l i v) j = zget l j.
Proof.
  intros Hi Hj H. unfold zget, zset.
  destruct ((0 <=? i) && (i <? Z.of_nat (length l))); auto.
  apply nth_upd_other. lia.
Qed.

Lemma zset_length l i v : length (zset l i v) = length l.
Proof. unfold zset. destruct (_ && _); auto. apply upd_length. Qed.

Lemma in_zrange n i : In i (zrange n) <-> 0 <= i < n.
Proof.
  unfold zrange. rewrite in_map_iff. split.
  - intros (k & <- & Hk). apply in_seq in Hk. lia.
  - intros H. exists (Z.to_nat i). split; [lia|]. apply in_seq. lia.
Qed.

Lemma zrange_NoDup n : NoDup (zrange n).
Proof.
  unfold zrange. apply Injective_map_NoDup.
  - intros a b H. lia.
  - apply seq_NoDup.
Qed.

Lemma zrange_length n : length (zrange n) = Z.to_nat n.
Proof. unfold zrange. now rewrite length_map, length_seq. Qed.

Lemma toInt8_small v : -128 <= v < 128 -> toInt8 v = v.
Proof. intros. unfold toInt8. rewrite Z.mod_small; lia. Qed.

Lemma toUint8_small v : 0 <= v < 256 -> toUint8 v = v.
Proof. intros. unfold toUint8. rewrite Z.mod_small; lia. Qed.

Lemma toInt16_small v : -32768 <= v < 32768 -> toInt16 v = v.
Proof. intros. unfold toInt16. rewrite Z.mod_small; lia. Qed.

(** ** Board state *)

Section BoardState.
Import HexGame.

Lemma wfb_sound g : wfb g = true -> wf g.
Proof.
  unfold wfb, wf. rewrite !andb_true_iff. intros [[H0 H1] H2].
  apply Z.ltb_lt in H0. apply Nat.eqb_eq in H1. rewrite forallb_forall in H2.
  repeat split; auto.
  - intros row Hin. apply H2 in Hin. apply andb_true_iff in Hin. apply Nat.eqb_eq. tauto.
  - intros r c Hr Hc. unfold cell.
    assert (Hin : In (nth (Z.to_nat r) (board g) []) (board g)) by (apply nth_In; lia).
    apply H2 in Hin. apply andb_true_iff in Hin. destruct Hin as [Hl Hall].
    apply Nat.eqb_eq in Hl. rewrite forallb_forall in Hall.
    specialize (Hall (nth (Z.to_nat c) (nth (Z.to_nat r) (board g) []) 0)).
    rewrite !orb_true_iff, !Z.eqb_eq in Hall. 
    assert (Hx : In (nth (Z.to_nat c) (nth (Z.to_nat r) (board g) []) 0) (nth (Z.to_nat r) (board g) []))
      by (apply nth_In; lia).
    apply Hall in Hx. tauto.
Qed.

Lemma cell_setCell_same b r c v :
  (Z.to_nat r < length b)%nat -> (Z.to_nat c < length (nth (Z.to_nat r) b []))%nat ->
  cell (setCell b r c v) r c = v.
Proof.
  intros Hr Hc. unfold cell, setCell. rewrite nth_upd_same by auto. now apply nth_upd_same.
Qed.

Lemma cell_setCell_other b r c v r' c' :
  0 <= r -> 0 <= c -> 0 <= r' -> 0 <= c' -> (r, c) <> (r', c') ->
  cell (setCell b r c v) r' c' = cell b r' c'.
Proof.
  intros Hr Hc Hr' Hc' Hne. unfold cell, setCell.
  destruct (Z.eq_dec r r') as [->|Hrr].
  - assert (c <> c') by congruence.
    destruct (Nat.lt_ge_cases (Z.to_nat r') (length b)).
    + rewrite nth_upd_same by auto. apply nth_upd_other. lia.
    + rewrite (nth_overflow (upd _ _ _)) by (rewrite upd_length; lia).
      now rewrite (nth_overflow b) by lia.
  - f_equal. apply nth_upd_other. lia.
Qed.

Lemma setCell_length b r c v : length (setCell b r c v) = length b.
Proof. apply upd_length. Qed.

Lemma setCell_row_length b r c v k :
  length (nth k (setCell b r c v) []) = length (nth k b []).
Proof.
  unfold setCell. destruct (Nat.eq_dec (Z.to_nat r) k) as [<-|Hk].
  - destruct (Nat.lt_ge_cases (Z.to_nat r) (length b)).
    + rewrite nth_upd_same by auto. apply upd_length.
    + rewrite (nth_overflow (upd _ _ _)) by (rewrite upd_length; lia).
      now rewrite (nth_overflow b) by lia.
  - now rewrite nth_upd_other.
Qed.

(** C2: an out-of-bounds target, an occupied target, or a finished game make
    [makeMove] answer [false] and hand back the very same state: grid, side to
    move, move count, over flag, winner, swap flag and move log. *)
Theorem C2_makeMove_rejection_leaves_state (g : t) (row col : Z) :
  (row < 0 \/ size g <= row \/ col < 0 \/ size g <= col) \/
  (0 <= row < size g /\ 0 <= col < size g /\ cell (board g) row col <> EMPTY) \/
  gameOver g = true ->
  makeMove g row col = (false, g).
Proof.
  intros H. unfold makeMove.
  destruct (gameOver g) eqn:Hover; [now rewrite orb_true_r|].
  rewrite orb_false_r.
  destruct H as [H | [H | H]]; try discriminate.
  - unfold isValidMove.
    replace ((row <? 0) || (row >=? size g) || (col <? 0) || (col >=? size g)) with true; auto.
    symmetry. rewrite !orb_true_iff, !Z.ltb_lt, !Z.geb_le. lia.
  - destruct H as (Hr & Hc & Hocc). unfold isValidMove.
    replace ((row <? 0) || (row >=? size g) || (col <? 0) || (col >=? size g)) with false.
    + apply Z.eqb_neq in Hocc. now rewrite Hocc.
    + symmetry. rewrite !orb_false_iff, !Z.ltb_ge, !Z.geb_leb, !Z.leb_gt. lia.
Qed.

Lemma C2_makeMove_rejection_leaves_state_witness :
  makeMove (Make 3 [[1;0;0];[0;2;0];[0;0;0]] 1 2 false None false
                 [MoveEntry 0 0 1; MoveEntry 1 1 2]) 1 1
  = (false, Make 3 [[1;0;0];[0;2;0];[0;0;0]] 1 2 false None false
                 [MoveEntry 0 0 1; MoveEntry 1 1 2]).
Proof.
  apply C2_makeMove_rejection_leaves_state.
  right; left. simpl. repeat split; try lia. unfold EMPTY. discriminate.
Defined.


Lemma wf_shaped g : wf g -> shaped (size g) (board g).
Proof.
  intros (H0 & H1 & H2 & _). split; auto. intros k Hk. apply H2. apply nth_In. lia.
Qed.

Lemma swapCellAt_shaped n b r c : shaped n b -> shaped n (swapCellAt b r c).
Proof.
  intros [H1 H2]. unfold swapCellAt.
  destruct (_ =? PLAYER_RED); [|destruct (_ =? PLAYER_BLUE)]; try (split; now auto);
    (split; [now rewrite setCell_length | intros k Hk; rewrite setCell_row_length; auto]).
Qed.

Lemma swapCellAt_same n b r c :
  shaped n b -> 0 <= r < n -> 0 <= c < n ->
  cell (swapCellAt b r c) r c = swapColor (cell b r c).
Proof.
  intros [H1 H2] Hr Hc. unfold swapCellAt, swapColor.
  destruct (_ =? PLAYER_RED); [|destruct (_ =? PLAYER_BLUE)]; auto;
    apply cell_setCell_same; try rewrite H2; lia.
Qed.

Lemma swapCellAt_other b r c r' c' :
  0 <= r -> 0 <= c -> 0 <= r' -> 0 <= c' -> (r, c) <> (r', c') ->
  cell (swapCellAt b r c) r' c' = cell b r' c'.
Proof.
  intros. unfold swapCellAt.
  destruct (_ =? PLAYER_RED); [|destruct (_ =? PLAYER_BLUE)]; auto;
    now apply cell_setCell_other.
Qed.

Lemma swapRow_spec n r cs : forall b,
  shaped n b -> 0 <= r < n -> NoDup cs -> (forall c, In c cs -> 0 <= c < n) ->
  let b' := fold_left (fun b c => swapCellAt b r c) cs b in
  shaped n b' /\
  forall r' c', 0 <= r' -> 0 <= c' ->
    cell b' r' c' = if (r' =? r) && existsb (Z.eqb c') cs
                    then swapColor (cell b r' c') else cell b r' c'.
Proof.
  induction cs as [|c cs IH]; intros b Hs Hr Hnd Hin; simpl.
  - split; auto. intros. now rewrite andb_false_r.
  - inversion Hnd as [|? ? Hnot Hnd']; subst.
    assert (Hc : 0 <= c < n) by (apply Hin; now left).
    destruct (IH (swapCellAt b r c) (swapCellAt_shaped n b r c Hs) Hr Hnd'
                 (fun c0 H => Hin c0 (or_intror H))) as [Hs' Hcell].
    split; auto. intros r' c' Hr' Hc'. rewrite Hcell by auto.
    destruct (Z.eqb_spec r' r) as [->|Hrr]; simpl.
    + destruct (Z.eqb_spec c' c) as [->|Hcc]; simpl.
      * replace (existsb (Z.eqb c) cs) with false.
        -- now apply (swapCellAt_same n).
        -- symmetry. apply not_true_is_false. intros Hex. apply existsb_exists in Hex.
           destruct Hex as (x & Hx & Heq). apply Z.eqb_eq in Heq. now subst.
      * rewrite swapCellAt_other by (try lia; congruence). reflexivity.
    + apply swapCellAt_other; try lia. congruence.
Qed.

Lemma swapBoard_rows n rs : forall b,
  shaped n b -> NoDup rs -> (forall r, In r rs -> 0 <= r < n) ->
  let b' := fold_left (fun b r => fold_left (fun b c => swapCellAt b r c) (zrange n) b) rs b in
  shaped n b' /\
  forall r' c', 0 <= r' -> 0 <= c' < n ->
    cell b' r' c' = if existsb (Z.eqb r') rs then swapColor (cell b r' c') else cell b r' c'.
Proof.
  induction rs as [|r rs IH]; intros b Hs Hnd Hin; simpl.
  - split; auto.
  - inversion Hnd as [|? ? Hnot Hnd']; subst.
    assert (Hr : 0 <= r < n) by (apply Hin; now left).
    destruct (swapRow_spec n r (zrange n) b Hs Hr (zrange_NoDup n)
                (fun c H => proj1 (in_zrange n c) H)) as [Hs1 Hc1].
    destruct (IH _ Hs1 Hnd' (fun r0 H => Hin r0 (or_intror H))) as [Hs' Hcell].
    split; auto. intros r' c' Hr' Hc'. rewrite Hcell by auto. rewrite Hc1 by lia.
    assert (Hex : existsb (Z.eqb c') (zrange n) = true).
    { apply existsb_exists. exists c'. split; [apply in_zrange; lia | apply Z.eqb_refl]. }
    rewrite Hex, andb_true_r.
    destruct (Z.eqb_spec r' r) as [->|Hrr]; simpl; auto.
    replace (existsb (Z.eqb r) rs) with false; auto.
    symmetry. apply not_true_is_false. intros Hex'. apply existsb_exists in Hex'.
    destruct Hex' as (x & Hx & Heq). apply Z.eqb_eq in Heq. now subst.
Qed.

Lemma swapBoard_spec n b r c :
  shaped n b -> 0 <= r < n -> 0 <= c < n ->
  cell (swapBoard n b) r c = swapColor (cell b r c).
Proof.
  intros Hs Hr Hc.
  destruct (swapBoard_rows n (zrange n) b Hs (zrange_NoDup n)
              (fun r0 H => proj1 (in_zrange n r0) H)) as [_ H].
  unfold swapBoard. rewrite H by lia.
  replace (existsb (Z.eqb r) (zrange n)) with true; auto.
  symmetry. apply existsb_exists. exists r. split; [apply in_zrange; lia | apply Z.eqb_refl].
Qed.

(** What [swapSides] does with the flag it reads: it succeeds exactly when
    one move has been played and [swapAvailable] is set; on success every
    red stone is blue and every blue stone red over the whole board (empty
    cells stay empty), the flag is cleared and red is to move; otherwise it
    answers [false]. *)
Lemma swapSides_by_flag (g : t) :
  wf g ->
  (fst (swapSides g) = true <-> moveCount g = 1 /\ swapAvailable g = true) /\
  (fst (swapSides g) = true ->
     (forall r c, 0 <= r < size g -> 0 <= c < size g ->
        (cell (board g) r c = PLAYER_RED -> cell (board (snd (swapSides g))) r c = PLAYER_BLUE) /\
        (cell (board g) r c = PLAYER_BLUE -> cell (board (snd (swapSides g))) r c = PLAYER_RED) /\
        (cell (board g) r c = EMPTY -> cell (board (snd (swapSides g))) r c = EMPTY)) /\
     swapAvailable (snd (swapSides g)) = false /\
     currentPlayer (snd (swapSides g)) = PLAYER_RED) /\
  (fst (swapSides g) <> true -> fst (swapSides g) = false).
Proof.
  intros Hwf. unfold swapSides.
  destruct (Z.eqb_spec (moveCount g) 1) as [Hmc|Hmc];
    destruct (swapAvailable g) eqn:Hsw; simpl;
    repeat split; try tauto; try discriminate; try (intros [? ?]; congruence);
    intros; rewrite (swapBoard_spec (size g)) by (auto using wf_shaped);
    unfold swapColor; match goal with H : cell _ _ _ = _ |- _ => rewrite H end; reflexivity.
Qed.

(** On a 1x1 board the first move wins, the flag stays set and the swap
    goes through. *)
Lemma swapSides_by_flag_1x1 :
  fst (swapSides (snd (makeMove (create 1) 0 0))) = true /\
  cell (board (snd (swapSides (snd (makeMove (create 1) 0 0))))) 0 0 = PLAYER_BLUE.
Proof.
  assert (Hwf : wf (snd (makeMove (create 1) 0 0))) by (apply wfb_sound; reflexivity).
  destruct (swapSides_by_flag (snd (makeMove (create 1) 0 0)) Hwf) as (Hiff & Hok & _).
  split.
  - apply Hiff. split; reflexivity.
  - apply Hok; [apply Hiff; split; reflexivity | simpl; lia | simpl; lia | reflexivity].
Qed.

End BoardState.


(** ** Bridge detection *)

Section Bridges.
Import HexGame HexEvaluator.

(** C7: bridge detection is not symmetric in the code.  After red (0,1),
    blue (1,0), red (2,1) on a 3x3 board the two red stones are two rows
    apart; asked from (0,1) the cells tested are (1,0) and (1,1), asked from
    (2,1) they are (1,1) and (1,2), so the verdicts differ. *)
Theorem C7_bridge_detection_asymmetric :
  cell (board bridgeGame) 0 1 = PLAYER_RED /\
  cell (board bridgeGame) 2 1 = PLAYER_RED /\
  isVirtuallyConnected bridgeGame (0, 1) (2, 1) PLAYER_RED = false /\
  isVirtuallyConnected bridgeGame (2, 1) (0, 1) PLAYER_RED = true.
Proof. repeat split; reflexivity. Qed.

(** The diagonal offsets, the only true bridges the distance test lets
    through, are handled symmetrically; so is every pair at another
    distance, which is never a bridge. *)
Lemma isVirtuallyConnected_sym_off_axis g r1 c1 r2 c2 player :
  ~ (r1 = r2 /\ Z.abs (c2 - c1) = 2) -> ~ (c1 = c2 /\ Z.abs (r2 - r1) = 2) ->
  isVirtuallyConnected g (r1, c1) (r2, c2) player =
  isVirtuallyConnected g (r2, c2) (r1, c1) player.
Proof.
  intros Hrow Hcol. unfold isVirtuallyConnected.
  destruct (Z.eqb_spec (Z.abs (r2 - r1) + Z.abs (c2 - c1)) 2) as [H2|H2];
    destruct (Z.eqb_spec (Z.abs (r1 - r2) + Z.abs (c1 - c2)) 2) as [H2'|H2']; try lia; auto.
  assert (Hd : (r2 - r1 = 1 /\ c2 - c1 = 1) \/ (r2 - r1 = -1 /\ c2 - c1 = -1) \/
               (r2 - r1 = 1 /\ c2 - c1 = -1) \/ (r2 - r1 = -1 /\ c2 - c1 = 1)) by lia.
  destruct Hd as [[Hr Hc]|[[Hr Hc]|[[Hr Hc]|[Hr Hc]]]].
  - replace (r1 - r2) with (-1) by lia. replace (c1 - c2) with (-1) by lia.
    rewrite Hr, Hc. simpl.
    replace (r2 - 1) with r1 by lia. replace (c2 - 1) with c1 by lia.
    replace (r1 + 1) with r2 by lia. replace (c1 + 1) with c2 by lia.
    reflexivity.
  - replace (r1 - r2) with 1 by lia. replace (c1 - c2) with 1 by lia.
    rewrite Hr, Hc. simpl.
    replace (r1 - 1) with r2 by lia. replace (c1 - 1) with c2 by lia.
    replace (r2 + 1) with r1 by lia. replace (c2 + 1) with c1 by lia.
    reflexivity.
  - replace (r1 - r2) with (-1) by lia. replace (c1 - c2) with 1 by lia.
    rewrite Hr, Hc. reflexivity.
  - replace (r1 - r2) with 1 by lia. replace (c1 - c2) with (-1) by lia.
    rewrite Hr, Hc. reflexivity.
Qed.

End Bridges.

(** ** Opening book *)

Section OpeningBook.
Import HexGame HexOpeningBook.

Lemma pick_In {A} rnd (l : list A) x : pick rnd l = Some x -> In x l.
Proof. unfold pick. apply nth_error_In. Qed.

Lemma filter_nonempty_nil {A} (f : A -> bool) l :
  length (filter f l) = O -> forall x, In x l -> f x = false.
Proof.
  induction l as [|a l IH]; simpl; intros H x Hin; [tauto|].
  destruct (f a) eqn:Ha; simpl in H; try discriminate.
  destruct Hin as [<-|Hin]; auto.
Qed.

(** With no stone counted, every cell is empty. *)
Lemma no_stones_all_empty g r c :
  wf g -> stoneCount (board g) = 0 -> 0 <= r < size g -> 0 <= c < size g ->
  cell (board g) r c = EMPTY.
Proof.
  intros (H0 & H1 & H2 & _) Hcnt Hr Hc. unfold stoneCount in Hcnt.
  assert (Hlen : length (filter (fun v => negb (v =? EMPTY)) (concat (board g))) = O) by lia.
  assert (Hrow : In (nth (Z.to_nat r) (board g) []) (board g)) by (apply nth_In; lia).
  assert (Hin : In (cell (board g) r c) (concat (board g))).
  { apply in_concat. exists (nth (Z.to_nat r) (board g) []). split; auto.
    unfold cell. apply nth_In. rewrite (H2 _ Hrow). lia. }
  pose proof (filter_nonempty_nil _ _ Hlen _ Hin) as Hf.
  apply negb_false_iff in Hf. now apply Z.eqb_eq.
Qed.

Lemma table_valid g tbl m :
  wf g -> moveCountInvariant g -> moveCount g = 0 ->
  In m tbl ->
  (forall x, In x tbl -> 0 <= fst x < size g /\ 0 <= snd x < size g /\
                         ~ (size g = 7 /\ fst x = 3 /\ snd x = 3)) ->
  isValidMove g (fst m) (snd m) = true.
Proof.
  intros Hwf Hinv Hmc Hin Htbl. destruct (Htbl _ Hin) as (Hr & Hc & Hctr).
  unfold isValidMove.
  replace ((fst m <? 0) || (fst m >=? size g) || (snd m <? 0) || (snd m >=? size g)) with false
    by (symmetry; rewrite !orb_false_iff, !Z.ltb_ge, !Z.geb_leb, !Z.leb_gt; lia).
  rewrite (no_stones_all_empty g _ _ Hwf) by (try lia; unfold moveCountInvariant in Hinv; lia).
  simpl. rewrite Hmc. simpl.
  destruct (Z.eqb_spec (size g) 7) as [H7|H7]; simpl; auto.
  rewrite H7. change (7 / 2) with 3.
  destruct (Z.eqb_spec (fst m) 3); destruct (Z.eqb_spec (snd m) 3); simpl; auto.
Qed.

Lemma in_flat_map_valid g (f : Z -> Z -> list (Z * Z)) ds m :
  (forall dr dc x, In x (f dr dc) -> isValidMove g (fst x) (snd x) = true) ->
  In m (flat_map (fun dr => flat_map (fun dc => f dr dc) ds) ds) ->
  isValidMove g (fst m) (snd m) = true.
Proof.
  intros Hf Hin. apply in_flat_map in Hin. destruct Hin as (dr & _ & Hin).
  apply in_flat_map in Hin. destruct Hin as (dc & _ & Hin). eauto.
Qed.

(** C8: the opening book answers [null] once more than four moves have been
    played, and a move it returns is a legal move of the board: in bounds,
    empty and not the banned centre of the 7x7 first move. *)
Theorem C8_opening_book_legal (g : t) (rnd : nat) :
  wf g -> moveCountInvariant g ->
  (moveCount g > 4 -> getOpeningMove g rnd = Null) /\
  (forall m, getOpeningMove g rnd = Move m -> isValidMove g (fst m) (snd m) = true).
Proof.
  intros Hwf Hinv. split.
  - intros Hmc. unfold getOpeningMove.
    destruct (Z.gtb_spec (moveCount g) 4); auto; lia.
  - intros m. unfold getOpeningMove.
    destruct (Z.gtb_spec (moveCount g) 4); [discriminate|].
    destruct (Z.eqb_spec (size g) 7) as [H7|H7].
    { unfold getOpening7x7.
      destruct (Z.eqb_spec (moveCount g) 0) as [Hmc|Hmc].
      - destruct (pick rnd _) eqn:Hp; simpl; intros Heq; inversion Heq; subst.
        apply pick_In in Hp. apply (table_valid g _ m Hwf Hinv Hmc Hp).
        intros x Hx. rewrite H7. simpl in Hx.
        repeat (destruct Hx as [<-|Hx]; [simpl; lia|]). tauto.
      - destruct ((moveCount g =? 1) && (currentPlayer g =? PLAYER_BLUE)); [|discriminate].
        destruct (history g) as [|lastMove hs]; [discriminate|].
        match goal with |- context [0 <? Z.of_nat (length ?l)] =>
          destruct (0 <? Z.of_nat (length l)); [|discriminate];
          destruct (pick rnd l) eqn:Hp; simpl; intros Heq; inversion Heq; subst
        end.
        apply pick_In in Hp. apply in_app_or in Hp. destruct Hp as [Hp|Hp].
        + apply filter_In in Hp. tauto.
        + revert Hp. apply in_flat_map_valid. intros dr dc x.
          destruct (isValidMove g _ _) eqn:Hv; simpl; [|tauto].
          destruct (_ <=? 2); simpl; [|tauto]. intros [<-|[]]. exact Hv. }
    destruct (Z.eqb_spec (size g) 11) as [H11|H11].
    { unfold getOpening11x11.
      destruct (Z.eqb_spec (moveCount g) 0) as [Hmc|Hmc]; [|discriminate].
      destruct (pick rnd _) eqn:Hp; simpl; intros Heq; inversion Heq; subst.
      apply pick_In in Hp. apply (table_valid g _ m Hwf Hinv Hmc Hp).
      intros x Hx. rewrite H11. simpl in Hx.
      repeat (destruct Hx as [<-|Hx]; [simpl; lia|]). tauto. }
    destruct (Z.eqb_spec (size g) 13) as [H13|H13].
    { unfold getOpening13x13.
      destruct (Z.eqb_spec (moveCount g) 0) as [Hmc|Hmc]; [|discriminate].
      destruct (pick rnd _) eqn:Hp; simpl; intros Heq; inversion Heq; subst.
      apply pick_In in Hp. apply (table_valid g _ m Hwf Hinv Hmc Hp).
      intros x Hx. rewrite H13. simpl in Hx.
      repeat (destruct Hx as [<-|Hx]; [simpl; lia|]). tauto. }
    unfold getDefaultOpening.
    destruct (pick rnd _) eqn:Hp; intros Heq; inversion Heq; subst.
    apply pick_In in Hp. revert Hp. apply in_flat_map_valid. intros dr dc x.
    destruct ((dr =? 0) && (dc =? 0)); simpl; [tauto|].
    destruct (isValidMove g _ _) eqn:Hv; simpl; [|tauto]. intros [<-|[]]. exact Hv.
Qed.

Lemma C8_opening_book_legal_witness :
  (moveCount (create 7) > 4 -> getOpeningMove (create 7) 5 = Null) /\
  (forall m, getOpeningMove (create 7) 5 = Move m ->
             isValidMove (create 7) (fst m) (snd m) = true).
Proof.
  apply C8_opening_book_legal.
  - apply wfb_sound. reflexivity.
  - reflexivity.
Defined.

End OpeningBook.

(** ** Bounded search *)

Section BoundedSearch.
Import HexGame HexHeuristicSearch.

Variable evaluatePosition : HexGame.t -> Z -> Q.

(** On a fresh memo table a decided game is valued from the side of the
    [player] argument, whatever the depth and the window. *)
Lemma negamax_decided_leaf depth g alpha beta player beamWidth :
  gameOver g = true ->
  fst (negamax evaluatePosition depth [] g alpha beta player beamWidth)
  = (evaluate evaluatePosition g player, None).
Proof.
  intros Hover. destruct depth; simpl; rewrite ?Hover; reflexivity.
Qed.

(** A node with a single candidate move, on a fresh memo table. *)
Lemma negamax_single_move d g alpha beta player beamWidth m :
  gameOver g = false -> orderMoves evaluatePosition g beamWidth = [m] ->
  fst (negamax evaluatePosition (S d) [] g alpha beta player beamWidth) =
  let next := fst (negamax evaluatePosition d [] (snd (makeMove g (fst m) (snd m)))
                           (sneg beta) (sneg alpha) player beamWidth) in
  if sgt (sneg (fst next)) NegInf then (sneg (fst next), Some m) else (NegInf, None).
Proof.
  intros Hover Hom. cbn [negamax cacheGet]. rewrite Hover, Hom. unfold copy.
  destruct (negamax evaluatePosition d [] _ _ _ _ _) as [next c1]. cbn [fst snd].
  destruct (sgt (sneg (fst next)) NegInf); destruct (sge _ beta); reflexivity.
Qed.

Lemma orderMoves_lastCellGame beamWidth :
  orderMoves evaluatePosition lastCellGame beamWidth = [(0, 0)].
Proof.
  unfold orderMoves. change (getValidMoves lastCellGame) with [(0, 0)].
  cbn [map sortScored fold_right insertScored].
  assert (Hb : Z.to_nat (Z.max beamWidth 1) = S (Nat.pred (Z.to_nat (Z.max beamWidth 1)))) by lia.
  rewrite Hb. cbn [firstn]. rewrite firstn_nil. reflexivity.
Qed.

Lemma negamax_lastCellGame d beamWidth :
  fst (negamax evaluatePosition (S d) [] lastCellGame NegInf PosInf PLAYER_BLUE beamWidth)
  = (Fin (- (1000 # 1)), Some (0, 0)).
Proof.
  rewrite (negamax_single_move d lastCellGame NegInf PosInf PLAYER_BLUE beamWidth (0, 0)
             eq_refl (orderMoves_lastCellGame beamWidth)).
  cbn zeta. change (snd (makeMove lastCellGame (fst (0, 0)) (snd (0, 0)))) with blueWonGame.
  rewrite negamax_decided_leaf by reflexivity. reflexivity.
Qed.

(** C5: values are taken from the side of the fixed [player] argument, not
    from the side to move at the node.  The same decided node (blue has just
    won and is the recorded side to move) is worth +1000 when the search
    side is blue and -1000 when it is red; since [player] is handed down
    unchanged while every level negates, the value at a node whose mover is
    not at an even distance from a leaf has the wrong sign: at the position
    before, where blue is to move and wins at once, a search for blue
    returns -1000. *)
Theorem C5_negamax_value_not_side_to_move (depth : nat) (alpha beta : score) (beamWidth : Z) :
  gameOver blueWonGame = true /\ winner blueWonGame = Some PLAYER_BLUE /\
  currentPlayer blueWonGame = PLAYER_BLUE /\
  fst (fst (negamax evaluatePosition depth [] blueWonGame alpha beta PLAYER_BLUE beamWidth))
    = Fin (1000 # 1) /\
  fst (fst (negamax evaluatePosition depth [] blueWonGame alpha beta PLAYER_RED beamWidth))
    = Fin (- (1000 # 1)) /\
  currentPlayer lastCellGame = PLAYER_BLUE /\
  fst (negamax evaluatePosition (S depth) [] lastCellGame NegInf PosInf PLAYER_BLUE beamWidth)
    = (Fin (- (1000 # 1)), Some (0, 0)).
Proof.
  repeat split; try reflexivity.
  - now rewrite negamax_decided_leaf.
  - now rewrite negamax_decided_leaf.
  - apply negamax_lastCellGame.
Qed.

(** C4: with the beam as wide as the move list and the depth covering every
    empty cell the search does not return the minimax value.  Blue, to move
    with one empty cell left, wins by playing it: the minimax value for blue
    is +1000, the search returns -1000. *)
Theorem C4_full_width_search_not_minimax (d : nat) (beamWidth : Z) :
  length (legalMoves lastCellGame) = 1%nat /\
  length (getValidMoves lastCellGame) = 1%nat /\
  minimaxValue (S d) lastCellGame PLAYER_BLUE = 1000 /\
  fst (fst (negamax evaluatePosition (S d) [] lastCellGame NegInf PosInf PLAYER_BLUE beamWidth))
    = Fin (- (1000 # 1)).
Proof.
  split; [reflexivity|]. split; [reflexivity|]. split.
  - cbn [minimaxValue]. change (gameOver lastCellGame) with false. cbv iota.
    change (legalMoves lastCellGame) with [(0, 0)]. cbn [map fst snd].
    change (snd (makeMove lastCellGame 0 0)) with blueWonGame.
    destruct d; reflexivity.
  - now rewrite negamax_lastCellGame.
Qed.

End BoundedSearch.


(** ** Union-find *)

Section UnionFindTheory.
Import UnionFind.

Lemma rootOfN_range p i r n : rootOfN p i r n -> 0 <= i < Z.of_nat (length p).
Proof. now destruct 1. Qed.

Lemma rootOfN_root p i r n :
  rootOfN p i r n -> 0 <= r < Z.of_nat (length p) /\ zget p r = r.
Proof. induction 1; auto. Qed.

Lemma rootOfN_det p i r n :
  rootOfN p i r n -> forall r' n', rootOfN p i r' n' -> r = r' /\ n = n'.
Proof.
  induction 1 as [r Hr Hp | i r n Hi Hp Hrec IH]; intros r' n' H'.
  - inversion H'; subst; auto. congruence.
  - inversion H'; subst; try congruence.
    destruct (IH _ _ H1) as [-> ->]. auto.
Qed.

Lemma rootOf_det p i r r' : rootOf p i r -> rootOf p i r' -> r = r'.
Proof. intros [n H] [n' H']. now destruct (rootOfN_det _ _ _ _ H _ _ H'). Qed.

Lemma rootOf_range p i r : rootOf p i r -> 0 <= i < Z.of_nat (length p).
Proof. intros [n H]. eapply rootOfN_range; eauto. Qed.

Lemma rootOf_root p i r : rootOf p i r -> 0 <= r < Z.of_nat (length p) /\ zget p r = r.
Proof. intros [n H]. eapply rootOfN_root; eauto. Qed.

Lemma rootOf_here p r : 0 <= r < Z.of_nat (length p) -> zget p r = r -> rootOf p r r.
Proof. intros. exists O. now constructor. Qed.

Lemma rootOf_self p i r : rootOf p i r -> rootOf p r r.
Proof. intros H. destruct (rootOf_root _ _ _ H). now apply rootOf_here. Qed.

Lemma rootOf_step p i r :
  0 <= i < Z.of_nat (length p) -> rootOf p (zget p i) r -> rootOf p i r.
Proof.
  intros Hi [n H]. destruct (Z.eq_dec (zget p i) i) as [Heq|Hne].
  - rewrite Heq in H. now exists n.
  - exists (S n). now constructor.
Qed.

Lemma rootOf_is_root p r r' : zget p r = r -> rootOf p r r' -> r' = r.
Proof. intros Hr [n H]. inversion H; subst; auto. congruence. Qed.

(** The nodes on the way to the root are pairwise distinct, so a path has
    fewer steps than the array has cells. *)
Lemma rootOfN_chain p i r n :
  rootOfN p i r n ->
  exists l, length l = S n /\ NoDup l /\
            forall x, In x l -> exists m, (m <= n)%nat /\ rootOfN p x r m.
Proof.
  induction 1 as [r Hr Hp | i r n Hi Hp Hrec (l & Hlen & Hnd & Hl)].
  - exists [r]. repeat split; auto.
    + constructor; [simpl; tauto | constructor].
    + intros x [<-|[]]. exists O. split; auto. now constructor.
  - exists (i :: l). repeat split.
    + simpl. now rewrite Hlen.
    + constructor; auto. intros Hin. destruct (Hl _ Hin) as (m & Hm & Hx).
      assert (Hi' : rootOfN p i r (S n)) by now constructor.
      destruct (rootOfN_det _ _ _ _ Hi' _ _ Hx). lia.
    + intros x [<-|Hin].
      * exists (S n). split; auto. now constructor.
      * destruct (Hl _ Hin) as (m & Hm & Hx). exists m. split; auto.
Qed.

Lemma rootOfN_short p i r n : rootOfN p i r n -> (n < length p)%nat.
Proof.
  intros H. destruct (rootOfN_chain _ _ _ _ H) as (l & Hlen & Hnd & Hl).
  assert (Hincl : incl l (zrange (Z.of_nat (length p)))).
  { intros x Hx. destruct (Hl _ Hx) as (m & _ & Hm). apply in_zrange.
    eapply rootOfN_range; eauto. }
  pose proof (NoDup_incl_length Hnd Hincl) as Hle.
  rewrite zrange_length in Hle. lia.
Qed.

(** The search loop of [find] stops on the root before its fuel ends. *)
Lemma findRoot_steps p i r n fuel :
  rootOfN p i r n -> (n <= fuel)%nat -> findRoot fuel p i = r.
Proof.
  intros H. revert fuel. induction H as [r Hr Hp | i r n Hi Hp Hrec IH]; intros fuel Hf.
  - destruct fuel; simpl; auto. rewrite Hp, Z.eqb_refl. reflexivity.
  - destruct fuel; [lia|]. simpl.
    destruct (Z.eqb_spec i (zget p i)); [congruence|]. apply IH. lia.
Qed.

Lemma findRoot_reaches_root p i r :
  rootOf p i r -> findRoot (length p) p i = r.
Proof.
  intros [n H]. apply (findRoot_steps p i r n); auto.
  pose proof (rootOfN_short _ _ _ _ H). lia.
Qed.

(** Redirecting a non-root node to its own root changes no root. *)
Lemma shortcut_keeps_roots p c r :
  Z.of_nat (length p) <= 32768 ->
  rootOf p c r -> c <> r ->
  forall x r' m, rootOfN p x r' m ->
    exists m', (m' <= m)%nat /\ rootOfN (zset p c (toInt16 r)) x r' m'.
Proof.
  intros Hfit Hc Hne x r' m H.
  destruct (rootOf_root _ _ _ Hc) as [Hr Hpr].
  pose proof (rootOf_range _ _ _ Hc) as Hcr.
  rewrite toInt16_small by lia.
  assert (Hcnr : zget p c <> c).
  { intros Heq. apply Hne. symmetry. eapply rootOf_is_root; eauto. }
  induction H as [x Hx Hp | x r' m Hx Hp Hrec (m' & Hm' & IH)].
  - exists O. split; auto. constructor.
    + now rewrite zset_length.
    + rewrite zget_zset_other by (try lia; congruence). exact Hp.
  - destruct (Z.eq_dec x c) as [->|Hxc].
    + assert (r' = r).
      { eapply rootOf_det; eauto. exists (S m). now constructor. }
      subst r'. exists 1%nat. split; [lia|].
      constructor.
      * now rewrite zset_length.
      * rewrite zget_zset_same by lia. congruence.
      * rewrite zget_zset_same by lia. constructor.
        -- now rewrite zset_length.
        -- rewrite zget_zset_other by (try lia; congruence). exact Hpr.
    + exists (S m'). split; [lia|]. constructor.
      * now rewrite zset_length.
      * rewrite zget_zset_other by (try lia; congruence). exact Hp.
      * rewrite zget_zset_other by (try lia; congruence). exact IH.
Qed.

Lemma forest_sameRoots p p' :
  forest p -> length p' = length p ->
  (forall x r, rootOf p x r -> rootOf p' x r) -> sameRoots p p'.
Proof.
  intros Hf Hlen Himp. split; auto. intros x r. split; auto.
  intros H'. pose proof (rootOf_range _ _ _ H') as Hx. rewrite Hlen in Hx.
  destruct (Hf x Hx) as [r0 H0]. pose proof (Himp _ _ H0) as H0'.
  now rewrite (rootOf_det _ _ _ _ H' H0').
Qed.

Lemma sameRoots_refl p : sameRoots p p.
Proof. split; tauto. Qed.

Lemma sameRoots_trans p q s : sameRoots p q -> sameRoots q s -> sameRoots p s.
Proof.
  intros [L1 H1] [L2 H2]. split; [congruence|]. intros x r. rewrite H1. apply H2.
Qed.

Lemma sameRoots_forest p p' : sameRoots p p' -> forest p -> forest p'.
Proof.
  intros [Hlen H] Hf i Hi. rewrite Hlen in Hi. destruct (Hf i Hi) as [r Hr].
  exists r. now apply H.
Qed.

Lemma sameRoots_fixed p p' r :
  sameRoots p p' -> 0 <= r < Z.of_nat (length p) -> (zget p r = r <-> zget p' r = r).
Proof.
  intros [Hlen H] Hr. split; intros Hp.
  - apply (rootOf_root p' r r). apply H. now apply rootOf_here.
  - apply (rootOf_root p r r). apply H. apply rootOf_here; auto. now rewrite Hlen.
Qed.

Lemma shortcut_sameRoots p c r :
  Z.of_nat (length p) <= 32768 -> forest p ->
  rootOf p c r -> c <> r -> sameRoots p (zset p c (toInt16 r)).
Proof.
  intros Hfit Hf Hc Hne. apply forest_sameRoots; auto using zset_length.
  intros x r' [m H]. destruct (shortcut_keeps_roots p c r Hfit Hc Hne x r' m H) as (m' & _ & H').
  now exists m'.
Qed.

(** Path compression keeps every root. *)
Lemma compress_sameRoots fuel : forall p curr root,
  Z.of_nat (length p) <= 32768 -> forest p ->
  rootOf p curr root -> sameRoots p (compress fuel p curr root).
Proof.
  induction fuel as [|fuel IH]; intros p curr root Hfit Hf Hc; simpl.
  - apply sameRoots_refl.
  - destruct (Z.eqb_spec curr root) as [Heq|Hne]; [apply sameRoots_refl|].
    pose proof (shortcut_sameRoots p curr root Hfit Hf Hc Hne) as Hs.
    eapply sameRoots_trans; [exact Hs|].
    apply IH.
    + now rewrite zset_length.
    + eapply sameRoots_forest; eauto.
    + apply Hs. destruct Hc as [n Hn]. inversion Hn; subst; [congruence|]. now exists n0.
Qed.

(** [find] returns the root and leaves the partition as it was. *)
Lemma find_spec p i r :
  Z.of_nat (length p) <= 32768 -> forest p -> rootOf p i r ->
  fst (find p i) = r /\ sameRoots p (snd (find p i)).
Proof.
  intros Hfit Hf Hi. unfold find. simpl.
  rewrite (findRoot_reaches_root p i r Hi). split; auto.
  now apply compress_sameRoots.
Qed.

(** Linking one root under another merges exactly their two sets. *)
Lemma link_rootOf p a b :
  Z.of_nat (length p) <= 32768 -> forest p ->
  rootOf p a a -> rootOf p b b -> a <> b ->
  forall x r, rootOf (zset p a (toInt16 b)) x r <->
              (rootOf p x r /\ r <> a) \/ (rootOf p x a /\ r = b).
Proof.
  intros Hfit Hf Ha Hb Hab.
  destruct (rootOf_root _ _ _ Ha) as [Har Hpa].
  destruct (rootOf_root _ _ _ Hb) as [Hbr Hpb].
  rewrite toInt16_small by lia.
  set (p' := zset p a b).
  assert (Hlen : length p' = length p) by apply zset_length.
  assert (Hkeep : forall x r, rootOf p x r -> r <> a -> rootOf p' x r).
  { intros x r [n H] Hra. induction H as [x Hx Hp | x r n Hx Hp Hrec IH].
    - apply rootOf_here; [now rewrite Hlen|].
      unfold p'. rewrite zget_zset_other by (try lia; congruence). exact Hp.
    - assert (x <> a) by congruence.
      apply rootOf_step; [now rewrite Hlen|].
      unfold p' at 2. rewrite zget_zset_other by (try lia; congruence). now apply IH. }
  assert (Hmove : forall x, rootOf p x a -> rootOf p' x b).
  { intros x [n H]. remember a as a' eqn:Ea in H.
    induction H as [x Hx Hp | x r n Hx Hp Hrec IH]; subst.
    - apply rootOf_step; [now rewrite Hlen|].
      unfold p' at 2. rewrite zget_zset_same by lia. now apply Hkeep.
    - assert (x <> a) by congruence.
      apply rootOf_step; [now rewrite Hlen|].
      unfold p' at 2. rewrite zget_zset_other by (try lia; congruence). now apply IH. }
  intros x r. split.
  - intros H'. pose proof (rootOf_range _ _ _ H') as Hx. rewrite Hlen in Hx.
    destruct (Hf x Hx) as [r0 H0].
    destruct (Z.eq_dec r0 a) as [->|Hne].
    + right. split; auto. eapply rootOf_det; eauto.
    + left. pose proof (Hkeep _ _ H0 Hne) as H0'.
      rewrite (rootOf_det _ _ _ _ H' H0'). auto.
  - intros [[H Hra]|[H ->]]; auto.
Qed.

End UnionFindTheory.


(** ** Flat indices and adjacency *)

Section FlatGrid.
Import FastHexGame.

Lemma flat_div n r c : 0 < n -> 0 <= c < n -> (r * n + c) / n = r.
Proof. intros. rewrite Z.add_comm, Z.div_add by lia. rewrite Z.div_small; lia. Qed.

Lemma flat_mod n r c : 0 < n -> 0 <= c < n -> (r * n + c) mod n = c.
Proof. intros. rewrite Z.add_comm, Z.mod_add by lia. apply Z.mod_small; lia. Qed.

Lemma flat_rem n r c : 0 < n -> 0 <= r -> 0 <= c < n -> Z.rem (r * n + c) n = c.
Proof. intros. rewrite Z.rem_mod_nonneg by nia. now apply flat_mod. Qed.

Lemma flat_range n r c : 0 <= r < n -> 0 <= c < n -> 0 <= r * n + c < n * n.
Proof. intros. nia. Qed.

Lemma unflat_range n i :
  0 < n -> 0 <= i < n * n -> 0 <= i / n < n /\ 0 <= Z.rem i n < n /\ i = (i / n) * n + Z.rem i n.
Proof.
  intros Hn Hi. rewrite Z.rem_mod_nonneg by lia.
  pose proof (Z.mod_pos_bound i n Hn). pose proof (Z.div_mod i n ltac:(lia)).
  assert (0 <= i / n) by (apply Z.div_pos; lia).
  assert (i / n < n) by (apply Z.div_lt_upper_bound; lia).
  repeat split; lia.
Qed.

Lemma in_getNeighborsIdx n i j :
  In j (getNeighborsIdx n i) <->
  exists d, In d hexOffsets /\
            0 <= i / n + fst d < n /\ 0 <= Z.rem i n + snd d < n /\
            j = (i / n + fst d) * n + (Z.rem i n + snd d).
Proof.
  unfold getNeighborsIdx. rewrite in_flat_map. fold hexOffsets.
  split; intros (d & Hd & H); exists d; split; auto.
  - destruct ((i / n + fst d >=? 0) && (i / n + fst d <? n) &&
              (Z.rem i n + snd d >=? 0) && (Z.rem i n + snd d <? n)) eqn:Hb; [|destruct H].
    rewrite !andb_true_iff, !Z.geb_le, !Z.ltb_lt in Hb. destruct H as [<-|[]]. lia.
  - replace ((i / n + fst d >=? 0) && (i / n + fst d <? n) &&
             (Z.rem i n + snd d >=? 0) && (Z.rem i n + snd d <? n)) with true.
    + left. lia.
    + symmetry. rewrite !andb_true_iff, !Z.geb_le, !Z.ltb_lt. lia.
Qed.

Lemma adjF_range n i j : 0 < n -> adjF n i j -> 0 <= j < n * n.
Proof.
  intros Hn H. apply in_getNeighborsIdx in H. destruct H as (d & _ & Hr & Hc & ->).
  now apply flat_range.
Qed.

Lemma hexOffsets_opp d : In d hexOffsets -> In (- fst d, - snd d) hexOffsets.
Proof.
  unfold hexOffsets. simpl.
  intros [<-|[<-|[<-|[<-|[<-|[<-|[]]]]]]]; simpl; tauto.
Qed.

Lemma adjF_sym n i j : 0 < n -> 0 <= i < n * n -> adjF n i j -> adjF n j i.
Proof.
  intros Hn Hi H. apply in_getNeighborsIdx in H. destruct H as (d & Hd & Hr & Hc & ->).
  destruct (unflat_range n i Hn Hi) as (Hir & Hic & Hieq).
  apply in_getNeighborsIdx. exists (- fst d, - snd d). split; [now apply hexOffsets_opp|].
  rewrite flat_div, flat_rem by lia. simpl. repeat split; lia.
Qed.

Lemma adjF_irrefl n i : 0 < n -> 0 <= i < n * n -> ~ adjF n i i.
Proof.
  intros Hn Hi H. apply in_getNeighborsIdx in H. destruct H as (d & Hd & Hr & Hc & Heq).
  destruct (unflat_range n i Hn Hi) as (Hir & Hic & Hieq).
  assert (Hdiv : i / n = i / n + fst d).
  { rewrite Heq at 1. rewrite flat_div by lia. reflexivity. }
  assert (Hrem : Z.rem i n = Z.rem i n + snd d).
  { rewrite Heq at 1. rewrite flat_rem by lia. reflexivity. }
  unfold hexOffsets in Hd. simpl in Hd.
  destruct Hd as [<-|[<-|[<-|[<-|[<-|[<-|[]]]]]]]; simpl in *; lia.
Qed.

End FlatGrid.

(** ** Connectivity and the tracker *)

Section Connectivity.
Import UnionFind FastHexGame.

Lemma sameSet_refl p x : forest p -> 0 <= x < Z.of_nat (length p) -> sameSet p x x.
Proof. intros Hf Hx. destruct (Hf x Hx) as [r Hr]. exists r. auto. Qed.

Lemma sameSet_sym p x y : sameSet p x y -> sameSet p y x.
Proof. intros (r & H1 & H2). exists r. auto. Qed.

Lemma sameSet_trans p x y z : sameSet p x y -> sameSet p y z -> sameSet p x z.
Proof.
  intros (r & H1 & H2) (r' & H3 & H4). rewrite <- (rootOf_det _ _ _ _ H2 H3) in H4.
  exists r. auto.
Qed.

Lemma sameRoots_sameSet p p' x y : sameRoots p p' -> (sameSet p x y <-> sameSet p' x y).
Proof.
  intros [_ H]. split; intros (r & H1 & H2); exists r; split; apply H; auto.
Qed.

Lemma edgeF_sym n b i j : 0 < n -> edgeF n b i j -> edgeF n b j i.
Proof.
  intros Hn (Hi & Ha & Hc & Hz). split; [|split; [|split]].
  - eapply adjF_range; eauto.
  - now apply adjF_sym.
  - auto.
  - congruence.
Qed.

(** A chain of stones has one colour; an empty cell is joined to itself only. *)
Lemma connF_color n b x y :
  connF n b x y -> x = y \/ (zget b x <> 0 /\ zget b y = zget b x).
Proof.
  intros H. apply clos_rt_rt1n in H. induction H as [x | x y z Hxy Hyz IH]; auto.
  right. destruct Hxy as (_ & _ & Hc & Hz). split; auto.
  destruct IH as [<-|[_ IH]]; congruence.
Qed.

Lemma connF_range n b x y :
  0 < n -> 0 <= x < n * n -> connF n b x y -> 0 <= y < n * n.
Proof.
  intros Hn Hx H. apply clos_rt_rtn1 in H. induction H as [|y z Hyz _ _]; auto.
  destruct Hyz as (_ & Ha & _). eapply adjF_range; eauto.
Qed.

Lemma connF_sym n b x y : 0 < n -> connF n b x y -> connF n b y x.
Proof.
  intros Hn H. apply clos_rt_rtn1 in H. induction H as [|y z Hyz Hxy IH].
  - apply rt_refl.
  - eapply rt_trans; [|exact IH]. apply rt_step. now apply edgeF_sym.
Qed.

Lemma tracked_sameRoots n b p p' gs :
  tracked n b p gs -> sameRoots p p' -> tracked n b p' gs.
Proof.
  intros [Hsz Hfit Hlb Hlp Hlg Hcol Hfor Hsound Hsmall Hbits] Hs.
  pose proof Hs as [Hlen Hr]. constructor; auto.
  - congruence.
  - eapply sameRoots_forest; eauto.
  - intros x y H. apply Hsound. now apply (sameRoots_sameSet p p').
  - intros r k Hroot Hk. rewrite <- Hr in Hroot. rewrite (Hbits r k Hroot Hk).
    split; intros (x & H1 & H2); exists x; split; auto; now apply Hr.
Qed.

Lemma complete_sameRoots n b p p' : complete n b p -> sameRoots p p' -> complete n b p'.
Proof.
  intros Hc Hs x y He. apply (sameRoots_sameSet p p'); auto.
Qed.

Lemma tracked_find n b p gs i :
  tracked n b p gs -> 0 <= i < n * n ->
  rootOf p i (fst (find p i)) /\ sameRoots p (snd (find p i)) /\
  tracked n b (snd (find p i)) gs.
Proof.
  intros Ht Hi. pose proof Ht as [Hsz Hfit Hlb Hlp Hlg Hcol Hfor Hsound Hsmall Hbits].
  destruct (Hfor i ltac:(lia)) as [r Hr].
  destruct (find_spec p i r ltac:(lia) Hfor Hr) as [-> Hs].
  split; [|split]; auto. eapply tracked_sameRoots; eauto.
Qed.

Lemma lor_small a b : 0 <= a < 16 -> 0 <= b < 16 -> 0 <= Z.lor a b < 16.
Proof.
  intros Ha Hb. split.
  - apply Z.lor_nonneg. lia.
  - destruct (Z.eq_dec (Z.lor a b) 0) as [->|Hne]; [lia|].
    assert (0 < Z.lor a b) by (pose proof (proj2 (Z.lor_nonneg a b) ltac:(lia)); lia).
    change 16 with (2 ^ 4). apply Z.log2_lt_pow2; auto.
    rewrite Z.log2_lor by lia.
    apply Z.max_lub_lt.
    + destruct (Z.eq_dec a 0) as [->|]; [simpl; lia|]. apply Z.log2_lt_pow2; simpl; lia.
    + destruct (Z.eq_dec b 0) as [->|]; [simpl; lia|]. apply Z.log2_lt_pow2; simpl; lia.
Qed.

Lemma cellStatus_small n x v : 0 <= cellStatus n x v < 16.
Proof.
  unfold cellStatus.
  destruct (v =? 1); repeat match goal with |- context [if ?c then _ else _] => destruct c end;
    simpl; lia.
Qed.

(** [unionGroups] on two adjacent stones of one colour: the invariant is
    kept, no set is split, and the two stones end in one set. *)
Lemma tracked_unionGroups n b p gs i j :
  tracked n b p gs -> edgeF n b i j ->
  let ps := unionGroups i j (p, gs) in
  tracked n b (fst ps) (snd ps) /\
  (forall x y, sameSet p x y -> sameSet (fst ps) x y) /\
  sameSet (fst ps) i j.
Proof.
  intros Ht He.
  assert (Hn : 0 < n) by now destruct Ht.
  assert (Hi : 0 <= i < n * n) by now destruct He.
  assert (Hj : 0 <= j < n * n) by (destruct He as (_ & Ha & _); eapply adjF_range; eauto).
  pose proof (edgeF_sym n b i j Hn He) as He'.
  unfold unionGroups.
  destruct (tracked_find n b p gs i Ht Hi) as (HrI & Hs1 & Ht1).
  destruct (find p i) as [rootI p1]. cbn [fst snd] in HrI, Hs1, Ht1.
  destruct (tracked_find n b p1 gs j Ht1 Hj) as (HrJ & Hs2 & Ht2).
  destruct (find p1 j) as [rootJ p2]. cbn [fst snd] in HrJ, Hs2, Ht2.
  assert (Hs12 : sameRoots p p2) by (eapply sameRoots_trans; eauto).
  assert (HrI2 : rootOf p2 i rootI) by (apply Hs2, Hs1; auto).
  assert (HrJ2 : rootOf p2 j rootJ) by (apply Hs2; auto).
  destruct (Z.eqb_spec rootI rootJ) as [Heq|Hne]; cbn [negb fst snd].
  - split; [|split]; auto.
    + intros x y. apply (sameRoots_sameSet p p2); auto.
    + exists rootI. split; auto. now rewrite Heq.
  - (* the inner [union] finds the two roots again, then links them *)
    pose proof (rootOf_self _ _ _ HrI2) as HselfI.
    pose proof (rootOf_self _ _ _ HrJ2) as HselfJ.
    destruct (rootOf_root _ _ _ HrI2) as [HrangeI HfixI].
    destruct (rootOf_root _ _ _ HrJ2) as [HrangeJ HfixJ].
    assert (Hlen2 : Z.of_nat (length p2) = n * n) by now destruct Ht2.
    unfold union.
    destruct (tracked_find n b p2 gs rootI Ht2 ltac:(lia)) as (Ha & Hsa & Hta).
    pose proof (rootOf_det _ _ _ _ Ha HselfI) as Hea.
    destruct (find p2 rootI) as [ra pa]. cbn [fst snd] in Ha, Hsa, Hta, Hea. subst ra. clear Ha.
    assert (HselfJa : rootOf pa rootJ rootJ) by (apply Hsa; auto).
    destruct (tracked_find n b pa gs rootJ Hta ltac:(lia)) as (Hb & Hsb & Htb).
    pose proof (rootOf_det _ _ _ _ Hb HselfJa) as Heb.
    destruct (find pa rootJ) as [rb q]. cbn [fst snd] in Hb, Hsb, Htb, Heb. subst rb. clear Hb.
    assert (Hsq : sameRoots p q).
    { eapply sameRoots_trans; [exact Hs12|]. eapply sameRoots_trans; eauto. }
    assert (HqI : rootOf q rootI rootI) by (apply Hsb, Hsa; auto).
    assert (HqJ : rootOf q rootJ rootJ) by (apply Hsb; auto).
    replace (negb (rootI =? rootJ)) with true
      by (symmetry; apply negb_true_iff; now apply Z.eqb_neq).
    assert (Hlenq : Z.of_nat (length q) = n * n) by now destruct Htb.
    assert (Hfitq : Z.of_nat (length q) <= 32768) by (destruct Ht; lia).
    assert (Hfq : forest q) by now destruct Htb.
    pose proof (link_rootOf q rootI rootJ Hfitq Hfq HqI HqJ Hne) as Hlink.
    set (p3 := zset q rootI (toInt16 rootJ)) in *.
    assert (Hlen3 : length p3 = length q) by apply zset_length.
    assert (Hf3 : forest p3).
    { intros x Hx. rewrite Hlen3 in Hx. destruct (Hfq x Hx) as [r Hr].
      destruct (Z.eq_dec r rootI) as [->|Hr'].
      - exists rootJ. apply Hlink. auto.
      - exists r. apply Hlink. auto. }
    assert (H3I : rootOf p3 rootI rootJ) by (apply Hlink; auto).
    destruct (find_spec p3 rootI rootJ ltac:(lia) Hf3 H3I) as [Hnew Hs4].
    destruct (find p3 rootI) as [newRoot p4]. cbn [fst snd] in Hnew, Hs4. subst newRoot.
    assert (Hmono : forall x y, sameSet p x y -> sameSet p4 x y).
    { intros x y Hxy. apply (sameRoots_sameSet p3 p4); auto.
      apply (sameRoots_sameSet p q) in Hxy; auto.
      destruct Hxy as (r & Hx & Hy).
      destruct (Z.eq_dec r rootI) as [->|Hr'].
      - exists rootJ. split; apply Hlink; auto.
      - exists r. split; apply Hlink; auto. }
    assert (Hij : sameSet p4 i j).
    { apply (sameRoots_sameSet p3 p4); auto. exists rootJ. split; apply Hlink.
      - right. split; auto. apply Hsb, Hsa. auto.
      - left. split; auto. apply Hsb, Hsa. auto. }
    cbn [fst snd]. split; [|split]; auto.
    apply (tracked_sameRoots n b p3 p4); auto.
    pose proof (tracked_sameRoots n b p q gs Ht Hsq)
      as [_ _ _ _ _ _ _ _ _ Hbitsq].
    destruct Ht as [Hsz Hfit Hlb Hlp Hlg Hcol Hfor Hsound Hsmall Hbits].
    assert (HgI : 0 <= zget gs rootI < 16) by (apply Hsmall; lia).
    assert (HgJ : 0 <= zget gs rootJ < 16) by (apply Hsmall; lia).
    pose proof (lor_small _ _ HgI HgJ) as Hlor.
    rewrite toUint8_small by lia.
    constructor; auto.
    + lia.
    + now rewrite zset_length.
    + (* soundness *)
      intros x y (r & Hx & Hy). apply Hlink in Hx. apply Hlink in Hy.
      assert (Hci : forall z, rootOf q z rootI -> connF n b z i /\ connF n b i z).
      { intros z Hz. assert (sameSet p z i).
        { apply (sameRoots_sameSet p q); auto. exists rootI. split; auto.
          apply Hsb, Hsa; auto. }
        split; apply Hsound; auto. now apply sameSet_sym. }
      assert (Hcj : forall z, rootOf q z rootJ -> connF n b z j /\ connF n b j z).
      { intros z Hz. assert (sameSet p z j).
        { apply (sameRoots_sameSet p q); auto. exists rootJ. split; auto.
          apply Hsb, Hsa; auto. }
        split; apply Hsound; auto. now apply sameSet_sym. }
      destruct Hx as [[Hx Hxr]|[Hx ->]]; destruct Hy as [[Hy Hyr]|[Hy Hyeq]].
      * apply Hsound. apply (sameRoots_sameSet p q); auto. exists r. auto.
      * subst r. eapply rt_trans; [apply (Hcj x Hx)|].
        eapply rt_trans; [apply rt_step; exact He'|]. apply (Hci y Hy).
      * eapply rt_trans; [apply (Hci x Hx)|].
        eapply rt_trans; [apply rt_step; exact He|]. apply (Hcj y Hy).
      * apply Hsound. apply (sameRoots_sameSet p q); auto. exists rootI. auto.
    + intros z Hz. destruct (Z.eq_dec z rootJ) as [->|Hzj].
      * rewrite zget_zset_same by lia. lia.
      * rewrite zget_zset_other by (try lia; congruence). auto.
    + (* status bits *)
      intros r k Hroot Hk.
      apply Hlink in Hroot. destruct Hroot as [[Hroot Hr']|[Hroot ->]].
      * assert (Hrj : r <> rootJ \/ r = rootJ) by lia. destruct Hrj as [Hrj | ->].
        -- rewrite zget_zset_other by (try lia; destruct (rootOf_range _ _ _ Hroot); try lia; congruence).
           rewrite (Hbitsq r k Hroot Hk).
           split; intros (x & H1 & H2); exists x; split; auto.
           ++ apply Hlink. auto.
           ++ apply Hlink in H1. destruct H1 as [[H1 _]|[_ H1]]; auto. congruence.
        -- rewrite zget_zset_same by lia. rewrite Z.lor_spec, orb_true_iff.
           rewrite (Hbitsq rootI k HqI Hk), (Hbitsq rootJ k HqJ Hk).
           split.
           ++ intros [(x & H1 & H2)|(x & H1 & H2)]; exists x; split; auto; apply Hlink; auto.
           ++ intros (x & H1 & H2). apply Hlink in H1.
              destruct H1 as [[H1 _]|[H1 _]]; [right|left]; exists x; auto.
      * rewrite zget_zset_same by lia. rewrite Z.lor_spec, orb_true_iff.
        rewrite (Hbitsq rootI k HqI Hk), (Hbitsq rootJ k HqJ Hk).
        split.
        -- intros [(x & H1 & H2)|(x & H1 & H2)]; exists x; split; auto; apply Hlink; auto.
        -- intros (x & H1 & H2). apply Hlink in H1.
           destruct H1 as [[H1 _]|[H1 _]]; [right|left]; exists x; auto.
Qed.

End Connectivity.


(** ** The tracker follows the board *)

Section TrackerSteps.
Import UnionFind FastHexGame.

Lemma edgeF_ext n b b' i j :
  0 < n -> (forall k, 0 <= k < n * n -> zget b k = zget b' k) ->
  edgeF n b i j -> edgeF n b' i j.
Proof.
  intros Hn Hext (Hi & Ha & Hc & Hz).
  pose proof (adjF_range n i j Hn Ha) as Hj.
  unfold edgeF. rewrite <- (Hext i Hi), <- (Hext j Hj). auto.
Qed.

Lemma connF_mono n b b' x y :
  (forall i j, edgeF n b i j -> edgeF n b' i j) -> connF n b x y -> connF n b' x y.
Proof.
  intros Hm H. induction H.
  - apply rt_step. auto.
  - apply rt_refl.
  - eapply rt_trans; eauto.
Qed.

Lemma tracked_ext n b b' p gs :
  length b' = length b -> (forall k, 0 <= k < n * n -> zget b k = zget b' k) ->
  tracked n b p gs -> tracked n b' p gs.
Proof.
  intros Hlen Hext [Hsz Hfit Hlb Hlp Hlg Hcol Hfor Hsound Hsmall Hbits].
  constructor; auto.
  - congruence.
  - intros i Hi. rewrite <- Hext by auto. auto.
  - intros x y H. apply (connF_mono n b b'); auto. intros i j. now apply edgeF_ext.
  - intros r k Hr Hk. rewrite (Hbits r k Hr Hk).
    split; intros (x & H1 & H2 & H3); exists x; split; auto;
      pose proof (rootOf_range _ _ _ H1) as Hx;
      [rewrite <- (Hext x) by lia | rewrite (Hext x) by lia]; auto.
Qed.

(** An empty cell is alone in its set, and its status is clear. *)
Lemma empty_cell_alone n b p gs idx :
  tracked n b p gs -> 0 <= idx < n * n -> zget b idx = 0 ->
  rootOf p idx idx /\ (forall x, rootOf p x idx -> x = idx) /\ zget gs idx = 0.
Proof.
  intros [Hsz Hfit Hlb Hlp Hlg Hcol Hfor Hsound Hsmall Hbits] Hi Hb.
  assert (Halone : forall x, sameSet p x idx -> x = idx).
  { intros x Hx. destruct (connF_color n b x idx (Hsound _ _ Hx)) as [|[_ Hc]]; auto.
    apply sameSet_sym, Hsound, connF_color in Hx. destruct Hx as [|[Hx _]]; congruence. }
  assert (Hroot : rootOf p idx idx).
  { destruct (Hfor idx ltac:(lia)) as [r Hr].
    assert (r = idx) by (apply Halone; exists r; split; auto; eapply rootOf_self; eauto).
    now subst. }
  assert (Hmem : forall x, rootOf p x idx -> x = idx).
  { intros x Hx. apply Halone. exists idx. auto. }
  repeat split; auto.
  apply Z.bits_inj'. intros k Hk. rewrite Z.bits_0.
  apply not_true_is_false. intros Ht. apply (Hbits idx k Hroot Hk) in Ht.
  destruct Ht as (x & Hx & Hnz & _). apply Hmem in Hx. congruence.
Qed.

(** Placing a stone on an empty cell and running [initCell] on it. *)
Lemma tracked_initCell n b p gs idx v :
  tracked n b p gs -> 0 <= idx < n * n -> zget b idx = 0 -> v = 1 \/ v = 2 ->
  let ps := initCell n idx v (p, gs) in
  tracked n (zset b idx v) (fst ps) (snd ps) /\ sameRoots p (fst ps).
Proof.
  intros Ht Hi Hb Hv.
  destruct (empty_cell_alone n b p gs idx Ht Hi Hb) as (Hroot & Hmem & Hgs).
  unfold initCell.
  destruct (tracked_find n b p gs idx Ht Hi) as (Hr & Hs & Ht').
  pose proof (rootOf_det _ _ _ _ Hr Hroot) as Heq.
  destruct (find p idx) as [root p']. cbn [fst snd] in *. subst root.
  rewrite Hgs, Z.lor_0_l.
  pose proof (cellStatus_small n idx v) as Hst.
  rewrite toUint8_small by lia.
  split; auto.
  destruct Ht' as [Hsz Hfit Hlb Hlp Hlg Hcol Hfor Hsound Hsmall Hbits].
  assert (Hother : forall k, 0 <= k -> k <> idx -> zget (zset b idx v) k = zget b k).
  { intros k Hk Hne. apply zget_zset_other; lia. }
  constructor; auto.
  - now rewrite zset_length.
  - now rewrite zset_length.
  - intros i Hir. destruct (Z.eq_dec i idx) as [->|Hne].
    + rewrite zget_zset_same by lia. lia.
    + rewrite Hother by lia. auto.
  - intros x y H. apply (connF_mono n b); auto.
    intros i j (Hir & Ha & Hc & Hz).
    pose proof (adjF_range n i j Hsz Ha) as Hjr.
    assert (i <> idx) by congruence. assert (j <> idx) by congruence.
    unfold edgeF. rewrite !Hother by lia. auto.
  - intros i Hir. destruct (Z.eq_dec i idx) as [->|Hne].
    + rewrite zget_zset_same by lia. lia.
    + rewrite zget_zset_other by lia. auto.
  - intros r k Hrr Hk.
    assert (Hmem' : forall x, rootOf p' x idx -> x = idx) by (intros x Hx; apply Hmem, Hs; auto).
    destruct (Z.eq_dec r idx) as [->|Hne].
    + rewrite zget_zset_same by lia. split.
      * intros Hbit. exists idx. split; auto. rewrite zget_zset_same by lia.
        split; auto. lia.
      * intros (x & Hx & _ & Hbit). apply Hmem' in Hx. subst x.
        now rewrite zget_zset_same in Hbit by lia.
    + pose proof (rootOf_range _ _ _ Hrr) as Hrange.
      rewrite zget_zset_other by lia. rewrite (Hbits r k Hrr Hk).
      assert (Hx' : forall x, rootOf p' x r -> 0 <= x /\ x <> idx).
      { intros x Hx. split; [apply (rootOf_range _ _ _ Hx)|].
        intros ->. apply Hne. eapply rootOf_det; eauto. apply Hs; auto. }
      split; intros (x & Hx & H2); exists x; split; auto;
        destruct (Hx' x Hx); [rewrite Hother by lia | rewrite Hother in H2 by lia]; auto.
Qed.

(** The loop that unions a stone with its neighbours of the same colour. *)
Lemma tracked_unionLoop n b idx v : forall l p gs,
  tracked n b p gs -> 0 <= idx < n * n -> zget b idx = v -> v <> 0 ->
  (forall y, In y l -> adjF n idx y) ->
  let ps := fold_left (fun ps y => if zget b y =? v then unionGroups idx y ps else ps)
                      l (p, gs) in
  tracked n b (fst ps) (snd ps) /\
  (forall x y, sameSet p x y -> sameSet (fst ps) x y) /\
  (forall y, In y l -> zget b y = v -> sameSet (fst ps) idx y).
Proof.
  induction l as [|y l IH]; intros p gs Ht Hi Hb Hv Hadj; cbn [fold_left].
  - cbn [fst snd]. split; [|split]; auto. intros y [].
  - destruct (Z.eqb_spec (zget b y) v) as [Hy|Hy].
    + assert (He : edgeF n b idx y).
      { split; [lia|]. split; [apply Hadj; now left|]. split; congruence. }
      destruct (tracked_unionGroups n b p gs idx y Ht He) as (Ht1 & Hm1 & Hs1).
      destruct (unionGroups idx y (p, gs)) as [p1 gs1]. cbn [fst snd] in *.
      destruct (IH p1 gs1 Ht1 Hi Hb Hv (fun z Hz => Hadj z (or_intror Hz))) as (Ht2 & Hm2 & Hs2).
      split; [|split]; auto.
      intros z [<-|Hz] Hzv; auto.
    + destruct (IH p gs Ht Hi Hb Hv (fun z Hz => Hadj z (or_intror Hz))) as (Ht2 & Hm2 & Hs2).
      split; [|split]; auto.
      intros z [<-|Hz] Hzv; [congruence|auto].
Qed.

Lemma tracked_unionNeighbors n b p gs idx v :
  tracked n b p gs -> 0 <= idx < n * n -> zget b idx = v -> v <> 0 ->
  let ps := unionNeighbors n b idx v (p, gs) in
  tracked n b (fst ps) (snd ps) /\
  (forall x y, sameSet p x y -> sameSet (fst ps) x y) /\
  (forall y, edgeF n b idx y -> sameSet (fst ps) idx y).
Proof.
  intros Ht Hi Hb Hv.
  destruct (tracked_unionLoop n b idx v (getNeighborsIdx n idx) p gs Ht Hi Hb Hv
              (fun y H => H)) as (H1 & H2 & H3).
  unfold unionNeighbors. split; [|split]; auto.
  intros y (_ & Ha & Hc & _). apply H3; auto. congruence.
Qed.

(** One stone placed on an empty cell: the tracker is in step again. *)
Lemma place_inStep g idx filled :
  inStep g -> 0 <= idx < size g * size g -> zget (board g) idx = 0 ->
  inStep (place g idx filled).
Proof.
  intros (Ht & Hc & Hcur) Hi Hb.
  assert (Hn : 0 < size g) by now destruct Ht.
  assert (Hlenb : Z.of_nat (length (board g)) = size g * size g) by now destruct Ht.
  unfold inStep, place. cbn [size board uf groupStatus currentPlayer].
  rewrite toInt8_small by lia.
  set (cur := currentPlayer g) in *.
  set (b' := zset (board g) idx cur).
  destruct (tracked_initCell _ _ _ _ idx cur Ht Hi Hb Hcur) as (Ht1 & Hs1).
  destruct (initCell (size g) idx cur (uf g, groupStatus g)) as [p1 gs1]. cbn [fst snd] in *.
  assert (Hb' : zget b' idx = cur) by (unfold b'; apply zget_zset_same; lia).
  destruct (tracked_unionNeighbors _ b' p1 gs1 idx cur Ht1 Hi Hb' ltac:(lia)) as (Ht2 & Hm2 & Hs2).
  fold b' in Ht1.
  destruct (unionNeighbors (size g) b' idx cur (p1, gs1)) as [p2 gs2]. cbn [fst snd] in *.
  split; [exact Ht2|]. split.
  - intros x y He.
    destruct (Z.eq_dec x idx) as [->|Hx]; [now apply Hs2|].
    destruct (Z.eq_dec y idx) as [->|Hy].
    + apply sameSet_sym, Hs2. now apply edgeF_sym.
    + apply Hm2. apply (sameRoots_sameSet (uf g) p1); auto. apply Hc.
      destruct He as (Hxr & Ha & Hcol & Hz).
      pose proof (adjF_range _ _ _ Hn Ha) as Hyr.
      unfold b' in Hcol, Hz. rewrite !zget_zset_other in Hcol by lia.
      rewrite zget_zset_other in Hz by lia. split; [lia|]. split; auto.
  - destruct Hcur as [->| ->]; simpl; auto.
Qed.

Lemma makeMove_inStep g r c :
  inStep g -> 0 <= r < size g -> 0 <= c < size g ->
  zget (board g) (r * size g + c) = 0 ->
  inStep (makeMove g r c).
Proof.
  intros Hg Hr Hc Hb. apply place_inStep; auto. now apply flat_range.
Qed.

End TrackerSteps.


(** ** The constructor puts the tracker in step *)

Section TrackerConstruction.
Import UnionFind FastHexGame.

Lemma nth_zrange n k : (k < Z.to_nat n)%nat -> nth k (zrange n) 0 = Z.of_nat k.
Proof.
  intros Hk. unfold zrange. change 0 with (Z.of_nat O). rewrite map_nth.
  now rewrite seq_nth.
Qed.

Lemma zrange_snoc k : zrange (Z.of_nat (S k)) = zrange (Z.of_nat k) ++ [Z.of_nat k].
Proof.
  unfold zrange. rewrite !Nat2Z.id, seq_S, map_app. reflexivity.
Qed.

Lemma zget_map_toInt8 l i : zget (map toInt8 l) i = toInt8 (zget l i).
Proof. unfold zget. change 0 with (toInt8 0) at 1. apply map_nth. Qed.

Lemma zget_create n i : 0 <= i < n -> n <= 32768 -> zget (UnionFind.create n) i = i.
Proof.
  intros Hi Hn. unfold zget, UnionFind.create. change 0 with (toInt16 0) at 1.
  rewrite map_nth, nth_zrange by lia. rewrite toInt16_small; lia.
Qed.

Lemma create_length n : length (UnionFind.create n) = Z.to_nat n.
Proof. unfold UnionFind.create. now rewrite length_map, zrange_length. Qed.

Lemma zget_zeros k i : zget (repeat 0 k) i = 0.
Proof. unfold zget. apply nth_repeat. Qed.

Lemma nth_map_lt {A B} (f : A -> B) l k d d' :
  (k < length l)%nat -> nth k (map f l) d = f (nth k l d').
Proof.
  intros Hk. rewrite (nth_indep _ d (f d')) by now rewrite length_map. apply map_nth.
Qed.

Lemma nth_flat_map_fixed {A B} (f : A -> list B) (k : nat) (da : A) (d : B) :
  (forall x, length (f x) = k) ->
  forall l i j, (j < k)%nat -> (i < length l)%nat ->
  nth (i * k + j) (flat_map f l) d = nth j (f (nth i l da)) d.
Proof.
  intros Hf. induction l as [|a l IH]; intros i j Hj Hi; simpl in *; [lia|].
  destruct i as [|i].
  - simpl. rewrite app_nth1 by (rewrite Hf; lia). reflexivity.
  - rewrite app_nth2 by (rewrite Hf; simpl; lia). rewrite Hf.
    replace (S i * k + j - k)%nat with (i * k + j)%nat by (simpl; lia).
    apply IH; lia.
Qed.

Lemma flatten_length src :
  0 <= HexGame.size src ->
  length (flatten src) = Z.to_nat (HexGame.size src * HexGame.size src).
Proof.
  intros Hpos. unfold flatten. set (n := HexGame.size src) in *.
  assert (H : forall l, length (flat_map (fun r => map (fun c => HexGame.cell (HexGame.board src) r c)
                                                      (zrange n)) l)
                        = (length l * Z.to_nat n)%nat).
  { induction l; simpl; auto. rewrite length_app, length_map, zrange_length. lia. }
  rewrite H, zrange_length. rewrite Z2Nat.inj_mul by lia. reflexivity.
Qed.

Lemma zget_flatten src r c :
  0 <= r < HexGame.size src -> 0 <= c < HexGame.size src ->
  zget (flatten src) (r * HexGame.size src + c) = HexGame.cell (HexGame.board src) r c.
Proof.
  intros Hr Hc. unfold zget, flatten. set (n := HexGame.size src) in *.
  replace (Z.to_nat (r * n + c)) with (Z.to_nat r * Z.to_nat n + Z.to_nat c)%nat by nia.
  rewrite (nth_flat_map_fixed _ (Z.to_nat n) 0 0).
  - rewrite nth_zrange by lia. rewrite Z2Nat.id by lia.
    rewrite (nth_map_lt _ _ _ _ 0) by (rewrite zrange_length; lia).
    rewrite nth_zrange by lia. rewrite Z2Nat.id by lia. reflexivity.
  - intros x. now rewrite length_map, zrange_length.
  - lia.
  - rewrite zrange_length. lia.
Qed.

Lemma zget_masked b k i :
  0 <= i -> zget (masked b k) i = if (Z.to_nat i <? k)%nat then zget b i else 0.
Proof.
  intros Hi. unfold zget, masked.
  destruct (Nat.ltb_spec (Z.to_nat i) k) as [Hlt|Hge].
  - destruct (Nat.lt_ge_cases (Z.to_nat i) (length b)).
    + rewrite app_nth1 by (rewrite length_firstn; lia). rewrite nth_firstn.
      apply Nat.ltb_lt in Hlt. now rewrite Hlt.
    + rewrite (nth_overflow b) by lia. apply nth_overflow.
      rewrite length_app, length_firstn, repeat_length. lia.
  - destruct (Nat.lt_ge_cases (Z.to_nat i) (length (firstn k b))).
    + rewrite length_firstn in H. lia.
    + rewrite app_nth2 by lia. apply nth_repeat.
Qed.

Lemma masked_length b k : length (masked b k) = length b.
Proof. unfold masked. rewrite length_app, length_firstn, repeat_length. lia. Qed.

(** A fresh tracker over an empty board. *)
Lemma tracked_fresh n b :
  0 < n -> n * n <= 32768 -> Z.of_nat (length b) = n * n ->
  (forall i, 0 <= i < n * n -> zget b i = 0) ->
  tracked n b (UnionFind.create (n * n)) (repeat 0 (Z.to_nat (n * n))).
Proof.
  intros Hn Hfit Hlen Hz.
  assert (Hlenp : Z.of_nat (length (UnionFind.create (n * n))) = n * n)
    by (rewrite create_length; lia).
  assert (Hself : forall i, 0 <= i < n * n -> rootOf (UnionFind.create (n * n)) i i).
  { intros i Hi. apply rootOf_here; [lia|]. apply zget_create; lia. }
  constructor; auto.
  - rewrite repeat_length. lia.
  - intros i Hi. rewrite Hz; lia.
  - intros i Hi. exists i. apply Hself. lia.
  - intros x y (r & Hx & Hy).
    pose proof (rootOf_range _ _ _ Hx) as Hxr. pose proof (rootOf_range _ _ _ Hy) as Hyr.
    rewrite (rootOf_det _ _ _ _ Hx (Hself x ltac:(lia))) in Hy.
    rewrite (rootOf_det _ _ _ _ Hy (Hself y ltac:(lia))). apply rt_refl.
  - intros i Hi. rewrite zget_zeros. lia.
  - intros r k Hr Hk. rewrite zget_zeros, Z.bits_0. split; [discriminate|].
    intros (x & Hx & Hnz & _). exfalso. apply Hnz. apply Hz.
    pose proof (rootOf_range _ _ _ Hx). lia.
Qed.

(** First pass of the constructor: after [k] cells the tracker describes
    the first [k] cells of the board. *)
Lemma initPass_tracked n b :
  0 < n -> n * n <= 32768 -> Z.of_nat (length b) = n * n ->
  (forall i, 0 <= i < n * n -> 0 <= zget b i <= 2) ->
  forall k, (k <= length b)%nat ->
  let ps := fold_left (fun ps i => if negb (zget b i =? 0)
                                   then initCell n i (zget b i) ps else ps)
                      (zrange (Z.of_nat k))
                      (UnionFind.create (n * n), repeat 0 (Z.to_nat (n * n))) in
  tracked n (masked b k) (fst ps) (snd ps).
Proof.
  intros Hn Hfit Hlen Hcol. induction k as [|k IH]; intros Hk.
  - cbn [zrange Z.of_nat Z.to_nat seq map fold_left fst snd].
    apply tracked_fresh; auto.
    + now rewrite masked_length.
    + intros i Hi. rewrite zget_masked by lia. reflexivity.
  - rewrite zrange_snoc, fold_left_app. cbn [fold_left].
    specialize (IH ltac:(lia)). cbv zeta in IH.
    destruct (fold_left _ (zrange (Z.of_nat k)) _) as [p gs]. cbn [fst snd] in IH.
    assert (Hkr : 0 <= Z.of_nat k < n * n) by lia.
    assert (Hmk : zget (masked b k) (Z.of_nat k) = 0).
    { rewrite zget_masked by lia. rewrite Nat2Z.id, Nat.ltb_irrefl. reflexivity. }
    assert (Hnext : forall b', length b' = length b ->
              (forall i, 0 <= i < n * n ->
                 zget b' i = if i =? Z.of_nat k then zget b i else zget (masked b k) i) ->
              forall i, 0 <= i < n * n -> zget b' i = zget (masked b (S k)) i).
    { intros b' Hl Hb' i Hi. rewrite Hb' by auto. rewrite !zget_masked by lia.
      destruct (Z.eqb_spec i (Z.of_nat k)) as [->|Hne].
      - rewrite Nat2Z.id. replace (k <? S k)%nat with true; auto.
        symmetry. apply Nat.ltb_lt. lia.
      - destruct (Nat.ltb_spec (Z.to_nat i) k); destruct (Nat.ltb_spec (Z.to_nat i) (S k));
          auto; lia. }
    destruct (Z.eqb_spec (zget b (Z.of_nat k)) 0) as [Hz|Hnz]; cbn [negb].
    + cbn [fst snd]. apply (tracked_ext n (masked b k)); auto.
      * now rewrite !masked_length.
      * apply Hnext; [apply masked_length|].
        intros i Hi. destruct (Z.eqb_spec i (Z.of_nat k)) as [->|]; auto. congruence.
    + assert (Hv : zget b (Z.of_nat k) = 1 \/ zget b (Z.of_nat k) = 2)
        by (specialize (Hcol _ Hkr); lia).
      destruct (tracked_initCell n (masked b k) p gs (Z.of_nat k) _ IH Hkr Hmk Hv) as [Ht _].
      apply (tracked_ext n (zset (masked b k) (Z.of_nat k) (zget b (Z.of_nat k)))); auto.
      * now rewrite zset_length, !masked_length.
      * apply Hnext; [now rewrite zset_length, masked_length|].
        intros i Hi. destruct (Z.eqb_spec i (Z.of_nat k)) as [->|Hne].
        -- apply zget_zset_same. rewrite masked_length. lia.
        -- apply zget_zset_other; lia.
Qed.

(** Second pass of the constructor: every stone is unioned with its
    neighbours of the same colour. *)
Lemma unionPass_tracked n b : forall l p gs,
  tracked n b p gs -> (forall x, In x l -> 0 <= x < n * n) ->
  let ps := fold_left (fun ps i => if negb (zget b i =? 0)
                                   then unionNeighbors n b i (zget b i) ps else ps)
                      l (p, gs) in
  tracked n b (fst ps) (snd ps) /\
  (forall x y, sameSet p x y -> sameSet (fst ps) x y) /\
  (forall x y, In x l -> edgeF n b x y -> sameSet (fst ps) x y).
Proof.
  induction l as [|i l IH]; intros p gs Ht Hl; cbn [fold_left].
  - cbn [fst snd]. split; [|split]; auto. intros x y [].
  - assert (Hi : 0 <= i < n * n) by (apply Hl; now left).
    destruct (Z.eqb_spec (zget b i) 0) as [Hz|Hnz]; cbn [negb].
    + destruct (IH p gs Ht (fun x H => Hl x (or_intror H))) as (H1 & H2 & H3).
      split; [|split]; auto.
      intros x y [<-|Hx] He; auto. destruct He as (_ & _ & _ & He). congruence.
    + destruct (tracked_unionNeighbors n b p gs i _ Ht Hi eq_refl Hnz) as (Ht1 & Hm1 & Hs1).
      destruct (unionNeighbors n b i (zget b i) (p, gs)) as [p1 gs1]. cbn [fst snd] in *.
      destruct (IH p1 gs1 Ht1 (fun x H => Hl x (or_intror H))) as (H1 & H2 & H3).
      split; [|split]; auto.
      intros x y [<-|Hx] He; auto.
Qed.

(** A flat board holding the grid of a well-formed game. *)
Lemma flatten_colors src i :
  HexGame.wf src -> 0 <= i < HexGame.size src * HexGame.size src ->
  0 <= zget (flatten src) i <= 2.
Proof.
  intros (Hn & _ & _ & Hcells) Hi.
  destruct (unflat_range _ i Hn Hi) as (Hr & Hc & Heq).
  rewrite Heq, zget_flatten by lia.
  specialize (Hcells _ _ Hr Hc). unfold EMPTY, PLAYER_RED, PLAYER_BLUE in Hcells. lia.
Qed.

Lemma board_create src :
  HexGame.wf src -> board (create src) = flatten src.
Proof.
  intros Hwf. unfold create. cbn [board].
  apply nth_ext with (d := 0) (d' := 0); [now rewrite length_map|].
  intros k Hk. rewrite length_map in Hk.
  pose proof (zget_map_toInt8 (flatten src) (Z.of_nat k)) as H.
  unfold zget in H. rewrite Nat2Z.id in H. rewrite H.
  apply toInt8_small.
  pose proof (flatten_colors src (Z.of_nat k) Hwf) as Hc.
  destruct Hwf as (Hn & _).
  rewrite flatten_length in Hk by lia. unfold zget in Hc. rewrite Nat2Z.id in Hc.
  assert (0 <= HexGame.size src * HexGame.size src) by nia.
  lia.
Qed.

Lemma create_inStep src :
  HexGame.wf src -> HexGame.size src * HexGame.size src <= 32768 ->
  HexGame.currentPlayer src = 1 \/ HexGame.currentPlayer src = 2 ->
  inStep (create src) /\
  size (create src) = HexGame.size src /\
  board (create src) = flatten src.
Proof.
  intros Hwf Hfit Hcur. pose proof (board_create src Hwf) as Hb.
  split; [|split; auto].
  unfold inStep. rewrite Hb. unfold create. cbn [size uf groupStatus currentPlayer].
  fold (flatten src). assert (Hb' : map toInt8 (flatten src) = flatten src) by exact Hb.
  rewrite Hb'. set (n := HexGame.size src) in *. set (b := flatten src) in *.
  assert (Hn : 0 < n) by now destruct Hwf.
  assert (Hlen : Z.of_nat (length b) = n * n).
  { unfold b. rewrite flatten_length by (unfold n; lia). nia. }
  assert (Hcol : forall i, 0 <= i < n * n -> 0 <= zget b i <= 2)
    by (intros; now apply flatten_colors).
  pose proof (initPass_tracked n b Hn Hfit Hlen Hcol (length b) (le_n _)) as H1.
  cbv zeta in H1. rewrite Hlen in H1.
  destruct (fold_left _ (zrange (n * n)) (UnionFind.create (n * n), _)) as [p1 gs1] eqn:E1.
  cbn [fst snd] in H1.
  assert (Ht1 : tracked n b p1 gs1).
  { apply (tracked_ext n (masked b (length b))); auto.
    - symmetry. apply masked_length.
    - intros k Hk. rewrite zget_masked by lia.
      replace (Z.to_nat k <? length b)%nat with true; auto.
      symmetry. apply Nat.ltb_lt. lia. }
  destruct (unionPass_tracked n b (zrange (n * n)) p1 gs1 Ht1
              (fun x H => proj1 (in_zrange _ _) H)) as (Ht2 & _ & Hs2).
  destruct (fold_left _ (zrange (n * n)) (p1, gs1)) as [p2 gs2]. cbn [fst snd] in *.
  split; [exact Ht2|]. split; auto.
  intros x y He. apply Hs2; auto. apply in_zrange. now destruct He.
Qed.

End TrackerConstruction.


(** ** The tracker's win check *)

Section TrackerWinCheck.
Import UnionFind FastHexGame.

Lemma checkWinScan_spec n b gs mask pl : forall cells p,
  tracked n b p gs -> (forall i, In i cells -> 0 <= i < n * n) ->
  let res := checkWinScan cells b gs mask pl p in
  sameRoots p (snd res) /\
  (fst res = true <->
   exists i, In i cells /\ zget b i = pl /\
             exists r, rootOf p i r /\ Z.land (zget gs r) mask = mask).
Proof.
  induction cells as [|i cells IH]; intros p Ht Hc; cbn [checkWinScan].
  - cbn [fst snd]. split; [apply sameRoots_refl|]. split; [discriminate|].
    intros (i & [] & _).
  - assert (Hi : 0 <= i < n * n) by (apply Hc; now left).
    assert (Hc' : forall k, In k cells -> 0 <= k < n * n) by (intros; apply Hc; now right).
    destruct (Z.eqb_spec (zget b i) pl) as [Hpl|Hpl].
    + destruct (tracked_find n b p gs i Ht Hi) as (Hr & Hs & Ht').
      destruct (find p i) as [root p']. cbn [fst snd] in *.
      destruct (Z.eqb_spec (Z.land (zget gs root) mask) mask) as [Hm|Hm].
      * cbn [fst snd]. split; auto. split; auto. intros _.
        exists i. split; [now left|]. split; auto. exists root. auto.
      * destruct (IH p' Ht' Hc') as (Hs' & Hiff). split.
        -- eapply sameRoots_trans; eauto.
        -- rewrite Hiff. split.
           ++ intros (k & Hk & Hbk & r & Hrk & Hmk). exists k. split; [now right|].
              split; auto. exists r. split; auto. now apply Hs.
           ++ intros (k & [<-|Hk] & Hbk & r & Hrk & Hmk).
              ** rewrite (rootOf_det _ _ _ _ Hrk Hr) in Hmk. contradiction.
              ** exists k. split; auto. split; auto. exists r. split; auto. now apply Hs.
    + destruct (IH p Ht Hc') as (Hs' & Hiff). split; auto.
      rewrite Hiff. split.
      * intros (k & Hk & H). exists k. split; [now right|auto].
      * intros (k & [<-|Hk] & Hbk & H); [contradiction|]. exists k. auto.
Qed.

Lemma land3 v : 0 <= v < 16 ->
  (Z.land v 3 = 3 <-> Z.testbit v 0 = true /\ Z.testbit v 1 = true).
Proof.
  intros Hv.
  assert (H : v = 0 \/ v = 1 \/ v = 2 \/ v = 3 \/ v = 4 \/ v = 5 \/ v = 6 \/ v = 7 \/
              v = 8 \/ v = 9 \/ v = 10 \/ v = 11 \/ v = 12 \/ v = 13 \/ v = 14 \/ v = 15) by lia.
  repeat (destruct H as [->|H]); try subst v; cbn; intuition congruence.
Qed.

Lemma land12 v : 0 <= v < 16 ->
  (Z.land v 12 = 12 <-> Z.testbit v 2 = true /\ Z.testbit v 3 = true).
Proof.
  intros Hv.
  assert (H : v = 0 \/ v = 1 \/ v = 2 \/ v = 3 \/ v = 4 \/ v = 5 \/ v = 6 \/ v = 7 \/
              v = 8 \/ v = 9 \/ v = 10 \/ v = 11 \/ v = 12 \/ v = 13 \/ v = 14 \/ v = 15) by lia.
  repeat (destruct H as [->|H]); try subst v; cbn; intuition congruence.
Qed.

(** The boundary bits of a red stone and of a blue stone. *)
Lemma cellStatus_red n x :
  (Z.testbit (cellStatus n x 1) 0 = true <-> x / n = 0) /\
  (Z.testbit (cellStatus n x 1) 1 = true <-> x / n = n - 1).
Proof.
  unfold cellStatus. cbn [Z.eqb Pos.eqb].
  destruct (Z.eqb_spec (x / n) 0); destruct (Z.eqb_spec (x / n) (n - 1));
    cbn; intuition congruence.
Qed.

Lemma cellStatus_blue n x :
  (Z.testbit (cellStatus n x 2) 2 = true <-> Z.rem x n = 0) /\
  (Z.testbit (cellStatus n x 2) 3 = true <-> Z.rem x n = n - 1).
Proof.
  unfold cellStatus. cbn [Z.eqb Pos.eqb].
  destruct (Z.eqb_spec (Z.rem x n) 0); destruct (Z.eqb_spec (Z.rem x n) (n - 1));
    cbn; intuition congruence.
Qed.

(** Joined stones are in one set once the tracker is in step. *)
Lemma connF_sameSet n b p gs x y :
  tracked n b p gs -> complete n b p -> 0 <= x < n * n ->
  connF n b x y -> sameSet p x y.
Proof.
  intros Ht Hc Hx H. apply clos_rt_rtn1 in H.
  induction H as [|y z Hyz _ IH].
  - apply sameSet_refl; [now destruct Ht|]. destruct Ht. lia.
  - eapply sameSet_trans; eauto.
Qed.

(** The start and far bits of a side inside one set. *)
Lemma set_bits n b p gs pl i r :
  tracked n b p gs -> pl = 1 \/ pl = 2 ->
  zget b i = pl -> rootOf p i r ->
  let mask := if pl =? 1 then 3 else 12 in
  (Z.land (zget gs r) mask = mask <->
   (exists x, rootOf p x r /\ onStart n pl x) /\ (exists y, rootOf p y r /\ onFar n pl y)).
Proof.
  intros Ht Hpl Hbi Hir.
  pose proof Ht as [Hsz Hfit Hlb Hlp Hlg Hcol Hfor Hsound Hsmall Hbits].
  pose proof (rootOf_self _ _ _ Hir) as Hrr.
  destruct (rootOf_root _ _ _ Hir) as [Hrange _].
  assert (Hcolor : forall x, rootOf p x r -> zget b x = pl /\ 0 <= x < n * n).
  { intros x Hx. split; [|pose proof (rootOf_range _ _ _ Hx); lia].
    assert (Hs : sameSet p i x) by (exists r; auto).
    destruct (connF_color n b i x (Hsound _ _ Hs)) as [<-|[_ Hc]]; congruence. }
  assert (Hsm : 0 <= zget gs r < 16) by (apply Hsmall; lia).
  destruct Hpl as [-> | ->]; cbn [Z.eqb Pos.eqb]; cbv zeta.
  - rewrite (land3 _ Hsm), (Hbits r 0 Hrr ltac:(lia)), (Hbits r 1 Hrr ltac:(lia)).
    split; intros [(x & Hx & Hxs) (y & Hy & Hys)]; split.
    + exists x. split; auto. destruct (Hcolor x Hx) as [Hcx Hxr]. destruct Hxs as [_ Hxs].
      rewrite Hcx in Hxs. split; auto. cbn [Z.eqb Pos.eqb]. now apply cellStatus_red.
    + exists y. split; auto. destruct (Hcolor y Hy) as [Hcy Hyr]. destruct Hys as [_ Hys].
      rewrite Hcy in Hys. split; auto. cbn [Z.eqb Pos.eqb]. now apply cellStatus_red.
    + exists x. split; auto. destruct (Hcolor x Hx) as [Hcx Hxr]. rewrite Hcx.
      split; [lia|]. apply cellStatus_red. now destruct Hxs.
    + exists y. split; auto. destruct (Hcolor y Hy) as [Hcy Hyr]. rewrite Hcy.
      split; [lia|]. apply cellStatus_red. now destruct Hys.
  - rewrite (land12 _ Hsm), (Hbits r 2 Hrr ltac:(lia)), (Hbits r 3 Hrr ltac:(lia)).
    split; intros [(x & Hx & Hxs) (y & Hy & Hys)]; split.
    + exists x. split; auto. destruct (Hcolor x Hx) as [Hcx Hxr]. destruct Hxs as [_ Hxs].
      rewrite Hcx in Hxs. split; auto. cbn [Z.eqb Pos.eqb]. now apply cellStatus_blue.
    + exists y. split; auto. destruct (Hcolor y Hy) as [Hcy Hyr]. destruct Hys as [_ Hys].
      rewrite Hcy in Hys. split; auto. cbn [Z.eqb Pos.eqb]. now apply cellStatus_blue.
    + exists x. split; auto. destruct (Hcolor x Hx) as [Hcx Hxr]. rewrite Hcx.
      split; [lia|]. apply cellStatus_blue. now destruct Hxs.
    + exists y. split; auto. destruct (Hcolor y Hy) as [Hcy Hyr]. rewrite Hcy.
      split; [lia|]. apply cellStatus_blue. now destruct Hys.
Qed.

(** The tracker answers "won" exactly when the side has joined its edges
    on the board; checking leaves the tracker in step. *)
Lemma checkWin_linked g pl :
  inStep g -> pl = 1 \/ pl = 2 ->
  (fst (checkWin g pl) = true <-> linked (size g) (board g) pl) /\
  inStep (snd (checkWin g pl)) /\
  board (snd (checkWin g pl)) = board g /\ size (snd (checkWin g pl)) = size g.
Proof.
  intros (Ht & Hc & Hcur) Hpl. unfold checkWin.
  pose proof Ht as [Hsz Hfit Hlb Hlp Hlg Hcol Hfor Hsound Hsmall Hbits].
  set (mask := if pl =? 1 then 3 else 12).
  destruct (checkWinScan_spec (size g) (board g) (groupStatus g) mask pl
              (zrange (Z.of_nat (length (board g)))) (uf g) Ht) as (Hs & Hiff).
  { intros i Hi. apply in_zrange in Hi. lia. }
  destruct (checkWinScan _ _ _ _ _ _) as [res p']. cbn [fst snd] in *.
  split; [|split; [|split]]; auto.
  - rewrite Hiff. split.
    + intros (i & Hi & Hbi & r & Hr & Hm).
      apply (set_bits _ _ _ _ pl i r Ht Hpl Hbi Hr) in Hm.
      destruct Hm as [(x & Hx & Hxs) (y & Hy & Hys)].
      exists x, y. split; [|split; [|split]]; auto.
      * assert (Hsx : sameSet (uf g) i x) by (exists r; auto).
        destruct (connF_color _ _ _ _ (Hsound _ _ Hsx)) as [<-|[_ Hcx]]; congruence.
      * apply Hsound. exists r. auto.
    + intros (x & y & Hbx & Hxs & Hys & Hconn).
      assert (Hxr : 0 <= x < size g * size g) by now destruct Hxs.
      destruct (connF_sameSet _ _ _ _ x y Ht Hc Hxr Hconn) as (r & Hx & Hy).
      exists x. split; [apply in_zrange; lia|]. split; auto.
      exists r. split; auto.
      apply (set_bits _ _ _ _ pl x r Ht Hpl Hbx Hx). split; [exists x|exists y]; auto.
  - unfold inStep, withUF. cbn [size board uf groupStatus currentPlayer].
    split; [eapply tracked_sameRoots; eauto|]. split; auto.
    eapply complete_sameRoots; eauto.
Qed.

End TrackerWinCheck.


(** ** The reference breadth-first win check *)

Section ReferenceScan.
Import HexGame.

Lemma inBounds_iff n r c : inBounds n r c = true <-> 0 <= r < n /\ 0 <= c < n.
Proof. unfold inBounds. rewrite !andb_true_iff, !Z.leb_le, !Z.ltb_lt. lia. Qed.

Lemma vcell_vset_same n v r c :
  vshaped n v -> 0 <= r < n -> 0 <= c < n -> vcell (vset v r c) r c = true.
Proof.
  intros [H1 H2] Hr Hc. unfold vcell, vset.
  rewrite nth_upd_same by lia. apply nth_upd_same. rewrite H2; lia.
Qed.

Lemma vcell_vset_other v r c r' c' :
  0 <= r -> 0 <= c -> 0 <= r' -> 0 <= c' -> (r, c) <> (r', c') ->
  vcell (vset v r c) r' c' = vcell v r' c'.
Proof.
  intros Hr Hc Hr' Hc' Hne. unfold vcell, vset.
  destruct (Z.eq_dec r r') as [->|Hrr].
  - assert (c <> c') by congruence.
    destruct (Nat.lt_ge_cases (Z.to_nat r') (length v)).
    + rewrite nth_upd_same by auto. apply nth_upd_other. lia.
    + rewrite (nth_overflow (upd _ _ _)) by (rewrite upd_length; lia).
      now rewrite (nth_overflow v) by lia.
  - f_equal. apply nth_upd_other. lia.
Qed.

Lemma vset_shaped n v r c : vshaped n v -> vshaped n (vset v r c).
Proof.
  intros [H1 H2]. unfold vset. split; [now rewrite upd_length|].
  intros k Hk. destruct (Nat.eq_dec (Z.to_nat r) k) as [<-|Hne].
  - rewrite nth_upd_same by lia. rewrite upd_length. auto.
  - rewrite nth_upd_other by auto. auto.
Qed.

Lemma grid_shaped n : vshaped n (grid n false).
Proof.
  unfold grid. split; [apply repeat_length|].
  intros k Hk. rewrite nth_repeat_lt by lia. apply repeat_length. 
Qed.

Lemma vcell_grid n r c : vcell (grid n false) r c = false.
Proof.
  unfold vcell, grid.
  destruct (Nat.lt_ge_cases (Z.to_nat r) (Z.to_nat n)).
  - rewrite nth_repeat_lt by lia. apply nth_repeat.
  - rewrite (nth_overflow (repeat _ _)) by (rewrite repeat_length; lia).
    now destruct (Z.to_nat c).
Qed.

Lemma NoDup_snoc {A} (l : list A) y : NoDup l -> ~ In y l -> NoDup (l ++ [y]).
Proof.
  induction 1 as [|a l Ha Hl IH]; simpl; intros Hy.
  - constructor; [tauto|constructor].
  - constructor.
    + rewrite in_app_iff. simpl. intros [H|[H|[]]]; [tauto|]. subst. tauto.
    + apply IH. tauto.
Qed.

Lemma in_getNeighbors g r c y :
  In y (getNeighbors g r c) -> inBounds (size g) (fst y) (snd y) = true.
Proof. unfold getNeighbors. intros H. apply filter_In in H. tauto. Qed.

Section Scan.
Variable g : t.
Variable pl : Z.
Variable seedP : Z * Z -> Prop.
Hypothesis Hwf : wf g.

(** The neighbour loop marks and enqueues exactly the unseen neighbours
    holding the side's stone. *)
Lemma visitNeighbors_spec x done :
  (exists s, seedP s /\ reachP g pl s x) ->
  forall ns v q,
  scanState g pl seedP v (done ++ q) ->
  (forall y, In y ns -> In y (getNeighbors g (fst x) (snd x))) ->
  let vq := visitNeighbors g pl ns v q in
  scanState g pl seedP (fst vq) (done ++ snd vq) /\
  (exists added, snd vq = q ++ added) /\
  (forall y, In y ns -> cell (board g) (fst y) (snd y) = pl -> In y (done ++ snd vq)).
Proof.
  intros (s0 & Hs0 & Hreach). unfold visitNeighbors.
  induction ns as [|[nr nc] ns IH]; intros v q Hst Hns; cbn [fold_left].
  - cbn [fst snd]. split; [|split]; auto.
    + exists []. now rewrite app_nil_r.
    + intros y [].
  - assert (Hin : In (nr, nc) (getNeighbors g (fst x) (snd x))) by (apply Hns; now left).
    pose proof (in_getNeighbors _ _ _ _ Hin) as Hb. cbn [fst snd] in Hb.
    pose proof Hb as Hb'. apply inBounds_iff in Hb'.
    assert (Hns' : forall y, In y ns -> In y (getNeighbors g (fst x) (snd x)))
      by (intros; apply Hns; now right).
    destruct (negb (vcell v nr nc) && (cell (board g) nr nc =? pl)) eqn:Hcond.
    + apply andb_true_iff in Hcond. destruct Hcond as [Hnv Hc].
      apply negb_true_iff in Hnv. apply Z.eqb_eq in Hc.
      destruct Hst as [Hseen Hvis Hnd Hsh].
      assert (Hnew : ~ In (nr, nc) (done ++ q)).
      { intros H. apply Hvis in H; auto. congruence. }
      assert (Hst1 : scanState g pl seedP (vset v nr nc) (done ++ (q ++ [(nr, nc)]))).
      { rewrite app_assoc. constructor.
        - intros y Hy. apply in_app_or in Hy. destruct Hy as [Hy|[<-|[]]]; auto.
          cbn [fst snd]. split; auto. split; auto. exists s0. split; auto.
          eapply rt_trans; [exact Hreach|]. apply rt_step. split; auto.
        - intros r c Hrc. pose proof Hrc as Hrc'. apply inBounds_iff in Hrc'.
          rewrite in_app_iff. cbn [In].
          destruct (Z.eq_dec r nr) as [->|Hr]; [destruct (Z.eq_dec c nc) as [->|Hcc]|].
          + rewrite (vcell_vset_same (size g)) by (auto; lia). tauto.
          + rewrite vcell_vset_other by (try lia; congruence). rewrite Hvis by auto.
            split; [tauto|]. intros [H|[H|[]]]; auto. congruence.
          + rewrite vcell_vset_other by (try lia; congruence). rewrite Hvis by auto.
            split; [tauto|]. intros [H|[H|[]]]; auto. congruence.
        - now apply NoDup_snoc.
        - now apply vset_shaped. }
      destruct (IH _ _ Hst1 Hns') as (H1 & (added & H2) & H3).
      split; [exact H1|]. split.
      * exists ((nr, nc) :: added). rewrite H2, <- app_assoc. reflexivity.
      * intros y [<-|Hy] Hcy; auto.
        rewrite H2. rewrite !in_app_iff. cbn [In]. tauto.
    + destruct (IH _ _ Hst Hns') as (H1 & H2 & H3).
      split; [exact H1|]. split; auto.
      intros y [<-|Hy] Hcy; auto. cbn [fst snd] in Hcy.
      apply andb_false_iff in Hcond. destruct Hcond as [Hv|Hc].
      * apply negb_false_iff in Hv. destruct Hst as [_ Hvis _ _].
        apply Hvis in Hv; auto. destruct H2 as (added & ->).
        rewrite app_assoc, in_app_iff. auto.
      * apply Z.eqb_neq in Hc. contradiction.
Qed.

(** The marked cells are distinct cells of the board. *)
Lemma seen_bounded v seen :
  scanState g pl seedP v seen -> Z.of_nat (length seen) <= size g * size g.
Proof.
  intros [Hseen _ Hnd _].
  assert (Hincl : incl seen (list_prod (zrange (size g)) (zrange (size g)))).
  { intros [r c] Hy. apply in_prod_iff. rewrite !in_zrange.
    destruct (Hseen _ Hy) as (Hb & _). now apply inBounds_iff in Hb. }
  pose proof (NoDup_incl_length Hnd Hincl) as Hle.
  rewrite length_prod, !zrange_length in Hle. destruct Hwf as (Hn & _). nia.
Qed.

(** The seeding loop marks and enqueues the side's stones of the edge. *)
Lemma seed_spec edge :
  NoDup edge ->
  (forall x, In x edge -> inBounds (size g) (fst x) (snd x) = true) ->
  (forall s, seedP s <-> In s edge /\ cell (board g) (fst s) (snd s) = pl) ->
  let vq := seed g pl edge in
  scanState g pl seedP (fst vq) (snd vq) /\ (forall s, seedP s -> In s (snd vq)).
Proof.
  intros Hnd Hb HseedP. unfold seed.
  assert (Hgen : forall l v q,
    NoDup l -> (forall x, In x l -> In x edge) -> (forall x, In x l -> ~ In x q) ->
    scanState g pl seedP v q ->
    let vq := fold_left (fun (vq : list (list bool) * list (Z * Z)) (rc : Z * Z) =>
                 let (v, q) := vq in let (r, c) := rc in
                 if cell (board g) r c =? pl then (vset v r c, q ++ [(r, c)]) else (v, q))
               l (v, q) in
    scanState g pl seedP (fst vq) (snd vq) /\
    (forall s, In s q \/ (In s l /\ cell (board g) (fst s) (snd s) = pl) -> In s (snd vq))).
  { induction l as [|[r c] l IH]; intros v q Hl Hle Hfresh Hst; cbn [fold_left].
    - cbn [fst snd]. split; auto. intros s [H|[[] _]]; auto.
    - inversion Hl as [|? ? Hnotin Hl']; subst.
      assert (Hrc : inBounds (size g) r c = true) by (apply (Hb (r, c)), Hle; now left).
      pose proof Hrc as Hrc'. apply inBounds_iff in Hrc'.
      destruct (Z.eqb_spec (cell (board g) r c) pl) as [Hc|Hc].
      + destruct Hst as [Hseen Hvis Hndq Hsh].
        assert (Hst1 : scanState g pl seedP (vset v r c) (q ++ [(r, c)])).
        { constructor.
          - intros y Hy. apply in_app_or in Hy. destruct Hy as [Hy|[<-|[]]]; auto.
            cbn [fst snd]. split; auto. split; auto. exists (r, c). split; [|apply rt_refl].
            apply HseedP. split; auto. apply Hle. now left.
          - intros r' c' Hrc2. pose proof Hrc2 as Hrc2'. apply inBounds_iff in Hrc2'.
            rewrite in_app_iff. cbn [In].
            destruct (Z.eq_dec r' r) as [->|Hr]; [destruct (Z.eq_dec c' c) as [->|Hcc]|].
            + rewrite (vcell_vset_same (size g)) by (auto; lia). tauto.
            + rewrite vcell_vset_other by (try lia; congruence). rewrite Hvis by auto.
              split; [tauto|]. intros [H|[H|[]]]; auto. congruence.
            + rewrite vcell_vset_other by (try lia; congruence). rewrite Hvis by auto.
              split; [tauto|]. intros [H|[H|[]]]; auto. congruence.
          - apply NoDup_snoc; auto. apply Hfresh. now left.
          - now apply vset_shaped. }
        assert (Hfresh1 : forall x, In x l -> ~ In x (q ++ [(r, c)])).
        { intros x Hx Hq. apply in_app_or in Hq. destruct Hq as [Hq|[<-|[]]].
          - apply (Hfresh x (or_intror Hx) Hq).
          - contradiction. }
        destruct (IH _ _ Hl' (fun x H => Hle x (or_intror H)) Hfresh1 Hst1) as (H1 & H2).
        split; auto. intros s [Hs|[[<-|Hs] Hcs]]; apply H2.
        * left. apply in_or_app. now left.
        * left. apply in_or_app. right. now left.
        * right. auto.
      + destruct (IH _ _ Hl' (fun x H => Hle x (or_intror H))
                     (fun x H => Hfresh x (or_intror H)) Hst) as (H1 & H2).
        split; auto. intros s [Hs|[[<-|Hs] Hcs]]; try (apply H2; auto; fail).
        cbn [fst snd] in Hcs. contradiction. }
  destruct (Hgen edge (grid (size g) false) [] Hnd (fun x H => H) (fun x _ H => H)) as (H1 & H2).
  - constructor.
    + intros y [].
    + intros r c _. rewrite vcell_grid. split; [discriminate|intros []].
    + constructor.
    + apply grid_shaped.
  - split; auto. intros s Hs. apply H2. right. now apply HseedP.
Qed.

Variable goal : Z -> Z -> bool.

(** Once the queue is empty the marked cells are all the cells a seed
    reaches, and none of them is a goal. *)
Lemma drained_no_goal v done :
  scanState g pl seedP v done ->
  (forall x, In x done -> goal (fst x) (snd x) = false /\
                          forall y, stepP g pl x y -> In y done) ->
  (forall s, seedP s -> In s done) ->
  ~ chained g pl seedP goal.
Proof.
  intros Hst Hclosed Hseeds (s & t & Hs & Hreach & Hgoal).
  assert (Ht : In t done).
  { clear Hgoal. apply clos_rt_rtn1 in Hreach. induction Hreach as [|y z Hyz _ IH]; auto.
    apply (Hclosed y IH). exact Hyz. }
  destruct (Hclosed t Ht) as [Hg _]. congruence.
Qed.

(** The scan loop answers [true] exactly when a seed is chained to a goal
    cell, provided the fuel covers the cells not yet dequeued. *)
Lemma bfsLoop_spec : forall fuel v q done,
  scanState g pl seedP v (done ++ q) ->
  (forall x, In x done -> goal (fst x) (snd x) = false /\
                          forall y, stepP g pl x y -> In y (done ++ q)) ->
  (forall s, seedP s -> In s (done ++ q)) ->
  size g * size g <= Z.of_nat fuel + Z.of_nat (length done) ->
  (bfsLoop fuel g pl goal v q = true <-> chained g pl seedP goal).
Proof.
  induction fuel as [|fuel IH]; intros v q done Hst Hclosed Hseeds Hfuel.
  - cbn [bfsLoop]. pose proof (seen_bounded _ _ Hst) as Hb.
    rewrite length_app in Hb. assert (q = []) by (destruct q; simpl in *; [auto|lia]).
    subst q. rewrite app_nil_r in *. split; [discriminate|].
    intros H. exfalso. eapply drained_no_goal; eauto.
  - cbn [bfsLoop]. destruct q as [|[row col] rest].
    + rewrite app_nil_r in *. split; [discriminate|].
      intros H. exfalso. eapply drained_no_goal; eauto.
    + assert (Hx : In (row, col) (done ++ (row, col) :: rest))
        by (apply in_or_app; right; now left).
      destruct Hst as [Hseen Hvis Hnd Hsh].
      destruct (Hseen _ Hx) as (Hxb & Hxc & Hxs).
      destruct (goal row col) eqn:Hg.
      * split; auto. intros _. destruct Hxs as (s & Hs & Hr). exists s, (row, col). auto.
      * assert (Hst0 : scanState g pl seedP v ((done ++ [(row, col)]) ++ rest)).
        { rewrite <- app_assoc. constructor; auto. }
        destruct (visitNeighbors_spec (row, col) (done ++ [(row, col)]) Hxs
                    (getNeighbors g row col) v rest Hst0 (fun y H => H))
          as (Hst1 & (added & Hadd) & Hnb).
        destruct (visitNeighbors g pl (getNeighbors g row col) v rest) as [v' q'].
        cbn [fst snd] in *. subst q'.
        apply (IH v' (rest ++ added) (done ++ [(row, col)])); auto.
        -- intros x Hxin. apply in_app_or in Hxin. destruct Hxin as [Hxin|[<-|[]]].
           ++ destruct (Hclosed x Hxin) as [Hgx Hcl]. split; auto.
              intros y Hy. specialize (Hcl y Hy).
              rewrite <- app_assoc. rewrite !in_app_iff in *. cbn [In] in *. tauto.
           ++ cbn [fst snd]. split; auto. intros y [Hy Hcy]. apply Hnb; auto.
        -- intros s Hs. specialize (Hseeds s Hs).
           rewrite <- app_assoc. rewrite !in_app_iff in *. cbn [In] in *. tauto.
        -- rewrite length_app. cbn [length]. lia.
Qed.

End Scan.

(** The seed cells of a side: its stones in the top row (red) or in the
    left column (blue). *)
Lemma checkWin_chained g pl :
  wf g -> pl = PLAYER_RED \/ pl = PLAYER_BLUE ->
  (checkWin g pl = true <->
   chained g pl
     (fun s => cell (board g) (fst s) (snd s) = pl /\
               inBounds (size g) (fst s) (snd s) = true /\
               (if pl =? PLAYER_RED then fst s = 0 else snd s = 0))
     (fun row col => if pl =? PLAYER_RED then row =? size g - 1 else col =? size g - 1)).
Proof.
  intros Hwf Hpl. pose proof Hwf as (Hn & _). unfold checkWin.
  assert (Hfuel : size g * size g <= Z.of_nat (Z.to_nat (size g * size g)) + Z.of_nat (@length (Z * Z) [])).
  { simpl. nia. }
  destruct Hpl as [-> | ->]; cbn [Z.eqb Pos.eqb PLAYER_RED PLAYER_BLUE].
  - set (seedP := fun s : Z * Z => cell (board g) (fst s) (snd s) = 1 /\
                                   inBounds (size g) (fst s) (snd s) = true /\ fst s = 0).
    destruct (seed_spec g 1 seedP (map (fun col => (0, col)) (zrange (size g)))) as (Hst & Hseeds).
    + apply Injective_map_NoDup; [|apply zrange_NoDup]. intros a b H. congruence.
    + intros x Hx. apply in_map_iff in Hx. destruct Hx as (c & <- & Hc).
      apply in_zrange in Hc. apply inBounds_iff. simpl. lia.
    + intros [r c]. unfold seedP. cbn [fst snd]. rewrite in_map_iff, inBounds_iff. split.
      * intros (Hc & Hb & ->). split; auto. exists c. split; auto. apply in_zrange. lia.
      * intros ((c' & Heq & Hc') & Hc). inversion Heq; subst.
        apply in_zrange in Hc'. repeat split; auto; lia.
    + change PLAYER_RED with 1.
      destruct (seed g 1 _) as [v q]. cbn [fst snd] in *.
      apply (bfsLoop_spec g 1 seedP Hwf (fun row _ => row =? size g - 1) _ v q []); auto.
      intros x [].
  - set (seedP := fun s : Z * Z => cell (board g) (fst s) (snd s) = 2 /\
                                   inBounds (size g) (fst s) (snd s) = true /\ snd s = 0).
    destruct (seed_spec g 2 seedP (map (fun row => (row, 0)) (zrange (size g)))) as (Hst & Hseeds).
    + apply Injective_map_NoDup; [|apply zrange_NoDup]. intros a b H. congruence.
    + intros x Hx. apply in_map_iff in Hx. destruct Hx as (c & <- & Hc).
      apply in_zrange in Hc. apply inBounds_iff. simpl. lia.
    + intros [r c]. unfold seedP. cbn [fst snd]. rewrite in_map_iff, inBounds_iff. split.
      * intros (Hc & Hb & ->). split; auto. exists r. split; auto. apply in_zrange. lia.
      * intros ((c' & Heq & Hc') & Hc). inversion Heq; subst.
        apply in_zrange in Hc'. repeat split; auto; lia.
    + change PLAYER_BLUE with 2.
      destruct (seed g 2 _) as [v q]. cbn [fst snd] in *.
      apply (bfsLoop_spec g 2 seedP Hwf (fun _ col => col =? size g - 1) _ v q []); auto.
      intros x [].
Qed.

End ReferenceScan.


(** ** The tracker agrees with the reference scan *)

Section Agreement.

Lemma in_hexNeighbors g r c y :
  In y (HexGame.getNeighbors g r c) <->
  (exists d, In d hexOffsets /\ y = (r + fst d, c + snd d)) /\
  HexGame.inBounds (HexGame.size g) (fst y) (snd y) = true.
Proof.
  unfold HexGame.getNeighbors. rewrite filter_In. unfold hexOffsets. cbn [In].
  split; intros [H Hb]; split; auto.
  - destruct H as [<-|[<-|[<-|[<-|[<-|[<-|[]]]]]]];
      [exists (-1, 0) | exists (-1, 1) | exists (0, -1) | exists (0, 1)
       | exists (1, -1) | exists (1, 0)]; cbn [fst snd]; split; auto 10; f_equal; lia.
  - destruct H as (d & Hd & ->).
    destruct Hd as [<-|[<-|[<-|[<-|[<-|[<-|[]]]]]]]; cbn [fst snd];
      [do 0 right | do 1 right | do 2 right | do 3 right | do 4 right | do 5 right];
      left; f_equal; lia.
Qed.

Lemma flat_inj n r c r' c' :
  0 < n -> 0 <= c < n -> 0 <= c' < n -> r * n + c = r' * n + c' -> r = r' /\ c = c'.
Proof.
  intros Hn Hc Hc' H.
  assert (r = r').
  { rewrite <- (flat_div n r c Hn Hc), <- (flat_div n r' c' Hn Hc'). now rewrite H. }
  subst. split; auto. lia.
Qed.

(** Grid adjacency is flat adjacency. *)
Lemma adj_bridge g r c r' c' :
  0 < HexGame.size g -> 0 <= r < HexGame.size g -> 0 <= c < HexGame.size g ->
  (In (r', c') (HexGame.getNeighbors g r c) <->
   (0 <= r' < HexGame.size g /\ 0 <= c' < HexGame.size g) /\
   adjF (HexGame.size g) (r * HexGame.size g + c) (r' * HexGame.size g + c')).
Proof.
  intros Hn Hr Hc. set (n := HexGame.size g) in *.
  rewrite in_hexNeighbors. unfold adjF. rewrite in_getNeighborsIdx.
  rewrite flat_div, flat_rem by lia. cbn [fst snd]. fold n. rewrite inBounds_iff.
  split.
  - intros [(d & Hd & Heq) Hb]. inversion Heq; subst. split; auto.
    exists d. repeat split; auto; lia.
  - intros [Hb (d & Hd & Hr' & Hc' & Heq)]. split; auto.
    exists d. split; auto.
    destruct (flat_inj n r' c' (r + fst d) (c + snd d) Hn ltac:(lia) ltac:(lia) Heq).
    congruence.
Qed.

Section Bridge.
Variable g : HexGame.t.
Variable fb : list Z.
Variable pl : Z.
Hypothesis Hwf : HexGame.wf g.
Hypothesis Hflat : FastHexGame.flatten g = fb.
Hypothesis Hpl : pl <> 0.

Let n := HexGame.size g.

Lemma cell_flat r c :
  0 <= r < n -> 0 <= c < n -> zget fb (r * n + c) = HexGame.cell (HexGame.board g) r c.
Proof. intros. rewrite <- Hflat. now apply zget_flatten. Qed.

Lemma reachP_connF s t :
  HexGame.inBounds n (fst s) (snd s) = true ->
  HexGame.cell (HexGame.board g) (fst s) (snd s) = pl ->
  reachP g pl s t ->
  connF n fb (fst s * n + snd s) (fst t * n + snd t) /\
  HexGame.inBounds n (fst t) (snd t) = true /\
  HexGame.cell (HexGame.board g) (fst t) (snd t) = pl.
Proof.
  intros Hsb Hsc H. apply clos_rt_rtn1 in H.
  induction H as [|y z Hyz _ (IHc & IHb & IHcol)].
  - split; [apply rt_refl|auto].
  - destruct Hyz as [Hnb Hzc]. destruct y as [yr yc], z as [zr zc]. cbn [fst snd] in *.
    apply inBounds_iff in IHb. destruct Hwf as (Hn & _). fold n in Hn.
    apply adj_bridge in Hnb; try (fold n; lia). fold n in Hnb. destruct Hnb as [Hzb Hadj].
    split; [|split; auto].
    + eapply rt_trans; [exact IHc|]. apply rt_step.
      split; [now apply flat_range|]. split; auto.
      rewrite !cell_flat by lia. split; congruence.
    + now apply inBounds_iff.
Qed.

Lemma connF_reachP s j :
  HexGame.inBounds n (fst s) (snd s) = true ->
  HexGame.cell (HexGame.board g) (fst s) (snd s) = pl ->
  connF n fb (fst s * n + snd s) j ->
  exists t, HexGame.inBounds n (fst t) (snd t) = true /\ j = fst t * n + snd t /\
            reachP g pl s t.
Proof.
  intros Hsb Hsc H. apply clos_rt_rtn1 in H.
  induction H as [|i j Hij _ (y & Hyb & -> & Hreach)].
  - exists s. split; auto. split; auto. apply rt_refl.
  - destruct Hwf as (Hn & _). fold n in Hn.
    destruct Hij as (Hir & Hadj & Hcol & Hnz).
    pose proof (adjF_range n _ _ Hn Hadj) as Hjr.
    destruct (unflat_range n j Hn Hjr) as (Hjr' & Hjc' & Hjeq).
    destruct y as [yr yc]. cbn [fst snd] in *. apply inBounds_iff in Hyb.
    exists (j / n, Z.rem j n). cbn [fst snd]. split; [now apply inBounds_iff|].
    split; auto.
    eapply rt_trans; [exact Hreach|]. apply rt_step. split; cbn [fst snd].
    + apply adj_bridge; try (fold n; lia). fold n. split; auto. now rewrite <- Hjeq.
    + destruct (reachP_connF s (yr, yc) Hsb Hsc Hreach) as (_ & _ & Hyc). cbn [fst snd] in Hyc.
      rewrite <- cell_flat, <- Hjeq by lia. rewrite <- Hcol. rewrite cell_flat by lia. exact Hyc.
Qed.

End Bridge.

(** On one grid, the reference scan finds a chain exactly when the flat
    board is linked. *)
Lemma chained_linked g fb pl :
  HexGame.wf g -> FastHexGame.flatten g = fb -> pl = 1 \/ pl = 2 ->
  (chained g pl
     (fun s => HexGame.cell (HexGame.board g) (fst s) (snd s) = pl /\
               HexGame.inBounds (HexGame.size g) (fst s) (snd s) = true /\
               (if pl =? PLAYER_RED then fst s = 0 else snd s = 0))
     (fun row col => if pl =? PLAYER_RED then row =? HexGame.size g - 1
                     else col =? HexGame.size g - 1)
   <-> linked (HexGame.size g) fb pl).
Proof.
  intros Hwf Hflat Hpl. pose proof Hwf as (Hn & _). set (n := HexGame.size g) in *.
  assert (Hnz : pl <> 0) by lia.
  change PLAYER_RED with 1.
  split.
  - intros ([sr sc] & [tr tc] & (Hsc & Hsb & Hedge) & Hreach & Hgoal). cbn [fst snd] in *.
    destruct (reachP_connF g fb pl Hwf Hflat Hnz (sr, sc) (tr, tc) Hsb Hsc Hreach) as (Hconn & Htb & Htc).
    cbn [fst snd] in *. fold n in Hconn, Htb.
    apply inBounds_iff in Hsb. apply inBounds_iff in Htb.
    exists (sr * n + sc), (tr * n + tc). split; [|split; [|split]]; auto.
    + rewrite (cell_flat g fb Hflat) by (fold n; lia). exact Hsc.
    + split; [now apply flat_range|]. destruct (pl =? 1).
      * rewrite flat_div by lia. exact Hedge.
      * rewrite flat_rem by lia. exact Hedge.
    + split; [now apply flat_range|]. destruct (pl =? 1).
      * rewrite flat_div by lia. now apply Z.eqb_eq.
      * rewrite flat_rem by lia. now apply Z.eqb_eq.
  - intros (x & y & Hbx & [Hxr Hxs] & [Hyr Hys] & Hconn).
    destruct (unflat_range n x Hn Hxr) as (Hxr' & Hxc' & Hxeq).
    assert (Hsb : HexGame.inBounds n (x / n) (Z.rem x n) = true) by now apply inBounds_iff.
    assert (Hsc : HexGame.cell (HexGame.board g) (x / n) (Z.rem x n) = pl).
    { rewrite <- (cell_flat g fb Hflat) by (fold n; lia). fold n. now rewrite <- Hxeq. }
    destruct (connF_reachP g fb pl Hwf Hflat Hnz (x / n, Z.rem x n) y Hsb Hsc) as (t & Htb & Hyeq & Hreach).
    { cbn [fst snd]. fold n. now rewrite <- Hxeq. }
    exists (x / n, Z.rem x n), t. cbn [fst snd]. split; [|split]; auto.
    fold n in Htb, Hyeq. apply inBounds_iff in Htb. subst y. cbv beta.
    destruct (pl =? 1).
    + rewrite flat_div in Hys by lia. now apply Z.eqb_eq.
    + rewrite flat_rem in Hys by lia. now apply Z.eqb_eq.
Qed.

Lemma makeMove_size g r c : FastHexGame.size (FastHexGame.makeMove g r c) = FastHexGame.size g.
Proof. reflexivity. Qed.

Lemma replay_inStep moves : forall g,
  inStep g -> playable g moves -> inStep (replay g moves).
Proof.
  induction moves as [|[r c] moves IH]; intros g Hg Hp; cbn [replay fold_left]; auto.
  destruct Hp as (Hr & Hc & Hb & Hp). apply IH; auto. cbn [fst snd].
  now apply makeMove_inStep.
Qed.

(** C1: build the tracker from any well-formed board whose cells fit the
    16-bit parent array, replay any sequence of moves, each on a cell that
    is empty when it is played; then for either side the tracker's win check
    gives the verdict of the reference breadth-first win check run on the
    same grid. *)
Theorem C1_tracker_agrees_with_reference_scan
    (src : HexGame.t) (moves : list (Z * Z)) (g : HexGame.t) (side : Z) :
  HexGame.wf src ->
  HexGame.size src * HexGame.size src <= 32768 ->
  HexGame.currentPlayer src = PLAYER_RED \/ HexGame.currentPlayer src = PLAYER_BLUE ->
  playable (FastHexGame.create src) moves ->
  sameGrid g (replay (FastHexGame.create src) moves) ->
  side = PLAYER_RED \/ side = PLAYER_BLUE ->
  fst (FastHexGame.checkWin (replay (FastHexGame.create src) moves) side)
  = HexGame.checkWin g side.
Proof.
  intros Hwf Hfit Hcur Hplay (Hgwf & Hgsize & Hgflat) Hside.
  destruct (create_inStep src Hwf Hfit Hcur) as (Hstep & _).
  pose proof (replay_inStep moves _ Hstep Hplay) as Hstep'.
  destruct (checkWin_linked _ side Hstep' Hside) as (Hfast & _).
  pose proof (checkWin_chained g side Hgwf Hside) as Href.
  pose proof (chained_linked g _ side Hgwf Hgflat Hside) as Hbridge.
  rewrite <- Hgsize in Hfast.
  apply eq_true_iff_eq. rewrite Hfast, Href. symmetry. exact Hbridge.
Qed.

Lemma C1_tracker_agrees_with_reference_scan_witness :
  fst (FastHexGame.checkWin
         (replay (FastHexGame.create trackedStart) [(1, 0); (1, 1); (2, 0)]) PLAYER_RED)
  = HexGame.checkWin trackedEnd PLAYER_RED.
Proof.
  apply C1_tracker_agrees_with_reference_scan.
  - apply wfb_sound. reflexivity.
  - vm_compute. discriminate.
  - left. reflexivity.
  - cbn [playable]. repeat split; try (vm_compute; congruence); reflexivity.
  - split; [apply wfb_sound; reflexivity|]. split; reflexivity.
  - left. reflexivity.
Defined.

End Agreement.


(** ** Reset restores the constructed state *)

Section Reset.
Import FastHexGame.

Lemma place_snapshot g idx filled : snapshot (place g idx filled) = snapshot g.
Proof. reflexivity. Qed.

Lemma checkWin_snapshot g pl : snapshot (snd (checkWin g pl)) = snapshot g.
Proof.
  unfold checkWin. destruct (checkWinScan _ _ _ _ _ _) as [b p]. reflexivity.
Qed.

Lemma playoutSmart_snapshot fuel : forall rs g w g' rs',
  playoutSmart fuel rs g = Some (w, g', rs') -> snapshot g' = snapshot g.
Proof.
  induction fuel as [|fuel IH]; intros rs g w g' rs'; cbn [playoutSmart]; [discriminate|].
  pose proof (checkWin_snapshot g 1) as H1.
  destruct (checkWin g 1) as [w1 g1]. cbn [snd] in H1.
  destruct w1; [intros H; inversion H; subst; exact H1|].
  pose proof (checkWin_snapshot g1 2) as H2.
  destruct (checkWin g1 2) as [w2 g2]. cbn [snd] in H2.
  destruct w2; [intros H; inversion H; subst; congruence|].
  destruct (Z.of_nat (length (emptyCells g2)) =? 0);
    [intros H; inversion H; subst; congruence|].
  match goal with |- match ?c with _ => _ end = _ -> _ => destruct c as [[idx rs'']|] end;
    [|discriminate].
  intros H. apply IH in H. rewrite H, place_snapshot. congruence.
Qed.

Lemma run_snapshot ops : forall g g', run ops g = Some g' -> snapshot g' = snapshot g.
Proof.
  induction ops as [|[r c|fuel rs] ops IH]; intros g g'; cbn [run].
  - intros H. inversion H. reflexivity.
  - intros H. apply IH in H. rewrite H. apply place_snapshot.
  - destruct (playoutSmart fuel rs g) as [[[w g1] rs']|] eqn:E; [|discriminate].
    intros H. apply IH in H. rewrite H. eapply playoutSmart_snapshot; eauto.
Qed.

Lemma reset_of_snapshot g g' : snapshot g = snapshot g' -> reset g = reset g'.
Proof. unfold snapshot, reset. intros H. inversion H. reflexivity. Qed.

Lemma reset_create src : reset (create src) = create src.
Proof. reflexivity. Qed.

(** C10: after any sequence of [makeMove] and [playoutSmart] calls that have
    returned, on a game built from any source game, [reset] gives back the
    game as the constructor left it: board array, current player, filled
    count, list of empty cells, status masks and parent array are those of
    construction, and the move history is empty. *)
Theorem C10_reset_restores_construction (src : HexGame.t) (ops : list op) (g' : t) :
  HexGame.wf src ->
  Forall (opInBounds (HexGame.size src)) ops ->
  run ops (create src) = Some g' ->
  reset g' = create src /\
  board (reset g') = board (create src) /\
  currentPlayer (reset g') = currentPlayer (create src) /\
  filledCount (reset g') = filledCount (create src) /\
  emptyCells (reset g') = emptyCells (create src) /\
  groupStatus (reset g') = groupStatus (create src) /\
  uf (reset g') = uf (create src) /\
  movesHistory (reset g') = [].
Proof.
  intros _ _ Hrun. apply run_snapshot in Hrun.
  assert (H : reset g' = create src).
  { rewrite (reset_of_snapshot _ _ Hrun). apply reset_create. }
  rewrite H. repeat split; reflexivity.
Qed.

Lemma C10_reset_restores_construction_witness :
  exists g',
    run resetOps (create (HexGame.create 3)) = Some g' /\
    movesHistory g' <> [] /\
    reset g' = create (HexGame.create 3).
Proof.
  destruct (run resetOps
                (create (HexGame.create 3))) as [g'|] eqn:E.
  - exists g'. split; [reflexivity|]. split.
    + revert E. vm_compute. intros E. inversion E. discriminate.
    + apply (C10_reset_restores_construction (HexGame.create 3)
               resetOps g').
      * apply wfb_sound. reflexivity.
      * unfold resetOps. repeat constructor; simpl; lia.
      * exact E.
  - exfalso. revert E. vm_compute. discriminate.
Defined.

End Reset.


(** ** Backpropagation of RAVE statistics *)

Section Backpropagation.
Import MCTS.

Lemma nth_error_upd_same {A} (i : nat) (v : A) l :
  (i < length l)%nat -> nth_error (upd i v l) i = Some v.
Proof. revert i; induction l; intros [|i]; simpl; intros; try lia; auto. apply IHl; lia. Qed.

Lemma nth_error_upd_other {A} (i j : nat) (v : A) l :
  i <> j -> nth_error (upd i v l) j = nth_error l j.
Proof.
  revert i j; induction l; intros [|i] [|j]; simpl; intros; try congruence; auto.
Qed.

Lemma nth_error_lt {A} (l : list A) i n : nth_error l i = Some n -> (i < length l)%nat.
Proof. intros H. apply nth_error_Some. congruence. Qed.

Lemma existsb_pointwise {A} (f g : A -> bool) l :
  (forall x, f x = g x) -> existsb f l = existsb g l.
Proof. intros H. induction l; simpl; auto. now rewrite H, IHl. Qed.

Lemma sameShape_refl t : sameShape t t.
Proof. split; auto. intros i n H. exists n. auto. Qed.

Lemma sameShape_trans t1 t2 t3 : sameShape t1 t2 -> sameShape t2 t3 -> sameShape t1 t3.
Proof.
  intros [L1 H1] [L2 H2]. split; [congruence|].
  intros i n Hn. destruct (H1 i n Hn) as (n' & Hn' & Hs).
  destruct (H2 i n' Hn') as (n'' & Hn'' & Hs'). exists n''. split; auto. congruence.
Qed.

Lemma sameShape_back t t' i n' :
  sameShape t t' -> nth_error t' i = Some n' ->
  exists n, nth_error t i = Some n /\ static n' = static n.
Proof.
  intros [L H] Hn'. pose proof (nth_error_lt _ _ _ Hn') as Hi. rewrite L in Hi.
  destruct (nth_error t i) as [n|] eqn:E; [|apply nth_error_None in E; lia].
  exists n. split; auto. destruct (H i n E) as (n'' & Hn'' & Hs). congruence.
Qed.

Lemma sameShape_upd t i n v :
  nth_error t i = Some n -> static v = static n -> sameShape t (upd i v t).
Proof.
  intros Hn Hs. split; [apply upd_length|].
  intros j m Hm. destruct (Nat.eq_dec i j) as [<-|Hne].
  - exists v. split; [apply nth_error_upd_same; eapply nth_error_lt; eauto|]. congruence.
  - exists m. split; auto. now rewrite nth_error_upd_other.
Qed.

Lemma static_fields n n' :
  static n' = static n ->
  game n' = game n /\ aiPlayer n' = aiPlayer n /\ move n' = move n /\
  parent n' = parent n /\ children n' = children n.
Proof. unfold static. intros H. inversion H. auto. Qed.

Lemma wfTree_sameShape t t' : sameShape t t' -> wfTree t -> wfTree t'.
Proof.
  intros Hs Hwf i n' Hn'.
  destruct (sameShape_back _ _ _ _ Hs Hn') as (n & Hn & Hst).
  destruct (static_fields _ _ Hst) as (_ & _ & _ & Hp & Hc).
  destruct (Hwf i n Hn) as (Hpar & Hnd & Hch). rewrite Hp, Hc.
  split; [|split]; auto.
  - intros p Hpp. destruct (Hpar p Hpp) as (Hlt & pn & Hpn & Hin). split; auto.
    destruct (proj2 Hs p pn Hpn) as (pn' & Hpn' & Hst').
    exists pn'. split; auto.
    destruct (static_fields _ _ Hst') as (_ & _ & _ & _ & ->). auto.
  - intros c Hin. destruct (Hch c Hin) as (cn & Hcn & Hcp).
    destruct (proj2 Hs c cn Hcn) as (cn' & Hcn' & Hst').
    exists cn'. split; auto.
    destruct (static_fields _ _ Hst') as (_ & _ & _ & -> & _). auto.
Qed.

Lemma onPath_sameShape t t' i a : sameShape t t' -> onPath t i a -> onPath t' i a.
Proof.
  intros Hs H. induction H as [i | i n p a Hn Hp _ IH].
  - constructor.
  - destruct (proj2 Hs i n Hn) as (n' & Hn' & Hst).
    destruct (static_fields _ _ Hst) as (_ & _ & _ & Hpp & _).
    eapply onPath_parent; eauto. congruence.
Qed.

Lemma onPath_le t i a : wfTree t -> onPath t i a -> (a <= i)%nat.
Proof.
  intros Hwf H. induction H as [i | i n p a Hn Hp _ IH]; auto.
  destruct (Hwf i n Hn) as (Hpar & _). destruct (Hpar p Hp). lia.
Qed.

Lemma static_bump w n : static (bump w n) = static n.
Proof. reflexivity. Qed.

Lemma static_raveBump this res n : static (raveBump this res n) = static n.
Proof. unfold raveBump. destruct (existsb _ _); reflexivity. Qed.

Lemma matchesPlayed_static this this' child child' pm :
  static this' = static this -> static child' = static child ->
  matchesPlayed this' child' pm = matchesPlayed this child pm.
Proof.
  intros H1 H2. destruct (static_fields _ _ H1) as (Hg & _).
  destruct (static_fields _ _ H2) as (_ & _ & Hm & _).
  unfold matchesPlayed. now rewrite Hg, Hm.
Qed.

Lemma isAI_static n n' w : static n' = static n -> isAI n' w = isAI n w.
Proof.
  intros H. destruct (static_fields _ _ H) as (_ & Ha & _). unfold isAI. now rewrite Ha.
Qed.

(** The sibling loop credits each listed node once and no other node. *)
Lemma raveSiblings_spec this res : forall sibs t,
  NoDup sibs ->
  sameShape t (raveSiblings this res sibs t) /\
  forall x n, nth_error t x = Some n ->
    nth_error (raveSiblings this res sibs t) x
    = Some (if existsb (Nat.eqb x) sibs then raveBump this res n else n).
Proof.
  unfold raveSiblings.
  induction sibs as [|c sibs IH]; intros t Hnd; cbn [fold_left existsb].
  - split; [apply sameShape_refl | auto].
  - inversion Hnd as [|? ? Hnotin Hnd']; subst.
    destruct (nth_error t c) as [cn|] eqn:Ec.
    + destruct (IH (upd c (raveBump this res cn) t) Hnd') as (Hs & Hx).
      assert (Hs1 : sameShape t (upd c (raveBump this res cn) t))
        by (apply (sameShape_upd t c cn); auto using static_raveBump).
      split; [eapply sameShape_trans; eauto|].
      intros x n Hn. destruct (Nat.eqb_spec x c) as [->|Hne]; cbn [orb].
      * rewrite (Hx c (raveBump this res cn)).
        -- replace (existsb (Nat.eqb c) sibs) with false; [congruence|].
           symmetry. apply not_true_is_false. intros H. apply existsb_exists in H.
           destruct H as (y & Hy & Heq). apply Nat.eqb_eq in Heq. now subst.
        -- apply nth_error_upd_same. eapply nth_error_lt; eauto.
      * apply Hx. rewrite nth_error_upd_other by auto. exact Hn.
    + destruct (IH t Hnd') as (Hs & Hx). split; auto.
      intros x n Hn. destruct (Nat.eqb_spec x c) as [->|Hne]; cbn [orb]; [congruence|].
      now apply Hx.
Qed.

Lemma rave_raveBump_miss this res n :
  existsb (matchesPlayed this n) (snd res) = false -> raveBump this res n = n.
Proof. unfold raveBump. now intros ->. Qed.

(** Backpropagation from node [i] leaves alone the RAVE counters of every
    node whose parent is not older than [i]. *)
Lemma backpropagate_frame res : forall fuel t i,
  wfTree t ->
  forall x n, nth_error t x = Some n ->
    (forall q, parent n = Some q -> (i <= q)%nat) ->
    exists n', nth_error (backpropagateFrom fuel t i res) x = Some n' /\
               static n' = static n /\
               raveVisits n' = raveVisits n /\ raveWins n' = raveWins n.
Proof.
  induction fuel as [|fuel IH]; intros t i Hwf x n Hn Hq; cbn [backpropagateFrom].
  - exists n. auto.
  - destruct (nth_error t i) as [ni|] eqn:Ei; [|exists n; auto].
    set (t1 := upd i (bump (fst res) ni) t).
    assert (Hs1 : sameShape t t1) by (apply (sameShape_upd t i ni); auto using static_bump).
    assert (Hx1 : exists n1, nth_error t1 x = Some n1 /\ static n1 = static n /\
                             raveVisits n1 = raveVisits n /\ raveWins n1 = raveWins n).
    { destruct (Nat.eq_dec i x) as [<-|Hne].
      - exists (bump (fst res) ni). split.
        + apply nth_error_upd_same. eapply nth_error_lt; eauto.
        + assert (ni = n) by congruence. subst. auto.
      - exists n. split; auto. unfold t1. now rewrite nth_error_upd_other. }
    destruct Hx1 as (n1 & Hn1 & Hst1 & Hrv1 & Hrw1).
    destruct (parent ni) as [p|] eqn:Ep; [|exists n1; auto].
    destruct (Hwf i ni Ei) as (Hpar & _). destruct (Hpar p Ep) as (Hlt & pn & Hpn & Hin).
    destruct (proj2 Hs1 p pn Hpn) as (pn1 & Hpn1 & Hstp). rewrite Hpn1.
    destruct (static_fields _ _ Hstp) as (_ & _ & _ & _ & Hch). rewrite Hch.
    destruct (Hwf p pn Hpn) as (_ & Hnd & Hchildren).
    destruct (raveSiblings_spec ni res (children pn) t1 Hnd) as (Hs2 & Hx2).
    set (t2 := raveSiblings ni res (children pn) t1) in *.
    assert (Hnot : existsb (Nat.eqb x) (children pn) = false).
    { apply not_true_is_false. intros H. apply existsb_exists in H.
      destruct H as (y & Hy & Heq). apply Nat.eqb_eq in Heq. subst y.
      destruct (Hchildren x Hy) as (cn & Hcn & Hcp).
      assert (cn = n) by congruence. subst cn. specialize (Hq p Hcp). lia. }
    pose proof (Hx2 x n1 Hn1) as Hn2. rewrite Hnot in Hn2.
    assert (Hwf2 : wfTree t2).
    { eapply wfTree_sameShape; [|exact Hwf]. eapply sameShape_trans; eauto. }
    destruct (IH t2 p Hwf2 x n1 Hn2) as (n' & Hn' & Hst' & Hrv' & Hrw').
    { intros q Hqq. destruct (static_fields _ _ Hst1) as (_ & _ & _ & Hp1 & _).
      rewrite Hp1 in Hqq. specialize (Hq q Hqq). lia. }
    exists n'. repeat split; congruence.
Qed.

(** What backpropagation does to the RAVE counters of the children of
    the parent of a node on the path. *)
Lemma backpropagate_rave res : forall fuel t i,
  wfTree t -> (i < fuel)%nat ->
  forall a na P nP c nc,
    onPath t i a -> nth_error t a = Some na -> parent na = Some P ->
    nth_error t P = Some nP -> In c (children nP) -> nth_error t c = Some nc ->
    exists nc', nth_error (backpropagateFrom fuel t i res) c = Some nc' /\
      raveVisits nc' = raveVisits nc +
                       (if existsb (matchesPlayed na nc) (snd res) then 1 else 0) /\
      raveWins nc' = raveWins nc +
                     (if existsb (matchesPlayed na nc) (snd res) && isAI na (fst res)
                      then 1 else 0).
Proof.
  induction fuel as [|fuel IH]; intros t i Hwf Hfuel a na P nP c nc Hpath Ha HaP HP Hc Hnc;
    [lia|].
  cbn [backpropagateFrom].
  assert (Hi : exists ni, nth_error t i = Some ni).
  { inversion Hpath; subst; eauto. }
  destruct Hi as (ni & Ei). rewrite Ei.
  set (t1 := upd i (bump (fst res) ni) t).
  assert (Hs1 : sameShape t t1) by (apply (sameShape_upd t i ni); auto using static_bump).
  assert (Hparent : exists p, parent ni = Some p).
  { inversion Hpath; subst; [exists P; congruence | eexists; replace ni with n by congruence; eauto]. }
  destruct Hparent as (p & Ep). rewrite Ep.
  destruct (Hwf i ni Ei) as (Hpar & _). destruct (Hpar p Ep) as (Hlt & pn & Hpn & Hin).
  destruct (proj2 Hs1 p pn Hpn) as (pn1 & Hpn1 & Hstp). rewrite Hpn1.
  destruct (static_fields _ _ Hstp) as (_ & _ & _ & _ & Hch). rewrite Hch.
  destruct (Hwf p pn Hpn) as (_ & Hnd & Hchildren).
  destruct (raveSiblings_spec ni res (children pn) t1 Hnd) as (Hs2 & Hx2).
  set (t2 := raveSiblings ni res (children pn) t1) in *.
  assert (Hs12 : sameShape t t2) by (eapply sameShape_trans; eauto).
  assert (Hwf2 : wfTree t2) by (eapply wfTree_sameShape; eauto).
  assert (Hc1 : exists nc1, nth_error t1 c = Some nc1 /\ static nc1 = static nc /\
                            raveVisits nc1 = raveVisits nc /\ raveWins nc1 = raveWins nc).
  { destruct (Nat.eq_dec i c) as [<-|Hne].
    - exists (bump (fst res) ni). split.
      + apply nth_error_upd_same. eapply nth_error_lt; eauto.
      + assert (ni = nc) by congruence. subst. auto.
    - exists nc. split; auto. unfold t1. now rewrite nth_error_upd_other. }
  destruct Hc1 as (nc1 & Hnc1 & Hstc1 & Hrv1 & Hrw1).
  destruct (Hwf P nP HP) as (_ & _ & HchildrenP).
  destruct (HchildrenP c Hc) as (nc0 & Hnc0 & HcP).
  assert (nc0 = nc) by congruence. subst nc0.
  inversion Hpath as [i0 | i0 n0 p0 a0 Hn0 Hp0 Hrest]; subst.
  - (* the node itself: its siblings are credited at this level *)
    assert (na = ni) by congruence. subst na.
    assert (P = p) by congruence. subst P.
    assert (nP = pn) by congruence. subst nP.
    pose proof (Hx2 c nc1 Hnc1) as Hn2.
    replace (existsb (Nat.eqb c) (children pn)) with true in Hn2
      by (symmetry; apply existsb_exists; exists c; split; auto; apply Nat.eqb_refl).
    destruct (backpropagate_frame res fuel t2 p Hwf2 c _ Hn2) as (n' & Hn' & Hst' & Hrv' & Hrw').
    { intros q Hq.
      destruct (static_fields _ _ (eq_trans (static_raveBump ni res nc1) Hstc1))
        as (_ & _ & _ & Hpc & _).
      rewrite Hpc in Hq. assert (q = p) by congruence. lia. }
    exists n'. split; auto. rewrite Hrv', Hrw'.
    unfold raveBump.
    rewrite (existsb_pointwise _ (matchesPlayed ni nc))
      by (intros pm; apply matchesPlayed_static; auto).
    destruct (existsb (matchesPlayed ni nc) (snd res)); cbn [raveVisits raveWins andb].
    + split; [lia|]. destruct (isAI ni (fst res)); lia.
    + split; lia.
  - (* an ancestor: nothing happens to its siblings at this level *)
    assert (n0 = ni) by congruence. subst n0.
    assert (p0 = p) by congruence. subst p0.
    pose proof (onPath_le t p a Hwf Hrest) as Hap.
    destruct (Hwf a na Ha) as (HparA & _). destruct (HparA P HaP) as (HPa & _).
    assert (Hnot : existsb (Nat.eqb c) (children pn) = false).
    { apply not_true_is_false. intros H. apply existsb_exists in H.
      destruct H as (y & Hy & Heq). apply Nat.eqb_eq in Heq. subst y.
      destruct (Hchildren c Hy) as (cn & Hcn & Hcp).
      assert (cn = nc) by congruence. subst cn.
      assert (P = p) by congruence. lia. }
    pose proof (Hx2 c nc1 Hnc1) as Hn2. rewrite Hnot in Hn2.
    destruct (proj2 Hs12 a na Ha) as (na2 & Hna2 & Hsta).
    destruct (proj2 Hs12 P nP HP) as (nP2 & HnP2 & HstP).
    destruct (static_fields _ _ Hsta) as (_ & _ & _ & HpA & _).
    destruct (static_fields _ _ HstP) as (_ & _ & _ & _ & HcP2).
    destruct (IH t2 p Hwf2 ltac:(lia) a na2 P nP2 c nc1
                 (onPath_sameShape _ _ _ _ Hs12 Hrest) Hna2 ltac:(congruence) HnP2
                 ltac:(rewrite HcP2; exact Hc) Hn2) as (nc' & Hnc' & Hrv' & Hrw').
    exists nc'. split; auto.
    rewrite (existsb_pointwise _ (matchesPlayed na nc)) in Hrv', Hrw'
      by (intros pm; apply matchesPlayed_static; auto).
    rewrite (isAI_static na na2) in Hrw' by auto.
    split; congruence.
Qed.

End Backpropagation.


(** ** RAVE credit and the simulated episode *)

Section RaveCredit.
Import HexGame MCTS.

Lemma other_cases p : other p = PLAYER_RED \/ other p = PLAYER_BLUE.
Proof. unfold other. destruct (p =? PLAYER_RED); auto. Qed.

Lemma other_inj p q :
  p = PLAYER_RED \/ p = PLAYER_BLUE -> q = PLAYER_RED \/ q = PLAYER_BLUE ->
  (other p =? other q) = (p =? q).
Proof. intros [-> | ->] [-> | ->]; reflexivity. Qed.

Lemma other_neq p : p = PLAYER_RED \/ p = PLAYER_BLUE -> (p =? other p) = false.
Proof. intros [-> | ->]; reflexivity. Qed.

(** A legal move on an undecided game either wins, leaving the mover as
    the recorded side, or hands the turn to the opponent. *)
Lemma makeMove_legal g r c :
  isValidMove g r c = true -> gameOver g = false ->
  fst (makeMove g r c) = true /\
  ((gameOver (snd (makeMove g r c)) = true /\
    currentPlayer (snd (makeMove g r c)) = currentPlayer g) \/
   (gameOver (snd (makeMove g r c)) = false /\
    currentPlayer (snd (makeMove g r c)) = other (currentPlayer g))).
Proof.
  intros Hv Ho. unfold makeMove. rewrite Hv, Ho. cbn [negb orb].
  destruct (checkWin _ _); cbn [fst snd gameOver currentPlayer]; auto.
Qed.

Lemma makeMove_player g r c :
  currentPlayer g = PLAYER_RED \/ currentPlayer g = PLAYER_BLUE ->
  currentPlayer (snd (makeMove g r c)) = PLAYER_RED \/
  currentPlayer (snd (makeMove g r c)) = PLAYER_BLUE.
Proof.
  intros H. unfold makeMove.
  destruct (negb (isValidMove g r c) || gameOver g); cbn [snd]; auto.
  destruct (checkWin _ _); cbn [snd currentPlayer]; auto. apply other_cases.
Qed.

(** The list that [simulate] returns is the episode, entry by entry. *)
Lemma simulateFrom_played : forall choices g acc res,
  legalChoices choices g ->
  simulateFrom choices g acc = Some res ->
  snd res = acc ++ map recorded (episode choices g).
Proof.
  induction choices as [|sel choices IH]; intros g acc res;
    cbn [simulateFrom episode legalChoices].
  - destruct (gameOver g); [|destruct (getValidMoves g)]; intros _ H; inversion H;
      cbn [snd map]; now rewrite app_nil_r.
  - destruct (gameOver g) eqn:Ho;
      [intros _ H; inversion H; cbn [snd map]; now rewrite app_nil_r|].
    destruct (getValidMoves g) eqn:Hm;
      [intros _ H; inversion H; cbn [snd map]; now rewrite app_nil_r|].
    intros [Hv Hl] H. apply (IH _ _ _ Hl) in H. rewrite H, <- app_assoc.
    cbn [map app]. f_equal. f_equal.
    unfold recorded. cbn [fst snd]. f_equal.
    destruct (makeMove_legal g _ _ Hv Ho) as (_ & [[H1 H2]|[H1 H2]]); now rewrite H1, H2.
Qed.

Lemma simulateFrom_decided choices g acc :
  gameOver g = true -> simulateFrom choices g acc = Some (winner g, acc).
Proof. intros H. destruct choices; cbn [simulateFrom]; now rewrite H. Qed.

Lemma episode_decided choices g : gameOver g = true -> episode choices g = [].
Proof. intros H. destruct choices; cbn [episode]; now rewrite H. Qed.

Lemma episode_movers : forall choices g e,
  currentPlayer g = PLAYER_RED \/ currentPlayer g = PLAYER_BLUE ->
  In e (episode choices g) ->
  snd (fst e) = PLAYER_RED \/ snd (fst e) = PLAYER_BLUE.
Proof.
  induction choices as [|sel choices IH]; intros g e Hp; cbn [episode].
  - destruct (gameOver g); [|destruct (getValidMoves g)]; intros [].
  - destruct (gameOver g); [intros []|]. destruct (getValidMoves g); [intros []|].
    intros [<-|Hin]; auto. eapply IH; [|exact Hin]. now apply makeMove_player.
Qed.

(** A move that did not end the episode is credited to a sibling exactly
    when the side to move at the parent played it. *)
Lemma credit_is_playedBy this child m side ep :
  move child = Some m ->
  currentPlayer (game this) = other side ->
  side = PLAYER_RED \/ side = PLAYER_BLUE ->
  (forall e, In e ep -> snd (fst e) = PLAYER_RED \/ snd (fst e) = PLAYER_BLUE) ->
  endsEpisode ep m = false ->
  existsb (matchesPlayed this child) (map recorded ep) = playedBy ep m side.
Proof.
  intros Hm Hcur Hside. unfold playedBy, endsEpisode.
  induction ep as [|[[m' mover] over] ep IH]; intros Hmov Hend; cbn [map existsb]; auto.
  cbn [existsb fst snd] in Hend. apply orb_false_iff in Hend. destruct Hend as [He Hend].
  rewrite IH by (auto; intros e He'; apply Hmov; now right). f_equal.
  unfold matchesPlayed, recorded, sameMove in *. rewrite Hm, Hcur. cbn [fst snd p_move p_player] in *.
  destruct ((fst m =? fst m') && (snd m =? snd m')); cbn [andb] in *; auto.
  subst over. apply other_inj; auto. apply (Hmov (m', mover, false)). now left.
Qed.

Lemma onPath_child t leaf a :
  onPath t leaf a -> a = leaf \/ exists x nx, nth_error t x = Some nx /\ parent nx = Some a.
Proof.
  induction 1 as [i | i n p a Hn Hp Hrest IH]; auto.
  right. destruct IH as [->|IH]; eauto.
Qed.

(** C6: after a simulated episode, take a node on the path from the
    simulated node to the root and a child of its parent (a sibling, or the
    node itself) whose move is not the move that ended the episode.  That
    child receives one RAVE visit exactly when its move was played in the
    episode by the side that makes that move at the parent, and one RAVE win
    exactly when, additionally, the episode was won by the side the search
    plays for ([aiPlayer]). *)
Theorem C6_rave_credit_by_mover
    (t : tree) (leaf : nat) (nleaf : node) (choices : list (Z * Z)) (res : simResult)
    (a P c : nat) (na nP nc : node) (m : Z * Z) :
  wfTree t -> grownByExpand t ->
  nth_error t leaf = Some nleaf ->
  legalChoices choices (game nleaf) ->
  simulate choices nleaf = Some res ->
  onPath t leaf a -> nth_error t a = Some na -> parent na = Some P ->
  nth_error t P = Some nP -> In c (children nP) -> nth_error t c = Some nc ->
  move nc = Some m ->
  endsEpisode (episode choices (game nleaf)) m = false ->
  exists nc', nth_error (backpropagate t leaf res) c = Some nc' /\
    raveVisits nc' = raveVisits nc +
      (if playedBy (episode choices (game nleaf)) m (currentPlayer (game nP))
       then 1 else 0) /\
    raveWins nc' = raveWins nc +
      (if playedBy (episode choices (game nleaf)) m (currentPlayer (game nP))
          && isAI na (fst res)
       then 1 else 0).
Proof.
  intros Hwf Hgrown Hleaf Hlegal Hsim Hpath Ha HaP HP Hc Hnc Hm Hend.
  destruct (backpropagate_rave res (S leaf) t leaf Hwf ltac:(lia) a na P nP c nc
              Hpath Ha HaP HP Hc Hnc) as (nc' & Hnc' & Hrv & Hrw).
  exists nc'. split; [exact Hnc'|].
  assert (Heq : existsb (matchesPlayed na nc) (snd res)
                = playedBy (episode choices (game nleaf)) m (currentPlayer (game nP))).
  { unfold simulate, copy in Hsim.
    destruct (Hgrown a na Ha) as (_ & HgrA). destruct (HgrA P nP HaP HP) as (HoverP & ma & Hma & Hmk).
    destruct (Hgrown P nP HP) as (HcurP & _).
    destruct (gameOver (game na)) eqn:HoverA.
    - (* a decided node has no descendant: it is the simulated node *)
      destruct (onPath_child _ _ _ Hpath) as [->|(x & nx & Hx & Hxp)].
      + assert (na = nleaf) by congruence. subst na.
        rewrite simulateFrom_decided in Hsim by auto. inversion Hsim; subst.
        rewrite episode_decided by auto. reflexivity.
      + destruct (Hgrown x nx Hx) as (_ & HgrX).
        destruct (HgrX a na Hxp Ha) as (Hcontra & _). congruence.
    - rewrite (simulateFrom_played _ _ _ _ Hlegal Hsim). cbn [app].
      apply credit_is_playedBy; auto.
      + unfold copy in Hmk.
        assert (Hvalid : isValidMove (game nP) (fst ma) (snd ma) = true).
        { unfold makeMove in Hmk. rewrite HoverP, orb_false_r in Hmk.
          destruct (isValidMove (game nP) (fst ma) (snd ma)); auto. discriminate. }
        destruct (makeMove_legal _ _ _ Hvalid HoverP) as (_ & Hcases).
        rewrite Hmk in Hcases. cbn [snd] in Hcases.
        destruct Hcases as [[H1 _]|[_ H2]]; congruence.
      + intros e He. eapply episode_movers; [|exact He].
        destruct (Hgrown leaf nleaf Hleaf) as (Hcur & _). exact Hcur. }
  rewrite <- Heq. auto.
Qed.

Lemma wfTree_raveTree : wfTree raveTree.
Proof.
  intros i n H.
  destruct i as [|[|[|[|i]]]]; cbn in H;
    [| | | | destruct i; discriminate];
    inversion H; subst; clear H; cbn [parent children];
    (split; [|split]);
    try (intros p Hp; discriminate);
    try (intros p Hp; inversion Hp; subst; split; [lia|]; eexists; split; [reflexivity|];
         cbn; tauto);
    try (repeat constructor; cbn; intuition lia);
    try (intros c Hc; cbn in Hc; intuition subst; eexists; split; reflexivity).
Qed.

Lemma grownByExpand_raveTree : grownByExpand raveTree.
Proof.
  intros c nc H.
  destruct c as [|[|[|[|c]]]]; cbn in H; inversion H; subst; clear H; cbn [game parent move].
  - split; [left; reflexivity|]. intros p np Hp. discriminate.
  - split; [right; reflexivity|]. intros p np Hp Hnp. inversion Hp; subst.
    cbn in Hnp. inversion Hnp; subst. split; [reflexivity|].
    exists (0, 0). split; reflexivity.
  - split; [left; reflexivity|]. intros p np Hp Hnp. inversion Hp; subst.
    cbn in Hnp. inversion Hnp; subst. split; [reflexivity|].
    exists (2, 2). split; reflexivity.
  - split; [left; reflexivity|]. intros p np Hp Hnp. inversion Hp; subst.
    cbn in Hnp. inversion Hnp; subst. split; [reflexivity|].
    exists (0, 2). split; reflexivity.
  - destruct c; discriminate.
Qed.

Lemma C6_rave_credit_by_mover_witness :
  exists nc', nth_error (backpropagate raveTree 2 raveOutcome) 3 = Some nc' /\
    raveVisits nc' = 0 + 1 /\ raveWins nc' = 0 + 0.
Proof.
  destruct (C6_rave_credit_by_mover raveTree 2 raveLeaf raveMoves raveOutcome
              2%nat 1%nat 3%nat raveLeaf
              (Node raveGameA PLAYER_RED (Some (0, 0)) (Some 0%nat) [2%nat; 3%nat] 0 0 0 0 [])
              (Node raveGameC2 PLAYER_RED (Some (0, 2)) (Some 1%nat) [] 0 0 0 0 [])
              (0, 2))
    as (nc' & H1 & H2 & H3);
    try reflexivity.
  - apply wfTree_raveTree.
  - apply grownByExpand_raveTree.
  - vm_compute. repeat split.
  - constructor.
  - cbn. tauto.
  - exists nc'. auto.
Defined.

(** C6, as worded, fails on the win counter.  In the four-node tree,
    searched for red, [simulate] on the node after blue (2,2) plays, for
    every supply of random draws, red (0,1), blue (0,2), red (1,0),
    blue (2,0), red (1,1), blue (2,1), and blue wins.  The sibling whose
    move is (0,2) holds a blue move; blue played it in the episode and blue
    won the episode.  It receives its RAVE visit, but its RAVE win counter
    stays where it was, because wins are counted for the side the search
    plays for, and that side is red. *)
Lemma C6_rave_win_withheld_from_winner :
  (forall rs, (3 <= length rs)%nat -> MCTSNode.simulate 7 rs raveLeaf = Some raveOutcome) /\
  simulate raveMoves raveLeaf = Some raveOutcome /\
  currentPlayer raveGameA = PLAYER_BLUE /\
  playedBy (episode raveMoves raveGameC1) (0, 2) PLAYER_BLUE = true /\
  fst raveOutcome = Some PLAYER_BLUE /\
  exists n n', nth_error raveTree 3 = Some n /\ move n = Some (0, 2) /\
    nth_error (backpropagate raveTree 2 raveOutcome) 3 = Some n' /\
    raveVisits n' = raveVisits n + 1 /\
    raveWins n' = raveWins n /\
    ~ (raveWins n' = raveWins n + 1 <->
       playedBy (episode raveMoves raveGameC1) (0, 2) PLAYER_BLUE = true /\
       fst raveOutcome = Some PLAYER_BLUE).
Proof.
  split.
  { intros [|u1 [|u2 [|u3 rs]]] Hlen; cbn [length] in Hlen; try lia.
    vm_compute. reflexivity. }
  split; [reflexivity|]. split; [reflexivity|]. split; [reflexivity|]. split; [reflexivity|].
  eexists. eexists. split; [reflexivity|]. split; [reflexivity|]. split; [reflexivity|].
  split; [reflexivity|]. split; [reflexivity|].
  cbn. intros [_ H]. assert (Hw : 0 = 0 + 1) by (apply H; split; reflexivity). discriminate.
Qed.

End RaveCredit.


(** ** Positions without a legal move *)

Section NoLegalMove.
Import HexGame.

Lemma in_getValidMoves g r c :
  In (r, c) (getValidMoves g) <->
  0 <= r < size g /\ 0 <= c < size g /\ cell (board g) r c = EMPTY.
Proof.
  unfold getValidMoves. rewrite in_flat_map. split.
  - intros (r' & Hr' & Hin). apply in_flat_map in Hin. destruct Hin as (c' & Hc' & Hin).
    apply in_zrange in Hr'. apply in_zrange in Hc'.
    destruct (Z.eqb_spec (cell (board g) r' c') EMPTY); [|destruct Hin].
    destruct Hin as [Heq|[]]. inversion Heq; subst. auto.
  - intros (Hr & Hc & He). exists r. split; [now apply in_zrange|].
    apply in_flat_map. exists c. split; [now apply in_zrange|].
    rewrite He. now left.
Qed.

Lemma no_moves_none_valid g r c :
  getValidMoves g = [] -> isValidMove g r c = false.
Proof.
  intros Hnone. unfold isValidMove.
  destruct ((r <? 0) || (r >=? size g) || (c <? 0) || (c >=? size g)) eqn:Hb; auto.
  rewrite !orb_false_iff, !Z.ltb_ge, !Z.geb_leb, !Z.leb_gt in Hb.
  destruct (Z.eqb_spec (cell (board g) r c) EMPTY) as [He|He]; auto.
  exfalso. assert (Hin : In (r, c) (getValidMoves g)) by (apply in_getValidMoves; lia).
  rewrite Hnone in Hin. exact Hin.
Qed.

(** Whatever the opening book offers is a move [isValidMove] accepts. *)
Lemma book_offers_valid_move g rnd m :
  wf g -> moveCountInvariant g ->
  HexOpeningBook.getOpeningMove g rnd = Move m -> isValidMove g (fst m) (snd m) = true.
Proof.
  intros Hwf Hinv Hbook.
  assert (Hpicked : forall l : list (Z * Z),
            (forall x, In x l -> isValidMove g (fst x) (snd x) = true) ->
            HexOpeningBook.ofPick (pick rnd l) = Move m ->
            isValidMove g (fst m) (snd m) = true).
  { intros l Hl Hp. destruct (pick rnd l) as [x|] eqn:Hpick; [|discriminate].
    inversion Hp; subst x. apply Hl. eapply pick_In; eauto. }
  assert (Htable : forall l : list (Z * Z), moveCount g = 0 ->
            (forall x, In x l -> 0 <= fst x < size g /\ 0 <= snd x < size g /\
                                 ~ (size g = 7 /\ fst x = 3 /\ snd x = 3)) ->
            HexOpeningBook.ofPick (pick rnd l) = Move m ->
            isValidMove g (fst m) (snd m) = true).
  { intros l H0 Hl. apply Hpicked. intros x Hx. now apply (table_valid g l x). }
  assert (Hnear : forall (f : Z -> Z -> bool) (ds : list Z) row col z,
            In z (flat_map (fun dr => flat_map (fun dc =>
                    if isValidMove g (row + dr) (col + dc) && f dr dc
                    then [(row + dr, col + dc)] else []) ds) ds) ->
            isValidMove g (fst z) (snd z) = true).
  { intros f ds row col z. apply in_flat_map_valid. intros dr dc y.
    destruct (isValidMove g (row + dr) (col + dc)) eqn:Hv; simpl; [|tauto].
    destruct (f dr dc); simpl; [|tauto]. intros [<-|[]]. exact Hv. }
  unfold HexOpeningBook.getOpeningMove in Hbook.
  destruct (moveCount g >? 4); [discriminate|].
  destruct (Z.eqb_spec (size g) 7) as [H7|H7].
  { unfold HexOpeningBook.getOpening7x7 in Hbook.
    destruct (Z.eqb_spec (moveCount g) 0) as [H0|H0].
    - revert Hbook. apply Htable; auto. intros x Hx. rewrite H7. cbn in Hx.
      repeat (destruct Hx as [<-|Hx]; [cbn; lia|]). destruct Hx.
    - destruct ((moveCount g =? 1) && (currentPlayer g =? PLAYER_BLUE)); [|discriminate].
      destruct (history g) as [|lastMove hs]; [discriminate|].
      match type of Hbook with context [0 <? Z.of_nat (length ?l)] =>
        destruct (0 <? Z.of_nat (length l)); [|discriminate];
        revert Hbook; apply Hpicked
      end.
      intros z Hz. apply in_app_or in Hz. destruct Hz as [Hz|Hz].
      + apply filter_In in Hz. tauto.
      + revert Hz. apply (Hnear (fun dr dc =>
          Z.abs (m_row lastMove + dr - 3) + Z.abs (m_col lastMove + dc - 3) <=? 2)). }
  destruct (Z.eqb_spec (size g) 11) as [H11|H11].
  { unfold HexOpeningBook.getOpening11x11 in Hbook.
    destruct (Z.eqb_spec (moveCount g) 0) as [H0|H0]; [|discriminate].
    revert Hbook. apply Htable; auto. intros x Hx. rewrite H11. cbn in Hx.
    repeat (destruct Hx as [<-|Hx]; [cbn; lia|]). destruct Hx. }
  destruct (Z.eqb_spec (size g) 13) as [H13|H13].
  { unfold HexOpeningBook.getOpening13x13 in Hbook.
    destruct (Z.eqb_spec (moveCount g) 0) as [H0|H0]; [|discriminate].
    revert Hbook. apply Htable; auto. intros x Hx. rewrite H13. cbn in Hx.
    repeat (destruct Hx as [<-|Hx]; [cbn; lia|]). destruct Hx. }
  unfold HexOpeningBook.getDefaultOpening in Hbook.
  match type of Hbook with context [pick rnd ?l] =>
    destruct (pick rnd l) as [x|] eqn:Hp; [|discriminate]; inversion Hbook; subst x;
    apply pick_In in Hp
  end.
  revert Hp. apply in_flat_map_valid. intros dr dc y.
  destruct ((dr =? 0) && (dc =? 0)); simpl; [tauto|].
  destruct (isValidMove g (size g / 2 + dr) (size g / 2 + dc)) eqn:Hv; simpl; [|tauto].
  intros [<-|[]]. exact Hv.
Qed.

(** With no empty cell left the opening book has no move to offer. *)
Lemma book_silent_without_moves g rnd m :
  wf g -> moveCountInvariant g -> getValidMoves g = [] ->
  HexOpeningBook.getOpeningMove g rnd <> Move m.
Proof.
  intros Hwf Hinv Hnone Hbook.
  pose proof (book_offers_valid_move g rnd m Hwf Hinv Hbook) as Hv.
  rewrite no_moves_none_valid in Hv by auto. discriminate.
Qed.

(** The random strategy answers [null]. *)
Lemma RandomAI_no_move smartMode rnd g :
  getValidMoves g = [] -> RandomAI.getMove smartMode rnd g = Null.
Proof. intros H. unfold RandomAI.getMove. now rewrite H. Qed.

Lemma orderMoves_no_move ev g beamWidth :
  getValidMoves g = [] -> HexHeuristicSearch.orderMoves ev g beamWidth = [].
Proof.
  intros H. unfold HexHeuristicSearch.orderMoves. rewrite H. cbn [map HexHeuristicSearch.sortScored fold_right].
  now rewrite firstn_nil.
Qed.

Lemma negamax_no_move ev depth g alpha beta player beamWidth :
  getValidMoves g = [] ->
  snd (fst (HexHeuristicSearch.negamax ev depth [] g alpha beta player beamWidth)) = None.
Proof.
  intros H. destruct depth; cbn [HexHeuristicSearch.negamax HexHeuristicSearch.cacheGet]; auto.
  destruct (gameOver g); auto. rewrite orderMoves_no_move by auto. reflexivity.
Qed.

(** The bounded-search strategy answers [null] on a fresh memo table. *)
Lemma HeuristicAI_no_move ev maxDepth beamWidth aiPlayer g :
  getValidMoves g = [] -> HeuristicAI.getMove ev [] maxDepth beamWidth aiPlayer g = Null.
Proof.
  intros H. unfold HeuristicAI.getMove, HeuristicAI.findCriticalMove. rewrite H.
  cbn [find filter]. unfold copy. now rewrite negamax_no_move.
Qed.

Lemma MCTSAI_findCriticalMove_no_move g :
  getValidMoves g = [] -> MCTSAI.findCriticalMove g = None.
Proof.
  intros H. unfold MCTSAI.findCriticalMove, MCTSAI.findTwoMoveWin,
    MCTSAI.findVirtualConnectionThreat. rewrite H. reflexivity.
Qed.

Section Standard.
Variable evaluatePosition : HexGame.t -> Z -> Q.
Variable moveScore : HexGame.t -> Z * Z -> Q.
Variable better : MCTS.node -> MCTS.node -> MCTS.node -> bool.
Variable timesF : Z -> Q -> Q.
Variable winRate : Z -> Z -> Q.
Variable playout : nat -> HexGame.t -> list (Z * Z).

(** With no move to try the root never gets a child: every iteration
    either raises in [selectChild] or only bumps the root's counters. *)
Lemma iterations_childless pw g ai : forall todo i w v rw rv,
  getValidMoves g = [] ->
  MCTSAI.iterations moveScore better playout pw todo i [MCTS.Node g ai None None [] w v rw rv []] = Some None \/
  exists w' v',
    MCTSAI.iterations moveScore better playout pw todo i [MCTS.Node g ai None None [] w v rw rv []]
    = Some (Some [MCTS.Node g ai None None [] w' v' rw rv []]).
Proof.
  induction todo as [|todo IH]; intros i w v rw rv Hnone; cbn [MCTSAI.iterations].
  - right. eauto.
  - unfold MCTSAI.iteration. cbn [length MCTSAI.selectLoop nth_error].
    unfold MCTSAI.isFullyExpanded, MCTSAI.isTerminal. cbn [MCTS.untriedMoves MCTS.game length Z.of_nat Z.eqb andb].
    destruct (gameOver g) eqn:Hover; cbn [negb MCTSAI.selectChild MCTS.children andb].
    + cbn [nth_error MCTS.game MCTS.untriedMoves length Z.of_nat].
      rewrite Hover. cbn [negb andb nth_error]. unfold MCTS.simulate, copy.
      cbn [MCTS.game]. rewrite (simulateFrom_decided _ _ _ Hover).
      cbn [MCTS.backpropagate MCTS.backpropagateFrom nth_error MCTS.parent upd fst].
      unfold MCTS.bump. cbn [MCTS.game MCTS.aiPlayer MCTS.move MCTS.parent MCTS.children
                             MCTS.wins MCTS.visits MCTS.raveWins MCTS.raveVisits MCTS.untriedMoves].
      apply IH. exact Hnone.
    + left. reflexivity.
Qed.

(** The standard MCTS strategy raises a [TypeError] instead. *)
Lemma MCTSAI_no_move_throws difficultyLabel simulations aiPlayer rnd g :
  wf g -> moveCountInvariant g -> getValidMoves g = [] ->
  MCTSAI.getBestMove evaluatePosition moveScore better timesF winRate playout []
                     difficultyLabel simulations aiPlayer rnd g = Some Throw.
Proof.
  intros Hwf Hinv Hnone. unfold MCTSAI.getBestMove.
  destruct (HexOpeningBook.getOpeningMove g rnd) as [| | |m] eqn:Hbook; auto.
  - rewrite (MCTSAI_findCriticalMove_no_move g Hnone).
    assert (Hh : (if MCTSAI.shouldUseHeuristicSearch difficultyLabel g
                  then let (maxDepth, beamWidth) := MCTSAI.getHeuristicConfig difficultyLabel g in
                       fst (HexHeuristicSearch.getBestMove evaluatePosition [] g aiPlayer
                              maxDepth beamWidth)
                  else None) = None).
    { destruct (MCTSAI.shouldUseHeuristicSearch difficultyLabel g); auto.
      destruct (MCTSAI.getHeuristicConfig difficultyLabel g) as [d bw].
      unfold HexHeuristicSearch.getBestMove, copy.
      pose proof (negamax_no_move evaluatePosition d g NegInf PosInf aiPlayer bw Hnone) as Hn.
      destruct (HexHeuristicSearch.negamax _ _ _ _ _ _ _ _) as [r c']. exact Hn. }
    rewrite Hh. unfold MCTSAI.newNode, MCTSAI.prioritizeMoves, copy. rewrite Hnone.
    cbn [map HexHeuristicSearch.sortScored fold_right].
    destruct (iterations_childless (size g >? 11) g aiPlayer simulations O 0 0 0 0 Hnone)
      as [-> | (w' & v' & ->)]; reflexivity.
  - rewrite (MCTSAI_findCriticalMove_no_move g Hnone).
    assert (Hh : (if MCTSAI.shouldUseHeuristicSearch difficultyLabel g
                  then let (maxDepth, beamWidth) := MCTSAI.getHeuristicConfig difficultyLabel g in
                       fst (HexHeuristicSearch.getBestMove evaluatePosition [] g aiPlayer
                              maxDepth beamWidth)
                  else None) = None).
    { destruct (MCTSAI.shouldUseHeuristicSearch difficultyLabel g); auto.
      destruct (MCTSAI.getHeuristicConfig difficultyLabel g) as [d bw].
      unfold HexHeuristicSearch.getBestMove, copy.
      pose proof (negamax_no_move evaluatePosition d g NegInf PosInf aiPlayer bw Hnone) as Hn.
      destruct (HexHeuristicSearch.negamax _ _ _ _ _ _ _ _) as [r c']. exact Hn. }
    rewrite Hh. unfold MCTSAI.newNode, MCTSAI.prioritizeMoves, copy. rewrite Hnone.
    cbn [map HexHeuristicSearch.sortScored fold_right].
    destruct (iterations_childless (size g >? 11) g aiPlayer simulations O 0 0 0 0 Hnone)
      as [-> | (w' & v' & ->)]; reflexivity.
  - exfalso. exact (book_silent_without_moves g rnd m Hwf Hinv Hnone Hbook).
Qed.

(** C9: on a decided game with a full board (blue has just filled the last
    cell of the 2x2 board and won) no move is left; the random and the
    bounded-search strategies answer [null], the standard MCTS strategy
    raises a [TypeError] when it reads [root.children[0].visits]. *)
Theorem C9_mcts_raises_without_legal_move
    (difficultyLabel : MCTSAI.label) (simulations : nat) (aiPlayer : Z) (rnd : nat) :
  getValidMoves blueWonGame = [] /\
  RandomAI.getMove true rnd blueWonGame = Null /\
  HeuristicAI.getMove evaluatePosition [] 4%nat 10 aiPlayer blueWonGame = Null /\
  MCTSAI.getBestMove evaluatePosition moveScore better timesF winRate playout []
                     difficultyLabel simulations aiPlayer rnd blueWonGame = Some Throw.
Proof.
  split; [reflexivity|]. split; [now apply RandomAI_no_move|].
  split; [now apply HeuristicAI_no_move|].
  apply MCTSAI_no_move_throws.
  - apply wfb_sound. reflexivity.
  - reflexivity.
  - reflexivity.
Qed.

End Standard.

End NoLegalMove.


(** ** The reference game: accepted moves and what every game keeps *)

Section Reference.
Import HexGame.

Lemma prod_eq_dec_Z (a b : Z * Z) : {a = b} + {a <> b}.
Proof. decide equality; apply Z.eq_dec. Qed.

Lemma wf_rows g k : wf g -> (k < Z.to_nat (size g))%nat ->
  length (nth k (board g) []) = Z.to_nat (size g).
Proof. intros Hwf Hk. exact (proj2 (wf_shaped g Hwf) k Hk). Qed.

Lemma isValidMove_inv g r c :
  isValidMove g r c = true ->
  0 <= r < size g /\ 0 <= c < size g /\ cell (board g) r c = EMPTY /\
  ~ (size g = 7 /\ moveCount g = 0 /\ r = 3 /\ c = 3).
Proof.
  unfold isValidMove.
  destruct ((r <? 0) || (r >=? size g) || (c <? 0) || (c >=? size g)) eqn:Hb; [discriminate|].
  rewrite !orb_false_iff, !Z.ltb_ge, !Z.geb_leb, !Z.leb_gt in Hb.
  destruct (Z.eqb_spec (cell (board g) r c) EMPTY) as [He|He]; cbn [negb]; [|discriminate].
  intros H. repeat split; try lia; auto.
  intros (H7 & H0 & -> & ->). rewrite H7, H0 in H. cbn in H. discriminate.
Qed.

Lemma isValidMove_intro g r c :
  0 <= r < size g -> 0 <= c < size g -> cell (board g) r c = EMPTY ->
  ~ (size g = 7 /\ moveCount g = 0 /\ r = 3 /\ c = 3) ->
  isValidMove g r c = true.
Proof.
  intros Hr Hc He Hban. unfold isValidMove.
  replace ((r <? 0) || (r >=? size g) || (c <? 0) || (c >=? size g)) with false.
  2:{ symmetry. rewrite !orb_false_iff, !Z.ltb_ge, !Z.geb_leb, !Z.leb_gt. lia. }
  rewrite He. cbn [negb Z.eqb EMPTY].
  destruct (Z.eqb_spec (size g) 7) as [H7|H7]; cbn [andb]; auto.
  destruct (Z.eqb_spec (moveCount g) 0) as [H0|H0]; auto.
  rewrite H7. change (7 / 2) with 3.
  destruct (Z.eqb_spec r 3) as [Hr3|Hr3]; cbn [andb]; auto.
  destruct (Z.eqb_spec c 3) as [Hc3|Hc3]; auto.
  exfalso. apply Hban. auto.
Qed.

(** The win check reads the size and the grid only. *)
Lemma visitNeighbors_fields g g' pl ns v q :
  size g' = size g -> board g' = board g ->
  visitNeighbors g' pl ns v q = visitNeighbors g pl ns v q.
Proof. intros Hs Hb. unfold visitNeighbors. now rewrite Hb. Qed.

Lemma bfsLoop_fields g g' pl goal :
  size g' = size g -> board g' = board g ->
  forall fuel v q, bfsLoop fuel g' pl goal v q = bfsLoop fuel g pl goal v q.
Proof.
  intros Hs Hb. induction fuel as [|f IH]; intros v q; cbn [bfsLoop]; auto.
  destruct q as [|[row col] rest]; auto.
  destruct (goal row col); auto.
  unfold getNeighbors. rewrite Hs.
  rewrite (visitNeighbors_fields g g') by auto.
  destruct (visitNeighbors _ _ _ _ _). apply IH.
Qed.

Lemma checkWin_fields g g' pl :
  size g' = size g -> board g' = board g -> checkWin g' pl = checkWin g pl.
Proof.
  intros Hs Hb. unfold checkWin, seed. rewrite Hb, Hs.
  destruct (pl =? PLAYER_RED).
  - destruct (fold_left _ _ _). apply bfsLoop_fields; auto.
  - destruct (fold_left _ _ _). apply bfsLoop_fields; auto.
Qed.

Lemma count_upd (f : Z -> bool) : forall l k v,
  (k < length l)%nat -> f (nth k l 0) = false -> f v = true ->
  length (filter f (upd k v l)) = S (length (filter f l)).
Proof.
  induction l as [|h t IH]; intros k v Hk Hold Hnew; cbn [length] in Hk; [lia|].
  destruct k; cbn [upd filter nth] in *.
  - rewrite Hold, Hnew. reflexivity.
  - destruct (f h); cbn [length]; rewrite IH; auto; lia.
Qed.

Lemma count_concat_upd (f : Z -> bool) : forall b r row',
  (r < length b)%nat ->
  length (filter f row') = S (length (filter f (nth r b []))) ->
  length (filter f (concat (upd r row' b))) = S (length (filter f (concat b))).
Proof.
  induction b as [|h t IH]; intros r row' Hr Hrow; cbn [length] in Hr; [lia|].
  destruct r; cbn [upd concat nth] in *; rewrite !filter_app, !length_app.
  - rewrite Hrow. lia.
  - rewrite (IH r row'); auto; lia.
Qed.

Lemma stoneCount_setCell g r c v :
  wf g -> 0 <= r < size g -> 0 <= c < size g ->
  cell (board g) r c = EMPTY -> v <> EMPTY ->
  stoneCount (setCell (board g) r c v) = stoneCount (board g) + 1.
Proof.
  intros Hwf Hr Hc He Hv. unfold stoneCount, setCell.
  pose proof (wf_rows g (Z.to_nat r) Hwf ltac:(lia)) as Hrow.
  destruct Hwf as (Hn & Hlen & Hrows & _).
  rewrite count_concat_upd; [lia | lia |].
  apply count_upd.
  - rewrite Hrow. lia.
  - unfold cell in He. rewrite He. reflexivity.
  - destruct (Z.eqb_spec v EMPTY); [contradiction | reflexivity].
Qed.

Lemma wf_setCell g r c v cp mc go w sw h :
  wf g -> 0 <= r -> 0 <= c -> v = PLAYER_RED \/ v = PLAYER_BLUE ->
  wf (Make (size g) (setCell (board g) r c v) cp mc go w sw h).
Proof.
  intros Hwf Hr0 Hc0 Hv. pose proof (wf_shaped g Hwf) as [Hlen Hrow].
  destruct Hwf as (Hn & _ & _ & Hcells).
  unfold wf. cbn [size board]. split; [exact Hn|]. split; [now rewrite setCell_length|]. split.
  - intros row Hin. destruct (In_nth _ _ [] Hin) as (k & Hk & <-).
    rewrite setCell_length in Hk. rewrite setCell_row_length. apply Hrow. lia.
  - intros r' c' Hr' Hc'.
    destruct (Z.eq_dec r r') as [<-|Hne]; [destruct (Z.eq_dec c c') as [<-|Hne]|].
    + rewrite cell_setCell_same; [tauto | lia | rewrite Hrow by lia; lia].
    + rewrite cell_setCell_other; try lia; [auto|congruence].
    + rewrite cell_setCell_other; try lia; [auto|congruence].
Qed.

Lemma makeMove_rejected g row col :
  isValidMove g row col = false \/ gameOver g = true -> makeMove g row col = (false, g).
Proof.
  intros H. unfold makeMove. destruct H as [-> | ->]; cbn [negb orb]; auto.
  now rewrite orb_true_r.
Qed.

Lemma makeMove_cases g row col :
  makeMove g row col = (false, g) \/
  (isValidMove g row col = true /\ gameOver g = false /\ fst (makeMove g row col) = true).
Proof.
  destruct (isValidMove g row col) eqn:Hv; [|left; apply makeMove_rejected; auto].
  destruct (gameOver g) eqn:Ho; [left; apply makeMove_rejected; auto|].
  right. repeat split; auto. unfold makeMove. rewrite Hv, Ho. cbn [negb orb].
  destruct (checkWin _ _); reflexivity.
Qed.

Lemma accepted_move_shape g row col :
  wf g -> isValidMove g row col = true -> gameOver g = false ->
  size (snd (makeMove g row col)) = size g /\
  (forall r c, 0 <= r -> 0 <= c -> (r, c) <> (row, col) ->
     cell (board (snd (makeMove g row col))) r c = cell (board g) r c) /\
  moveCount (snd (makeMove g row col)) = moveCount g + 1 /\
  (gameOver (snd (makeMove g row col)) = true ->
     winner (snd (makeMove g row col)) = Some (currentPlayer g) /\
     currentPlayer (snd (makeMove g row col)) = currentPlayer g) /\
  (gameOver (snd (makeMove g row col)) = false ->
     winner (snd (makeMove g row col)) = winner g /\
     currentPlayer (snd (makeMove g row col)) = other (currentPlayer g) /\
     swapAvailable (snd (makeMove g row col)) = false).
Proof.
  intros Hwf Hv Ho. destruct (isValidMove_inv g row col Hv) as (Hr & Hc & He & _).
  assert (Hother : forall r c, 0 <= r -> 0 <= c -> (r, c) <> (row, col) ->
            cell (setCell (board g) row col (currentPlayer g)) r c = cell (board g) r c).
  { intros r c Hr0 Hc0 Hne. apply cell_setCell_other; try lia. congruence. }
  unfold makeMove. rewrite Hv, Ho. cbn [negb orb].
  destruct (checkWin _ _); cbn [fst snd size board moveCount history gameOver winner
                                 currentPlayer swapAvailable];
    repeat split; auto; try discriminate; intros; congruence.
Qed.

(** X1: an accepted move puts the mover's stone on the target cell and
    touches no other cell, counts the move and logs it; if it decides the
    game the mover is recorded as winner and stays the side to move,
    otherwise the turn passes and the swap flag is cleared. *)
Theorem X1_makeMove_accepted (g : t) (row col : Z) :
  wf g -> isValidMove g row col = true -> gameOver g = false ->
  fst (makeMove g row col) = true /\
  size (snd (makeMove g row col)) = size g /\
  cell (board (snd (makeMove g row col))) row col = currentPlayer g /\
  (forall r c, 0 <= r -> 0 <= c -> (r, c) <> (row, col) ->
     cell (board (snd (makeMove g row col))) r c = cell (board g) r c) /\
  moveCount (snd (makeMove g row col)) = moveCount g + 1 /\
  history (snd (makeMove g row col)) = history g ++ [MoveEntry row col (currentPlayer g)] /\
  (gameOver (snd (makeMove g row col)) = true ->
     winner (snd (makeMove g row col)) = Some (currentPlayer g) /\
     currentPlayer (snd (makeMove g row col)) = currentPlayer g) /\
  (gameOver (snd (makeMove g row col)) = false ->
     winner (snd (makeMove g row col)) = winner g /\
     currentPlayer (snd (makeMove g row col)) = other (currentPlayer g) /\
     swapAvailable (snd (makeMove g row col)) = false).
Proof.
  intros Hwf Hv Ho. destruct (isValidMove_inv g row col Hv) as (Hr & Hc & He & _).
  pose proof (wf_shaped g Hwf) as [Hlen Hrow].
  assert (Hsame : cell (setCell (board g) row col (currentPlayer g)) row col = currentPlayer g).
  { apply cell_setCell_same; [lia | rewrite Hrow by lia; lia]. }
  assert (Hother : forall r c, 0 <= r -> 0 <= c -> (r, c) <> (row, col) ->
            cell (setCell (board g) row col (currentPlayer g)) r c = cell (board g) r c).
  { intros r c Hr0 Hc0 Hne. apply cell_setCell_other; try lia. congruence. }
  unfold makeMove. rewrite Hv, Ho. cbn [negb orb].
  destruct (checkWin _ _); cbn [fst snd size board moveCount history gameOver winner
                                 currentPlayer swapAvailable];
    repeat split; auto; try discriminate; intros; congruence.
Qed.

Lemma X1_makeMove_accepted_witness :
  fst (makeMove (create 3) 1 1) = true /\
  cell (board (snd (makeMove (create 3) 1 1))) 1 1 = PLAYER_RED /\
  moveCount (snd (makeMove (create 3) 1 1)) = 1.
Proof.
  assert (Hwf : wf (create 3)) by (apply wfb_sound; reflexivity).
  destruct (X1_makeMove_accepted (create 3) 1 1 Hwf eq_refl eq_refl)
    as (H1 & _ & H3 & _ & H5 & _).
  repeat split; assumption.
Defined.

(** *** What every game keeps *)

Lemma consistent_create n : 0 < n -> consistent (create n).
Proof.
  intros Hn. unfold consistent, create, wf. cbn [size board moveCount history currentPlayer].
  assert (Hcell : forall r c, cell (grid n EMPTY) r c = EMPTY).
  { intros r c. unfold cell, grid.
    destruct (Nat.lt_ge_cases (Z.to_nat r) (Z.to_nat n)) as [Hlt|Hge].
    - rewrite nth_repeat_lt by auto.
      destruct (Nat.lt_ge_cases (Z.to_nat c) (Z.to_nat n)) as [Hlt'|Hge'].
      + now rewrite nth_repeat_lt.
      + rewrite nth_overflow; auto. now rewrite repeat_length.
    - rewrite (nth_overflow (repeat _ _)) by now rewrite repeat_length.
      destruct (Z.to_nat c); reflexivity. }
  repeat split; auto.
  - unfold grid. now rewrite repeat_length.
  - intros row Hin. unfold grid in Hin. apply repeat_spec in Hin. subst.
    now rewrite repeat_length.
  - unfold stoneCount, grid.
    assert (Hz : forall k m, filter (fun v => negb (v =? EMPTY))
                               (concat (repeat (repeat EMPTY m) k)) = []).
    { induction k; intros m; cbn [repeat concat]; auto.
      rewrite filter_app, IHk, app_nil_r.
      induction m; cbn; auto. }
    now rewrite Hz.
Qed.

Lemma consistent_makeMove g row col :
  consistent g -> consistent (snd (makeMove g row col)).
Proof.
  intros Hc. destruct (makeMove_cases g row col) as [-> | (Hv & Ho & _)]; [exact Hc|].
  destruct Hc as (Hwf & Hcount & Hlog & Hside).
  destruct (isValidMove_inv g row col Hv) as (Hr & Hcol & He & _).
  assert (Hstone : currentPlayer g <> EMPTY) by (destruct Hside as [-> | ->]; discriminate).
  pose proof (stoneCount_setCell g row col (currentPlayer g) Hwf Hr Hcol He Hstone) as Hcnt.
  unfold makeMove. rewrite Hv, Ho. cbn [negb orb].
  destruct (checkWin _ _); cbn [snd]; unfold consistent;
    cbn [size board moveCount history currentPlayer];
    (split; [apply wf_setCell; auto; lia|]);
    (split; [lia|]); (split; [rewrite length_app; cbn [length]; lia|]); auto.
  apply other_cases.
Qed.

Lemma settled_makeMove g row col :
  settled g -> settled (snd (makeMove g row col)).
Proof.
  intros Hs. destruct (makeMove_cases g row col) as [-> | (Hv & Ho & _)]; [exact Hs|].
  destruct Hs as [Hnone _].
  unfold makeMove. rewrite Hv, Ho. cbn [negb orb].
  destruct (checkWin _ _) eqn:Hwin; cbn [snd]; unfold settled;
    cbn [gameOver winner currentPlayer]; split; try discriminate; auto.
  intros _. split; auto. rewrite <- Hwin. apply checkWin_fields; reflexivity.
Qed.

Lemma playMoves_app g l1 l2 : playMoves g (l1 ++ l2) = playMoves (playMoves g l1) l2.
Proof. unfold playMoves. apply fold_left_app. Qed.

Lemma playMoves_keeps (P : t -> Prop) :
  (forall g r c, P g -> P (snd (makeMove g r c))) ->
  forall moves g, P g -> P (playMoves g moves).
Proof.
  intros Hstep. induction moves as [|m moves IH]; intros g Hg; cbn; auto.
  apply IH. apply Hstep. exact Hg.
Qed.

Lemma reference_makeMove_size g r c : size (snd (makeMove g r c)) = size g.
Proof.
  unfold makeMove. destruct (negb _ || _); auto. destruct (checkWin _ _); reflexivity.
Qed.

(** X2: whatever calls of [makeMove] are made on a new game, accepted or
    rejected, the board stays a square grid of empty, red and blue cells of
    the size given, the move counter equals the number of stones and the
    length of the move log, and red or blue is to move. *)
Theorem X2_makeMove_keeps_bookkeeping (n : Z) (moves : list (Z * Z)) :
  0 < n ->
  wf (playMoves (create n) moves) /\
  size (playMoves (create n) moves) = n /\
  moveCount (playMoves (create n) moves) = stoneCount (board (playMoves (create n) moves)) /\
  Z.of_nat (length (history (playMoves (create n) moves))) = moveCount (playMoves (create n) moves) /\
  (currentPlayer (playMoves (create n) moves) = PLAYER_RED \/
   currentPlayer (playMoves (create n) moves) = PLAYER_BLUE).
Proof.
  intros Hn.
  pose proof (playMoves_keeps consistent consistent_makeMove moves (create n)
                (consistent_create n Hn)) as (Hwf & Hcnt & Hlog & Hside).
  pose proof (playMoves_keeps (fun g => size g = n)
                (fun g r c H => eq_trans (reference_makeMove_size g r c) H) moves (create n) eq_refl).
  repeat split; auto; apply Hwf.
Qed.

Lemma X2_makeMove_keeps_bookkeeping_witness :
  moveCount (playMoves (create 3) [(0, 0); (0, 0); (5, 5); (1, 1)]) =
  stoneCount (board (playMoves (create 3) [(0, 0); (0, 0); (5, 5); (1, 1)])).
Proof.
  apply (X2_makeMove_keeps_bookkeeping 3 [(0, 0); (0, 0); (5, 5); (1, 1)]). lia.
Defined.

(** X3: in every state reached by [makeMove] calls on a new game the
    result fields agree with the board: an undecided game has no winner, a
    decided game names as winner the side that moved last, that side is
    still the recorded side to move and the win check finds its connection;
    and a decided game accepts no further move. *)
Theorem X3_winner_has_connection (n : Z) (moves : list (Z * Z)) (r c : Z) :
  (gameOver (playMoves (create n) moves) = false ->
     winner (playMoves (create n) moves) = None) /\
  (gameOver (playMoves (create n) moves) = true ->
     winner (playMoves (create n) moves) = Some (currentPlayer (playMoves (create n) moves)) /\
     checkWin (playMoves (create n) moves) (currentPlayer (playMoves (create n) moves)) = true /\
     makeMove (playMoves (create n) moves) r c = (false, playMoves (create n) moves)).
Proof.
  assert (Hs : settled (playMoves (create n) moves)).
  { apply playMoves_keeps; [apply settled_makeMove|].
    split; [reflexivity | discriminate]. }
  destruct Hs as [Hnone Hsome]. split; auto.
  intros Hover. destruct (Hsome Hover) as [Hw Hc]. repeat split; auto.
  apply makeMove_rejected. now right.
Qed.

(** *** One stone does not win *)

Lemma reachP_end g pl s t :
  reachP g pl s t ->
  t = s \/ (inBounds (size g) (fst t) (snd t) = true /\ cell (board g) (fst t) (snd t) = pl).
Proof.
  induction 1 as [x y [Hin Hcell] | x | x y z _ IH1 _ IH2]; auto.
  - right. split; auto. eapply in_getNeighbors; eauto.
  - destruct IH2 as [-> | H2]; auto.
Qed.

Lemma lone_stone_no_win g pl x :
  wf g -> 2 <= size g -> pl = PLAYER_RED \/ pl = PLAYER_BLUE ->
  (forall r c, 0 <= r < size g -> 0 <= c < size g -> (r, c) <> x ->
     cell (board g) r c = EMPTY) ->
  checkWin g pl = false.
Proof.
  intros Hwf Hn Hpl Hlone. destruct (checkWin g pl) eqn:Hwin; auto. exfalso.
  apply (checkWin_chained g pl Hwf Hpl) in Hwin.
  destruct Hwin as (s & t & (Hs & Hsb & Hstart) & Hreach & Hgoal).
  assert (Hnz : pl <> EMPTY) by (destruct Hpl as [-> | ->]; discriminate).
  assert (Hat : forall y, inBounds (size g) (fst y) (snd y) = true ->
                          cell (board g) (fst y) (snd y) = pl -> y = x).
  { intros [r c] Hb Hc. cbn [fst snd] in *. apply inBounds_iff in Hb.
    destruct (prod_eq_dec_Z (r, c) x) as [Heq|Hne]; auto.
    rewrite (Hlone r c) in Hc by tauto. congruence. }
  assert (Hsx : s = x) by (apply Hat; auto).
  assert (Htx : t = x).
  { destruct (reachP_end g pl s t Hreach) as [-> | [Hb Hc]]; auto. }
  subst s t. destruct Hpl as [-> | ->]; cbn in Hstart, Hgoal;
    apply Z.eqb_eq in Hgoal; lia.
Qed.

(** The swap flag is only ever left set by a first move that wins. *)
Lemma swap_flag_makeMove g row col :
  consistent g ->
  (swapAvailable g = true -> gameOver g = true /\ moveCount g = 1) ->
  (moveCount g = 1 -> exists x, forall r c, 0 <= r < size g -> 0 <= c < size g ->
      (r, c) <> x -> cell (board g) r c = EMPTY) ->
  (swapAvailable (snd (makeMove g row col)) = true ->
     gameOver (snd (makeMove g row col)) = true /\ moveCount (snd (makeMove g row col)) = 1) /\
  (moveCount (snd (makeMove g row col)) = 1 ->
     exists x, forall r c, 0 <= r < size (snd (makeMove g row col)) ->
       0 <= c < size (snd (makeMove g row col)) ->
       (r, c) <> x -> cell (board (snd (makeMove g row col))) r c = EMPTY).
Proof.
  intros Hc Hflag Hlone.
  destruct (makeMove_cases g row col) as [-> | (Hv & Ho & _)]; [split; assumption|].
  destruct Hc as (Hwf & Hcount & _ & _).
  assert (Hnoflag : swapAvailable g = false).
  { destruct (swapAvailable g); auto. destruct Hflag; congruence. }
  destruct (accepted_move_shape g row col Hwf Hv Ho) as (Hsz & Hother & Hmc & Hwon & Hopen).
  split.
  - intros Hsw. destruct (gameOver (snd (makeMove g row col))) eqn:Hover.
    + split; auto. unfold makeMove in Hsw |- *. rewrite Hv, Ho in *. cbn [negb orb] in *.
      destruct (checkWin _ _); cbn [snd swapAvailable moveCount] in *; [|discriminate].
      destruct (Z.eqb_spec (moveCount g + 1) 1); auto. congruence.
    + destruct (Hopen eq_refl) as (_ & _ & Hf). congruence.
  - intros H1. exists (row, col). intros r c Hr Hcol Hne.
    rewrite Hsz in Hr, Hcol. rewrite Hother by (try lia; auto).
    apply no_stones_all_empty; auto; lia.
Qed.

(** X4: on a board of two or more rows the swap is never on offer: in every
    state reached by [makeMove] calls on a new game the swap flag is off and
    [swapSides] answers [false] and changes nothing.  ([makeMove] sets the
    flag on the first move and clears it again before it returns, unless
    that move won the game.) *)
Theorem X4_swap_never_on_offer (n : Z) (moves : list (Z * Z)) :
  2 <= n ->
  swapAvailable (playMoves (create n) moves) = false /\
  swapSides (playMoves (create n) moves) = (false, playMoves (create n) moves).
Proof.
  intros Hn.
  assert (Hinv : let g := playMoves (create n) moves in
            consistent g /\ settled g /\ size g = n /\
            (swapAvailable g = true -> gameOver g = true /\ moveCount g = 1) /\
            (moveCount g = 1 -> exists x, forall r c, 0 <= r < size g -> 0 <= c < size g ->
                (r, c) <> x -> cell (board g) r c = EMPTY)).
  { apply (playMoves_keeps (fun g =>
            consistent g /\ settled g /\ size g = n /\
            (swapAvailable g = true -> gameOver g = true /\ moveCount g = 1) /\
            (moveCount g = 1 -> exists x, forall r c, 0 <= r < size g -> 0 <= c < size g ->
                (r, c) <> x -> cell (board g) r c = EMPTY))).
    - intros g r c (Hc & Hs & Hsz & Hflag & Hlone).
      split; [now apply consistent_makeMove|]. split; [now apply settled_makeMove|].
      split; [now rewrite reference_makeMove_size|].
      now apply swap_flag_makeMove.
    - split; [apply consistent_create; lia|].
      split; [split; [reflexivity | discriminate]|].
      split; [reflexivity|]. split; cbn; intros; discriminate. }
  cbv zeta in Hinv. destruct Hinv as (Hc & Hs & Hsz & Hflag & Hlone).
  assert (Hoff : swapAvailable (playMoves (create n) moves) = false).
  { destruct (swapAvailable (playMoves (create n) moves)) eqn:Hsw; auto. exfalso.
    destruct (Hflag eq_refl) as [Hover H1].
    destruct Hs as [_ Hwon]. destruct (Hwon Hover) as [_ Hwin].
    destruct (Hlone H1) as (x & Hx).
    destruct Hc as (Hwf & _ & _ & Hside).
    rewrite (lone_stone_no_win _ _ x Hwf) in Hwin; auto; [discriminate | lia]. }
  split; auto. unfold swapSides. rewrite Hoff. cbn [negb]. now rewrite orb_true_r.
Qed.

Lemma X4_swap_never_on_offer_witness :
  swapSides (playMoves (create 7) [(2, 3)]) = (false, playMoves (create 7) [(2, 3)]).
Proof. apply (X4_swap_never_on_offer 7 [(2, 3)]). lia. Defined.

(** *** The list of empty cells *)

Lemma NoDup_flat_map {A B} (f : A -> list B) : forall l,
  NoDup l -> (forall x, In x l -> NoDup (f x)) ->
  (forall x y z, In x l -> In y l -> x <> y -> In z (f x) -> ~ In z (f y)) ->
  NoDup (flat_map f l).
Proof.
  induction l as [|a l IH]; intros Hnd Hin Hdis; cbn [flat_map]; [constructor|].
  inversion Hnd as [|? ? Hna Hnd']; subst.
  apply NoDup_app.
  - apply Hin. now left.
  - apply IH; auto.
    + intros x Hx. apply Hin. now right.
    + intros x y z Hx Hy. apply Hdis; now right.
  - intros z Hz Hz'. apply in_flat_map in Hz'. destruct Hz' as (y & Hy & Hzy).
    apply (Hdis a y z); auto; [now left | now right | congruence].
Qed.

Lemma getValidMoves_NoDup g : NoDup (getValidMoves g).
Proof.
  unfold getValidMoves. apply NoDup_flat_map.
  - apply zrange_NoDup.
  - intros r _. apply NoDup_flat_map.
    + apply zrange_NoDup.
    + intros c _. destruct (_ =? _); repeat constructor. intros [].
    + intros c c' z _ _ Hne Hz Hz'.
      destruct (cell (board g) r c =? EMPTY); [|destruct Hz].
      destruct (cell (board g) r c' =? EMPTY); [|destruct Hz'].
      destruct Hz as [<-|[]]. destruct Hz' as [Heq|[]]. congruence.
  - intros r r' z _ _ Hne Hz Hz'.
    apply in_flat_map in Hz. destruct Hz as (c & _ & Hz).
    apply in_flat_map in Hz'. destruct Hz' as (c' & _ & Hz').
    destruct (cell (board g) r c =? EMPTY); [|destruct Hz].
    destruct (cell (board g) r' c' =? EMPTY); [|destruct Hz'].
    destruct Hz as [<-|[]]. destruct Hz' as [Heq|[]]. congruence.
Qed.

Lemma flat_map_shift {A} (F : nat -> list A) l :
  flat_map F (map S l) = flat_map (fun i => F (S i)) l.
Proof. induction l; cbn; congruence. Qed.

Lemma length_flat_map_index {A B} (cnt : A -> nat) (d : A) :
  forall (l : list A) (F : nat -> list B) (n : nat),
  length l = n ->
  (forall i, (i < n)%nat -> length (F i) = cnt (nth i l d)) ->
  length (flat_map F (seq 0 n)) = list_sum (map cnt l).
Proof.
  induction l as [|a l IH]; intros F n Hn HF; subst n;
    cbn [length seq flat_map map list_sum]; auto.
  rewrite length_app, <- seq_shift, flat_map_shift.
  rewrite (IH (fun i => F (S i)) (length l) eq_refl).
  - rewrite (HF O) by (cbn; lia). reflexivity.
  - intros i Hi. rewrite (HF (S i)) by (cbn; lia). reflexivity.
Qed.

Lemma length_filter_concat {A} (f : A -> bool) (b : list (list A)) :
  length (filter f (concat b)) = list_sum (map (fun row => length (filter f row)) b).
Proof.
  induction b as [|row b IH]; cbn [concat map list_sum]; auto.
  now rewrite filter_app, length_app, IH.
Qed.

Lemma length_concat_shaped n b :
  shaped n b -> length (concat b) = (Z.to_nat n * Z.to_nat n)%nat.
Proof.
  intros [Hlen Hrow]. rewrite length_concat.
  assert (H : forall l : list (list Z), (forall row, In row l -> length row = Z.to_nat n) ->
              list_sum (map (@length Z) l) = (length l * Z.to_nat n)%nat).
  { induction l as [|row l IH]; intros Hl; cbn [map list_sum fold_right length]; auto.
    change (fold_right Nat.add O (map (@length Z) l)) with (list_sum (map (@length Z) l)).
    rewrite IH by (intros; apply Hl; now right). rewrite (Hl row) by now left. lia. }
  rewrite H; [now rewrite Hlen|].
  intros row Hin. destruct (In_nth _ _ [] Hin) as (k & Hk & <-). apply Hrow. lia.
Qed.

Lemma filter_split_length {A} (f : A -> bool) l :
  (length (filter f l) + length (filter (fun x => negb (f x)) l) = length l)%nat.
Proof. induction l as [|a l IH]; cbn; auto. destruct (f a); cbn; lia. Qed.

Lemma length_getValidMoves g :
  wf g ->
  Z.of_nat (length (getValidMoves g)) = size g * size g - stoneCount (board g).
Proof.
  intros Hwf. pose proof (wf_shaped g Hwf) as Hsh. destruct Hsh as [Hlen Hrow].
  assert (Hn : 0 < size g) by apply Hwf.
  assert (Hempties : length (getValidMoves g)
                     = length (filter (fun v => v =? EMPTY) (concat (board g)))).
  { rewrite length_filter_concat. unfold getValidMoves, zrange.
    rewrite flat_map_concat_map, map_map, <- flat_map_concat_map.
    apply (length_flat_map_index (fun row => length (filter (fun v => v =? EMPTY) row)) []);
      [exact Hlen|].
    intros i Hi.
    rewrite flat_map_concat_map, map_map, <- flat_map_concat_map.
    rewrite (length_flat_map_index (fun v : Z => if v =? EMPTY then 1%nat else O) 0
               (nth i (board g) [])); [| now apply Hrow |].
    - clear. induction (nth i (board g) []) as [|v row IH]; cbn [map filter]; auto.
      change (list_sum (?a :: ?l)) with (a + list_sum l)%nat.
      destruct (v =? EMPTY); cbn [length]; lia.
    - intros j Hj. unfold cell. rewrite !Nat2Z.id.
      destruct (nth j (nth i (board g) []) 0 =? EMPTY); reflexivity. }
  unfold stoneCount.
  pose proof (filter_split_length (fun v => v =? EMPTY) (concat (board g))) as Hsplit.
  rewrite (length_concat_shaped (size g)) in Hsplit by (split; auto).
  rewrite Hempties. nia.
Qed.

(** X5: [getValidMoves] lists exactly the empty cells of the board, each
    once; on a well-formed board their number is [size * size] minus the
    number of stones.  Every cell [isValidMove] accepts is listed, and a
    listed cell that [isValidMove] rejects is the centre of the 7x7 board
    before the first move. *)
Theorem X5_getValidMoves_lists_empty_cells (g : t) :
  (forall r c, In (r, c) (getValidMoves g) <->
     0 <= r < size g /\ 0 <= c < size g /\ cell (board g) r c = EMPTY) /\
  NoDup (getValidMoves g) /\
  (forall r c, isValidMove g r c = true -> In (r, c) (getValidMoves g)) /\
  (forall r c, In (r, c) (getValidMoves g) -> isValidMove g r c = false ->
     size g = 7 /\ moveCount g = 0 /\ r = 3 /\ c = 3) /\
  (wf g -> Z.of_nat (length (getValidMoves g)) = size g * size g - stoneCount (board g)).
Proof.
  split; [intros r c; apply in_getValidMoves|].
  split; [apply getValidMoves_NoDup|]. split; [|split].
  - intros r c Hv. apply in_getValidMoves.
    destruct (isValidMove_inv g r c Hv) as (Hr & Hc & He & _). auto.
  - intros r c Hin Hrej. apply in_getValidMoves in Hin. destruct Hin as (Hr & Hc & He).
    destruct (Z.eq_dec (size g) 7) as [H7|H7];
      [destruct (Z.eq_dec (moveCount g) 0) as [H0|H0];
       [destruct (Z.eq_dec r 3) as [Hr3|Hr3]; [destruct (Z.eq_dec c 3) as [Hc3|Hc3]|]|]|];
      auto;
      rewrite isValidMove_intro in Hrej by (auto; tauto); discriminate.
  - apply length_getValidMoves.
Qed.

Lemma X5_getValidMoves_lists_empty_cells_witness :
  Z.of_nat (length (getValidMoves (playMoves (create 3) [(0, 0); (1, 1)]))) = 3 * 3 - 2.
Proof.
  assert (Hwf : wf (playMoves (create 3) [(0, 0); (1, 1)])) by (apply wfb_sound; reflexivity).
  destruct (X5_getValidMoves_lists_empty_cells (playMoves (create 3) [(0, 0); (1, 1)]))
    as (_ & _ & _ & _ & H).
  exact (H Hwf).
Defined.

(** *** Neighbours *)

(** X6: [getNeighbors] returns at most six cells, all on the board and all
    different, never the cell itself, and the relation is symmetric: a cell
    of the board is a neighbour of each of its neighbours. *)
Theorem X6_getNeighbors_symmetric (g : t) (r c : Z) :
  (forall y, In y (getNeighbors g r c) ->
     0 <= fst y < size g /\ 0 <= snd y < size g) /\
  (length (getNeighbors g r c) <= 6)%nat /\
  NoDup (getNeighbors g r c) /\
  ~ In (r, c) (getNeighbors g r c) /\
  (forall r' c', 0 <= r < size g -> 0 <= c < size g ->
     In (r', c') (getNeighbors g r c) -> In (r, c) (getNeighbors g r' c')).
Proof.
  split; [|split; [|split; [|split]]].
  - intros y Hy. apply in_getNeighbors in Hy. now apply inBounds_iff in Hy.
  - unfold getNeighbors.
    etransitivity; [apply filter_length_le|]. cbn. lia.
  - unfold getNeighbors. apply NoDup_filter.
    repeat constructor; cbn [In]; intros H;
      repeat (destruct H as [H|H]; [inversion H; lia|]); exact H.
  - intros Hin. apply in_hexNeighbors in Hin. destruct Hin as [(d & Hd & Heq) _].
    inversion Heq. cbn [hexOffsets In] in Hd.
    repeat (destruct Hd as [<-|Hd]; [cbn [fst snd] in *; lia|]). exact Hd.
  - intros r' c' Hr Hc Hin. apply in_hexNeighbors in Hin.
    destruct Hin as [(d & Hd & Heq) Hb]. inversion Heq; subst r' c'.
    apply in_hexNeighbors. split.
    + exists (- fst d, - snd d). split; [now apply hexOffsets_opp|].
      cbn [fst snd]. f_equal; lia.
    + cbn [fst snd]. apply inBounds_iff. lia.
Qed.

Lemma X6_getNeighbors_symmetric_witness :
  In (1, 0) (getNeighbors (create 3) 0 1).
Proof.
  destruct (X6_getNeighbors_symmetric (create 3) 1 0) as (_ & _ & _ & _ & H).
  apply H; [cbn; lia | cbn; lia | vm_compute; tauto].
Defined.

(** *** Winning connections as paths *)

Lemma stepwise_cons g x path :
  stepwise g (x :: path) <->
  match path with
  | [] => True
  | y :: _ => In y (getNeighbors g (fst x) (snd x)) /\ stepwise g path
  end.
Proof. destruct path; cbn [stepwise]; tauto. Qed.

Lemma last_cons {A} (x : A) path y :
  hd_error (rev path) = Some y -> hd_error (rev (x :: path)) = Some y.
Proof.
  cbn [rev]. destruct (rev path); cbn; [discriminate | auto].
Qed.

Lemma reach_path g pl s t :
  reachP g pl s t ->
  inBounds (size g) (fst s) (snd s) = true -> cell (board g) (fst s) (snd s) = pl ->
  exists path, hd_error path = Some s /\ hd_error (rev path) = Some t /\
    (forall x, In x path ->
       inBounds (size g) (fst x) (snd x) = true /\ cell (board g) (fst x) (snd x) = pl) /\
    stepwise g path.
Proof.
  intros Hreach. apply clos_rt_rt1n in Hreach.
  induction Hreach as [x | x y z [Hin Hcell] _ IH]; intros Hb Hc.
  - exists [x]. split; [reflexivity|]. split; [reflexivity|]. split; [|exact I].
    intros w [<-|[]]; auto.
  - destruct IH as (path & Hhd & Hlast & Hall & Hstep); auto.
    { eapply in_getNeighbors; eauto. }
    exists (x :: path). split; [reflexivity|]. split; [now apply last_cons|]. split.
    + intros w [<-|Hw]; auto.
    + apply stepwise_cons. destruct path as [|y' path]; [discriminate|].
      cbn in Hhd. inversion Hhd; subst y'. auto.
Qed.

Lemma path_reach g pl : forall path s t,
  hd_error path = Some s -> hd_error (rev path) = Some t ->
  (forall x, In x path -> cell (board g) (fst x) (snd x) = pl) ->
  stepwise g path -> reachP g pl s t.
Proof.
  induction path as [|x path IH]; intros s t Hhd Hlast Hall Hstep; [discriminate|].
  cbn in Hhd. inversion Hhd; subst x.
  destruct path as [|y path].
  - cbn in Hlast. inversion Hlast. apply rt_refl.
  - apply stepwise_cons in Hstep. destruct Hstep as [Hin Hstep].
    apply rt_trans with y.
    + apply rt_step. split; auto. apply Hall. right. now left.
    + apply IH; auto.
      * cbn [rev] in Hlast |- *.
        destruct (rev path ++ [y]) eqn:Hr; [destruct (rev path); discriminate|].
        cbn in Hlast |- *. exact Hlast.
      * intros w Hw. apply Hall. now right.
Qed.

(** X7: the breadth-first [checkWin] answers [true] exactly when the side
    has a winning path on the board: a sequence of its stones, each a
    neighbour of the one before, from its starting edge (top row for red,
    left column for blue) to the opposite edge. *)
Theorem X7_checkWin_finds_winning_path (g : t) (pl : Z) :
  wf g -> pl = PLAYER_RED \/ pl = PLAYER_BLUE ->
  (checkWin g pl = true <-> exists path, winningPath g pl path).
Proof.
  intros Hwf Hpl. rewrite (checkWin_chained g pl Hwf Hpl). split.
  - intros (s & t & (Hc & Hb & Hstart) & Hreach & Hgoal).
    destruct (reach_path g pl s t Hreach Hb Hc) as (path & Hhd & Hlast & Hall & Hstep).
    exists path. split; [|split; [|split]]; auto.
    + exists s. split; auto.
    + exists t. split; auto. unfold farEdge.
      destruct (pl =? PLAYER_RED); now apply Z.eqb_eq.
  - intros (path & (s & Hhd & Hstart) & (t & Hlast & Hfar) & Hall & Hstep).
    exists s, t. split; [|split].
    + assert (Hin : In s path) by (destruct path; inversion Hhd; now left).
      destruct (Hall s Hin) as [Hb Hc]. repeat split; auto.
    + eapply path_reach; eauto. intros x Hx. now apply Hall.
    + unfold farEdge in Hfar. destruct (pl =? PLAYER_RED); now apply Z.eqb_eq.
Qed.

Lemma X7_checkWin_finds_winning_path_witness :
  checkWin trackedEnd PLAYER_RED = true <-> exists path, winningPath trackedEnd PLAYER_RED path.
Proof.
  apply X7_checkWin_finds_winning_path.
  - apply wfb_sound. reflexivity.
  - now left.
Defined.

End Reference.


(** ** The winning path *)

Section Paths.
Import HexGame WinningPath.

Lemma pcell_pset_same n p r c v :
  pshaped n p -> 0 <= r < n -> 0 <= c < n -> pcell (pset p r c v) r c = Some v.
Proof.
  intros [H1 H2] Hr Hc. unfold pcell, pset.
  rewrite nth_upd_same by lia. apply nth_upd_same. rewrite H2; lia.
Qed.

Lemma pcell_pset_other p r c v r' c' :
  0 <= r -> 0 <= c -> 0 <= r' -> 0 <= c' -> (r, c) <> (r', c') ->
  pcell (pset p r c v) r' c' = pcell p r' c'.
Proof.
  intros Hr Hc Hr' Hc' Hne. unfold pcell, pset.
  destruct (Z.eq_dec r r') as [->|Hrr].
  - assert (c <> c') by congruence.
    destruct (Nat.lt_ge_cases (Z.to_nat r') (length p)).
    + rewrite nth_upd_same by auto. apply nth_upd_other. lia.
    + rewrite (nth_overflow (upd _ _ _)) by (rewrite upd_length; lia).
      now rewrite (nth_overflow p) by lia.
  - f_equal. apply nth_upd_other. lia.
Qed.

Lemma pset_shaped n p r c v : pshaped n p -> pshaped n (pset p r c v).
Proof.
  intros [H1 H2]. unfold pset. split; [now rewrite upd_length|].
  intros k Hk. destruct (Nat.eq_dec (Z.to_nat r) k) as [<-|Hne].
  - rewrite nth_upd_same by lia. rewrite upd_length. auto.
  - rewrite nth_upd_other by auto. auto.
Qed.

Lemma pgrid_shaped n : pshaped n (grid n (@None (Z * Z))).
Proof.
  unfold grid. split; [apply repeat_length|].
  intros k Hk. rewrite nth_repeat_lt by lia. apply repeat_length.
Qed.

Lemma pcell_grid n r c : pcell (grid n None) r c = None.
Proof.
  unfold pcell, grid.
  destruct (Nat.lt_ge_cases (Z.to_nat r) (Z.to_nat n)).
  - rewrite nth_repeat_lt by lia. apply nth_repeat.
  - rewrite (nth_overflow (repeat _ _)) by (rewrite repeat_length; lia).
    now destruct (Z.to_nat c).
Qed.

Lemma back_last p y path : back p y path -> hd_error (rev path) = Some y.
Proof. induction 1; [reflexivity|]. now rewrite rev_app_distr. Qed.

Lemma back_nonempty p y path : back p y path -> path <> [].
Proof. induction 1; [discriminate|]. now destruct path. Qed.

(** Walking the parents rebuilds the path. *)
Lemma reconstruct_back p y path :
  back p y path ->
  forall fuel acc, (length path <= fuel)%nat -> reconstruct fuel p y acc = Some (path ++ acc).
Proof.
  induction 1 as [y Hy | y x path Hy Hb IH]; intros fuel acc Hlen.
  - destruct fuel; cbn [length] in Hlen; [lia|]. cbn [reconstruct]. now rewrite Hy.
  - rewrite length_app in Hlen. cbn [length] in Hlen.
    destruct fuel; [lia|]. cbn [reconstruct]. rewrite Hy.
    rewrite IH by lia. now rewrite <- app_assoc.
Qed.

(** Writing the parent of a cell off the path leaves the path. *)
Lemma back_pset p y path r c v :
  back p y path -> ~ In (r, c) path -> 0 <= r -> 0 <= c ->
  (forall x, In x path -> 0 <= fst x /\ 0 <= snd x) ->
  back (pset p r c v) y path.
Proof.
  induction 1 as [y Hy | y x path Hy Hb IH]; intros Hnot Hr Hc Hpos.
  - apply back_root. rewrite pcell_pset_other; auto.
    + apply (Hpos y). now left.
    + apply (Hpos y). now left.
    + intros Heq. apply Hnot. left. destruct y; cbn in *. congruence.
  - assert (Hy' : In y (path ++ [y])) by (apply in_or_app; right; now left).
    apply back_step with x.
    + rewrite pcell_pset_other; auto; try apply (Hpos y Hy').
      intros Heq. apply Hnot. destruct y; cbn in *. rewrite Heq. exact Hy'.
    + apply IH; auto.
      * intros Hin. apply Hnot. apply in_or_app. now left.
      * intros z Hz. apply Hpos. apply in_or_app. now left.
Qed.

Lemma stepwise_snoc g : forall path x n,
  stepwise g path -> hd_error (rev path) = Some x ->
  In n (getNeighbors g (fst x) (snd x)) -> stepwise g (path ++ [n]).
Proof.
  induction path as [|a path IH]; intros x n Hs Hlast Hn; [discriminate|].
  destruct path as [|b path].
  - cbn in Hlast. inversion Hlast; subst a. cbn. auto.
  - apply stepwise_cons in Hs. destruct Hs as [Hab Hs].
    change ((a :: b :: path) ++ [n]) with (a :: ((b :: path) ++ [n])).
    apply stepwise_cons. cbn [app]. split; auto.
    apply (IH x n); auto.
    cbn [rev] in Hlast |- *.
    destruct (rev path ++ [b]) eqn:Hr; [destruct (rev path); discriminate|].
    cbn in Hlast |- *. exact Hlast.
Qed.

Lemma seed_queue_sound g pl edge y :
  In y (snd (seed g pl edge)) -> In y edge /\ cell (board g) (fst y) (snd y) = pl.
Proof.
  unfold seed.
  assert (Hgen : forall l v q,
    In y (snd (fold_left (fun (vq : list (list bool) * list (Z * Z)) (rc : Z * Z) =>
                 let (v, q) := vq in let (r, c) := rc in
                 if cell (board g) r c =? pl then (vset v r c, q ++ [(r, c)]) else (v, q))
               l (v, q))) ->
    In y q \/ (In y l /\ cell (board g) (fst y) (snd y) = pl)).
  { induction l as [|[r c] l IH]; intros v q Hin; cbn [fold_left] in Hin; auto.
    destruct (Z.eqb_spec (cell (board g) r c) pl) as [Hc|Hc].
    - apply IH in Hin. destruct Hin as [Hin|[Hin Hcy]].
      + apply in_app_or in Hin. destruct Hin as [Hin|[<-|[]]]; auto.
        right. split; auto. now left.
      + right. split; auto. now right.
    - apply IH in Hin. destruct Hin as [Hin|[Hin Hcy]]; auto.
      right. split; auto. now right. }
  intros Hin. apply Hgen in Hin. destruct Hin as [[]|H]. exact H.
Qed.

Section PathScan.
Variable g : t.
Variable pl : Z.
Variable seedP : Z * Z -> Prop.
Hypothesis Hwf : wf g.

Lemma seen_nonneg v seen x :
  scanState g pl seedP v seen -> In x seen -> 0 <= fst x /\ 0 <= snd x.
Proof.
  intros [Hseen _ _ _] Hx. destruct (Hseen x Hx) as (Hb & _).
  apply inBounds_iff in Hb. lia.
Qed.

(** The neighbour loop of [getWinningPath] marks and enqueues what the
    loop of [checkWin] does, and keeps the parent grid in order. *)
Lemma markNeighbors_spec x done :
  (exists s, seedP s /\ reachP g pl s x) -> In x done ->
  forall ns v p q,
  scanState g pl seedP v (done ++ q) ->
  parentInv g seedP p (done ++ q) ->
  (forall y, In y ns -> In y (getNeighbors g (fst x) (snd x))) ->
  let vpq := markNeighbors g pl x ns v p q in
  (fst (fst vpq), snd vpq) = visitNeighbors g pl ns v q /\
  parentInv g seedP (snd (fst vpq)) (done ++ snd vpq).
Proof.
  intros Hx Hxdone. unfold markNeighbors, visitNeighbors.
  induction ns as [|[nr nc] ns IH]; intros v p q Hst Hpar Hns; cbn [fold_left].
  - cbn [fst snd]. auto.
  - assert (Hin : In (nr, nc) (getNeighbors g (fst x) (snd x))) by (apply Hns; now left).
    assert (Hns' : forall y, In y ns -> In y (getNeighbors g (fst x) (snd x)))
      by (intros; apply Hns; now right).
    pose proof (in_getNeighbors _ _ _ _ Hin) as Hb. cbn [fst snd] in Hb.
    pose proof Hb as Hb'. apply inBounds_iff in Hb'.
    destruct (visitNeighbors_spec g pl seedP x done Hx [(nr, nc)] v q Hst) as (Hst1 & _ & _).
    { intros y [<-|[]]. exact Hin. }
    unfold visitNeighbors in Hst1. cbn [fold_left] in Hst1.
    destruct (negb (vcell v nr nc) && (cell (board g) nr nc =? pl)) eqn:Hcond;
      cbn [fst snd] in Hst1; [|apply IH; auto].
    apply IH; auto.
    apply andb_true_iff in Hcond. destruct Hcond as [Hnv Hc].
    apply negb_true_iff in Hnv.
    assert (Hnew : ~ In (nr, nc) (done ++ q)).
    { intros H. destruct Hst as [_ Hvis _ _]. apply Hvis in H; auto. congruence. }
    destruct Hpar as [Hsh Hpaths]. split; [now apply pset_shaped|].
    assert (Hkeep : forall y, In y (done ++ q) ->
              exists path, back (pset p nr nc x) y path /\ incl path (done ++ q) /\
                (length path <= length (done ++ q))%nat /\
                (exists s, hd_error path = Some s /\ seedP s) /\ stepwise g path).
    { intros y Hy. destruct (Hpaths y Hy) as (path & Hback & Hincl & Hlen & Hhd & Hstep).
      exists path. repeat split; auto.
      apply back_pset; auto; try lia.
      intros z Hz. apply (seen_nonneg v (done ++ q)); auto. }
    rewrite app_assoc. intros y Hy. apply in_app_or in Hy. destruct Hy as [Hy|[<-|[]]].
    + destruct (Hkeep y Hy) as (path & Hback & Hincl & Hlen & Hhd & Hstep).
      exists path. split; auto. split; [|split; [|split]]; auto.
      * intros z Hz. apply in_or_app. left. now apply Hincl.
      * rewrite length_app. cbn [length]. lia.
    + assert (Hxin : In x (done ++ q)) by (apply in_or_app; now left).
      destruct (Hkeep x Hxin) as (path & Hback & Hincl & Hlen & Hhd & Hstep).
      exists (path ++ [(nr, nc)]). split; [|split; [|split; [|split]]].
      * apply back_step with x; auto. cbn [fst snd].
        apply (pcell_pset_same (size g)); auto; lia.
      * intros z Hz. apply in_app_or in Hz. apply in_or_app.
        destruct Hz as [Hz|Hz]; [left; now apply Hincl | now right].
      * rewrite !length_app. cbn [length]. rewrite length_app in Hlen. lia.
      * destruct Hhd as (s & Hs & Hseed). exists s. split; auto.
        destruct path; [discriminate|]. exact Hs.
      * apply stepwise_snoc with x; auto. now apply back_last with (pset p nr nc x).
Qed.

Variable goal : Z -> Z -> bool.

(** A path as [getWinningPath] returns it. *)
Let good (path : list (Z * Z)) : Prop :=
  (exists s, hd_error path = Some s /\ seedP s) /\
  (exists t, hd_error (rev path) = Some t /\ goal (fst t) (snd t) = true) /\
  (forall x, In x path ->
     inBounds (size g) (fst x) (snd x) = true /\ cell (board g) (fst x) (snd x) = pl) /\
  stepwise g path.

Lemma pathLoop_spec : forall fuel v p q done,
  scanState g pl seedP v (done ++ q) ->
  parentInv g seedP p (done ++ q) ->
  (bfsLoop fuel g pl goal v q = true ->
     exists path, pathLoop fuel g pl goal v p q = Some path /\ good path) /\
  (bfsLoop fuel g pl goal v q = false -> pathLoop fuel g pl goal v p q = None).
Proof.
  induction fuel as [|fuel IH]; intros v p q done Hst Hpar; cbn [bfsLoop pathLoop].
  - split; [discriminate | reflexivity].
  - destruct q as [|[row col] rest]; [split; [discriminate | reflexivity]|].
    assert (Hx : In (row, col) (done ++ (row, col) :: rest))
      by (apply in_or_app; right; now left).
    pose proof Hst as [Hseen Hvis Hnd Hsh].
    destruct (Hseen _ Hx) as (Hxb & Hxc & Hxs).
    destruct (goal row col) eqn:Hg.
    + split; [intros _|discriminate].
      destruct Hpar as [_ Hpaths].
      destruct (Hpaths _ Hx) as (path & Hback & Hincl & Hlen & Hhd & Hstep).
      exists path. split.
      * rewrite (reconstruct_back p (row, col) path Hback), app_nil_r; auto.
        pose proof (seen_bounded g pl seedP Hwf _ _ Hst) as Hbound. lia.
      * split; [exact Hhd|]. split; [|split; auto].
        -- exists (row, col). split; [now apply back_last with p | exact Hg].
        -- intros z Hz. destruct (Hseen z (Hincl z Hz)) as (H1 & H2 & _). auto.
    + assert (Hst0 : scanState g pl seedP v ((done ++ [(row, col)]) ++ rest))
        by now rewrite <- app_assoc.
      assert (Hpar0 : parentInv g seedP p ((done ++ [(row, col)]) ++ rest))
        by now rewrite <- app_assoc.
      destruct (visitNeighbors_spec g pl seedP (row, col) (done ++ [(row, col)]) Hxs
                  (getNeighbors g row col) v rest Hst0 (fun y H => H)) as (Hst1 & _ & _).
      destruct (markNeighbors_spec (row, col) (done ++ [(row, col)]) Hxs
                  ltac:(apply in_or_app; right; now left)
                  (getNeighbors g row col) v p rest Hst0 Hpar0 (fun y H => H)) as (Heq & Hpar1).
      destruct (markNeighbors g pl (row, col) (getNeighbors g row col) v p rest)
        as [[v' p'] q'].
      cbn [fst snd] in Heq, Hpar1. rewrite <- Heq in Hst1 |- *. cbn [fst snd] in Hst1.
      apply (IH v' p' q' (done ++ [(row, col)])); auto.
Qed.

End PathScan.

Lemma getWinningPath_spec g pl :
  wf g -> pl = PLAYER_RED \/ pl = PLAYER_BLUE ->
  (checkWin g pl = true ->
     exists path, getWinningPath g pl = Some path /\ winningPath g pl path) /\
  (checkWin g pl = false -> getWinningPath g pl = None).
Proof.
  intros Hwf Hpl. unfold checkWin, getWinningPath, winningPath, startEdge, farEdge.
  destruct Hpl as [-> | ->]; cbn [Z.eqb Pos.eqb PLAYER_RED PLAYER_BLUE].
  - set (seedP := fun s : Z * Z => cell (board g) (fst s) (snd s) = 1 /\
                                   inBounds (size g) (fst s) (snd s) = true /\ fst s = 0).
    set (edge := map (fun col => (0, col)) (zrange (size g))).
    assert (Hedge : forall x, In x edge -> inBounds (size g) (fst x) (snd x) = true /\ fst x = 0).
    { intros x Hx. apply in_map_iff in Hx. destruct Hx as (c & <- & Hc).
      apply in_zrange in Hc. split; auto. apply inBounds_iff. destruct Hwf. simpl. lia. }
    destruct (seed_spec g 1 seedP edge) as (Hst & _).
    + apply Injective_map_NoDup; [|apply zrange_NoDup]. intros a b H. congruence.
    + intros x Hx. now apply Hedge.
    + intros s. unfold seedP. split.
      * intros (Hc & Hb & H0). split; auto. apply in_map_iff. exists (snd s).
        destruct s as [r c]; cbn [fst snd] in *. subst r. split; auto.
        apply in_zrange. apply inBounds_iff in Hb. lia.
      * intros (Hin & Hc). destruct (Hedge s Hin). auto.
    + assert (Hpar : parentInv g seedP (grid (size g) None) ([] ++ snd (seed g 1 edge))).
      { split; [apply pgrid_shaped|]. intros y Hy. cbn [app] in Hy |- *.
        exists [y]. split; [apply back_root, pcell_grid|]. split; [|split; [|split]].
        - intros z [<-|[]]. exact Hy.
        - destruct (snd (seed g 1 edge)); [destruct Hy | cbn; lia].
        - exists y. split; auto. destruct (seed_queue_sound g 1 edge y Hy) as [Hin Hc].
          destruct (Hedge y Hin). unfold seedP. auto.
        - exact I. }
      change PLAYER_RED with 1. fold edge.
      destruct (seed g 1 edge) as [v q]. cbn [fst snd] in *.
      destruct (pathLoop_spec g 1 seedP Hwf (fun row _ => row =? size g - 1)
                  (Z.to_nat (size g * size g)) v (grid (size g) None) q [] Hst Hpar)
        as [Hyes Hno].
      split; auto. intros Hwin. destruct (Hyes Hwin) as (path & Hp & Hs & Ht & Hall & Hstep).
      exists path. split; auto. split; [|split; [|split]]; auto.
      * destruct Hs as (s & Hhd & _ & _ & H0). exists s. auto.
      * destruct Ht as (t & Hlast & Hgoal). exists t. split; auto. now apply Z.eqb_eq.
  - set (seedP := fun s : Z * Z => cell (board g) (fst s) (snd s) = 2 /\
                                   inBounds (size g) (fst s) (snd s) = true /\ snd s = 0).
    set (edge := map (fun row => (row, 0)) (zrange (size g))).
    assert (Hedge : forall x, In x edge -> inBounds (size g) (fst x) (snd x) = true /\ snd x = 0).
    { intros x Hx. apply in_map_iff in Hx. destruct Hx as (c & <- & Hc).
      apply in_zrange in Hc. split; auto. apply inBounds_iff. destruct Hwf. simpl. lia. }
    destruct (seed_spec g 2 seedP edge) as (Hst & _).
    + apply Injective_map_NoDup; [|apply zrange_NoDup]. intros a b H. congruence.
    + intros x Hx. now apply Hedge.
    + intros s. unfold seedP. split.
      * intros (Hc & Hb & H0). split; auto. apply in_map_iff. exists (fst s).
        destruct s as [r c]; cbn [fst snd] in *. subst c. split; auto.
        apply in_zrange. apply inBounds_iff in Hb. lia.
      * intros (Hin & Hc). destruct (Hedge s Hin). auto.
    + assert (Hpar : parentInv g seedP (grid (size g) None) ([] ++ snd (seed g 2 edge))).
      { split; [apply pgrid_shaped|]. intros y Hy. cbn [app] in Hy |- *.
        exists [y]. split; [apply back_root, pcell_grid|]. split; [|split; [|split]].
        - intros z [<-|[]]. exact Hy.
        - destruct (snd (seed g 2 edge)); [destruct Hy | cbn; lia].
        - exists y. split; auto. destruct (seed_queue_sound g 2 edge y Hy) as [Hin Hc].
          destruct (Hedge y Hin). unfold seedP. auto.
        - exact I. }
      change PLAYER_BLUE with 2. fold edge.
      destruct (seed g 2 edge) as [v q]. cbn [fst snd] in *.
      destruct (pathLoop_spec g 2 seedP Hwf (fun _ col => col =? size g - 1)
                  (Z.to_nat (size g * size g)) v (grid (size g) None) q [] Hst Hpar)
        as [Hyes Hno].
      split; auto. intros Hwin. destruct (Hyes Hwin) as (path & Hp & Hs & Ht & Hall & Hstep).
      exists path. split; auto. split; [|split; [|split]]; auto.
      * destruct Hs as (s & Hhd & _ & _ & H0). exists s. auto.
      * destruct Ht as (t & Hlast & Hgoal). exists t. split; auto. now apply Z.eqb_eq.
Qed.

(** X8: [getWinningPath] returns [null] exactly when [checkWin] answers
    [false]; otherwise it returns a winning path of the side: its stones
    only, each a neighbour of the one before, from its starting edge to the
    opposite edge. *)
Theorem X8_getWinningPath_returns_winning_path (g : t) (pl : Z) :
  wf g -> pl = PLAYER_RED \/ pl = PLAYER_BLUE ->
  (getWinningPath g pl = None <-> checkWin g pl = false) /\
  (forall path, getWinningPath g pl = Some path -> winningPath g pl path).
Proof.
  intros Hwf Hpl. destruct (getWinningPath_spec g pl Hwf Hpl) as [Hyes Hno].
  destruct (checkWin g pl) eqn:Hwin.
  - destruct (Hyes eq_refl) as (path & Hp & Hgood). rewrite Hp. split.
    + split; discriminate.
    + intros path' Heq. inversion Heq; subst. exact Hgood.
  - rewrite (Hno eq_refl). split; [tauto | discriminate].
Qed.

Lemma X8_getWinningPath_returns_winning_path_witness :
  getWinningPath trackedEnd PLAYER_RED = Some [(0, 0); (1, 0); (2, 0)] /\
  winningPath trackedEnd PLAYER_RED [(0, 0); (1, 0); (2, 0)].
Proof.
  assert (Hwf : wf trackedEnd) by (apply wfb_sound; reflexivity).
  destruct (X8_getWinningPath_returns_winning_path trackedEnd PLAYER_RED Hwf (or_introl eq_refl))
    as [_ H].
  split; [reflexivity|]. apply H. reflexivity.
Defined.

End Paths.


(** ** Evaluator, opening book and the move-choosing strategies *)

Section BridgeOffsets.
Import HexGame HexEvaluator.

Lemma checkIntermediates_pair g a b :
  checkIntermediates g true [a; b] = true <-> emptyOnBoard g a /\ emptyOnBoard g b.
Proof.
  destruct a as [ar ac], b as [br bc]. unfold emptyOnBoard. cbn [checkIntermediates fst snd].
  destruct ((ar <? 0) || (ar >=? size g) || (ac <? 0) || (ac >=? size g)
            || negb (cell (board g) ar ac =? EMPTY)) eqn:Ha.
  - split; [discriminate|]. intros [(H1 & H2 & H3) _].
    rewrite !orb_true_iff, !Z.ltb_lt, !Z.geb_leb, !Z.leb_le, negb_true_iff, Z.eqb_neq in Ha. lia.
  - rewrite !orb_false_iff, !Z.ltb_ge, !Z.geb_leb, !Z.leb_gt, negb_false_iff, Z.eqb_eq in Ha.
    destruct ((br <? 0) || (br >=? size g) || (bc <? 0) || (bc >=? size g)
              || negb (cell (board g) br bc =? EMPTY)) eqn:Hb.
    + split; [discriminate|]. intros [_ (H1 & H2 & H3)].
      rewrite !orb_true_iff, !Z.ltb_lt, !Z.geb_leb, !Z.leb_le, negb_true_iff, Z.eqb_neq in Hb. lia.
    + rewrite !orb_false_iff, !Z.ltb_ge, !Z.geb_leb, !Z.leb_gt, negb_false_iff, Z.eqb_eq in Hb.
      split; auto. intros _. repeat split; lia.
Qed.

Lemma isVirtuallyConnected_at g r1 c1 dr dc player a b :
  In ((dr, dc), (a, b)) detectedBridges ->
  isVirtuallyConnected g (r1, c1) (r1 + dr, c1 + dc) player
  = checkIntermediates g true [(r1 + fst a, c1 + snd a); (r1 + fst b, c1 + snd b)].
Proof.
  intros Hin. unfold isVirtuallyConnected.
  replace (r1 + dr - r1) with dr by lia. replace (c1 + dc - c1) with dc by lia.
  cbn [detectedBridges In] in Hin.
  repeat (destruct Hin as [Heq|Hin];
          [inversion Heq; subst; cbn [fst snd]; unfold intermediates;
           cbn [Z.abs Z.add Pos.add Z.eqb Pos.eqb andb length Nat.eqb Z.opp Pos.succ];
           replace (r1 + -1) with (r1 - 1) by lia; replace (c1 + -1) with (c1 - 1) by lia;
           replace (r1 + 0) with r1 by lia; replace (c1 + 0) with c1 by lia;
           reflexivity|]).
  destruct Hin.
Qed.

(** X9: [isVirtuallyConnected] answers [true] exactly for six offsets from
    the first cell to the second, (2,0), (-2,0), (0,2), (0,-2), (1,1) and
    (-1,-1), when the two cells it tests for that offset are empty cells of
    the board; the colour argument and the contents of the two end cells
    play no part.  The offsets (1,-2), (-1,2), (2,-1) and (-2,1), though
    listed among the source's patterns, always give [false], because the
    guard only lets offsets with [|dr| + |dc| = 2] through. *)
Theorem X9_bridge_detection_offsets (g : t) (r1 c1 r2 c2 player : Z) :
  (isVirtuallyConnected g (r1, c1) (r2, c2) player = true <->
   exists a b, In ((r2 - r1, c2 - c1), (a, b)) detectedBridges /\
               emptyOnBoard g (r1 + fst a, c1 + snd a) /\
               emptyOnBoard g (r1 + fst b, c1 + snd b)) /\
  (In (r2 - r1, c2 - c1) unreachedBridges ->
   isVirtuallyConnected g (r1, c1) (r2, c2) player = false).
Proof.
  assert (Hr : r2 = r1 + (r2 - r1)) by lia. assert (Hc : c2 = c1 + (c2 - c1)) by lia.
  revert Hr Hc. generalize (r2 - r1) as dr, (c2 - c1) as dc. intros dr dc -> ->.
  replace (r1 + dr - r1) with dr by lia. replace (c1 + dc - c1) with dc by lia.
  split; [split|].
  - intros Hvc.
    assert (Hsum : Z.abs dr + Z.abs dc = 2).
    { unfold isVirtuallyConnected in Hvc.
      destruct (Z.eqb_spec (Z.abs (r1 + dr - r1) + Z.abs (c1 + dc - c1)) 2); [lia|discriminate]. }
    assert (Hcases : (dr = 2 /\ dc = 0) \/ (dr = -2 /\ dc = 0) \/ (dr = 0 /\ dc = 2) \/
                     (dr = 0 /\ dc = -2) \/ (dr = 1 /\ dc = 1) \/ (dr = -1 /\ dc = -1) \/
                     (dr = 1 /\ dc = -1) \/ (dr = -1 /\ dc = 1)) by lia.
    destruct Hcases as [[-> ->]|[[-> ->]|[[-> ->]|[[-> ->]|[[-> ->]|[[-> ->]|[[-> ->]|[-> ->]]]]]]]].
    + exists (1, -1), (1, 0). split; [cbn; tauto|].
      rewrite (isVirtuallyConnected_at g r1 c1 2 0 player (1, -1) (1, 0)) in Hvc by (cbn; tauto).
      now apply checkIntermediates_pair.
    + exists (-1, 0), (-1, 1). split; [cbn; tauto|].
      rewrite (isVirtuallyConnected_at g r1 c1 (-2) 0 player (-1, 0) (-1, 1)) in Hvc by (cbn; tauto).
      now apply checkIntermediates_pair.
    + exists (-1, 1), (0, 1). split; [cbn; tauto|].
      rewrite (isVirtuallyConnected_at g r1 c1 0 2 player (-1, 1) (0, 1)) in Hvc by (cbn; tauto).
      now apply checkIntermediates_pair.
    + exists (0, -1), (1, -1). split; [cbn; tauto|].
      rewrite (isVirtuallyConnected_at g r1 c1 0 (-2) player (0, -1) (1, -1)) in Hvc by (cbn; tauto).
      now apply checkIntermediates_pair.
    + exists (0, 1), (1, 0). split; [cbn; tauto|].
      rewrite (isVirtuallyConnected_at g r1 c1 1 1 player (0, 1) (1, 0)) in Hvc by (cbn; tauto).
      now apply checkIntermediates_pair.
    + exists (-1, 0), (0, -1). split; [cbn; tauto|].
      rewrite (isVirtuallyConnected_at g r1 c1 (-1) (-1) player (-1, 0) (0, -1)) in Hvc by (cbn; tauto).
      now apply checkIntermediates_pair.
    + exfalso. unfold isVirtuallyConnected in Hvc.
      replace (r1 + 1 - r1) with 1 in Hvc by lia. replace (c1 + -1 - c1) with (-1) in Hvc by lia.
      cbn in Hvc. discriminate.
    + exfalso. unfold isVirtuallyConnected in Hvc.
      replace (r1 + -1 - r1) with (-1) in Hvc by lia. replace (c1 + 1 - c1) with 1 in Hvc by lia.
      cbn in Hvc. discriminate.
  - intros (a & b & Hin & Ha & Hb).
    rewrite (isVirtuallyConnected_at g r1 c1 dr dc player a b Hin).
    now apply checkIntermediates_pair.
  - intros Hin. unfold isVirtuallyConnected.
    replace (r1 + dr - r1) with dr by lia. replace (c1 + dc - c1) with dc by lia.
    cbn [unreachedBridges In] in Hin.
    repeat (destruct Hin as [Heq|Hin]; [inversion Heq; subst; reflexivity|]).
    destruct Hin.
Qed.

End BridgeOffsets.

Section Strategies.
Import HexGame.

Lemma pick_nonempty {A} rnd (l : list A) : l <> [] -> exists x, pick rnd l = Some x.
Proof.
  intros Hne. unfold pick.
  destruct (nth_error l (rnd mod length l)) eqn:Hn; eauto.
  apply nth_error_None in Hn.
  assert (length l <> O) by (destruct l; [congruence | discriminate]).
  pose proof (Nat.mod_upper_bound rnd (length l)). lia.
Qed.

Lemma nonempty_length_pos {A} (l : list A) : l <> [] -> (0 <? Z.of_nat (length l)) = true.
Proof. destruct l; [congruence | reflexivity]. Qed.

Lemma length_pos_nonempty {A} (l : list A) : (0 <? Z.of_nat (length l)) = true -> l <> [].
Proof. destruct l; [discriminate | discriminate]. Qed.

(** X10: on a game kept by [makeMove] (the move log as long as the move
    counter) the opening book never throws and never returns [undefined]:
    it answers a move or [null]; before the first move of a 7x7, 11x11 or
    13x13 game it always answers a move. *)
Theorem X10_opening_book_total (g : t) (rnd : nat) :
  Z.of_nat (length (history g)) = moveCount g ->
  (HexOpeningBook.getOpeningMove g rnd = Null \/
   exists m, HexOpeningBook.getOpeningMove g rnd = Move m) /\
  (moveCount g = 0 -> size g = 7 \/ size g = 11 \/ size g = 13 ->
   exists m, HexOpeningBook.getOpeningMove g rnd = Move m).
Proof.
  intros Hlog. unfold HexOpeningBook.getOpeningMove.
  assert (Htable : forall l : list (Z * Z), l <> [] ->
            exists m, HexOpeningBook.ofPick (pick rnd l) = Move m).
  { intros l Hl. destruct (pick_nonempty rnd l Hl) as (m & ->). now exists m. }
  assert (H7 : HexOpeningBook.getOpening7x7 g (moveCount g) rnd = Null \/
               exists m, HexOpeningBook.getOpening7x7 g (moveCount g) rnd = Move m).
  { unfold HexOpeningBook.getOpening7x7.
    destruct (Z.eqb_spec (moveCount g) 0) as [H0|H0]; [right; apply Htable; discriminate|].
    destruct (Z.eqb_spec (moveCount g) 1) as [H1|H1]; cbn [andb]; auto.
    destruct (currentPlayer g =? PLAYER_BLUE); auto.
    destruct (history g) as [|lastMove rest]; [cbn in Hlog; lia|].
    match goal with |- context [if 0 <? Z.of_nat (length ?l) then _ else _] =>
      destruct (0 <? Z.of_nat (length l)) eqn:Hlen; auto;
      right; apply Htable; now apply length_pos_nonempty end. }
  split.
  - destruct (moveCount g >? 4); auto.
    destruct (size g =? 7); auto.
    destruct (size g =? 11);
      [unfold HexOpeningBook.getOpening11x11;
       destruct (moveCount g =? 0); auto; right; apply Htable; discriminate|].
    destruct (size g =? 13);
      [unfold HexOpeningBook.getOpening13x13;
       destruct (moveCount g =? 0); auto; right; apply Htable; discriminate|].
    unfold HexOpeningBook.getDefaultOpening.
    destruct (pick rnd _); eauto.
  - intros H0 Hsize. rewrite H0. cbn [Z.gtb Z.compare].
    destruct Hsize as [-> | [-> | ->]]; cbn [Z.eqb Pos.eqb];
      unfold HexOpeningBook.getOpening7x7, HexOpeningBook.getOpening11x11,
             HexOpeningBook.getOpening13x13; cbn [Z.eqb];
      apply Htable; discriminate.
Qed.

Lemma X10_opening_book_total_witness :
  exists m, HexOpeningBook.getOpeningMove (create 11) 4 = Move m.
Proof.
  destruct (X10_opening_book_total (create 11) 4 eq_refl) as [_ H].
  apply H; [reflexivity | right; left; reflexivity].
Defined.

(** *** RandomAI *)

Lemma length_zero_nil {A} (l : list A) : (Z.of_nat (length l) =? 0) = true <-> l = [].
Proof. destruct l; cbn; split; intros; try reflexivity; try discriminate. Qed.

Lemma ofMove_pick rnd (l : list (Z * Z)) :
  l <> [] -> exists m, RandomAI.ofMove (pick rnd l) = Move m /\ In m l.
Proof.
  intros Hl. destruct (pick_nonempty rnd l Hl) as (m & Hm). rewrite Hm.
  exists m. split; auto. eapply pick_In; eauto.
Qed.

Lemma winsAtOnce_valid g m :
  gameOver g = false -> winsAtOnce g m = true -> isValidMove g (fst m) (snd m) = true.
Proof.
  intros Ho Hw. unfold winsAtOnce, copy in Hw.
  destruct (makeMove_cases g (fst m) (snd m)) as [Hrej | (Hv & _)]; auto.
  rewrite Hrej in Hw. cbn [snd] in Hw. rewrite Ho in Hw. discriminate.
Qed.

Lemma wf_withStone g m v :
  wf g -> 0 <= fst m -> 0 <= snd m -> v = PLAYER_RED \/ v = PLAYER_BLUE ->
  wf (withStone g m v).
Proof. intros. unfold withStone. now apply wf_setCell. Qed.

(** On an empty board of two or more rows no single stone wins. *)
Lemma no_threat_on_empty_board g opp m :
  consistent g -> moveCount g = 0 -> 2 <= size g ->
  opp = PLAYER_RED \/ opp = PLAYER_BLUE ->
  0 <= fst m -> 0 <= snd m ->
  threatens g opp m = false.
Proof.
  intros (Hwf & Hcnt & _) H0 Hn Hopp Hr Hc. unfold threatens.
  apply (lone_stone_no_win _ _ m); auto.
  - now apply wf_withStone.
  - cbn [withStone size board]. intros r c Hr' Hc' Hne.
    rewrite cell_setCell_other; try lia.
    + apply no_stones_all_empty; auto. lia.
    + destruct m; cbn [fst snd] in *. congruence.
Qed.

(** X11: when the board has an empty cell, [RandomAI.getMove] returns a
    move, in either mode and for every random draw, and the move is an
    empty cell of the board. *)
Theorem X11_RandomAI_returns_empty_cell (smartMode : bool) (rnd : nat) (g : t) :
  getValidMoves g <> [] ->
  exists m, RandomAI.getMove smartMode rnd g = Move m /\ In m (getValidMoves g).
Proof.
  intros Hne. unfold RandomAI.getMove.
  destruct (Z.of_nat (length (getValidMoves g)) =? 0) eqn:Hlen;
    [apply length_zero_nil in Hlen; contradiction|].
  destruct smartMode; [|now apply ofMove_pick].
  destruct (find (winsAtOnce g) (getValidMoves g)) as [m|] eqn:Hfind.
  { exists m. split; auto. now apply find_some in Hfind. }
  match goal with |- context [if 0 <? Z.of_nat (length ?l) then _ else _] =>
    destruct (0 <? Z.of_nat (length l)) eqn:Hblock end.
  { apply length_pos_nonempty in Hblock.
    destruct (ofMove_pick rnd _ Hblock) as (m & Hm & Hin). exists m. split; auto.
    now apply filter_In in Hin. }
  destruct ((size g =? 7) && (moveCount g =? 0)); [|now apply ofMove_pick].
  match goal with |- context [if 0 <? Z.of_nat (length ?l) then _ else _] =>
    destruct (0 <? Z.of_nat (length l)) eqn:Hfilt end; [|now apply ofMove_pick].
  apply length_pos_nonempty in Hfilt.
  destruct (ofMove_pick rnd _ Hfilt) as (m & Hm & Hin). exists m. split; auto.
  now apply filter_In in Hin.
Qed.

Lemma X11_RandomAI_returns_empty_cell_witness :
  exists m, RandomAI.getMove true 5 (create 3) = Move m /\ In m (getValidMoves (create 3)).
Proof. apply X11_RandomAI_returns_empty_cell. discriminate. Defined.

Lemma valid_of_listed g m :
  In m (getValidMoves g) -> ~ (size g = 7 /\ moveCount g = 0 /\ fst m = 3 /\ snd m = 3) ->
  isValidMove g (fst m) (snd m) = true.
Proof.
  intros Hin Hban. destruct m as [r c]. apply in_getValidMoves in Hin.
  destruct Hin as (Hr & Hc & He). now apply isValidMove_intro.
Qed.

(** X12: on an undecided game kept by [makeMove], the move of the smart
    mode is a move [makeMove] accepts.  The plain mode does not filter the
    centre of an empty 7x7 board, which [isValidMove] bans as first move: a
    draw can return it. *)
Theorem X12_RandomAI_smart_move_is_accepted (rnd : nat) (g : t) :
  consistent g -> gameOver g = false -> getValidMoves g <> [] ->
  (exists m, RandomAI.getMove true rnd g = Move m /\
             isValidMove g (fst m) (snd m) = true) /\
  (RandomAI.getMove false 24 (create 7) = Move (3, 3) /\
   isValidMove (create 7) 3 3 = false).
Proof.
  intros Hcons Ho Hne. split; [|split; reflexivity].
  pose proof Hcons as (Hwf & Hcnt & _ & Hside).
  unfold RandomAI.getMove.
  destruct (Z.of_nat (length (getValidMoves g)) =? 0) eqn:Hlen;
    [apply length_zero_nil in Hlen; contradiction|].
  destruct (find (winsAtOnce g) (getValidMoves g)) as [m|] eqn:Hfind.
  { exists m. split; auto. apply find_some in Hfind. now apply winsAtOnce_valid. }
  assert (Hthreat : forall m, In m (getValidMoves g) ->
            threatens g (other (currentPlayer g)) m = true ->
            isValidMove g (fst m) (snd m) = true).
  { intros m Hin Hth. apply valid_of_listed; auto. intros (H7 & H0 & _).
    destruct m as [r c]. apply in_getValidMoves in Hin.
    rewrite no_threat_on_empty_board in Hth; auto; try discriminate; try lia.
    - apply other_cases.
    - cbn; lia.
    - cbn; lia. }
  match goal with |- context [if 0 <? Z.of_nat (length ?l) then _ else _] =>
    destruct (0 <? Z.of_nat (length l)) eqn:Hblock end.
  { apply length_pos_nonempty in Hblock.
    destruct (ofMove_pick rnd _ Hblock) as (m & Hm & Hin). exists m. split; auto.
    apply filter_In in Hin. destruct Hin. now apply Hthreat. }
  destruct (Z.eqb_spec (size g) 7) as [H7|H7]; cbn [andb];
    [destruct (Z.eqb_spec (moveCount g) 0) as [H0|H0]|].
  - rewrite H7. change (7 / 2) with 3.
    assert (Hfilt : filter (fun m : Z * Z => negb ((fst m =? 3) && (snd m =? 3)))
                           (getValidMoves g) <> []).
    { assert (Hin : In (0, 0) (filter (fun m : Z * Z => negb ((fst m =? 3) && (snd m =? 3)))
                                      (getValidMoves g))).
      { apply filter_In. split; [|reflexivity]. apply in_getValidMoves.
        repeat split; try lia. apply no_stones_all_empty; auto; lia. }
      intros Heq. rewrite Heq in Hin. exact Hin. }
    match goal with |- context [if 0 <? Z.of_nat (length ?l) then _ else _] =>
      destruct (0 <? Z.of_nat (length l)) eqn:Hlenf end.
    + destruct (ofMove_pick rnd _ Hfilt) as (m & Hm & Hin). exists m. split; auto.
      apply filter_In in Hin. destruct Hin as [Hin Hc].
      apply valid_of_listed; auto. intros (_ & _ & H3 & H3').
      rewrite H3, H3' in Hc. discriminate.
    + rewrite (nonempty_length_pos _ Hfilt) in Hlenf. discriminate.
  - destruct (ofMove_pick rnd _ Hne) as (m & Hm & Hin). exists m. split; auto.
    apply valid_of_listed; auto. tauto.
  - destruct (ofMove_pick rnd _ Hne) as (m & Hm & Hin). exists m. split; auto.
    apply valid_of_listed; auto. tauto.
Qed.

Lemma X12_RandomAI_smart_move_is_accepted_witness :
  exists m, RandomAI.getMove true 24 (create 7) = Move m /\
            isValidMove (create 7) (fst m) (snd m) = true.
Proof.
  apply (X12_RandomAI_smart_move_is_accepted 24 (create 7)).
  - apply consistent_create. lia.
  - reflexivity.
  - discriminate.
Defined.

(** X13: the smart mode plays a move that wins at once whenever an empty
    cell does; failing that, it plays a cell on which the opponent would
    win at once whenever there is one. *)
Theorem X13_RandomAI_smart_wins_or_blocks (rnd : nat) (g : t) :
  (forall w, In w (getValidMoves g) -> winsAtOnce g w = true ->
     exists m, RandomAI.getMove true rnd g = Move m /\ winsAtOnce g m = true) /\
  ((forall w, In w (getValidMoves g) -> winsAtOnce g w = false) ->
   forall b, In b (getValidMoves g) -> threatens g (other (currentPlayer g)) b = true ->
     exists m, RandomAI.getMove true rnd g = Move m /\
               threatens g (other (currentPlayer g)) m = true).
Proof.
  split.
  - intros w Hin Hw. unfold RandomAI.getMove.
    destruct (Z.of_nat (length (getValidMoves g)) =? 0) eqn:Hlen;
      [apply length_zero_nil in Hlen; rewrite Hlen in Hin; destruct Hin|].
    destruct (find (winsAtOnce g) (getValidMoves g)) as [m|] eqn:Hfind.
    + exists m. split; auto. now apply find_some in Hfind.
    + rewrite (find_none _ _ Hfind w Hin) in Hw. discriminate.
  - intros Hnowin b Hin Hb. unfold RandomAI.getMove.
    destruct (Z.of_nat (length (getValidMoves g)) =? 0) eqn:Hlen;
      [apply length_zero_nil in Hlen; rewrite Hlen in Hin; destruct Hin|].
    destruct (find (winsAtOnce g) (getValidMoves g)) as [m|] eqn:Hfind.
    { apply find_some in Hfind. destruct Hfind as [Hm Hw].
      rewrite (Hnowin m Hm) in Hw. discriminate. }
    assert (Hblock : filter (threatens g (other (currentPlayer g))) (getValidMoves g) <> []).
    { intros Heq. assert (Hf : In b (filter (threatens g (other (currentPlayer g)))
                                            (getValidMoves g)))
        by (apply filter_In; auto).
      rewrite Heq in Hf. exact Hf. }
    match goal with |- context [if 0 <? Z.of_nat (length ?l) then _ else _] =>
      destruct (0 <? Z.of_nat (length l)) eqn:Hl end.
    + destruct (ofMove_pick rnd _ Hblock) as (m & Hm & Hinm). exists m. split; auto.
      apply filter_In in Hinm. tauto.
    + rewrite (nonempty_length_pos _ Hblock) in Hl. discriminate.
Qed.

End Strategies.


(** ** The bounded search: move ordering, memo table, chosen move *)

Section SearchFacts.
Import HexGame HexHeuristicSearch.

Variable evaluatePosition : HexGame.t -> Z -> Q.

Lemma insertScored_perm x l : Permutation (insertScored x l) (x :: l).
Proof.
  induction l as [|y l IH]; cbn [insertScored]; auto.
  destruct (Qcompare (snd x) (snd y)); auto.
  rewrite IH. apply perm_swap.
Qed.

Lemma sortScored_perm l : Permutation (sortScored l) l.
Proof.
  induction l as [|x l IH]; cbn [sortScored fold_right]; auto.
  rewrite insertScored_perm. now constructor.
Qed.

Lemma insertScored_sorted x l :
  Sorted (fun a b : (Z * Z) * Q => Qle (snd b) (snd a)) l ->
  Sorted (fun a b : (Z * Z) * Q => Qle (snd b) (snd a)) (insertScored x l).
Proof.
  induction l as [|y l IH]; intros Hs; cbn [insertScored].
  - repeat constructor.
  - destruct (Qcompare (snd x) (snd y)) eqn:Hc.
    + constructor; auto. constructor. apply Qeq_alt in Hc. rewrite Hc. apply Qle_refl.
    + inversion Hs as [|? ? Hs' Hhd]; subst. constructor; auto.
      destruct l as [|z l]; cbn [insertScored].
      * constructor. apply Qlt_alt in Hc. now apply Qlt_le_weak.
      * destruct (Qcompare (snd x) (snd z)) eqn:Hc'.
        -- constructor. apply Qlt_alt in Hc. now apply Qlt_le_weak.
        -- inversion Hhd; subst. now constructor.
        -- constructor. apply Qlt_alt in Hc. now apply Qlt_le_weak.
    + constructor; auto. constructor. apply Qgt_alt in Hc. now apply Qlt_le_weak.
Qed.

Lemma sortScored_sorted l :
  Sorted (fun a b : (Z * Z) * Q => Qle (snd b) (snd a)) (sortScored l).
Proof.
  induction l as [|x l IH]; cbn [sortScored fold_right]; [constructor|].
  now apply insertScored_sorted.
Qed.

Lemma Sorted_firstn {A} (R : A -> A -> Prop) l : forall k, Sorted R l -> Sorted R (firstn k l).
Proof.
  induction l as [|a l IH]; intros k Hs; destruct k; cbn [firstn]; try constructor.
  - inversion Hs; subst. auto.
  - inversion Hs as [|? ? Hs' Hhd]; subst.
    destruct l as [|b l]; destruct k; cbn [firstn]; constructor.
    inversion Hhd; auto.
Qed.

Lemma Sorted_map_fst (f : Z * Z -> Q) l :
  (forall e, In e l -> snd e = f (fst e)) ->
  Sorted (fun a b : (Z * Z) * Q => Qle (snd b) (snd a)) l ->
  Sorted (fun a b => Qle (f b) (f a)) (map fst l).
Proof.
  induction l as [|x l IH]; intros Hf Hs; cbn [map]; [constructor|].
  inversion Hs as [|? ? Hs' Hhd]; subst. constructor.
  - apply IH; auto. intros e He. apply Hf. now right.
  - destruct l as [|y l]; cbn [map]; constructor.
    inversion Hhd; subst. rewrite <- (Hf x), <- (Hf y); auto; [right|]; now left.
Qed.

Lemma in_firstn {A} (x : A) l : forall k, In x (firstn k l) -> In x l.
Proof.
  induction l as [|a l IH]; intros k Hin; destruct k; cbn [firstn] in Hin; try destruct Hin.
  - now left.
  - right. eapply IH; eauto.
Qed.

Lemma NoDup_firstn {A} (l : list A) : forall k, NoDup l -> NoDup (firstn k l).
Proof.
  induction l as [|a l IH]; intros k Hnd; destruct k; cbn [firstn]; try constructor.
  - inversion Hnd; subst. intros Hin. apply in_firstn in Hin. contradiction.
  - inversion Hnd; subst. auto.
Qed.

Lemma orderMoves_shape g beamWidth :
  orderMoves evaluatePosition g beamWidth =
  firstn (Z.to_nat (Z.max beamWidth 1))
         (map fst (sortScored (map (fun m => (m, orderScore evaluatePosition g m))
                                   (getValidMoves g)))).
Proof. unfold orderMoves. now rewrite firstn_map. Qed.

Lemma sorted_moves_perm g :
  Permutation (map fst (sortScored (map (fun m => (m, orderScore evaluatePosition g m))
                                        (getValidMoves g))))
              (getValidMoves g).
Proof.
  rewrite sortScored_perm, map_map. cbn [fst]. now rewrite map_id.
Qed.

Lemma orderMoves_length g beamWidth :
  length (orderMoves evaluatePosition g beamWidth)
  = Nat.min (Z.to_nat (Z.max beamWidth 1)) (length (getValidMoves g)).
Proof.
  rewrite orderMoves_shape, length_firstn.
  now rewrite (Permutation_length (sorted_moves_perm g)).
Qed.

Lemma orderMoves_incl g beamWidth :
  incl (orderMoves evaluatePosition g beamWidth) (getValidMoves g).
Proof.
  rewrite orderMoves_shape. intros m Hm. apply in_firstn in Hm.
  now apply (Permutation_in _ (sorted_moves_perm g)).
Qed.

(** X15: on a board of four or more rows, where the evaluator returns
    finite numbers ([evaluateCenterControl] divides by
    [radius * radius * 4], which is 0 on smaller boards, and the comparator
    of the sort then yields NaN), [orderMoves] returns empty cells of the
    board, each at most once, in order of falling score (the evaluation of
    the board with the mover's stone on the cell); it returns
    [max(beamWidth, 1)] of them, or all of them if there are fewer, and then
    it is a rearrangement of [getValidMoves]. *)
Theorem X15_orderMoves_beam (g : t) (beamWidth : Z) :
  3 < size g ->
  incl (orderMoves evaluatePosition g beamWidth) (getValidMoves g) /\
  NoDup (orderMoves evaluatePosition g beamWidth) /\
  Sorted (fun a b => Qle (orderScore evaluatePosition g b) (orderScore evaluatePosition g a))
         (orderMoves evaluatePosition g beamWidth) /\
  length (orderMoves evaluatePosition g beamWidth)
    = Nat.min (Z.to_nat (Z.max beamWidth 1)) (length (getValidMoves g)) /\
  (Z.of_nat (length (getValidMoves g)) <= Z.max beamWidth 1 ->
   Permutation (orderMoves evaluatePosition g beamWidth) (getValidMoves g)).
Proof.
  intros _. rewrite orderMoves_shape. pose proof (sorted_moves_perm g) as Hperm.
  split; [|split; [|split; [|split]]].
  - intros m Hm. apply in_firstn in Hm. now apply (Permutation_in _ Hperm).
  - apply NoDup_firstn. apply (Permutation_NoDup (Permutation_sym Hperm)).
    apply getValidMoves_NoDup.
  - rewrite firstn_map. apply Sorted_map_fst.
    + intros e He. apply in_firstn in He.
      apply (Permutation_in _ (sortScored_perm _)) in He.
      apply in_map_iff in He. destruct He as (m & <- & _). reflexivity.
    + apply Sorted_firstn. apply sortScored_sorted.
  - rewrite length_firstn. now rewrite (Permutation_length Hperm).
  - intros Hfew. rewrite firstn_all2; auto.
    rewrite (Permutation_length Hperm). lia.
Qed.

(** *** The memo table and the chosen move *)

Lemma negamax_step d c g alpha beta player beamWidth :
  negamax evaluatePosition (S d) c g alpha beta player beamWidth =
  let cacheKey := getCacheKey g (S d) player in
  let leaf := ((evaluate evaluatePosition g player, None),
               cacheSet cacheKey (S d, (evaluate evaluatePosition g player, None)) c) in
  match (match cacheGet cacheKey c with
         | Some (d', r) => if (S d <=? d')%nat then Some r else None
         | None => None
         end) with
  | Some r => (r, c)
  | None =>
    if gameOver g then leaf
    else
      match orderMoves evaluatePosition g beamWidth with
      | [] => leaf
      | orderedMoves =>
        let '(bestScore, bestMove, c') :=
          negamaxLoop (fun c child a b => negamax evaluatePosition d c child a b player beamWidth)
                      g beta orderedMoves alpha NegInf None c in
        ((bestScore, bestMove), cacheSet cacheKey (S d, (bestScore, bestMove)) c')
      end
  end.
Proof. reflexivity. Qed.

Lemma key_eqb_refl k : key_eqb k k = true.
Proof.
  destruct k as [[[b cp] p] d]. unfold key_eqb.
  destruct (list_eq_dec Z.eq_dec b b); [|congruence].
  now rewrite !Z.eqb_refl, Nat.eqb_refl.
Qed.

Lemma cacheGet_cacheSet k v c : cacheGet k (cacheSet k v c) = Some v.
Proof. unfold cacheSet. cbn [cacheGet]. now rewrite key_eqb_refl. Qed.

(** Whatever the branch taken, the result is in the table afterwards, at a
    depth that covers the call. *)
Lemma negamax_memoised depth c g alpha beta player beamWidth :
  exists d', cacheGet (getCacheKey g depth player)
                      (snd (negamax evaluatePosition depth c g alpha beta player beamWidth))
             = Some (d', fst (negamax evaluatePosition depth c g alpha beta player beamWidth)) /\
             (depth <= d')%nat.
Proof.
  destruct depth as [|d].
  - cbn [negamax].
    destruct (cacheGet (getCacheKey g 0 player) c) as [[d' r]|] eqn:Hget.
    + cbn [Nat.leb fst snd]. exists d'. rewrite Hget. split; auto. lia.
    + cbn [fst snd]. exists O. now rewrite cacheGet_cacheSet.
  - rewrite negamax_step. cbv zeta.
    destruct (cacheGet (getCacheKey g (S d) player) c) as [[d' r]|] eqn:Hget.
    + destruct (Nat.leb_spec (S d) d').
      * cbn [fst snd]. exists d'. rewrite Hget. auto.
      * destruct (gameOver g); [cbn [fst snd]; exists (S d); now rewrite cacheGet_cacheSet|].
        destruct (orderMoves evaluatePosition g beamWidth);
          [cbn [fst snd]; exists (S d); now rewrite cacheGet_cacheSet|].
        destruct (negamaxLoop _ _ _ _ _ _ _ _) as [[bs bm] c'].
        cbn [fst snd]. exists (S d). now rewrite cacheGet_cacheSet.
    + destruct (gameOver g); [cbn [fst snd]; exists (S d); now rewrite cacheGet_cacheSet|].
      destruct (orderMoves evaluatePosition g beamWidth);
        [cbn [fst snd]; exists (S d); now rewrite cacheGet_cacheSet|].
      destruct (negamaxLoop _ _ _ _ _ _ _ _) as [[bs bm] c'].
      cbn [fst snd]. exists (S d). now rewrite cacheGet_cacheSet.
Qed.

Lemma negamax_hit depth c g alpha beta player beamWidth d' r :
  cacheGet (getCacheKey g depth player) c = Some (d', r) -> (depth <= d')%nat ->
  negamax evaluatePosition depth c g alpha beta player beamWidth = (r, c).
Proof.
  intros Hget Hle. destruct depth as [|d].
  - cbn [negamax]. rewrite Hget. reflexivity.
  - rewrite negamax_step. cbv zeta. rewrite Hget.
    destruct (Nat.leb_spec (S d) d'); [reflexivity | lia].
Qed.

(** X16: [negamax] memoises by board, side to move, search side and depth
    only.  A call repeated on the table the first call left returns the
    result of the first call and leaves the table as it is, even when it is
    given another search window or another beam width. *)
Theorem X16_negamax_repeats_memoised_result
    (depth : nat) (c : cache) (g : t) (alpha beta alpha' beta' : score)
    (player beamWidth beamWidth' : Z) :
  negamax evaluatePosition depth
          (snd (negamax evaluatePosition depth c g alpha beta player beamWidth))
          g alpha' beta' player beamWidth'
  = (fst (negamax evaluatePosition depth c g alpha beta player beamWidth),
     snd (negamax evaluatePosition depth c g alpha beta player beamWidth)).
Proof.
  destruct (negamax_memoised depth c g alpha beta player beamWidth) as (d' & Hget & Hle).
  now apply negamax_hit with d'.
Qed.

(** *** The search returns a move *)

Lemma evaluate_finite g player : finite (evaluate evaluatePosition g player).
Proof.
  unfold evaluate, finite. destruct (gameOver g); [|eauto].
  destruct (winner g) as [w|]; [|eauto].
  destruct (w =? player); [eauto|]. destruct (w =? other player); eauto.
Qed.

Lemma cacheGet_finite k c d r : cacheFinite c -> cacheGet k c = Some (d, r) -> finite (fst r).
Proof.
  induction c as [|[k' v] c IH]; intros Hfin Hget; cbn [cacheGet] in Hget; [discriminate|].
  inversion Hfin as [|? ? Hv Hc]; subst.
  destruct (key_eqb k k'); [inversion Hget; subst; exact Hv | auto].
Qed.

Lemma cacheSet_finite k d r c : cacheFinite c -> finite (fst r) -> cacheFinite (cacheSet k (d, r) c).
Proof. intros Hc Hr. constructor; auto. Qed.

Lemma sgt_finite_NegInf s : finite s -> sgt s NegInf = true.
Proof. intros [q ->]. reflexivity. Qed.

Lemma sneg_finite s : finite s -> finite (sneg s).
Proof. intros [q ->]. cbn. unfold finite. eauto. Qed.

(** The move loop: the table stays finite; the best move, once set, is one
    of the moves of the loop, and it is set by the first move. *)
Lemma negamaxLoop_spec rec g beta all :
  (forall c child a b, cacheFinite c ->
     finite (fst (fst (rec c child a b))) /\ cacheFinite (snd (rec c child a b))) ->
  forall moves alpha bs bm c,
  cacheFinite c -> incl moves all ->
  (bs = NegInf /\ bm = None) \/ (finite bs /\ exists m, bm = Some m /\ In m all) ->
  let res := negamaxLoop rec g beta moves alpha bs bm c in
  cacheFinite (snd res) /\
  ((fst (fst res) = NegInf /\ snd (fst res) = None /\ moves = []) \/
   (finite (fst (fst res)) /\ exists m, snd (fst res) = Some m /\ In m all)).
Proof.
  intros Hrec. induction moves as [|m rest IH]; intros alpha bs bm c Hc Hincl Hinv;
    cbn [negamaxLoop].
  - cbn [fst snd]. split; auto. destruct Hinv as [[-> ->]|H]; auto.
  - destruct (Hrec c (snd (makeMove (copy g) (fst m) (snd m))) (sneg beta) (sneg alpha) Hc)
      as [Hfin Hc1].
    destruct (rec c _ (sneg beta) (sneg alpha)) as [next c1]. cbn [fst snd] in Hfin, Hc1.
    assert (Hm : In m all) by (apply Hincl; now left).
    assert (Hinv' : let p := if sgt (sneg (fst next)) bs then (sneg (fst next), Some m)
                             else (bs, bm) in
                    finite (fst p) /\ exists m', snd p = Some m' /\ In m' all).
    { destruct Hinv as [[-> ->]|[Hbs Hbm]].
      - rewrite sgt_finite_NegInf by now apply sneg_finite. cbn [fst snd].
        split; [now apply sneg_finite | eauto].
      - destruct (sgt (sneg (fst next)) bs); cbn [fst snd]; auto.
        split; [now apply sneg_finite | eauto]. }
    destruct (if sgt (sneg (fst next)) bs then (sneg (fst next), Some m) else (bs, bm))
      as [bs' bm'].
    cbn [fst snd] in Hinv'.
    destruct (sge (smax alpha (sneg (fst next))) beta).
    + cbn [fst snd]. split; auto.
    + destruct (IH (smax alpha (sneg (fst next))) bs' bm' c1 Hc1
                   (fun x H => Hincl x (or_intror H)) (or_intror Hinv')) as [H1 H2].
      split; auto. destruct H2 as [(Hb & _ & Hnil)|H2]; auto.
      subst rest. cbn [negamaxLoop fst snd] in Hb.
      destruct Hinv' as [[q Hq] _]. congruence.
Qed.

Lemma negamax_finite : forall depth c g alpha beta player beamWidth,
  cacheFinite c ->
  finite (fst (fst (negamax evaluatePosition depth c g alpha beta player beamWidth))) /\
  cacheFinite (snd (negamax evaluatePosition depth c g alpha beta player beamWidth)).
Proof.
  assert (Hleaf : forall (k : key) d c g player, cacheFinite c ->
            cacheFinite (cacheSet k (d, (evaluate evaluatePosition g player, None)) c)).
  { intros. apply cacheSet_finite; auto. apply evaluate_finite. }
  induction depth as [|d IH]; intros c g alpha beta player beamWidth Hc.
  - cbn [negamax].
    destruct (cacheGet (getCacheKey g 0 player) c) as [[d' r]|] eqn:Hget; cbn [Nat.leb fst snd].
    + split; auto. eapply cacheGet_finite; eauto.
    + split; [apply evaluate_finite | now apply Hleaf].
  - rewrite negamax_step. cbv zeta.
    assert (Hmiss :
      finite (fst (fst (if gameOver g
        then ((evaluate evaluatePosition g player, None),
              cacheSet (getCacheKey g (S d) player)
                       (S d, (evaluate evaluatePosition g player, None)) c)
        else match orderMoves evaluatePosition g beamWidth with
             | [] => ((evaluate evaluatePosition g player, None),
                      cacheSet (getCacheKey g (S d) player)
                               (S d, (evaluate evaluatePosition g player, None)) c)
             | m :: l =>
               let '(bestScore, bestMove, c') :=
                 negamaxLoop (fun c child a b =>
                                negamax evaluatePosition d c child a b player beamWidth)
                             g beta (m :: l) alpha NegInf None c in
               ((bestScore, bestMove),
                cacheSet (getCacheKey g (S d) player) (S d, (bestScore, bestMove)) c')
             end))) /\
      cacheFinite (snd (if gameOver g
        then ((evaluate evaluatePosition g player, None),
              cacheSet (getCacheKey g (S d) player)
                       (S d, (evaluate evaluatePosition g player, None)) c)
        else match orderMoves evaluatePosition g beamWidth with
             | [] => ((evaluate evaluatePosition g player, None),
                      cacheSet (getCacheKey g (S d) player)
                               (S d, (evaluate evaluatePosition g player, None)) c)
             | m :: l =>
               let '(bestScore, bestMove, c') :=
                 negamaxLoop (fun c child a b =>
                                negamax evaluatePosition d c child a b player beamWidth)
                             g beta (m :: l) alpha NegInf None c in
               ((bestScore, bestMove),
                cacheSet (getCacheKey g (S d) player) (S d, (bestScore, bestMove)) c')
             end))).
    { destruct (gameOver g); [cbn [fst snd]; split; [apply evaluate_finite | now apply Hleaf]|].
      destruct (orderMoves evaluatePosition g beamWidth) as [|m l];
        [cbn [fst snd]; split; [apply evaluate_finite | now apply Hleaf]|].
      destruct (negamaxLoop_spec
                  (fun c child a b => negamax evaluatePosition d c child a b player beamWidth)
                  g beta (m :: l)
                  (fun c child a b Hc => IH c child a b player beamWidth Hc)
                  (m :: l) alpha NegInf None c Hc (fun x H => H) (or_introl (conj eq_refl eq_refl)))
        as [Hc' Hres].
      destruct (negamaxLoop _ _ _ _ _ _ _ _) as [[bs bm] c']. cbn [fst snd] in *.
      destruct Hres as [(_ & _ & Hnil)|[Hbs _]]; [discriminate|].
      split; auto. now apply cacheSet_finite. }
    destruct (cacheGet (getCacheKey g (S d) player) c) as [[d' r]|] eqn:Hget; auto.
    destruct (S d <=? d')%nat; auto.
    cbn [fst snd]. split; auto. eapply cacheGet_finite; eauto.
Qed.

Lemma orderMoves_nonempty g beamWidth :
  getValidMoves g <> [] -> orderMoves evaluatePosition g beamWidth <> [].
Proof.
  intros Hne Heq. pose proof (orderMoves_length g beamWidth) as Hlen.
  rewrite Heq in Hlen. cbn [length] in Hlen.
  destruct (getValidMoves g); [congruence|]. cbn [length] in Hlen. lia.
Qed.

(** On a fresh table, the search of an undecided position with an empty
    cell, at depth one or more, returns one of the ordered moves. *)
Lemma negamax_returns_move d g alpha beta player beamWidth :
  gameOver g = false -> getValidMoves g <> [] ->
  exists m, snd (fst (negamax evaluatePosition (S d) [] g alpha beta player beamWidth)) = Some m /\
            In m (orderMoves evaluatePosition g beamWidth).
Proof.
  intros Ho Hne. rewrite negamax_step. cbv zeta. cbn [cacheGet]. rewrite Ho.
  pose proof (orderMoves_nonempty g beamWidth Hne) as Hom.
  destruct (orderMoves evaluatePosition g beamWidth) as [|m l] eqn:Horder; [congruence|].
  destruct (negamaxLoop_spec
              (fun c child a b => negamax evaluatePosition d c child a b player beamWidth)
              g beta (m :: l)
              (fun c child a b Hc => negamax_finite d c child a b player beamWidth Hc)
              (m :: l) alpha NegInf None [] (Forall_nil _) (fun x H => H)
              (or_introl (conj eq_refl eq_refl)))
    as [_ Hres].
  destruct (negamaxLoop _ _ _ _ _ _ _ _) as [[bs bm] c']. cbn [fst snd] in *.
  destruct Hres as [(_ & _ & Hnil)|[_ Hbm]]; [discriminate | exact Hbm].
Qed.

(** X14: on a board of four or more rows (where the evaluator returns
    finite numbers; on smaller boards it returns NaN or an infinity, no
    score is ever greater than the best so far and the search hands back
    [null]), for an undecided game with an empty cell, [HeuristicAI.getMove]
    with a fresh memo table and depth one or more returns a move, never
    [null], and the move is an empty cell of the board; when some empty
    cell wins at once, the move returned wins at once. *)
Theorem X14_HeuristicAI_returns_empty_cell
    (d : nat) (beamWidth aiPlayer : Z) (g : t) :
  3 < size g -> gameOver g = false -> getValidMoves g <> [] ->
  exists m, HeuristicAI.getMove evaluatePosition [] (S d) beamWidth aiPlayer g = Move m /\
            In m (getValidMoves g) /\
            ((exists w, In w (getValidMoves g) /\ winsAtOnce g w = true) ->
             winsAtOnce g m = true).
Proof.
  intros _ Ho Hne. unfold HeuristicAI.getMove, HeuristicAI.findCriticalMove.
  destruct (find (winsAtOnce g) (getValidMoves g)) as [m|] eqn:Hfind.
  { exists m. apply find_some in Hfind. tauto. }
  assert (Hnowin : (exists w, In w (getValidMoves g) /\ winsAtOnce g w = true) -> False).
  { intros (w & Hin & Hw). rewrite (find_none _ _ Hfind w Hin) in Hw. discriminate. }
  destruct (filter (threatens g (other (currentPlayer g))) (getValidMoves g))
    as [|m [|m' l]] eqn:Hthreats.
  - destruct (negamax_returns_move d (copy g) NegInf PosInf aiPlayer beamWidth Ho Hne)
      as (m & Hm & Hin).
    rewrite Hm. exists m. split; auto. split; [|tauto]. now apply orderMoves_incl in Hin.
  - exists m. split; auto. split; [|tauto].
    assert (Hin : In m (filter (threatens g (other (currentPlayer g))) (getValidMoves g)))
      by (rewrite Hthreats; now left).
    now apply filter_In in Hin.
  - destruct (negamax_returns_move d (copy g) NegInf PosInf aiPlayer beamWidth Ho Hne)
      as (m0 & Hm & Hin).
    rewrite Hm. exists m0. split; auto. split; [|tauto]. now apply orderMoves_incl in Hin.
Qed.

End SearchFacts.

Lemma X15_orderMoves_beam_witness :
  length (HexHeuristicSearch.orderMoves (fun _ _ => 0%Q) (HexGame.create 4) 8) = 8%nat /\
  Permutation (HexHeuristicSearch.orderMoves (fun _ _ => 0%Q) (HexGame.create 4) 16)
              (HexGame.getValidMoves (HexGame.create 4)).
Proof.
  split.
  - destruct (X15_orderMoves_beam (fun _ _ => 0%Q) (HexGame.create 4) 8) as (_ & _ & _ & H & _);
      [cbn; lia | exact H].
  - apply (X15_orderMoves_beam (fun _ _ => 0%Q) (HexGame.create 4) 16); [cbn; lia|].
    change (Z.of_nat 16 <= Z.max 16 1). lia.
Defined.

Lemma X14_HeuristicAI_returns_empty_cell_witness :
  exists m, HeuristicAI.getMove (fun _ _ => 0%Q) [] 2 8 PLAYER_RED (HexGame.create 4) = Move m /\
            In m (HexGame.getValidMoves (HexGame.create 4)).
Proof.
  destruct (X14_HeuristicAI_returns_empty_cell (fun _ _ => 0%Q) 1 8 PLAYER_RED (HexGame.create 4))
    as (m & H1 & H2 & _); [cbn; lia | reflexivity | discriminate |].
  exists m. split; assumption.
Defined.


(** ** The tree of the Monte-Carlo search *)

Section SearchTree.
Import HexGame MCTS.

Lemma sameNodes_refl t : sameNodes t t.
Proof. split; auto. intros i n Hn. exists n. auto. Qed.

Lemma sameNodes_trans t1 t2 t3 : sameNodes t1 t2 -> sameNodes t2 t3 -> sameNodes t1 t3.
Proof.
  intros [L1 H1] [L2 H2]. split; [congruence|].
  intros i n Hn. destruct (H1 i n Hn) as (n2 & Hn2 & Hs2 & Hu2).
  destruct (H2 i n2 Hn2) as (n3 & Hn3 & Hs3 & Hu3).
  exists n3. repeat split; congruence.
Qed.

Lemma sameNodes_upd t i n v :
  nth_error t i = Some n -> static v = static n -> untriedMoves v = untriedMoves n ->
  sameNodes t (upd i v t).
Proof.
  intros Hn Hs Hu. split; [apply upd_length|].
  intros j m Hm. destruct (Nat.eq_dec i j) as [<-|Hne].
  - exists v. split; [apply nth_error_upd_same; eapply nth_error_lt; eauto|].
    assert (m = n) by congruence. subst. auto.
  - exists m. split; auto. now rewrite nth_error_upd_other.
Qed.

Lemma sameNodes_sameShape t t' : sameNodes t t' -> sameShape t t'.
Proof.
  intros [L H]. split; auto. intros i n Hn. destruct (H i n Hn) as (n' & Hn' & Hs & _). eauto.
Qed.

Lemma sameNodes_back t t' i n' :
  sameNodes t t' -> nth_error t' i = Some n' ->
  exists n, nth_error t i = Some n /\ static n' = static n /\ untriedMoves n' = untriedMoves n.
Proof.
  intros [L H] Hn'. destruct (nth_error t i) as [n|] eqn:Hn.
  - destruct (H i n Hn) as (n2 & Hn2 & Hs & Hu). exists n. split; auto.
    assert (n2 = n') by congruence. subst. auto.
  - apply nth_error_None in Hn. apply nth_error_lt in Hn'. lia.
Qed.

Lemma raveSiblings_sameNodes this res : forall sibs t,
  sameNodes t (raveSiblings this res sibs t).
Proof.
  unfold raveSiblings. induction sibs as [|c sibs IH]; intros t; cbn [fold_left].
  - apply sameNodes_refl.
  - destruct (nth_error t c) as [cn|] eqn:Hc; auto.
    eapply sameNodes_trans; [|apply IH].
    apply (sameNodes_upd t c cn); auto using static_raveBump.
    unfold raveBump. destruct (existsb _ _); reflexivity.
Qed.

Lemma backpropagateFrom_sameNodes res : forall fuel t i,
  sameNodes t (backpropagateFrom fuel t i res).
Proof.
  induction fuel as [|fuel IH]; intros t i; cbn [backpropagateFrom].
  - apply sameNodes_refl.
  - destruct (nth_error t i) as [n|] eqn:Hn; [|apply sameNodes_refl].
    assert (H1 : sameNodes t (upd i (bump (fst res) n) t)).
    { apply (sameNodes_upd t i n); auto using static_bump. }
    destruct (parent n) as [p|]; auto.
    destruct (nth_error (upd i (bump (fst res) n) t) p) as [pn|]; auto.
    eapply sameNodes_trans; [exact H1|].
    eapply sameNodes_trans; [apply raveSiblings_sameNodes | apply IH].
Qed.

Lemma childMoves_same t t' n n' :
  children n' = children n ->
  (forall c, In c (children n) ->
     option_map move (nth_error t' c) = option_map move (nth_error t c)) ->
  childMoves t' n' = childMoves t n.
Proof.
  intros Hch Hmv. unfold childMoves. rewrite Hch. clear Hch.
  induction (children n) as [|c cs IH]; cbn [flat_map]; auto.
  rewrite IH by (intros; apply Hmv; now right). f_equal.
  specialize (Hmv c (or_introl eq_refl)).
  destruct (nth_error t' c), (nth_error t c); cbn [option_map] in Hmv;
    try discriminate; auto.
  inversion Hmv as [Hm]. now rewrite Hm.
Qed.

Lemma static_move n n' : static n' = static n -> move n' = move n.
Proof. intros H. now destruct (static_fields _ _ H) as (_ & _ & ? & _). Qed.

Lemma grownByExpand_sameShape t t' : sameShape t t' -> grownByExpand t -> grownByExpand t'.
Proof.
  intros Hs Hg c nc' Hc'.
  destruct (sameShape_back _ _ _ _ Hs Hc') as (nc & Hc & Hst).
  destruct (static_fields _ _ Hst) as (Hgame & _ & Hmove & Hpar & _).
  destruct (Hg c nc Hc) as [Hside Hparent]. rewrite Hgame. split; auto.
  intros p np' Hp Hnp'. rewrite Hpar in Hp.
  destruct (sameShape_back _ _ _ _ Hs Hnp') as (np & Hnp & Hstp).
  destruct (static_fields _ _ Hstp) as (Hgamep & _).
  rewrite Hgamep, Hmove. apply (Hparent p np); auto.
Qed.

Lemma searchInv_sameNodes t t' : sameNodes t t' -> searchInv t -> searchInv t'.
Proof.
  intros Hs (Hwf & Hg & Hnodes). pose proof (sameNodes_sameShape _ _ Hs) as Hshape.
  split; [eapply wfTree_sameShape; eauto|]. split; [eapply grownByExpand_sameShape; eauto|].
  intros i n' Hn'. destruct (sameNodes_back _ _ _ _ Hs Hn') as (n & Hn & Hst & Hu).
  destruct (static_fields _ _ Hst) as (Hgame & _ & _ & _ & Hch).
  destruct (Hnodes i n Hn) as (Hc & Hban & Hperm). rewrite Hgame, Hu.
  split; [exact Hc|]. split; [exact Hban|].
  rewrite (childMoves_same t t' n n'); auto.
  intros c Hc'. destruct (Hwf i n Hn) as (_ & _ & Hchildren).
  destruct (Hchildren c Hc') as (cn & Hcn & _). rewrite Hcn.
  destruct (proj2 Hs c cn Hcn) as (cn' & Hcn' & Hstc & _). rewrite Hcn'. cbn [option_map].
  f_equal. now apply static_move.
Qed.

(** *** Visits and wins *)

Lemma raveSiblings_counts this res : forall sibs t x n,
  nth_error t x = Some n ->
  exists n', nth_error (raveSiblings this res sibs t) x = Some n' /\
             static n' = static n /\ visits n' = visits n /\ wins n' = wins n.
Proof.
  unfold raveSiblings. induction sibs as [|c sibs IH]; intros t x n Hx; cbn [fold_left].
  - exists n. auto.
  - destruct (nth_error t c) as [cn|] eqn:Hc; [|now apply IH].
    destruct (Nat.eq_dec c x) as [->|Hne].
    + assert (cn = n) by congruence. subst cn.
      destruct (IH (upd x (raveBump this res n) t) x (raveBump this res n)) as (n' & H1 & H2 & H3 & H4).
      { apply nth_error_upd_same. eapply nth_error_lt; eauto. }
      exists n'. split; auto. rewrite H2, H3, H4, static_raveBump.
      unfold raveBump. destruct (existsb _ _); auto.
    + apply IH. now rewrite nth_error_upd_other.
Qed.

Lemma sameShape_sym t t' : sameShape t t' -> sameShape t' t.
Proof.
  intros Hs. split; [symmetry; apply Hs|].
  intros i n' Hn'. destruct (sameShape_back _ _ _ _ Hs Hn') as (n & Hn & Hst). eauto.
Qed.

Lemma onPath_start t i x : onPath t i x -> x = i \/
  exists n p, nth_error t i = Some n /\ parent n = Some p /\ onPath t p x.
Proof. intros H. inversion H; subst; [now left | right; eauto]. Qed.

Lemma backpropagateFrom_counts res : forall fuel t i,
  wfTree t -> (i < fuel)%nat ->
  forall x n, nth_error t x = Some n ->
  exists n', nth_error (backpropagateFrom fuel t i res) x = Some n' /\
    static n' = static n /\
    (onPath t i x -> visits n' = visits n + 1 /\
                     wins n' = wins n + (if isAI n (fst res) then 1 else 0)) /\
    (~ onPath t i x -> visits n' = visits n /\ wins n' = wins n).
Proof.
  induction fuel as [|fuel IH]; intros t i Hwf Hfuel x n Hx; [lia|].
  cbn [backpropagateFrom].
  destruct (nth_error t i) as [ni|] eqn:Hi.
  2:{ exists n. split; auto. split; auto. split; [|auto].
      intros Hp. destruct (onPath_start _ _ _ Hp) as [->|(n0 & p & Hn0 & _)]; congruence. }
  set (t1 := upd i (bump (fst res) ni) t).
  assert (Hs1 : sameShape t t1) by (apply (sameShape_upd t i ni); auto using static_bump).
  destruct (Hwf i ni Hi) as (Hpar & _).
  destruct (Nat.eq_dec x i) as [->|Hne].
  - (* the node itself *)
    assert (n = ni) by congruence. subst ni.
    assert (Hx1 : nth_error t1 i = Some (bump (fst res) n))
      by (apply nth_error_upd_same; eapply nth_error_lt; eauto).
    assert (Hgoal : forall n', static n' = static (bump (fst res) n) ->
              visits n' = visits (bump (fst res) n) -> wins n' = wins (bump (fst res) n) ->
              static n' = static n /\
              (onPath t i i -> visits n' = visits n + 1 /\
                               wins n' = wins n + (if isAI n (fst res) then 1 else 0)) /\
              (~ onPath t i i -> visits n' = visits n /\ wins n' = wins n)).
    { intros n' Hst Hv Hw. split; [now rewrite Hst, static_bump|]. split.
      - intros _. rewrite Hv, Hw. unfold bump. cbn [visits wins].
        destruct (isAI n (fst res)); split; lia.
      - intros Hnot. exfalso. apply Hnot. constructor. }
    destruct (parent n) as [p|] eqn:Hp.
    + destruct (Hpar p eq_refl) as (Hlt & pn & Hpn & _).
      destruct (proj2 Hs1 p pn Hpn) as (pn1 & Hpn1 & Hstp). rewrite Hpn1.
      set (t2 := raveSiblings n res (children pn1) t1).
      destruct (raveSiblings_counts n res (children pn1) t1 i _ Hx1) as (n2 & Hn2 & Hst2 & Hv2 & Hw2).
      fold t2 in Hn2.
      assert (Hs2 : sameShape t t2).
      { eapply sameShape_trans; [exact Hs1|].
        apply sameNodes_sameShape, raveSiblings_sameNodes. }
      assert (Hwf2 : wfTree t2) by (eapply wfTree_sameShape; eauto).
      destruct (IH t2 p Hwf2 ltac:(lia) i n2 Hn2) as (n' & Hn' & Hst' & _ & Hoff).
      assert (Hnot : ~ onPath t2 p i).
      { intros Hon. pose proof (onPath_le _ _ _ Hwf2 Hon). lia. }
      destruct (Hoff Hnot) as [Hv' Hw'].
      exists n'. split; auto. apply Hgoal; congruence.
    + exists (bump (fst res) n). split; auto.
  - (* another node *)
    assert (Hx1 : nth_error t1 x = Some n) by (unfold t1; now rewrite nth_error_upd_other).
    destruct (parent ni) as [p|] eqn:Hp.
    + destruct (Hpar p eq_refl) as (Hlt & pn & Hpn & _).
      destruct (proj2 Hs1 p pn Hpn) as (pn1 & Hpn1 & Hstp). rewrite Hpn1.
      set (t2 := raveSiblings ni res (children pn1) t1).
      destruct (raveSiblings_counts ni res (children pn1) t1 x _ Hx1) as (n2 & Hn2 & Hst2 & Hv2 & Hw2).
      fold t2 in Hn2.
      assert (Hs2 : sameShape t t2).
      { eapply sameShape_trans; [exact Hs1|].
        apply sameNodes_sameShape, raveSiblings_sameNodes. }
      assert (Hwf2 : wfTree t2) by (eapply wfTree_sameShape; eauto).
      destruct (IH t2 p Hwf2 ltac:(lia) x n2 Hn2) as (n' & Hn' & Hst' & Hon & Hoff).
      exists n'. split; auto. split; [congruence|]. split.
      * intros Hpath.
        destruct (onPath_start _ _ _ Hpath) as [->|(n0 & p0 & Hn0 & Hp0 & Hrest)];
          [contradiction|].
        assert (n0 = ni) by congruence. subst n0.
        assert (p0 = p) by congruence. subst p0.
        destruct (Hon (onPath_sameShape _ _ _ _ Hs2 Hrest)) as [Hv' Hw'].
        rewrite Hv', Hw', Hv2, Hw2. rewrite (isAI_static n n2) by auto. auto.
      * intros Hnot.
        assert (Hnot2 : ~ onPath t2 p x).
        { intros Hon2. apply Hnot. eapply onPath_parent; eauto.
          apply (onPath_sameShape _ _ _ _ (sameShape_sym _ _ Hs2) Hon2). }
        destruct (Hoff Hnot2) as [Hv' Hw']. split; congruence.
    + exists n. split; auto. split; auto. split; [|auto].
      intros Hpath.
      destruct (onPath_start _ _ _ Hpath) as [->|(n0 & p0 & Hn0 & Hp0 & _)];
        [contradiction | congruence].
Qed.

(** X18: [backpropagate] from a node adds one visit to that node and to
    each of its ancestors up to the root, and one win to each of them when
    the side the search plays for won the episode; the visit and win
    counters of every other node are left as they were, and no node changes
    its game, move, parent or children. *)
Theorem X18_backpropagate_counts_the_path
    (t : tree) (leaf : nat) (res : simResult) (x : nat) (n : node) :
  wfTree t -> nth_error t x = Some n ->
  exists n', nth_error (backpropagate t leaf res) x = Some n' /\
    static n' = static n /\
    (onPath t leaf x -> visits n' = visits n + 1 /\
                        wins n' = wins n + (if isAI n (fst res) then 1 else 0)) /\
    (~ onPath t leaf x -> visits n' = visits n /\ wins n' = wins n).
Proof.
  intros Hwf Hx. unfold backpropagate.
  apply backpropagateFrom_counts; auto.
Qed.

Lemma X18_backpropagate_counts_the_path_witness :
  exists n', nth_error (backpropagate raveTree 2 raveOutcome) 1 = Some n' /\
             visits n' = 0 + 1 /\ wins n' = 0 + 0.
Proof.
  destruct (X18_backpropagate_counts_the_path raveTree 2 raveOutcome 1
              (Node raveGameA PLAYER_RED (Some (0, 0)) (Some 0%nat) [2%nat; 3%nat] 0 0 0 0 []))
    as (n' & Hn' & _ & Hon & _).
  - apply wfTree_raveTree.
  - reflexivity.
  - exists n'. split; auto. apply Hon.
    eapply onPath_parent; [reflexivity | reflexivity | constructor].
Defined.

Section Growth.
Variable moveScore : HexGame.t -> Z * Z -> Q.

Lemma prioritizeMoves_perm g moves :
  Permutation (MCTSAI.prioritizeMoves moveScore g moves) moves.
Proof.
  unfold MCTSAI.prioritizeMoves. rewrite sortScored_perm, map_map. cbn [fst].
  now rewrite map_id.
Qed.

Lemma consistent_moveCount_nonneg g : consistent g -> 0 <= moveCount g.
Proof. intros (_ & Hcnt & _). rewrite Hcnt. unfold stoneCount. lia. Qed.

(** What [expand] does to the arena. *)
Lemma expand_nodes t i n mv rest :
  nth_error t i = Some n -> untriedMoves n = mv :: rest ->
  let newGame := snd (makeMove (copy (game n)) (fst mv) (snd mv)) in
  let childNode := MCTSAI.newNode moveScore newGame (aiPlayer n) (Some mv) (Some i) in
  let n' := Node (game n) (aiPlayer n) (move n) (parent n) (children n ++ [length t])
                 (wins n) (visits n) (raveWins n) (raveVisits n) rest in
  let t' := fst (MCTSAI.expand moveScore t i) in
  snd (MCTSAI.expand moveScore t i) = length t /\
  nth_error t' i = Some n' /\
  nth_error t' (length t) = Some childNode /\
  (forall j nj, j <> i -> nth_error t j = Some nj -> nth_error t' j = Some nj) /\
  (forall j nj', nth_error t' j = Some nj' ->
     (j = length t /\ nj' = childNode) \/ (j = i /\ nj' = n') \/
     (j <> i /\ nth_error t j = Some nj')).
Proof.
  intros Hn Hu. cbv zeta. unfold MCTSAI.expand. rewrite Hn, Hu. cbn [fst snd].
  pose proof (nth_error_lt _ _ _ Hn) as Hi.
  split; [reflexivity|]. split; [|split; [|split]].
  - rewrite nth_error_app1 by (rewrite upd_length; auto). now apply nth_error_upd_same.
  - rewrite nth_error_app2 by (rewrite upd_length; auto).
    rewrite upd_length, Nat.sub_diag. reflexivity.
  - intros j nj Hne Hj. rewrite nth_error_app1 by (rewrite upd_length; eapply nth_error_lt; eauto).
    now rewrite nth_error_upd_other.
  - intros j nj' Hj.
    destruct (Nat.lt_ge_cases j (length t)) as [Hlt|Hge].
    + rewrite nth_error_app1 in Hj by (rewrite upd_length; auto).
      destruct (Nat.eq_dec i j) as [<-|Hne].
      * rewrite nth_error_upd_same in Hj by auto. inversion Hj. auto.
      * rewrite nth_error_upd_other in Hj by auto. auto.
    + rewrite nth_error_app2 in Hj by (rewrite upd_length; auto).
      rewrite upd_length in Hj.
      destruct (j - length t)%nat as [|k] eqn:Hk.
      * cbn in Hj. inversion Hj. left. split; auto. lia.
      * cbn in Hj. destruct k; discriminate.
Qed.

Lemma expand_searchInv t i n mv rest :
  searchInv t -> nth_error t i = Some n -> untriedMoves n = mv :: rest ->
  gameOver (game n) = false ->
  searchInv (fst (MCTSAI.expand moveScore t i)).
Proof.
  intros (Hwf & Hg & Hnodes) Hn Hu Hover.
  destruct (expand_nodes t i n mv rest Hn Hu) as (_ & Hi' & Hc' & Hold & Hcases).
  cbv zeta in *.
  set (t' := fst (MCTSAI.expand moveScore t i)) in *.
  set (newGame := snd (makeMove (copy (game n)) (fst mv) (snd mv))) in *.
  set (childNode := MCTSAI.newNode moveScore newGame (aiPlayer n) (Some mv) (Some i)) in *.
  set (n' := Node (game n) (aiPlayer n) (move n) (parent n) (children n ++ [length t])
                  (wins n) (visits n) (raveWins n) (raveVisits n) rest) in *.
  pose proof (nth_error_lt _ _ _ Hn) as Hilt.
  destruct (Hnodes i n Hn) as (Hcons & Hban & Hperm).
  assert (Hmv : In mv (getValidMoves (game n))).
  { apply (Permutation_in _ Hperm). apply in_or_app. left. rewrite Hu. now left. }
  assert (Hvalid : isValidMove (game n) (fst mv) (snd mv) = true).
  { apply valid_of_listed; auto. tauto. }
  assert (Hmade : makeMove (copy (game n)) (fst mv) (snd mv) = (true, newGame)).
  { unfold copy, newGame.
    destruct (makeMove_cases (game n) (fst mv) (snd mv)) as [Hrej|(_ & _ & Hacc)].
    - exfalso. unfold makeMove in Hrej. rewrite Hvalid, Hover in Hrej. cbn [negb orb] in Hrej.
      destruct (checkWin _ _); discriminate.
    - unfold copy. destruct (makeMove (game n) (fst mv) (snd mv)). cbn [fst snd] in *.
      now subst. }
  assert (Hconsc : consistent newGame) by (apply consistent_makeMove; exact Hcons).
  (* the node found at an index of the new arena, seen from the old one *)
  assert (Hview : forall j nj', nth_error t' j = Some nj' -> j <> length t ->
            exists nj, nth_error t j = Some nj /\ game nj' = game nj /\ move nj' = move nj /\
                       parent nj' = parent nj /\
                       (j <> i -> nj' = nj) /\ (j = i -> nj' = n')).
  { intros j nj' Hj Hne. destruct (Hcases j nj' Hj) as [[-> _]|[[-> ->]|[Hji Hjt]]].
    - contradiction.
    - exists n. repeat split; auto. intros; contradiction.
    - exists nj'. repeat split; auto. intros; contradiction. }
  assert (Hnew : forall j nj, nth_error t j = Some nj ->
            exists nj', nth_error t' j = Some nj' /\ game nj' = game nj /\
                        move nj' = move nj /\ parent nj' = parent nj).
  { intros j nj Hj. destruct (Nat.eq_dec j i) as [->|Hne].
    - exists n'. assert (nj = n) by congruence. subst. auto.
    - exists nj. auto. }
  assert (Hfresh : forall j nj, nth_error t j = Some nj -> ~ In (length t) (children nj)).
  { intros j nj Hj Hin. destruct (Hwf j nj Hj) as (_ & _ & Hch).
    destruct (Hch _ Hin) as (cn & Hcn & _). apply nth_error_lt in Hcn. lia. }
  split; [|split].
  - (* references *)
    intros j nj' Hj. destruct (Hcases j nj' Hj) as [[-> ->]|[[-> ->]|[Hji Hjt]]].
    + cbn [MCTSAI.newNode childNode parent children]. split; [|split; [constructor|intros c []]].
      intros p Hp. inversion Hp; subst p. split; auto.
      exists n'. split; auto. cbn [n' children]. apply in_or_app. right. now left.
    + destruct (Hwf i n Hn) as (Hpar & Hnd & Hch). cbn [n' parent children]. split; [|split].
      * intros p Hp. destruct (Hpar p Hp) as (Hlt & pn & Hpn & Hin). split; auto.
        destruct (Hnew p pn Hpn) as (pn' & Hpn' & _). exists pn'. split; auto.
        assert (p <> i) by lia. rewrite (Hold p pn) in Hpn' by auto.
        inversion Hpn'; subst. auto.
      * apply NoDup_snoc; auto. now apply (Hfresh i n).
      * intros c Hc. apply in_app_or in Hc. destruct Hc as [Hc|[<-|[]]].
        -- destruct (Hch c Hc) as (cn & Hcn & Hcp).
           destruct (Hnew c cn Hcn) as (cn' & Hcn' & _ & _ & Hp'). exists cn'. split; congruence.
        -- exists childNode. split; auto.
    + destruct (Hwf j nj' Hjt) as (Hpar & Hnd & Hch). split; [|split; auto].
      * intros p Hp. destruct (Hpar p Hp) as (Hlt & pn & Hpn & Hin). split; auto.
        destruct (Nat.eq_dec p i) as [->|Hpi].
        -- exists n'. split; auto. assert (pn = n) by congruence. subst pn.
           cbn [n' children]. apply in_or_app. now left.
        -- exists pn. split; auto.
      * intros c Hc. destruct (Hch c Hc) as (cn & Hcn & Hcp).
        destruct (Hnew c cn Hcn) as (cn' & Hcn' & _ & _ & Hp'). exists cn'. split; congruence.
  - (* every child made by a legal move *)
    intros j nj' Hj. destruct (Hcases j nj' Hj) as [[-> ->]|[[-> ->]|[Hji Hjt]]].
    + cbn [MCTSAI.newNode childNode game parent move]. split; [apply Hconsc|].
      intros p np Hp Hnp. inversion Hp; subst p.
      assert (np = n') by congruence. subst np. cbn [n' game]. split; auto.
      exists mv. split; auto.
    + destruct (Hg i n Hn) as [Hside Hparent]. cbn [n' game parent move]. split; auto.
      intros p np Hp Hnp. destruct (Hwf i n Hn) as (Hpar & _).
      destruct (Hpar p Hp) as (Hlt & pn & Hpn & _).
      assert (p <> i) by lia. rewrite (Hold p pn) in Hnp by auto. inversion Hnp; subst.
      apply (Hparent p np); auto.
    + destruct (Hg j nj' Hjt) as [Hside Hparent]. split; auto.
      intros p np Hp Hnp. destruct (Hwf j nj' Hjt) as (Hpar & _).
      destruct (Hpar p Hp) as (Hlt & pn & Hpn & _).
      destruct (Hnew p pn Hpn) as (pn' & Hpn' & Hgame & _).
      assert (np = pn') by congruence. subst np. rewrite Hgame. apply (Hparent p pn); auto.
  - (* positions and untried moves *)
    assert (Hcm : forall j nj, nth_error t j = Some nj ->
              childMoves t' nj = childMoves t nj).
    { intros j nj Hj. apply childMoves_same; auto.
      intros c Hc. destruct (Hwf j nj Hj) as (_ & _ & Hch).
      destruct (Hch c Hc) as (cn & Hcn & _).
      destruct (Hnew c cn Hcn) as (cn' & Hcn' & _ & Hm & _).
      rewrite Hcn, Hcn'. cbn [option_map]. now rewrite Hm. }
    intros j nj' Hj. destruct (Hcases j nj' Hj) as [[-> ->]|[[-> ->]|[Hji Hjt]]].
    + cbn [MCTSAI.newNode childNode game untriedMoves]. split; [exact Hconsc|]. split.
      * intros [_ H0]. pose proof (consistent_moveCount_nonneg _ Hcons) as Hnn.
        destruct (accepted_move_shape (game n) (fst mv) (snd mv)) as (_ & _ & Hmc & _);
          auto; [apply Hcons|].
        unfold newGame, copy in H0. lia.
      * unfold childMoves. cbn [children flat_map]. rewrite app_nil_r.
        apply prioritizeMoves_perm.
    + cbn [n' game untriedMoves]. split; [exact Hcons|]. split; [exact Hban|].
      assert (Hcmi : childMoves t' n' = childMoves t n ++ [mv]).
      { unfold childMoves at 1. cbn [n' children]. rewrite flat_map_app. cbn [flat_map].
        rewrite Hc'. cbn [childNode MCTSAI.newNode move]. rewrite app_nil_r. f_equal.
        change (childMoves t' n = childMoves t n). now apply (Hcm i). }
      rewrite Hcmi. rewrite <- Hperm, Hu.
      rewrite app_assoc. rewrite <- Permutation_cons_append. cbn [app]. reflexivity.
    + destruct (Hnodes j nj' Hjt) as (Hc & Hb & Hp). split; auto. split; auto.
      now rewrite (Hcm j).
Qed.

Lemma expand_keeps_games t i :
  forall j nj, nth_error t j = Some nj ->
    exists nj', nth_error (fst (MCTSAI.expand moveScore t i)) j = Some nj' /\
                game nj' = game nj.
Proof.
  intros j nj Hj. destruct (nth_error t i) as [n|] eqn:Hn.
  - destruct (untriedMoves n) as [|mv rest] eqn:Hu.
    + unfold MCTSAI.expand. rewrite Hn, Hu. cbn [fst]. eauto.
    + destruct (expand_nodes t i n mv rest Hn Hu) as (_ & Hi' & _ & Hold & _).
      cbv zeta in *. destruct (Nat.eq_dec j i) as [->|Hne].
      * eexists. split; [exact Hi'|]. cbn [game]. congruence.
      * exists nj. split; auto.
  - unfold MCTSAI.expand. rewrite Hn. cbn [fst]. eauto.
Qed.

Variable better : node -> node -> node -> bool.
Variable playout : nat -> HexGame.t -> list (Z * Z).

Lemma selectLoop_node : forall fuel t i sel,
  MCTSAI.selectLoop better fuel t i = Some (Some sel) -> exists n, nth_error t sel = Some n.
Proof.
  induction fuel as [|fuel IH]; intros t i sel H; cbn [MCTSAI.selectLoop] in H.
  - destruct (nth_error t i) as [n|] eqn:Hn; [|discriminate].
    destruct (MCTSAI.isFullyExpanded n && negb (MCTSAI.isTerminal n)); [discriminate|].
    inversion H; subst. eauto.
  - destruct (nth_error t i) as [n|] eqn:Hn; [|discriminate].
    destruct (MCTSAI.isFullyExpanded n && negb (MCTSAI.isTerminal n)).
    + destruct (MCTSAI.selectChild better t n) as [c|]; [|discriminate]. eauto.
    + inversion H; subst. eauto.
Qed.

Lemma iteration_searchInv pw i t t' :
  searchInv t -> MCTSAI.iteration moveScore better playout pw i t = Some (Some t') ->
  searchInv t' /\
  (forall j nj, nth_error t j = Some nj ->
     exists nj', nth_error t' j = Some nj' /\ game nj' = game nj).
Proof.
  intros Hinv Hit. unfold MCTSAI.iteration in Hit.
  destruct (MCTSAI.selectLoop better (length t) t 0) as [[sel|]|] eqn:Hsel; try discriminate.
  destruct (nth_error t sel) as [n|] eqn:Hn; [|discriminate].
  assert (Hstep : exists t1 at1,
            (if negb (MCTSAI.isTerminal n) && (0 <? Z.of_nat (length (untriedMoves n)))
             then if negb pw || (i mod 50 =? 0)%nat then MCTSAI.expand moveScore t sel
                  else (t, sel)
             else (t, sel)) = (t1, at1) /\
            searchInv t1 /\
            (forall j nj, nth_error t j = Some nj ->
               exists nj', nth_error t1 j = Some nj' /\ game nj' = game nj)).
  { destruct (negb (MCTSAI.isTerminal n) && (0 <? Z.of_nat (length (untriedMoves n)))) eqn:Hc;
      [|exists t, sel; eauto].
    destruct (negb pw || (i mod 50 =? 0)%nat); [|exists t, sel; eauto].
    apply andb_true_iff in Hc. destruct Hc as [Hterm Hlen].
    apply negb_true_iff in Hterm. unfold MCTSAI.isTerminal in Hterm.
    destruct (untriedMoves n) as [|mv rest] eqn:Hu; [discriminate|].
    exists (fst (MCTSAI.expand moveScore t sel)), (snd (MCTSAI.expand moveScore t sel)).
    split; [now destruct (MCTSAI.expand moveScore t sel)|]. split.
    - eapply expand_searchInv; eauto.
    - apply expand_keeps_games. }
  destruct Hstep as (t1 & at1 & Heq & Hinv1 & Hgames1). rewrite Heq in Hit.
  destruct (nth_error t1 at1) as [n1|]; [|discriminate].
  destruct (simulate (playout i (game n1)) n1) as [result|]; [|discriminate].
  inversion Hit; subst t'. clear Hit.
  pose proof (backpropagateFrom_sameNodes result (S at1) t1 at1) as Hsame.
  split.
  - eapply searchInv_sameNodes; eauto.
  - intros j nj Hj. destruct (Hgames1 j nj Hj) as (nj1 & Hj1 & Hg1).
    destruct (proj2 Hsame j nj1 Hj1) as (nj' & Hj' & Hst & _).
    exists nj'. split; auto. destruct (static_fields _ _ Hst) as (Hgame & _). congruence.
Qed.

Lemma iterations_searchInv pw : forall todo i t t',
  searchInv t -> MCTSAI.iterations moveScore better playout pw todo i t = Some (Some t') ->
  searchInv t' /\
  (forall j nj, nth_error t j = Some nj ->
     exists nj', nth_error t' j = Some nj' /\ game nj' = game nj).
Proof.
  induction todo as [|todo IH]; intros i t t' Hinv Hit; cbn [MCTSAI.iterations] in Hit.
  - inversion Hit; subst. split; eauto.
  - destruct (MCTSAI.iteration moveScore better playout pw i t) as [[t1|]|] eqn:H1;
      try discriminate.
    destruct (iteration_searchInv pw i t t1 Hinv H1) as [Hinv1 Hg1].
    destruct (IH (S i) t1 t' Hinv1 Hit) as [Hinv' Hg'].
    split; auto. intros j nj Hj. destruct (Hg1 j nj Hj) as (nj1 & Hj1 & Hgame1).
    destruct (Hg' j nj1 Hj1) as (nj' & Hj' & Hgame'). exists nj'. split; congruence.
Qed.

Lemma searchInv_root g ai :
  consistent g -> ~ (size g = 7 /\ moveCount g = 0) ->
  searchInv [MCTSAI.newNode moveScore (copy g) ai None None].
Proof.
  intros Hc Hban. unfold MCTSAI.newNode, copy. split; [|split].
  - intros i n Hn. destruct i; [|destruct i; discriminate].
    cbn in Hn. inversion Hn; subst. cbn [parent children].
    split; [discriminate|]. split; [constructor | intros c []].
  - intros i n Hn. destruct i; [|destruct i; discriminate].
    cbn in Hn. inversion Hn; subst. cbn [game parent]. split; [apply Hc | discriminate].
  - intros i n Hn. destruct i; [|destruct i; discriminate].
    cbn in Hn. inversion Hn; subst. cbn [game untriedMoves]. split; auto. split; auto.
    unfold childMoves. cbn [children flat_map]. rewrite app_nil_r. apply prioritizeMoves_perm.
Qed.

(** X17: the trees the search builds.  Started on a game as [makeMove]
    keeps it (other than the empty 7x7 board), after any number of
    iterations the parent and child references of the tree agree, every
    child holds the position reached from its parent's undecided position
    by the accepted move it is labelled with, red or blue is to move
    everywhere, at every node the untried moves together with the moves of
    its children are the empty cells of its board, each once, and the root
    still holds the game searched. *)
Theorem X17_search_tree_is_kept
    (progressiveWidening : bool) (simulations i0 : nat) (ai : Z) (g : HexGame.t) (t : tree) :
  consistent g -> ~ (size g = 7 /\ moveCount g = 0) ->
  MCTSAI.iterations moveScore better playout progressiveWidening simulations i0
                    [MCTSAI.newNode moveScore (copy g) ai None None] = Some (Some t) ->
  wfTree t /\ grownByExpand t /\
  (forall i n, nth_error t i = Some n ->
     Permutation (untriedMoves n ++ childMoves t n) (getValidMoves (game n))) /\
  (exists r, nth_error t 0 = Some r /\ game r = g).
Proof.
  intros Hc Hban Hit.
  destruct (iterations_searchInv progressiveWidening simulations i0 _ t
              (searchInv_root g ai Hc Hban) Hit) as [(Hwf & Hg & Hnodes) Hgames].
  split; auto. split; auto. split.
  - intros i n Hn. now destruct (Hnodes i n Hn) as (_ & _ & Hp).
  - destruct (Hgames O _ eq_refl) as (r & Hr & Hgame). exists r. split; auto.
Qed.

Variable evaluatePosition : HexGame.t -> Z -> Q.
Variable timesF : Z -> Q -> Q.
Variable winRate : Z -> Z -> Q.

(** The final selection returns the first child or another child. *)
Lemma robustChild_child t first cs :
  MCTSAI.robustChild timesF winRate t first cs = first \/
  exists c, In c cs /\ nth_error t c = Some (MCTSAI.robustChild timesF winRate t first cs).
Proof.
  unfold MCTSAI.robustChild.
  assert (Hgen : forall l acc,
    incl l cs ->
    (fst (fst acc) = first \/ exists c, In c cs /\ nth_error t c = Some (fst (fst acc))) ->
    let r := fold_left (fun (acc : node * Z * Q) (c : nat) =>
                 let '(bestChild, maxVisits, bestWinRate) := acc in
                 match nth_error t c with
                 | None => acc
                 | Some child =>
                   let childWinRate := winRate (wins child) (Z.max (visits child) 1) in
                   let take := (child, visits child, childWinRate) in
                   if sgt (Fin (inject_Z (visits child))) (Fin (timesF maxVisits (115 # 100)))
                   then take
                   else if sge (Fin (inject_Z (visits child))) (Fin (timesF maxVisits (85 # 100)))
                   then
                     if (visits child >? maxVisits)
                        || (sge (Fin (inject_Z (visits child))) (Fin (timesF maxVisits (95 # 100)))
                            && sgt (Fin childWinRate) (Fin bestWinRate))
                     then take else acc
                   else acc
                 end) l acc in
    fst (fst r) = first \/ exists c, In c cs /\ nth_error t c = Some (fst (fst r))).
  { induction l as [|c l IH]; intros acc Hincl Hacc; cbn [fold_left]; auto.
    apply IH; [intros x Hx; apply Hincl; now right|].
    destruct acc as [[bc mv] bw]. cbn [fst] in Hacc.
    destruct (nth_error t c) as [child|] eqn:Hc; cbn [fst]; auto.
    assert (Htake : exists c0, In c0 cs /\ nth_error t c0 = Some child).
    { exists c. split; auto. apply Hincl. now left. }
    destruct (sgt _ _); cbn [fst]; auto.
    destruct (sge _ _); cbn [fst]; auto.
    destruct (_ || _); cbn [fst]; auto. }
  specialize (Hgen cs (first, visits first, winRate (wins first) (Z.max (visits first) 1))
                   (fun x H => H) (or_introl eq_refl)).
  cbv zeta in Hgen.
  destruct (fold_left _ cs _) as [[bc mv] bw]. exact Hgen.
Qed.

Lemma negamax_move_in depth g alpha beta player beamWidth m :
  snd (fst (HexHeuristicSearch.negamax evaluatePosition depth [] g alpha beta player beamWidth))
    = Some m ->
  In m (getValidMoves g).
Proof.
  destruct depth as [|d]; [cbn; discriminate|].
  rewrite negamax_step. cbv zeta. cbn [HexHeuristicSearch.cacheGet].
  destruct (gameOver g); [cbn; discriminate|].
  destruct (HexHeuristicSearch.orderMoves evaluatePosition g beamWidth) as [|m0 l] eqn:Horder;
    [cbn; discriminate|].
  destruct (negamaxLoop_spec
              (fun c child a b =>
                 HexHeuristicSearch.negamax evaluatePosition d c child a b player beamWidth)
              g beta (m0 :: l)
              (fun c child a b Hc => negamax_finite evaluatePosition d c child a b player beamWidth Hc)
              (m0 :: l) alpha NegInf None [] (Forall_nil _) (fun x H => H)
              (or_introl (conj eq_refl eq_refl)))
    as [_ Hres].
  destruct (negamaxLoop _ _ _ _ _ _ _ _) as [[bs bm] c']. cbn [fst snd] in *.
  intros ->. destruct Hres as [(_ & Hn & _)|(_ & m' & Hm' & Hin)]; [discriminate|].
  inversion Hm'; subst m'. apply (orderMoves_incl evaluatePosition g beamWidth).
  rewrite Horder. exact Hin.
Qed.

Lemma firstSome_cases {A} (a b : option A) x :
  MCTSAI.firstSome a b = Some x -> a = Some x \/ b = Some x.
Proof. destruct a; cbn; auto. Qed.

Lemma MCTSAI_findCriticalMove_listed g m :
  MCTSAI.findCriticalMove g = Some m -> In m (getValidMoves g).
Proof.
  assert (Htwo : forall p, MCTSAI.findTwoMoveWin g p = Some m -> In m (getValidMoves g)).
  { intros p H. unfold MCTSAI.findTwoMoveWin in H. now apply find_some in H. }
  assert (Hvc : MCTSAI.findVirtualConnectionThreat g = Some m -> In m (getValidMoves g)).
  { intros H. unfold MCTSAI.findVirtualConnectionThreat in H. now apply find_some in H. }
  unfold MCTSAI.findCriticalMove.
  destruct (find (winsAtOnce g) (getValidMoves g)) as [m1|] eqn:H1.
  { intros Heq. inversion Heq; subst. now apply find_some in H1. }
  destruct (filter (threatens g (other (currentPlayer g))) (getValidMoves g))
    as [|m2 l2] eqn:H2.
  2:{ intros Heq. inversion Heq; subst.
      assert (Hin : In m (filter (threatens g (other (currentPlayer g))) (getValidMoves g)))
        by (rewrite H2; now left).
      now apply filter_In in Hin. }
  intros H. apply firstSome_cases in H. destruct H as [H|H].
  - destruct (Z.of_nat (length (getValidMoves g)) <=? 20); [eauto | discriminate].
  - apply firstSome_cases in H. destruct H as [H|H]; auto.
    destruct (Z.of_nat (length (getValidMoves g)) <=? 20); [eauto | discriminate].
Qed.

Lemma book_opens_empty_7x7 g rnd :
  size g = 7 -> moveCount g = 0 -> exists m, HexOpeningBook.getOpeningMove g rnd = Move m.
Proof.
  intros H7 H0. unfold HexOpeningBook.getOpeningMove, HexOpeningBook.getOpening7x7.
  rewrite H7, H0. cbn [Z.gtb Z.compare Z.eqb Pos.eqb].
  destruct (pick_nonempty rnd (HexOpeningBook.strongOpenings7 ++ HexOpeningBook.goodOpenings7))
    as (m & ->); [discriminate|]. now exists m.
Qed.

(** X19: a move [MCTSAI.getBestMove] returns, started with a fresh memo
    table on a game as [makeMove] keeps it, is an empty cell of the board,
    whichever stage produced it: opening book, critical move, bounded
    search or the tree search. *)
Theorem X19_MCTSAI_returns_empty_cell
    (difficultyLabel : MCTSAI.label) (simulations : nat) (aiPlayer : Z) (rnd : nat)
    (g : HexGame.t) (m : Z * Z) :
  consistent g ->
  MCTSAI.getBestMove evaluatePosition moveScore better timesF winRate playout []
                     difficultyLabel simulations aiPlayer rnd g = Some (Move m) ->
  In m (getValidMoves g).
Proof.
  intros Hcons Hbest. pose proof Hcons as (Hwf & Hcnt & _).
  assert (Hbook : forall m0, HexOpeningBook.getOpeningMove g rnd = Move m0 ->
                             In m0 (getValidMoves g)).
  { intros [r c] Hb. pose proof (book_offers_valid_move g rnd _ Hwf Hcnt Hb) as Hv.
    apply isValidMove_inv in Hv. apply in_getValidMoves. tauto. }
  assert (Hban : (HexOpeningBook.getOpeningMove g rnd = Null \/
                  HexOpeningBook.getOpeningMove g rnd = Undefined) ->
                 ~ (size g = 7 /\ moveCount g = 0)).
  { intros Hb [H7 H0]. destruct (book_opens_empty_7x7 g rnd H7 H0) as (m0 & Hm0).
    destruct Hb as [Hb|Hb]; congruence. }
  assert (Hrest :
    ~ (size g = 7 /\ moveCount g = 0) ->
    match MCTSAI.findCriticalMove g with
    | Some m => Some (Move m)
    | None =>
      let heuristicMove :=
        if MCTSAI.shouldUseHeuristicSearch difficultyLabel g then
          let (maxDepth, beamWidth) := MCTSAI.getHeuristicConfig difficultyLabel g in
          fst (HexHeuristicSearch.getBestMove evaluatePosition [] g aiPlayer maxDepth beamWidth)
        else None in
      match heuristicMove with
      | Some m => Some (Move m)
      | None =>
        let root := MCTSAI.newNode moveScore (copy g) aiPlayer None None in
        let progressiveWidening := size g >? 11 in
        match MCTSAI.iterations moveScore better playout progressiveWidening simulations O [root] with
        | None => None
        | Some None => Some Throw
        | Some (Some t) =>
          match nth_error t O with
          | None => Some Throw
          | Some rootNode =>
            match children rootNode with
            | [] => Some Throw
            | c0 :: _ =>
              match nth_error t c0 with
              | None => Some Throw
              | Some first =>
                match move (MCTSAI.robustChild timesF winRate t first (children rootNode)) with
                | Some m => Some (Move m)
                | None => Some Null
                end
              end
            end
          end
        end
      end
    end = Some (Move m) -> In m (getValidMoves g)).
  { intros Hnot.
    destruct (MCTSAI.findCriticalMove g) as [mc|] eqn:Hcrit.
    { intros Heq. inversion Heq; subst. now apply MCTSAI_findCriticalMove_listed. }
    cbv zeta.
    destruct (if MCTSAI.shouldUseHeuristicSearch difficultyLabel g then _ else None)
      as [mh|] eqn:Hh.
    { intros Heq. inversion Heq; subst mh.
      destruct (MCTSAI.shouldUseHeuristicSearch difficultyLabel g); [|discriminate].
      destruct (MCTSAI.getHeuristicConfig difficultyLabel g) as [d bw].
      unfold HexHeuristicSearch.getBestMove, copy in Hh.
      destruct (HexHeuristicSearch.negamax evaluatePosition d [] g NegInf PosInf aiPlayer bw)
        as [r c'] eqn:Hn. cbn [fst] in Hh.
      apply (negamax_move_in d g NegInf PosInf aiPlayer bw). now rewrite Hn. }
    destruct (MCTSAI.iterations _ _ _ _ _ _ _) as [[t|]|] eqn:Hit; try discriminate.
    destruct (iterations_searchInv _ _ _ _ t (searchInv_root g aiPlayer Hcons Hnot) Hit)
      as [(Htree & _ & Hnodes) Hgames].
    destruct (Hgames O _ eq_refl) as (r & Hr & Hgame). rewrite Hr.
    destruct (children r) as [|c0 cs] eqn:Hch; [discriminate|].
    destruct (nth_error t c0) as [first|] eqn:Hfirst; [|discriminate].
    destruct (move (MCTSAI.robustChild timesF winRate t first (c0 :: cs))) as [mb|] eqn:Hmb;
      [|discriminate].
    intros Heq. inversion Heq; subst mb.
    destruct (Hnodes O r Hr) as (_ & _ & Hperm). cbn [MCTSAI.newNode game copy] in Hgame.
    rewrite Hgame in Hperm. apply (Permutation_in _ Hperm). apply in_or_app. right.
    assert (Hchild : exists c, In c (children r) /\
              nth_error t c = Some (MCTSAI.robustChild timesF winRate t first (c0 :: cs))).
    { destruct (robustChild_child t first (c0 :: cs)) as [Heq1|(c & Hc & Hnc)].
      - exists c0. rewrite Hch, Heq1. split; [now left | exact Hfirst].
      - exists c. rewrite Hch. auto. }
    destruct Hchild as (c & Hc & Hnc). unfold childMoves. apply in_flat_map.
    exists c. split; auto. rewrite Hnc, Hmb. now left. }
  unfold MCTSAI.getBestMove in Hbest.
  destruct (HexOpeningBook.getOpeningMove g rnd) as [| | |m0] eqn:Hb.
  - discriminate.
  - apply Hrest; auto.
  - apply Hrest; auto.
  - inversion Hbest; subst. now apply Hbook.
Qed.

End Growth.

End SearchTree.

Lemma X17_search_tree_is_kept_witness :
  exists t, MCTSAI.iterations (fun _ _ => 0%Q) (fun _ _ _ => false)
              (fun _ _ => [(0, 0); (0, 1); (1, 0); (1, 1)]) false 3 0
              [MCTSAI.newNode (fun _ _ => 0%Q) (HexGame.copy (HexGame.create 2)) PLAYER_RED None None]
            = Some (Some t) /\
            wfTree t /\ exists r, nth_error t 0 = Some r /\ MCTS.game r = HexGame.create 2.
Proof.
  assert (Hrun : exists t, MCTSAI.iterations (fun _ _ => 0%Q) (fun _ _ _ => false)
              (fun _ _ => [(0, 0); (0, 1); (1, 0); (1, 1)]) false 3 0
              [MCTSAI.newNode (fun _ _ => 0%Q) (HexGame.copy (HexGame.create 2)) PLAYER_RED None None]
            = Some (Some t)) by (vm_compute; eexists; reflexivity).
  destruct Hrun as (t & Ht). exists t. split; [exact Ht|].
  destruct (X17_search_tree_is_kept (fun _ _ => 0%Q) (fun _ _ _ => false)
              (fun _ _ => [(0, 0); (0, 1); (1, 0); (1, 1)]) false 3 0 PLAYER_RED
              (HexGame.create 2) t) as (Hwf & _ & _ & Hroot).
  - apply consistent_create. lia.
  - cbn. lia.
  - exact Ht.
  - split; assumption.
Defined.

Lemma X19_MCTSAI_returns_empty_cell_witness :
  In (0, 0) (HexGame.getValidMoves lastCellGame).
Proof.
  apply (X19_MCTSAI_returns_empty_cell (fun _ _ => 0%Q) (fun _ _ _ => false)
           (fun _ _ => []) (fun _ _ => 0%Q) (fun _ q => q) (fun _ _ => 0%Q)
           MCTSAI.Medium 10 PLAYER_BLUE 0 lastCellGame (0, 0)).
  - unfold lastCellGame.
    apply consistent_makeMove, consistent_makeMove, consistent_makeMove, consistent_create. lia.
  - vm_compute. reflexivity.
Defined.


(** ** Union-find: what [find] and [union] promise *)

Section UnionFindUse.
Import UnionFind.

Lemma create_forest n : 0 <= n <= 32768 ->
  forest (create n) /\ forall i, 0 <= i < n -> rootOf (create n) i i.
Proof.
  intros Hn.
  assert (Hself : forall i, 0 <= i < n -> rootOf (create n) i i).
  { intros i Hi. apply rootOf_here; [rewrite create_length; lia|]. apply zget_create; lia. }
  split; auto. intros i Hi. rewrite create_length in Hi. exists i. apply Hself. lia.
Qed.

Lemma find_forest p i :
  Z.of_nat (length p) <= 32768 -> forest p -> 0 <= i < Z.of_nat (length p) ->
  rootOf p i (fst (find p i)) /\ sameRoots p (snd (find p i)) /\
  forest (snd (find p i)) /\ length (snd (find p i)) = length p.
Proof.
  intros Hfit Hf Hi. destruct (Hf i Hi) as [r Hr].
  destruct (find_spec p i r Hfit Hf Hr) as [Hfst Hs]. rewrite Hfst.
  split; auto. split; auto. split; [eapply sameRoots_forest; eauto | apply Hs].
Qed.

(** X20: on a parent array that is a forest, [find] returns the root of
    the set of its argument; the path compression it performs changes the
    root of no index, so two calls in a row return the same number exactly
    when their arguments are in one set. *)
Theorem X20_find_names_the_set (p : list Z) (x y : Z) :
  Z.of_nat (length p) <= 32768 -> forest p ->
  0 <= x < Z.of_nat (length p) -> 0 <= y < Z.of_nat (length p) ->
  rootOf p x (fst (find p x)) /\
  (forall i r, rootOf (snd (find p x)) i r <-> rootOf p i r) /\
  (fst (find (snd (find p x)) y) = fst (find p x) <-> sameSet p x y).
Proof.
  intros Hfit Hf Hx Hy.
  destruct (find_forest p x Hfit Hf Hx) as (Hrx & Hs & Hf1 & Hlen).
  destruct (find_forest (snd (find p x)) y) as (Hry & _); auto; try (rewrite Hlen; lia).
  split; auto. split; [intros i r; symmetry; apply Hs|].
  apply Hs in Hry. split.
  - intros Heq. exists (fst (find p x)). split; auto. now rewrite <- Heq.
  - intros (r & Hx' & Hy').
    rewrite (rootOf_det _ _ _ _ Hry Hy'), (rootOf_det _ _ _ _ Hrx Hx'). reflexivity.
Qed.

Lemma X20_find_names_the_set_witness :
  rootOf pairForest 0 (fst (find pairForest 0)) /\
  (fst (find (snd (find pairForest 0)) 1) = fst (find pairForest 0) <-> sameSet pairForest 0 1).
Proof.
  assert (Hf : forest pairForest).
  { intros i Hi. change (Z.of_nat (length pairForest)) with 4 in Hi.
    assert (Hc : i = 0 \/ i = 1 \/ i = 2 \/ i = 3) by lia.
    destruct Hc as [->|[->|[->| ->]]].
    - exists 1, 1%nat. apply rootOfN_step;
        [change (Z.of_nat (length pairForest)) with 4; lia | vm_compute; discriminate |].
      change (zget pairForest 0) with 1.
      apply rootOfN_here; [change (Z.of_nat (length pairForest)) with 4; lia | reflexivity].
    - exists 1, 0%nat.
      apply rootOfN_here; [change (Z.of_nat (length pairForest)) with 4; lia | reflexivity].
    - exists 2, 0%nat.
      apply rootOfN_here; [change (Z.of_nat (length pairForest)) with 4; lia | reflexivity].
    - exists 3, 0%nat.
      apply rootOfN_here; [change (Z.of_nat (length pairForest)) with 4; lia | reflexivity]. }
  destruct (X20_find_names_the_set pairForest 0 1) as (H1 & _ & H2);
    [vm_compute; discriminate | exact Hf | vm_compute; split; [discriminate | reflexivity]
    | vm_compute; split; [discriminate | reflexivity] |].
  split; assumption.
Defined.

(** X21: [union] joins the sets of its two arguments and nothing else: the
    array keeps its length and stays a forest, and afterwards two indices
    are in one set exactly when they were before or when one was in the set
    of the first argument and the other in the set of the second. *)
Theorem X21_union_merges_two_sets (p : list Z) (i j : Z) :
  Z.of_nat (length p) <= 32768 -> forest p ->
  0 <= i < Z.of_nat (length p) -> 0 <= j < Z.of_nat (length p) ->
  length (union p i j) = length p /\ forest (union p i j) /\
  forall x y, sameSet (union p i j) x y <->
              sameSet p x y \/ (sameSet p x i /\ sameSet p y j) \/
              (sameSet p x j /\ sameSet p y i).
Proof.
  intros Hfit Hf Hi Hj. unfold union.
  destruct (find_forest p i Hfit Hf Hi) as (Hri & Hs1 & Hf1 & Hlen1).
  destruct (find p i) as [rI p1]. cbn [fst snd] in *.
  destruct (find_forest p1 j) as (Hrj & Hs2 & Hf2 & Hlen2); auto; try (rewrite Hlen1; lia).
  destruct (find p1 j) as [rJ p2]. cbn [fst snd] in *.
  apply Hs1 in Hrj.
  assert (Hs : sameRoots p p2) by (eapply sameRoots_trans; eauto).
  assert (Hset : forall x y, sameSet p2 x y <-> sameSet p x y)
    by (intros; symmetry; now apply sameRoots_sameSet).
  destruct (Z.eqb_spec rI rJ) as [Heq|Hne]; cbn [negb].
  - subst rJ. split; [congruence|]. split; auto.
    intros x y. rewrite Hset. split; auto.
    intros [H|[[(r1 & Hx & Hi') (r2 & Hy & Hj')]|[(r1 & Hx & Hj') (r2 & Hy & Hi')]]]; auto.
    + rewrite (rootOf_det _ _ _ _ Hi' Hri) in Hx. rewrite (rootOf_det _ _ _ _ Hj' Hrj) in Hy.
      exists rI. auto.
    + rewrite (rootOf_det _ _ _ _ Hi' Hri) in Hy. rewrite (rootOf_det _ _ _ _ Hj' Hrj) in Hx.
      exists rI. auto.
  - assert (Hfit2 : Z.of_nat (length p2) <= 32768) by (rewrite Hlen2, Hlen1; lia).
    assert (HrI : rootOf p2 rI rI) by (apply Hs; eapply rootOf_self; eauto).
    assert (HrJ : rootOf p2 rJ rJ) by (apply Hs; eapply rootOf_self; eauto).
    pose proof (link_rootOf p2 rI rJ Hfit2 Hf2 HrI HrJ Hne) as Hlink.
    set (p' := zset p2 rI (toInt16 rJ)) in *.
    assert (Hlen' : length p' = length p)
      by (unfold p'; rewrite zset_length; congruence).
    split; auto. split.
    + intros x Hx. rewrite Hlen' in Hx.
      destruct (Hf x Hx) as [r Hr]. apply Hs in Hr.
      destruct (Z.eq_dec r rI) as [->|Hr'].
      * exists rJ. apply Hlink. right. auto.
      * exists r. apply Hlink. left. auto.
    + intros x y. split.
      * intros (r & Hx & Hy). apply Hlink in Hx. apply Hlink in Hy.
        destruct Hx as [[Hx Hxr]|[Hx ->]]; destruct Hy as [[Hy Hyr]|[Hy Hyr]].
        -- left. apply Hset. exists r. auto.
        -- subst r. right. right. split.
           ++ exists rJ. split; [now apply Hs | exact Hrj].
           ++ exists rI. split; [now apply Hs | exact Hri].
        -- right. left. split.
           ++ exists rI. split; [now apply Hs | exact Hri].
           ++ exists rJ. split; [now apply Hs | exact Hrj].
        -- left. apply Hset. exists rI. auto.
      * assert (Hto : forall x, rootOf p x rI -> rootOf p' x rJ)
          by (intros z Hz; apply Hlink; right; split; auto; now apply Hs).
        assert (Hstay : forall x, rootOf p x rJ -> rootOf p' x rJ)
          by (intros z Hz; apply Hlink; left; split; [now apply Hs | congruence]).
        intros [(r & Hx & Hy)|[[(r1 & Hx & Hi') (r2 & Hy & Hj')]|[(r1 & Hx & Hj') (r2 & Hy & Hi')]]].
        -- destruct (Z.eq_dec r rI) as [->|Hr'].
           ++ exists rJ. auto.
           ++ exists r. split; apply Hlink; left; split; auto; now apply Hs.
        -- rewrite (rootOf_det _ _ _ _ Hi' Hri) in Hx. rewrite (rootOf_det _ _ _ _ Hj' Hrj) in Hy.
           exists rJ. auto.
        -- rewrite (rootOf_det _ _ _ _ Hi' Hri) in Hy. rewrite (rootOf_det _ _ _ _ Hj' Hrj) in Hx.
           exists rJ. auto.
Qed.

Lemma X21_union_merges_two_sets_witness :
  length (union (create 4) 0 1) = length (create 4) /\
  sameSet (union (create 4) 0 1) 0 1.
Proof.
  destruct (create_forest 4 ltac:(lia)) as [Hf Hself].
  destruct (X21_union_merges_two_sets (create 4) 0 1) as (Hlen & _ & Hiff);
    [vm_compute; discriminate | exact Hf | vm_compute; split; [discriminate | reflexivity]
    | vm_compute; split; [discriminate | reflexivity] |].
  split; [exact Hlen|]. apply Hiff. right. left.
  split; [exists 0 | exists 1]; split; apply Hself; lia.
Defined.

End UnionFindUse.


(** ** Playouts on the flat game *)

Section Playout.
Import FastHexGame.

Lemma upd_middle {A} (l1 : list A) x v l2 :
  upd (length l1) v (l1 ++ x :: l2) = l1 ++ v :: l2.
Proof. induction l1 as [|a l1 IH]; cbn; [reflexivity | now rewrite IH]. Qed.

Lemma indexOf_split x : forall l k,
  indexOf x l = Some k -> exists l1 l2, l = l1 ++ x :: l2 /\ length l1 = k.
Proof.
  induction l as [|y l IH]; intros k; cbn [indexOf]; [discriminate|].
  destruct (Z.eqb_spec y x) as [->|Hne].
  - intros H. inversion H; subst. exists [], l. auto.
  - destruct (indexOf x l) as [k'|] eqn:E; [|discriminate].
    intros H. inversion H; subst.
    destruct (IH k' eq_refl) as (l1 & l2 & -> & Hlen).
    exists (y :: l1), l2. cbn. auto.
Qed.

Lemma indexOf_In x : forall l, In x l -> exists k, indexOf x l = Some k.
Proof.
  induction l as [|y l IH]; intros Hin; [destruct Hin|]. cbn [indexOf].
  destruct (Z.eqb_spec y x) as [->|Hne]; [eauto|].
  destruct Hin as [->|Hin]; [congruence|].
  destruct (IH Hin) as [k ->]. eauto.
Qed.

(** Swap-with-last and pop removes one occurrence. *)
Lemma swapRemove_perm x l : In x l -> Permutation l (x :: swapRemove x l).
Proof.
  intros Hin. unfold swapRemove. destruct (indexOf_In x l Hin) as [k Hk]. rewrite Hk.
  destruct (indexOf_split x l k Hk) as (l1 & l2 & -> & <-).
  destruct l2 as [|y l2].
  - rewrite upd_middle.
    rewrite last_last, removelast_last.
    apply Permutation_sym, Permutation_cons_append.
  - destruct (exists_last (l := y :: l2) ltac:(discriminate)) as (m' & z' & Hm').
    rewrite Hm'.
    replace (l1 ++ x :: m' ++ [z']) with ((l1 ++ x :: m') ++ [z'])
      by (rewrite <- app_assoc; reflexivity).
    rewrite last_last. rewrite <- app_assoc. cbn [app]. rewrite upd_middle.
    replace (l1 ++ z' :: m' ++ [z']) with ((l1 ++ z' :: m') ++ [z'])
      by (rewrite <- app_assoc; reflexivity).
    rewrite removelast_last.
    apply Permutation_sym.
    eapply perm_trans; [|apply Permutation_middle].
    apply perm_skip, Permutation_app_head, Permutation_cons_append.
Qed.

Lemma swapRemove_spec x l :
  NoDup l -> In x l ->
  NoDup (swapRemove x l) /\ (forall y, In y (swapRemove x l) <-> In y l /\ y <> x) /\
  length l = S (length (swapRemove x l)).
Proof.
  intros Hnd Hin. pose proof (swapRemove_perm x l Hin) as Hp.
  pose proof (Permutation_NoDup Hp Hnd) as Hnd'. inversion Hnd' as [|? ? Hnot Hrest]; subst.
  split; auto. split.
  - intros y. split.
    + intros Hy. split.
      * eapply Permutation_in; [apply Permutation_sym; exact Hp|]. now right.
      * intros ->. contradiction.
    + intros [Hy Hne]. apply (Permutation_in _ Hp) in Hy. destruct Hy; congruence.
  - apply (Permutation_length Hp).
Qed.

Lemma draw_In u empt : empt <> [] -> In (draw u empt) empt.
Proof.
  intros Hne. unfold draw, zget. rewrite Nat2Z.id. apply nth_In.
  apply Nat.mod_upper_bound. destruct empt; [congruence | discriminate].
Qed.

Lemma retryCenter_In empt centerIdx : forall rs best idx rs',
  empt <> [] -> In best empt ->
  retryCenter rs empt centerIdx best = Some (idx, rs') -> In idx empt.
Proof.
  induction rs as [|u rs IH]; intros best idx rs' Hne Hb; cbn [retryCenter].
  - destruct (best =? centerIdx); [discriminate|]. intros H. inversion H; subst; auto.
  - destruct (best =? centerIdx).
    + apply IH; auto. now apply draw_In.
    + intros H. inversion H; subst; auto.
Qed.

Lemma retryCenter_off empt centerIdx : forall rs best,
  best <> centerIdx -> retryCenter rs empt centerIdx best = Some (best, rs).
Proof.
  intros rs best Hne. destruct (Z.eqb_spec best centerIdx) as [|_]; [contradiction|].
  destruct rs; cbn [retryCenter]; destruct (Z.eqb_spec best centerIdx); try contradiction; auto.
Qed.

Lemma getCommonEmptyNeighbor_empty g n1 n2 ex y :
  0 < size g -> getCommonEmptyNeighbor g n1 n2 ex = Some y ->
  0 <= y < size g * size g /\ zget (board g) y = 0.
Proof.
  intros Hn H. unfold getCommonEmptyNeighbor in H. apply find_some in H.
  destruct H as [Hin Hc]. apply andb_prop in Hc. destruct Hc as [Hc _].
  apply andb_prop in Hc. destruct Hc as [_ Hc]. apply Z.eqb_eq in Hc.
  split; auto. eapply adjF_range; eauto.
Qed.

Lemma bridgeSave_empty g opp : forall ns y,
  0 < size g -> bridgeSave g opp ns = Some y ->
  0 <= y < size g * size g /\ zget (board g) y = 0.
Proof.
  induction ns as [|n1 ns IH]; intros y Hn; cbn [bridgeSave]; [discriminate|].
  match goal with |- match ?inner with _ => _ end = _ -> _ =>
    assert (Hinner : forall z, inner = Some z ->
              0 <= z < size g * size g /\ zget (board g) z = 0) end.
  { generalize ns at 1. intros l. induction l as [|n2 l IHl]; intros z; [discriminate|].
    destruct (getCommonEmptyNeighbor g n1 n2 opp) as [c|] eqn:E.
    - intros H. inversion H; subst. eapply getCommonEmptyNeighbor_empty; eauto.
    - apply IHl. }
  match goal with |- match ?inner with _ => _ end = _ -> _ => destruct inner as [z|] end.
  - intros H. inversion H; subst. now apply Hinner.
  - now apply IH.
Qed.

(** What [checkWin] leaves alone. *)
Lemma checkWin_fields_kept g pl :
  emptyCells (snd (checkWin g pl)) = emptyCells g /\
  movesHistory (snd (checkWin g pl)) = movesHistory g /\
  currentPlayer (snd (checkWin g pl)) = currentPlayer g /\
  filledCount (snd (checkWin g pl)) = filledCount g /\
  board (snd (checkWin g pl)) = board g /\ size (snd (checkWin g pl)) = size g.
Proof.
  unfold checkWin. destruct (checkWinScan _ _ _ _ _ _) as [b p]. cbn. auto 6.
Qed.

Lemma checkWin_ready g pl : ready g -> pl = 1 \/ pl = 2 ->
  ready (snd (checkWin g pl)) /\
  (fst (checkWin g pl) = true <-> linked (size g) (board g) pl).
Proof.
  intros [Hin Hem] Hpl. destruct (checkWin_linked g pl Hin Hpl) as (Hiff & Hin' & _).
  destruct (checkWin_fields_kept g pl) as (He & _ & _ & _ & Hb & Hs).
  split; auto. split; auto. unfold emptySynced. rewrite He, Hb, Hs. exact Hem.
Qed.

(** A stone on an empty cell: both the tracker and the list of empty
    cells follow. *)
Lemma place_ready g idx filled :
  ready g -> 0 <= idx < size g * size g -> zget (board g) idx = 0 ->
  ready (place g idx filled) /\ size (place g idx filled) = size g /\
  keepsStones (board g) (board (place g idx filled)) /\
  length (emptyCells g) = S (length (emptyCells (place g idx filled))) /\
  filledCount (place g idx filled) = filled.
Proof.
  intros [Hin [Hnd Hem]] Hi Hb.
  pose proof Hin as ([_ _ Hlb _ _ _ _ _ _ _] & _ & Hcur).
  assert (Hmem : In idx (emptyCells g)) by (apply Hem; auto).
  destruct (swapRemove_spec idx (emptyCells g) Hnd Hmem) as (Hnd' & Hin' & Hlen').
  split; [split|split; [|split; [|split]]]; auto.
  - now apply place_inStep.
  - unfold emptySynced, place. cbn [emptyCells size board]. split; auto.
    intros i. rewrite Hin', Hem. rewrite toInt8_small by lia.
    split.
    + intros [[Hr Hz] Hne]. split; auto. rewrite zget_zset_other by lia. auto.
    + intros [Hr Hz]. destruct (Z.eq_dec i idx) as [->|Hne].
      * rewrite zget_zset_same in Hz by lia. lia.
      * rewrite zget_zset_other in Hz by lia. auto.
  - intros i Hi0 Hnz. unfold place. cbn [board].
    rewrite zget_zset_other; auto; try lia. congruence.
Qed.

Lemma keepsStones_trans a b c :
  keepsStones a b -> keepsStones b c -> keepsStones a c.
Proof.
  intros H1 H2 i Hi Hnz. rewrite H2; auto. rewrite H1; auto.
Qed.

(** The cell the playout chooses next is an empty cell of the board. *)
Lemma playout_choice_empty g rs idx rs'' :
  ready g -> emptyCells g <> [] ->
  match match rev (movesHistory g) with
        | [] => None
        | (oppIdx, _) :: _ =>
          bridgeSave g oppIdx
            (filter (fun n => zget (board g) n =? currentPlayer g)
                    (getNeighborsIdx (size g) oppIdx))
        end with
  | Some y => Some (y, rs)
  | None =>
    match rs with
    | [] => None
    | u :: rs' =>
      if (size g =? 7) && (filledCount g =? 0)
      then retryCenter rs' (emptyCells g) (size g / 2 * size g + size g / 2)
                       (draw u (emptyCells g))
      else Some (draw u (emptyCells g), rs')
    end
  end = Some (idx, rs'') ->
  0 <= idx < size g * size g /\ zget (board g) idx = 0.
Proof.
  intros [Hin [Hnd Hem]] Hne.
  assert (Hn : 0 < size g) by (destruct Hin as ([Hn _ _ _ _ _ _ _ _ _] & _); exact Hn).
  destruct (match rev (movesHistory g) with [] => None | _ => _ end) as [y|] eqn:Es.
  - intros H. inversion H; subst.
    destruct (rev (movesHistory g)) as [|[opp pl] rest]; [discriminate|].
    eapply bridgeSave_empty; eauto.
  - destruct rs as [|u rs']; [discriminate|].
    destruct ((size g =? 7) && (filledCount g =? 0)).
    + intros H. apply Hem. eapply retryCenter_In; eauto. now apply draw_In.
    + intros H. inversion H; subst. apply Hem. now apply draw_In.
Qed.

(** X22: a playout that ends on a game whose tracker and list of empty
    cells describe its board reports a winner the final board bears out:
    1 when red has joined top and bottom, 2 when blue has joined left and
    right and red has not, 0 only when no cell is empty and neither side
    is connected.  Every stone chosen on the way went on an empty cell, so
    the stones of the starting board are all still in place, and the game
    is left with tracker and list in step with the final board. *)
Theorem X22_playoutSmart_winner_is_connected
    (fuel : nat) (rs rs' : list nat) (g g' : t) (w : Z) :
  ready g -> playoutSmart fuel rs g = Some (w, g', rs') ->
  ready g' /\ size g' = size g /\ keepsStones (board g) (board g') /\
  (w = 1 /\ linked (size g') (board g') 1 \/
   w = 2 /\ linked (size g') (board g') 2 /\ ~ linked (size g') (board g') 1 \/
   w = 0 /\ emptyCells g' = [] /\
     ~ linked (size g') (board g') 1 /\ ~ linked (size g') (board g') 2).
Proof.
  revert rs rs' g g' w.
  induction fuel as [|fuel IH]; intros rs rs' g g' w Hr; cbn [playoutSmart]; [discriminate|].
  destruct (checkWin_ready g 1 Hr ltac:(auto)) as [Hr1 Hw1].
  destruct (checkWin_fields_kept g 1) as (_ & _ & _ & _ & Hb1 & Hs1).
  destruct (checkWin g 1) as [w1 g1]. cbn [fst snd] in *.
  assert (Hk0 : keepsStones (board g) (board g)) by (intros i _ _; reflexivity).
  destruct w1.
  { intros H. inversion H; subst. rewrite Hb1, Hs1. split; auto. split; auto. split; auto.
    left. split; auto. now apply Hw1. }
  destruct (checkWin_ready g1 2 Hr1 ltac:(auto)) as [Hr2 Hw2].
  destruct (checkWin_fields_kept g1 2) as (_ & _ & _ & _ & Hb2 & Hs2).
  destruct (checkWin g1 2) as [w2 g2]. cbn [fst snd] in *.
  rewrite Hb1, Hs1 in Hw2. rewrite Hb1 in Hb2. rewrite Hs1 in Hs2.
  assert (Hno1 : ~ linked (size g) (board g) 1) by (rewrite <- Hw1; discriminate).
  destruct w2.
  { intros H. inversion H; subst. rewrite Hb2, Hs2. split; auto. split; auto. split; auto.
    right. left. split; auto. split; auto. now apply Hw2. }
  assert (Hno2 : ~ linked (size g) (board g) 2) by (rewrite <- Hw2; discriminate).
  destruct (Z.eqb_spec (Z.of_nat (length (emptyCells g2))) 0) as [Hz|Hnz].
  { intros H. inversion H; subst. rewrite Hb2, Hs2. split; auto. split; auto. split; auto.
    right. right. split; auto. split; auto.
    destruct (emptyCells g'); [reflexivity | cbn in Hz; lia]. }
  match goal with |- match ?c with _ => _ end = _ -> _ => destruct c as [[idx rs'']|] eqn:Ec end;
    [|discriminate].
  assert (Hne : emptyCells g2 <> []) by (intros E; rewrite E in Hnz; cbn in Hnz; lia).
  destruct (playout_choice_empty g2 rs idx rs'' Hr2 Hne Ec) as [Hi Hbz].
  destruct (place_ready g2 idx (filledCount g2) Hr2 Hi Hbz) as (Hr3 & Hs3 & Hk3 & _).
  intros H. destruct (IH _ _ _ _ _ Hr3 H) as (Hr' & Hs' & Hk' & Hres).
  split; auto. split; [congruence|]. split; auto.
  rewrite <- Hb2. eapply keepsStones_trans; eauto.
Qed.

Lemma create_ready src :
  HexGame.wf src -> HexGame.size src * HexGame.size src <= 32768 ->
  HexGame.currentPlayer src = 1 \/ HexGame.currentPlayer src = 2 ->
  ready (create src).
Proof.
  intros Hwf Hfit Hcur. destruct (create_inStep src Hwf Hfit Hcur) as (Hin & Hs & Hb).
  split; auto. unfold emptySynced. rewrite Hs, Hb. unfold create. cbn [emptyCells].
  fold (flatten src). split.
  - apply NoDup_filter, zrange_NoDup.
  - intros i. rewrite filter_In, in_zrange, Z.eqb_eq. tauto.
Qed.

Lemma X22_playoutSmart_winner_is_connected_witness :
  exists w g' rs', playoutSmart 6 [0; 0; 0; 0]%nat (create (HexGame.create 2)) = Some (w, g', rs') /\
                   ready g' /\ size g' = 2.
Proof.
  assert (Hrun : exists w g' rs',
            playoutSmart 6 [0; 0; 0; 0]%nat (create (HexGame.create 2)) = Some (w, g', rs'))
    by (vm_compute; do 3 eexists; reflexivity).
  destruct Hrun as (w & g' & rs' & Hrun). exists w, g', rs'. split; [exact Hrun|].
  destruct (X22_playoutSmart_winner_is_connected 6 [0; 0; 0; 0]%nat rs'
              (create (HexGame.create 2)) g' w) as (Hr & Hs & _).
  - apply create_ready; [apply consistent_create; lia | vm_compute; discriminate | now left].
  - exact Hrun.
  - split; auto.
Defined.

(** X23: a playout ends.  Started on a game in step with its board, other
    than a 7x7 game whose stone count is zero (where the centre is redrawn
    for as long as it comes up), it returns after placing at most one stone
    per empty cell and using at most one random draw per stone. *)
Theorem X23_playoutSmart_ends (fuel : nat) (rs : list nat) (g : t) :
  ready g -> ~ (size g = 7 /\ filledCount g = 0) ->
  (length (emptyCells g) < fuel)%nat -> (length (emptyCells g) <= length rs)%nat ->
  exists w g' rs', playoutSmart fuel rs g = Some (w, g', rs').
Proof.
  revert rs g.
  induction fuel as [|fuel IH]; intros rs g Hr Hban Hfuel Hrs; [lia|].
  cbn [playoutSmart].
  destruct (checkWin_ready g 1 Hr ltac:(auto)) as [Hr1 _].
  destruct (checkWin_fields_kept g 1) as (He1 & _ & _ & Hf1 & _ & Hs1).
  destruct (checkWin g 1) as [w1 g1]. cbn [fst snd] in *.
  destruct w1; [eauto|].
  destruct (checkWin_ready g1 2 Hr1 ltac:(auto)) as [Hr2 _].
  destruct (checkWin_fields_kept g1 2) as (He2 & _ & _ & Hf2 & _ & Hs2).
  destruct (checkWin g1 2) as [w2 g2]. cbn [fst snd] in *.
  destruct w2; [eauto|].
  destruct (Z.eqb_spec (Z.of_nat (length (emptyCells g2))) 0) as [Hz|Hnz]; [eauto|].
  assert (Hne : emptyCells g2 <> []) by (intros E; rewrite E in Hnz; cbn in Hnz; lia).
  assert (Hoff : (size g2 =? 7) && (filledCount g2 =? 0) = false).
  { rewrite Hs2, Hs1, Hf2, Hf1. apply not_true_is_false. intros H.
    apply andb_prop in H. destruct H as [H7 H0]. apply Hban. split; now apply Z.eqb_eq. }
  match goal with |- exists w g' rs', match ?c with _ => _ end = _ =>
    assert (Hc : exists idx rs'', c = Some (idx, rs'') /\
                                  (length rs <= S (length rs''))%nat) end.
  { destruct (match rev (movesHistory g2) with [] => None | _ => _ end) as [y|].
    - exists y, rs. split; auto.
    - destruct rs as [|u rs1].
      + exfalso. rewrite <- He1, <- He2 in Hrs. destruct (emptyCells g2); [congruence|].
        cbn in Hrs. lia.
      + rewrite Hoff. exists (draw u (emptyCells g2)), rs1. split; auto. }
  destruct Hc as (idx & rs'' & Hc & Hlen).
  destruct (playout_choice_empty g2 rs idx rs'' Hr2 Hne Hc) as [Hi Hbz].
  rewrite Hc.
  destruct (place_ready g2 idx (filledCount g2) Hr2 Hi Hbz) as (Hr3 & Hs3 & _ & Hl3 & Hf3).
  apply IH; auto.
  - rewrite Hs3, Hf3, Hs2, Hs1, Hf2, Hf1. exact Hban.
  - rewrite He2, He1 in Hl3. lia.
  - rewrite He2, He1 in Hl3. lia.
Qed.

Lemma X23_playoutSmart_ends_witness :
  exists w g' rs', playoutSmart 5 [3; 1; 4; 1]%nat (create (HexGame.create 2)) = Some (w, g', rs').
Proof.
  apply X23_playoutSmart_ends.
  - apply create_ready; [apply consistent_create; lia | vm_compute; discriminate | now left].
  - vm_compute. intros [H _]. discriminate.
  - vm_compute. lia.
  - vm_compute. lia.
Defined.

End Playout.


(** ** The flat game and the reference game offer the same moves *)

Section SameMoves.

Lemma filter_all {A} (f : A -> bool) l :
  (forall x, In x l -> f x = true) -> filter f l = l.
Proof.
  induction l as [|a l IH]; intros H; cbn; auto.
  rewrite (H a (or_introl eq_refl)). f_equal. apply IH. intros x Hx. apply H. now right.
Qed.

Lemma filter_drops {A} (f : A -> bool) l x :
  In x l -> f x = false -> (length (filter f l) < length l)%nat.
Proof.
  induction l as [|a l IH]; intros Hin Hf; [destruct Hin|]. cbn.
  pose proof (filter_length_le f l) as Hle.
  destruct Hin as [->|Hin].
  - rewrite Hf. lia.
  - specialize (IH Hin Hf). destruct (f a); cbn; lia.
Qed.

Lemma stone_somewhere g :
  HexGame.wf g -> stoneCount (HexGame.board g) <> 0 ->
  exists r c, 0 <= r < HexGame.size g /\ 0 <= c < HexGame.size g /\
              HexGame.cell (HexGame.board g) r c <> 0.
Proof.
  intros (Hn & Hlen & Hrows & _) Hcnt. unfold stoneCount in Hcnt.
  destruct (filter _ (concat (HexGame.board g))) as [|v rest] eqn:Ef; [cbn in Hcnt; lia|].
  assert (Hv : In v (filter (fun v => negb (v =? EMPTY)) (concat (HexGame.board g))))
    by (rewrite Ef; now left).
  apply filter_In in Hv. destruct Hv as [Hin Hnz].
  apply in_concat in Hin. destruct Hin as (row & Hrow & Hvin).
  destruct (In_nth _ _ [] Hrow) as (r & Hr & Er).
  destruct (In_nth _ _ 0 Hvin) as (c & Hc & Ec).
  rewrite (Hrows _ Hrow) in Hc. rewrite Hlen in Hr.
  exists (Z.of_nat r), (Z.of_nat c). split; [lia|]. split; [lia|].
  unfold HexGame.cell. rewrite !Nat2Z.id, Er, Ec.
  apply negb_true_iff, Z.eqb_neq in Hnz. exact Hnz.
Qed.

(** The stone count the flat game starts from is zero exactly when the
    source board is empty. *)
Lemma filledCount_create src :
  HexGame.wf src ->
  (FastHexGame.filledCount (FastHexGame.create src) = 0 <->
   stoneCount (HexGame.board src) = 0).
Proof.
  intros Hwf. pose proof Hwf as (Hn & _).
  unfold FastHexGame.create. cbn [FastHexGame.filledCount]. fold (FastHexGame.flatten src).
  set (n := HexGame.size src) in *.
  set (f := fun i => zget (FastHexGame.flatten src) i =? 0).
  assert (Hlen : Z.of_nat (length (zrange (n * n))) = n * n) by (rewrite zrange_length; nia).
  split.
  - intros Hz. destruct (Z.eq_dec (stoneCount (HexGame.board src)) 0) as [|Hne]; auto.
    exfalso. destruct (stone_somewhere src Hwf Hne) as (r & c & Hr & Hc & Hcell).
    assert (Hin : In (r * n + c) (zrange (n * n))) by (apply in_zrange; now apply flat_range).
    assert (Hf : f (r * n + c) = false).
    { unfold f. apply Z.eqb_neq. unfold n. now rewrite zget_flatten. }
    pose proof (filter_drops f _ _ Hin Hf). lia.
  - intros Hz. rewrite filter_all; [lia|].
    intros i Hi. apply in_zrange in Hi.
    destruct (unflat_range n i Hn Hi) as (Hr & Hc & Heq).
    unfold f. apply Z.eqb_eq. rewrite Heq. unfold n. rewrite zget_flatten by auto.
    now apply no_stones_all_empty.
Qed.

(** X24: the flat game built from a reference game offers exactly the
    moves the reference game accepts: a cell is listed by
    [FastHexGame.getValidMoves] if and only if [HexGame.isValidMove]
    answers [true] for it, including the ban on the centre of an empty 7x7
    board. *)
Theorem X24_flat_game_offers_the_legal_moves (src : HexGame.t) (r c : Z) :
  HexGame.wf src -> moveCountInvariant src ->
  (In (r, c) (FastHexGame.getValidMoves (FastHexGame.create src)) <->
   HexGame.isValidMove src r c = true).
Proof.
  intros Hwf Hcnt. pose proof Hwf as (Hn & _).
  pose proof (filledCount_create src Hwf) as Hfilled.
  unfold moveCountInvariant in Hcnt. rewrite <- Hcnt in Hfilled.
  unfold FastHexGame.getValidMoves. rewrite (board_create src Hwf).
  rewrite flatten_length by lia.
  assert (Hsize : FastHexGame.size (FastHexGame.create src) = HexGame.size src) by reflexivity.
  rewrite Hsize. set (n := HexGame.size src) in *.
  replace (Z.of_nat (Z.to_nat (n * n))) with (n * n) by nia.
  assert (Hfirst : forall i, 0 <= i < n * n ->
            (FastHexGame.isValidFirstMove (FastHexGame.create src) i = true <->
             ~ (n = 7 /\ HexGame.moveCount src = 0 /\ i / n = 3 /\ Z.rem i n = 3))).
  { intros i Hi. unfold FastHexGame.isValidFirstMove. rewrite Hsize. fold n.
    destruct (Z.eqb_spec n 7) as [H7|H7]; cbn [negb]; [|split; [lia | auto]].
    destruct (Z.eqb_spec (FastHexGame.filledCount (FastHexGame.create src)) 0) as [H0|H0];
      cbn [negb].
    - apply Hfilled in H0. rewrite H7. change (7 / 2) with 3.
      rewrite negb_true_iff, andb_false_iff, !Z.eqb_neq. rewrite H7 in *. lia.
    - split; auto. intros _ (_ & Hm & _). apply H0, Hfilled. exact Hm. }
  rewrite in_flat_map. split.
  - intros (i & Hi & Hin). apply in_zrange in Hi.
    destruct (unflat_range n i Hn Hi) as (Hr & Hc & Heq).
    destruct (Z.eqb_spec (zget (FastHexGame.flatten src) i) 0) as [Hz|Hz];
      cbn [andb] in Hin; [|destruct Hin].
    destruct (FastHexGame.isValidFirstMove _ i) eqn:Hv; [|destruct Hin].
    destruct Hin as [Hin|[]]. inversion Hin; subst r c.
    rewrite Heq in Hz. unfold n in Hz. rewrite zget_flatten in Hz by auto.
    apply isValidMove_intro; auto.
    intros (H7 & Hm & H3r & H3c). apply (proj1 (Hfirst i Hi) Hv). auto.
  - intros Hv. apply isValidMove_inv in Hv. destruct Hv as (Hr & Hc & He & Hban).
    assert (Hi : 0 <= r * n + c < n * n) by now apply flat_range.
    exists (r * n + c). split; [now apply in_zrange|].
    unfold n at 1. rewrite zget_flatten by auto. rewrite He. cbn [Z.eqb EMPTY andb].
    replace (FastHexGame.isValidFirstMove (FastHexGame.create src) (r * n + c)) with true.
    + left. rewrite flat_div, flat_rem by lia. reflexivity.
    + symmetry. apply Hfirst; auto. rewrite flat_div, flat_rem by lia. tauto.
Qed.

Lemma X24_flat_game_offers_the_legal_moves_witness :
  In (0, 0) (FastHexGame.getValidMoves (FastHexGame.create lastCellGame)).
Proof.
  apply (proj2 (X24_flat_game_offers_the_legal_moves lastCellGame 0 0
                  (wfb_sound lastCellGame eq_refl) eq_refl)).
  reflexivity.
Defined.

End SameMoves.

(** ** Simulated episodes *)

Section Episodes.
Import HexGame MCTS.

Lemma simulateFrom_spec : forall choices g acc w played,
  simulateFrom choices g acc = Some (w, played) ->
  exists rest, played = acc ++ rest /\
    let g' := playMoves g (map p_move rest) in
    w = winner g' /\ (gameOver g' = true \/ getValidMoves g' = []).
Proof.
  induction choices as [|m choices IH]; intros g acc w played.
  - cbn [simulateFrom]. destruct (gameOver g) eqn:Ho.
    + intros H. inversion H; subst. exists []. rewrite app_nil_r. cbn. auto.
    + destruct (getValidMoves g) eqn:Ev; [|discriminate].
      intros H. inversion H; subst. exists []. rewrite app_nil_r. cbn. auto.
  - cbn [simulateFrom]. destruct (gameOver g) eqn:Ho.
    + intros H. inversion H; subst. exists []. rewrite app_nil_r. cbn. auto.
    + destruct (getValidMoves g) eqn:Ev.
      * intros H. inversion H; subst. exists []. rewrite app_nil_r. cbn. auto.
      * intros H. apply IH in H. destruct H as (rest & -> & Hw & Hend).
        exists (Played m (currentPlayer (snd (makeMove g (fst m) (snd m)))) :: rest).
        rewrite <- app_assoc. split; [reflexivity|]. cbn [map p_move playMoves fold_left].
        split; auto.
Qed.

(** X25: the result of [simulate] describes the position its recorded
    moves lead to: replaying them through [makeMove] from the node's game
    gives a game that is decided or has no empty cell, and the reported
    winner is that game's winner.  When the node's game has its result
    fields in order, a winner reported is the side that moved last and has
    connected its edges there, and no winner is reported exactly when that
    game is undecided. *)
Theorem X25_simulate_reports_the_final_position
    (choices : list (Z * Z)) (n : node) (w : option Z) (played : list playedMove) :
  settled (game n) -> simulate choices n = Some (w, played) ->
  let g' := playMoves (game n) (map p_move played) in
  w = winner g' /\ (gameOver g' = true \/ getValidMoves g' = []) /\
  (forall p, w = Some p -> p = currentPlayer g' /\ checkWin g' p = true) /\
  (w = None <-> gameOver g' = false).
Proof.
  intros Hs Hsim. unfold simulate, copy in Hsim.
  destruct (simulateFrom_spec _ _ _ _ _ Hsim) as (rest & -> & Hw & Hend).
  cbn [app] in *. cbv zeta.
  assert (Hs' : settled (playMoves (game n) (map p_move rest)))
    by (apply playMoves_keeps; [apply settled_makeMove | exact Hs]).
  destruct Hs' as [Hnone Hsome].
  split; auto. split; auto. split.
  - intros p Hp. rewrite Hw in Hp.
    destruct (gameOver (playMoves (game n) (map p_move rest))) eqn:Ho.
    + destruct (Hsome eq_refl) as [Hwin Hc]. rewrite Hwin in Hp. inversion Hp; subst. auto.
    + rewrite (Hnone eq_refl) in Hp. discriminate.
  - rewrite Hw. split.
    + intros Hn. destruct (gameOver _) eqn:Ho; auto.
      destruct (Hsome eq_refl) as [Hwin _]. congruence.
    + apply Hnone.
Qed.

Lemma X25_simulate_reports_the_final_position_witness :
  exists w played,
    simulate [(0, 0)] (Node lastCellGame PLAYER_BLUE None None [] 0 0 0 0 []) = Some (w, played) /\
    w = winner (playMoves lastCellGame (map p_move played)).
Proof.
  assert (Hrun : exists w played,
            simulate [(0, 0)] (Node lastCellGame PLAYER_BLUE None None [] 0 0 0 0 [])
            = Some (w, played)) by (vm_compute; do 2 eexists; reflexivity).
  destruct Hrun as (w & played & Hrun). exists w, played. split; [exact Hrun|].
  destruct (X25_simulate_reports_the_final_position [(0, 0)]
              (Node lastCellGame PLAYER_BLUE None None [] 0 0 0 0 []) w played) as (Hw & _).
  - split; [reflexivity | discriminate].
  - exact Hrun.
  - exact Hw.
Defined.

End Episodes.


(** ** The resistance of a position *)

Section ResistanceFacts.
Import HexGame Resistance.

Lemma neighbors_sym g r c r' c' :
  0 <= r < size g -> 0 <= c < size g ->
  In (r', c') (getNeighbors g r c) -> In (r, c) (getNeighbors g r' c').
Proof.
  intros Hr Hc Hin. apply in_hexNeighbors in Hin.
  destruct Hin as [(d & Hd & Heq) Hb]. inversion Heq; subst r' c'.
  apply in_hexNeighbors. split.
  - exists (- fst d, - snd d). split; [now apply hexOffsets_opp|].
    cbn [fst snd]. f_equal; lia.
  - cbn [fst snd]. apply inBounds_iff. lia.
Qed.

Lemma neighbors_irrefl g r c : ~ In (r, c) (getNeighbors g r c).
Proof.
  intros Hin. apply in_hexNeighbors in Hin. destruct Hin as [(d & Hd & Heq) _].
  inversion Heq. cbn [hexOffsets In] in Hd.
  repeat (destruct Hd as [<-|Hd]; [cbn [fst snd] in *; lia|]). exact Hd.
Qed.

Lemma shaped_setCell n b r c v : shaped n b -> shaped n (setCell b r c v).
Proof.
  intros [Hl Hrows]. split; [now rewrite setCell_length|].
  intros k Hk. rewrite setCell_row_length. auto.
Qed.

Lemma cell_setCell_at n b r c v :
  shaped n b -> 0 <= r < n -> 0 <= c < n -> cell (setCell b r c v) r c = v.
Proof.
  intros [Hl Hrows] Hr Hc. apply cell_setCell_same; [lia|]. rewrite Hrows; lia.
Qed.

Lemma cell_grid {A} n (v d : A) r c :
  0 <= r < n -> 0 <= c < n -> nth (Z.to_nat c) (nth (Z.to_nat r) (grid n v) []) d = v.
Proof.
  intros Hr Hc. unfold grid.
  rewrite (nth_indep _ [] (repeat v (Z.to_nat n))) by (rewrite repeat_length; lia).
  rewrite nth_repeat. rewrite (nth_indep _ d v) by (rewrite repeat_length; lia).
  apply nth_repeat.
Qed.

Lemma shaped_grid n (v : Z) : shaped n (grid n v).
Proof.
  unfold grid. split; [apply repeat_length|]. intros k Hk.
  rewrite (nth_indep _ [] (repeat v (Z.to_nat n))) by (rewrite repeat_length; lia).
  rewrite nth_repeat. apply repeat_length.
Qed.

Lemma in_allCells g r c : In (r, c) (allCells g) <-> inBounds (size g) r c = true.
Proof.
  unfold allCells. rewrite in_prod_iff, !in_zrange, inBounds_iff. tauto.
Qed.

Lemma fold_rows_cols {S} (F : Z -> Z -> S -> S) cs : forall rs st,
  fold_left (fun st r => fold_left (fun st c => F r c st) cs st) rs st =
  fold_left (fun st rc => F (fst rc) (snd rc) st) (list_prod rs cs) st.
Proof.
  induction rs as [|r rs IH]; intros st; cbn [fold_left list_prod]; auto.
  rewrite fold_left_app, IH. f_equal.
  clear IH. generalize st.
  induction cs as [|c cs IHc]; intros st0; cbn [fold_left map fst snd]; auto.
Qed.

Variable g : HexGame.t.
Variable pl : Z.
Hypothesis Hwf : wf g.
Hypothesis Hpl : pl = PLAYER_RED \/ pl = PLAYER_BLUE.

Lemma own_not_other : pl <> other pl.
Proof. destruct Hpl as [-> | ->]; discriminate. Qed.

(** The loop over the neighbours of one cell. *)
Lemma relaxNeighbors_spec r c cr res0 : forall ns st,
  shaped (size g) res0 -> inBounds (size g) r c = true ->
  (forall n, In n ns -> n <> (r, c) /\ inBounds (size g) (fst n) (snd n) = true) ->
  shaped (size g) (fst st) ->
  (forall r' c', inBounds (size g) r' c' = true -> (r', c') <> (r, c) ->
     cell (fst st) r' c' = cell res0 r' c') ->
  let st' := fold_left (fun st n =>
               let newResistance := cell (fst st) (fst n) (snd n) + cr in
               if newResistance <? cell (fst st) r c
               then (setCell (fst st) r c newResistance, true) else st) ns st in
  shaped (size g) (fst st') /\
  (forall r' c', inBounds (size g) r' c' = true -> (r', c') <> (r, c) ->
     cell (fst st') r' c' = cell res0 r' c') /\
  cell (fst st') r c <= cell (fst st) r c /\
  (forall n, In n ns -> cell (fst st') r c <= cell res0 (fst n) (snd n) + cr) /\
  (cell (fst st') r c = cell (fst st) r c \/
   exists n, In n ns /\ cell (fst st') r c = cell res0 (fst n) (snd n) + cr) /\
  (snd st' = false -> snd st = false /\ fst st' = fst st).
Proof.
  intros ns st Hs0 Hrc. revert st.
  apply inBounds_iff in Hrc.
  induction ns as [|n ns IH]; intros st Hns Hs Hsame; cbn [fold_left].
  - cbv zeta. split; auto. split; auto. split; [lia|]. split; [intros n []|]. split; auto.
  - destruct (Hns n (or_introl eq_refl)) as [Hne Hnb].
    assert (Hread : cell (fst st) (fst n) (snd n) = cell res0 (fst n) (snd n)).
    { apply Hsame; auto. destruct n; exact Hne. }
    assert (Hns' : forall m, In m ns -> m <> (r, c) /\ inBounds (size g) (fst m) (snd m) = true)
      by (intros m Hm; apply Hns; now right).
    destruct (Z.ltb_spec (cell (fst st) (fst n) (snd n) + cr) (cell (fst st) r c)) as [Hlt|Hge].
    + set (st1 := (setCell (fst st) r c (cell (fst st) (fst n) (snd n) + cr), true)).
      assert (Hs1 : shaped (size g) (fst st1)) by (apply shaped_setCell; auto).
      assert (Hsame1 : forall r' c', inBounds (size g) r' c' = true -> (r', c') <> (r, c) ->
                cell (fst st1) r' c' = cell res0 r' c').
      { intros r' c' Hb Hne'. cbn [fst st1]. apply inBounds_iff in Hb.
        rewrite cell_setCell_other by (try lia; congruence). apply Hsame; auto.
        now apply inBounds_iff. }
      assert (Hat : cell (fst st1) r c = cell res0 (fst n) (snd n) + cr).
      { cbn [fst st1]. rewrite (cell_setCell_at (size g)) by (auto; lia). now rewrite Hread. }
      destruct (IH st1 Hns' Hs1 Hsame1) as (H1 & H2 & H3 & H4 & H5 & H6).
      cbv zeta in *. split; auto. split; auto. split; [lia|]. split; [|split].
      * intros m [<-|Hm]; [lia | now apply H4].
      * right. destruct H5 as [H5|(m & Hm & H5)].
        -- exists n. split; [now left | congruence].
        -- exists m. split; [now right | exact H5].
      * intros Hf. destruct (H6 Hf) as [Hf1 _]. discriminate.
    + destruct (IH st Hns' Hs Hsame) as (H1 & H2 & H3 & H4 & H5 & H6).
      cbv zeta in *. split; auto. split; auto. split; auto. split; [|split]; auto.
      * intros m [<-|Hm]; [lia | now apply H4].
      * destruct H5 as [H5|(m & Hm & H5)]; auto. right. exists m. split; [now right | exact H5].
Qed.

Lemma zero_stays res res' r c :
  resGood g pl res' -> resBelow g res' res -> inBounds (size g) r c = true ->
  cell res r c = 0 -> cell res' r c = 0.
Proof.
  intros (_ & Hb & _) Hle Hin Hz. specialize (Hb r c Hin). specialize (Hle r c Hin). lia.
Qed.

Lemma resBelow_refl res : resBelow g res res.
Proof. intros r c _. lia. Qed.

Lemma resBelow_trans a b c : resBelow g a b -> resBelow g b c -> resBelow g a c.
Proof. intros H1 H2 r c' Hin. specialize (H1 r c' Hin). specialize (H2 r c' Hin). lia. Qed.

(** One cell relaxed against its neighbours. *)
Lemma relaxCell_spec r c res u :
  resGood g pl res -> inBounds (size g) r c = true ->
  let st' := relaxCell g pl r c (res, u) in
  resGood g pl (fst st') /\ resBelow g (fst st') res /\
  (cell (board g) r c = pl -> forall x, In x (getNeighbors g r c) ->
     cell res (fst x) (snd x) = 0 -> cell (fst st') r c = 0) /\
  (snd st' = false -> u = false /\ fst st' = res).
Proof.
  intros Hgood Hrc. pose proof Hgood as (Hs & Hb & Hz). unfold relaxCell.
  destruct (Z.eqb_spec (cell (board g) r c) (other pl)) as [Hopp|Hopp].
  - cbv zeta. cbn [fst snd]. split; auto. split; [apply resBelow_refl|]. split; auto.
    intros Hown. exfalso. apply own_not_other. congruence.
  - set (cr := if cell (board g) r c =? pl then 0 else 1).
    assert (Hcr : 0 <= cr) by (unfold cr; destruct (_ =? _); lia).
    destruct (relaxNeighbors_spec r c cr res (getNeighbors g r c) (res, u) Hs Hrc)
      as (H1 & H2 & H3 & H4 & H5 & H6); auto.
    { intros n Hn. split; [|eapply in_getNeighbors; eauto].
      intros ->. now apply neighbors_irrefl in Hn. }
    cbv zeta in *. cbn [fst snd] in H3, H5, H6.
    set (st' := fold_left _ (getNeighbors g r c) (res, u)) in *.
    assert (Hrc' : 0 <= r < size g /\ 0 <= c < size g) by now apply inBounds_iff.
    assert (Hcase : forall r' c', (r', c') = (r, c) \/ (r', c') <> (r, c)).
    { intros r' c'. destruct (Z.eq_dec r' r) as [->|]; [|right; congruence].
      destruct (Z.eq_dec c' c) as [->|]; [now left | right; congruence]. }
    split; [split; [|split]|split; [|split]]; auto.
    + intros r' c' Hin. destruct (Hcase r' c') as [Heq|Hne].
      * inversion Heq; subst r' c'. pose proof (Hb r c Hrc) as Hbrc.
        destruct H5 as [H5|(n & Hn & H5)]; [lia|].
        pose proof (Hb (fst n) (snd n) (in_getNeighbors _ _ _ _ Hn)). lia.
      * rewrite H2 by auto. now apply Hb.
    + intros r' c' Hin Hzero. destruct (Hcase r' c') as [Heq|Hne].
      * inversion Heq; subst r' c'.
        destruct H5 as [H5|(n & Hn & H5)]; [apply Hz; auto; lia|].
        pose proof (Hb (fst n) (snd n) (in_getNeighbors _ _ _ _ Hn)) as Hbn.
        assert (Hn0 : cell res (fst n) (snd n) = 0) by lia.
        assert (Hcr0 : cr = 0) by lia.
        destruct (Hz _ _ (in_getNeighbors _ _ _ _ Hn) Hn0) as (s & Hseed & Hreach).
        exists s. split; auto.
        eapply rt_trans; [exact Hreach|]. apply rt_step. split; cbn [fst snd].
        -- destruct n as [nr nc]. cbn [fst snd]. apply (neighbors_sym g r c); auto; lia.
        -- unfold cr in Hcr0. destruct (Z.eqb_spec (cell (board g) r c) pl); [auto | lia].
      * rewrite H2 in Hzero by auto. now apply Hz.
    + intros r' c' Hin. destruct (Hcase r' c') as [Heq|Hne].
      * inversion Heq; subst. exact H3.
      * rewrite H2 by auto. lia.
    + intros Hown x Hx Hx0. specialize (H4 x Hx).
      assert (cr = 0) by (unfold cr; destruct (Z.eqb_spec (cell (board g) r c) pl); [auto | contradiction]).
      pose proof (Hb r c Hrc) as Hbrc.
      assert (0 <= cell (fst st') r c).
      { destruct H5 as [H5|(n & Hn & H5)]; [lia|].
        pose proof (Hb (fst n) (snd n) (in_getNeighbors _ _ _ _ Hn)). lia. }
      lia.
Qed.

(** A run of cells relaxed one after the other. *)
Lemma relaxCells_spec : forall cells st,
  (forall x, In x cells -> inBounds (size g) (fst x) (snd x) = true) ->
  resGood g pl (fst st) ->
  let st' := fold_left (fun st rc => relaxCell g pl (fst rc) (snd rc) st) cells st in
  resGood g pl (fst st') /\ resBelow g (fst st') (fst st) /\
  (forall y, In y cells -> forall x, inBounds (size g) (fst x) (snd x) = true ->
     cell (fst st) (fst x) (snd x) = 0 -> stepP g pl x y ->
     cell (fst st') (fst y) (snd y) = 0) /\
  (snd st' = false -> snd st = false /\ fst st' = fst st).
Proof.
  induction cells as [|y cells IH]; intros [res u] Hcells Hgood; cbn [fold_left fst snd] in *.
  - split; auto. split; [apply resBelow_refl|]. split; auto. intros y [].
  - assert (Hy : inBounds (size g) (fst y) (snd y) = true) by (apply Hcells; now left).
    destruct (relaxCell_spec (fst y) (snd y) res u Hgood Hy) as (Hg1 & Hle1 & Hzero1 & Hflag1).
    cbv zeta in *.
    set (st1 := relaxCell g pl (fst y) (snd y) (res, u)) in *.
    destruct (IH st1 (fun x Hx => Hcells x (or_intror Hx)) Hg1) as (Hg' & Hle' & Hzero' & Hflag').
    cbv zeta in *.
    set (st' := fold_left _ cells st1) in *.
    split; auto. split; [eapply resBelow_trans; eauto|]. split.
    + intros z [<-|Hz] x Hx Hx0 Hstep.
      * apply (zero_stays (fst st1)); auto.
        destruct Hstep as [Hin Hown].
        apply Hzero1 with (x := x); auto.
        apply inBounds_iff in Hx. destruct x as [xr xc], y as [yr yc]. cbn [fst snd] in *.
        apply (neighbors_sym g xr xc); auto; lia.
      * apply Hzero' with (x := x); auto. apply (zero_stays res); auto.
    + intros Hf. destruct (Hflag' Hf) as [Hf1 Heq]. destruct (Hflag1 Hf1) as [Hu Heq1].
      split; auto. congruence.
Qed.

Lemma sweep_spec res :
  resGood g pl res ->
  resGood g pl (fst (sweep g pl res)) /\ resBelow g (fst (sweep g pl res)) res /\
  (forall x y, inBounds (size g) (fst x) (snd x) = true ->
     cell res (fst x) (snd x) = 0 -> stepP g pl x y ->
     cell (fst (sweep g pl res)) (fst y) (snd y) = 0) /\
  (snd (sweep g pl res) = false -> fst (sweep g pl res) = res).
Proof.
  intros Hgood. unfold sweep.
  rewrite (fold_rows_cols (fun r c st => relaxCell g pl r c st)).
  destruct (relaxCells_spec (allCells g) (res, false)) as (H1 & H2 & H3 & H4); auto.
  { intros [r c] Hx. now apply in_allCells. }
  cbv zeta in *. cbn [fst snd] in *. fold (allCells g).
  split; auto. split; auto. split.
  - intros x y Hx Hx0 Hstep. apply H3 with (x := x); auto.
    destruct y as [yr yc]. apply in_allCells. destruct Hstep as [Hin _].
    apply (in_getNeighbors _ _ _ _ Hin).
  - intros Hf. now destruct (H4 Hf).
Qed.

Lemma reach_on_board s t :
  ownSeed g pl s -> reachP g pl s t ->
  inBounds (size g) (fst t) (snd t) = true /\ cell (board g) (fst t) (snd t) = pl.
Proof.
  intros (Hown & Hin & _) Hreach.
  destruct (reachP_end _ _ _ _ Hreach) as [->|H]; auto.
Qed.

(** When the seeds are at 0 and no step leads from a cell at 0 to a cell
    above 0, every cell joined to the starting edge is at 0. *)
Lemma closed_complete res :
  (forall s, ownSeed g pl s -> cell res (fst s) (snd s) = 0) ->
  (forall x y, inBounds (size g) (fst x) (snd x) = true ->
     cell res (fst x) (snd x) = 0 -> stepP g pl x y -> cell res (fst y) (snd y) = 0) ->
  resComplete g pl res.
Proof.
  intros Hseed Hclosed s t Hs Hreach.
  apply clos_rt_rtn1 in Hreach.
  induction Hreach as [|y z Hstep Hreach IH]; [now apply Hseed|].
  apply (Hclosed y z); auto.
  apply clos_rtn1_rt in Hreach. now destruct (reach_on_board s y Hs Hreach).
Qed.

Lemma complete_keeps res res' :
  resComplete g pl res -> resGood g pl res' -> resBelow g res' res -> resComplete g pl res'.
Proof.
  intros Hc Hg Hle s t Hs Hreach.
  destruct (reach_on_board s t Hs Hreach) as [Hin _].
  apply (zero_stays res); auto. now apply (Hc s t).
Qed.

Lemma seeds_keep res res' :
  (forall s, ownSeed g pl s -> cell res (fst s) (snd s) = 0) ->
  resGood g pl res' -> resBelow g res' res ->
  forall s, ownSeed g pl s -> cell res' (fst s) (snd s) = 0.
Proof.
  intros Hseed Hg Hle s Hs. apply (zero_stays res); auto. now destruct Hs as (_ & Hin & _).
Qed.

Lemma filter_mono {A} (f h : A -> bool) l :
  (forall x, In x l -> f x = true -> h x = true) ->
  (length (filter f l) <= length (filter h l))%nat /\
  (length (filter f l) = length (filter h l) -> forall x, In x l -> h x = true -> f x = true).
Proof.
  induction l as [|a l IH]; intros Hsub; cbn [filter]; [split; auto; intros _ x []|].
  destruct (IH (fun x Hx => Hsub x (or_intror Hx))) as [Hle Heq].
  pose proof (Hsub a (or_introl eq_refl)) as Ha.
  destruct (f a) eqn:Hfa.
  - rewrite (Ha eq_refl). cbn [length]. split; [lia|].
    intros Hlen x [<-|Hx] Hh; [exact Hfa | apply Heq; auto; lia].
  - destruct (h a) eqn:Hha; cbn [length].
    + split; [lia|]. intros Hlen. lia.
    + split; auto. intros Hlen x [<-|Hx] Hh; [congruence | apply Heq; auto].
Qed.

Lemma filter_full {A} (f : A -> bool) l :
  (length l <= length (filter f l))%nat -> forall x, In x l -> f x = true.
Proof.
  intros Hlen x Hx. destruct (f x) eqn:Hf; auto.
  pose proof (filter_drops f l x Hx Hf). lia.
Qed.

Lemma length_allCells : length (allCells g) = Z.to_nat (size g * size g).
Proof.
  unfold allCells. rewrite length_prod, zrange_length.
  destruct Hwf as (Hn & _). rewrite Z2Nat.inj_mul by lia. reflexivity.
Qed.

Lemma zeroCount_mono res res' :
  resGood g pl res' -> resBelow g res' res ->
  (zeroCount g res <= zeroCount g res')%nat /\
  (zeroCount g res = zeroCount g res' ->
   forall r c, inBounds (size g) r c = true -> cell res' r c = 0 -> cell res r c = 0).
Proof.
  intros Hg Hle. unfold zeroCount.
  destruct (filter_mono (fun x => cell res (fst x) (snd x) =? 0)
                        (fun x => cell res' (fst x) (snd x) =? 0) (allCells g)) as [H1 H2].
  - intros [r c] Hx Hz. apply in_allCells in Hx. cbn [fst snd] in *.
    apply Z.eqb_eq. apply Z.eqb_eq in Hz. now apply (zero_stays res).
  - split; auto. intros Heq r c Hin Hz.
    apply Z.eqb_eq. apply (H2 Heq (r, c)); [now apply in_allCells|]. now apply Z.eqb_eq.
Qed.

(** The relaxation loop: either every cell joined to the starting edge has
    reached 0, or each iteration has brought at least one more cell to 0. *)
Lemma relaxLoop_spec : forall k res,
  resGood g pl res ->
  (forall s, ownSeed g pl s -> cell res (fst s) (snd s) = 0) ->
  resGood g pl (relaxLoop k g pl res) /\ resBelow g (relaxLoop k g pl res) res /\
  (resComplete g pl (relaxLoop k g pl res) \/
   (zeroCount g res + k <= zeroCount g (relaxLoop k g pl res))%nat).
Proof.
  induction k as [|k IH]; intros res Hgood Hseed; cbn [relaxLoop].
  - split; auto. split; [apply resBelow_refl|]. right. lia.
  - destruct (sweep_spec res Hgood) as (Hg1 & Hle1 & Hstep1 & Hflag1).
    destruct (snd (sweep g pl res)).
    + set (res1 := fst (sweep g pl res)) in *.
      assert (Hseed1 : forall s, ownSeed g pl s -> cell res1 (fst s) (snd s) = 0)
        by (eapply seeds_keep; eauto).
      destruct (IH res1 Hg1 Hseed1) as (Hg' & Hle' & Hres).
      assert (Hle : resBelow g (relaxLoop k g pl res1) res)
        by (eapply resBelow_trans; eauto).
      split; auto. split; auto.
      destruct Hres as [Hc|Hcount]; [now left|].
      destruct (zeroCount_mono res res1 Hg1 Hle1) as [Hmono Hsame].
      destruct (Nat.eq_dec (zeroCount g res) (zeroCount g res1)) as [Heq|Hne].
      * left. apply (complete_keeps res); auto.
        apply closed_complete; auto.
        intros x y Hx Hx0 Hstep.
        apply Hsame; auto.
        -- destruct Hstep as [Hin _]. apply (in_getNeighbors _ _ _ _ Hin).
        -- now apply (Hstep1 x y).
      * right. lia.
    + rewrite (Hflag1 eq_refl) in *. split; auto. split; [apply resBelow_refl|].
      left. apply closed_complete; auto.
Qed.

Lemma relaxLoop_complete res :
  resGood g pl res ->
  (forall s, ownSeed g pl s -> cell res (fst s) (snd s) = 0) ->
  resGood g pl (relaxLoop (Z.to_nat (size g * size g)) g pl res) /\
  resComplete g pl (relaxLoop (Z.to_nat (size g * size g)) g pl res).
Proof.
  intros Hgood Hseed.
  destruct (relaxLoop_spec (Z.to_nat (size g * size g)) res Hgood Hseed) as (Hg & _ & Hres).
  split; auto. destruct Hres as [Hc|Hcount]; auto.
  intros s t Hs Hreach. destruct (reach_on_board s t Hs Hreach) as [Hin _].
  assert (Hfull : (length (allCells g) <= zeroCount g (relaxLoop (Z.to_nat (size g * size g)) g pl res))%nat)
    by (rewrite length_allCells; lia).
  pose proof (filter_full _ _ Hfull (fst t, snd t)) as Hz. cbn [fst snd] in Hz.
  apply Z.eqb_eq, Hz. now apply in_allCells.
Qed.

(** The seeding loop over the starting edge. *)
Lemma seedEdge_fold : forall edge res,
  (forall x, In x edge -> inBounds (size g) (fst x) (snd x) = true /\
                          (if pl =? PLAYER_RED then fst x = 0 else snd x = 0)) ->
  shaped (size g) res ->
  (forall r c, inBounds (size g) r c = true -> 0 <= cell res r c <= INF) ->
  (forall r c, inBounds (size g) r c = true -> cell res r c = 0 -> ownSeed g pl (r, c)) ->
  let res' := fold_left (fun res rc =>
                 let v := cell (board g) (fst rc) (snd rc) in
                 if (v =? EMPTY) || (v =? pl)
                 then setCell res (fst rc) (snd rc) (if v =? pl then 0 else 1)
                 else res) edge res in
  shaped (size g) res' /\
  (forall r c, inBounds (size g) r c = true -> 0 <= cell res' r c <= INF) /\
  (forall r c, inBounds (size g) r c = true -> cell res' r c = 0 -> ownSeed g pl (r, c)) /\
  (forall r c, inBounds (size g) r c = true -> cell res r c = 0 -> cell res' r c = 0) /\
  (forall x, In x edge -> cell (board g) (fst x) (snd x) = pl -> cell res' (fst x) (snd x) = 0).
Proof.
  induction edge as [|[er ec] edge IH]; intros res Hedge Hs Hb Hz; cbn [fold_left].
  - cbv zeta. split; auto. split; auto. split; auto. split; auto. intros x [].
  - destruct (Hedge (er, ec) (or_introl eq_refl)) as [Hin Hstart]. cbn [fst snd] in *.
    assert (Hrc : 0 <= er < size g /\ 0 <= ec < size g) by now apply inBounds_iff.
    set (v := cell (board g) er ec).
    set (w := if v =? pl then 0 else 1).
    assert (Hcase : forall r' c', (r', c') = (er, ec) \/ (r', c') <> (er, ec)).
    { intros r' c'. destruct (Z.eq_dec r' er) as [->|]; [|right; congruence].
      destruct (Z.eq_dec c' ec) as [->|]; [now left | right; congruence]. }
    assert (Hother : forall r' c', inBounds (size g) r' c' = true -> (r', c') <> (er, ec) ->
              cell (setCell res er ec w) r' c' = cell res r' c').
    { intros r' c' Hin' Hne. apply inBounds_iff in Hin'.
      apply cell_setCell_other; try lia. congruence. }
    assert (Hat : cell (setCell res er ec w) er ec = w)
      by (apply (cell_setCell_at (size g)); auto; lia).
    assert (Hw : 0 <= w <= INF) by (unfold w, INF; destruct (v =? pl); lia).
    destruct ((v =? EMPTY) || (v =? pl)) eqn:Hv.
    + destruct (IH (setCell res er ec w)) as (H1 & H2 & H3 & H4 & H5); cbv zeta in *.
      * intros x Hx. apply Hedge. now right.
      * now apply shaped_setCell.
      * intros r' c' Hin'. destruct (Hcase r' c') as [Heq|Hne].
        -- inversion Heq; subst. now rewrite Hat.
        -- rewrite Hother; auto.
      * intros r' c' Hin' Hzero. destruct (Hcase r' c') as [Heq|Hne].
        -- inversion Heq; subst. rewrite Hat in Hzero.
           unfold w in Hzero. destruct (Z.eqb_spec v pl) as [Hvp|]; [|lia].
           split; [exact Hvp|]. split; auto.
        -- rewrite Hother in Hzero; auto.
      * split; auto. split; auto. split; auto. split.
        -- intros r' c' Hin' Hzero. apply H4; auto.
           destruct (Hcase r' c') as [Heq|Hne]; [|rewrite Hother; auto].
           inversion Heq; subst. rewrite Hat.
           destruct (Hz er ec Hin Hzero) as (Hown & _). cbn [fst snd] in Hown.
           unfold w, v. rewrite Hown, Z.eqb_refl. reflexivity.
        -- intros x [<-|Hx] Hown; [|now apply H5].
           cbn [fst snd] in *. apply H4; auto. rewrite Hat.
           unfold w, v. rewrite Hown, Z.eqb_refl. reflexivity.
    + destruct (IH res) as (H1 & H2 & H3 & H4 & H5); cbv zeta in *; auto.
      * intros x Hx. apply Hedge. now right.
      * split; auto. split; auto. split; auto. split; auto.
        intros x [<-|Hx] Hown; [|now apply H5].
        cbn [fst snd] in *. exfalso. apply orb_false_iff in Hv. destruct Hv as [_ Hv].
        apply Z.eqb_neq in Hv. apply Hv. exact Hown.
Qed.

Lemma seed_good edge :
  (forall x, In x edge -> inBounds (size g) (fst x) (snd x) = true /\
                          (if pl =? PLAYER_RED then fst x = 0 else snd x = 0)) ->
  (forall s, ownSeed g pl s -> In s edge) ->
  resGood g pl (seedEdge g pl edge) /\
  (forall s, ownSeed g pl s -> cell (seedEdge g pl edge) (fst s) (snd s) = 0).
Proof.
  intros Hedge Hall. unfold seedEdge.
  assert (Hgrid : forall r c, inBounds (size g) r c = true -> cell (grid (size g) INF) r c = INF).
  { intros r c Hin. apply inBounds_iff in Hin. unfold cell. apply cell_grid; lia. }
  destruct (seedEdge_fold edge (grid (size g) INF) Hedge) as (H1 & H2 & H3 & _ & H5).
  - apply shaped_grid.
  - intros r c Hin. rewrite Hgrid by auto. unfold INF. lia.
  - intros r c Hin Hz. rewrite Hgrid in Hz by auto. discriminate.
  - cbv zeta in *. split; [split; [|split]|]; auto.
    + intros r c Hin Hz. exists (r, c). split; [now apply H3 | apply rt_refl].
    + intros s Hs. apply H5; [now apply Hall | now destruct Hs].
Qed.

Lemma fold_min_spec {A} (f : A -> Z) : forall l m0,
  (forall x, In x l -> 0 <= f x) -> 0 <= m0 ->
  0 <= fold_left (fun m x => Z.min m (f x)) l m0 <= m0 /\
  (fold_left (fun m x => Z.min m (f x)) l m0 = 0 <-> m0 = 0 \/ exists x, In x l /\ f x = 0).
Proof.
  induction l as [|a l IH]; intros m0 Hf Hm; cbn [fold_left].
  - split; [lia|]. split; auto. intros [H|(x & [] & _)]; auto.
  - pose proof (Hf a (or_introl eq_refl)) as Ha.
    destruct (IH (Z.min m0 (f a)) (fun x Hx => Hf x (or_intror Hx)) ltac:(lia)) as [Hb Hiff].
    split; [lia|]. rewrite Hiff. split.
    + intros [Hmin|(x & Hx & Hx0)].
      * destruct (Z.eq_dec m0 0); [now left|]. right. exists a. split; [now left | lia].
      * right. exists x. split; [now right | exact Hx0].
    + intros [->|(x & [<-|Hx] & Hx0)].
      * left. lia.
      * left. lia.
      * right. exists x. auto.
Qed.

Lemma resistance_spec :
  (calculateResistance g pl = 0 <-> chained g pl (ownSeed g pl) (farGoal g pl)) /\
  0 <= calculateResistance g pl <= INF.
Proof.
  pose proof Hwf as (Hn & _).
  set (edge := if pl =? PLAYER_RED then map (fun col => (0, col)) (zrange (size g))
               else map (fun row => (row, 0)) (zrange (size g))).
  assert (Hedge : forall x, In x edge -> inBounds (size g) (fst x) (snd x) = true /\
                            (if pl =? PLAYER_RED then fst x = 0 else snd x = 0)).
  { intros x Hx. unfold edge in Hx. destruct (pl =? PLAYER_RED);
      apply in_map_iff in Hx; destruct Hx as (k & <- & Hk); apply in_zrange in Hk;
      cbn [fst snd]; (split; [apply inBounds_iff; lia | reflexivity]). }
  assert (Hall : forall s, ownSeed g pl s -> In s edge).
  { intros [r c] (_ & Hin & Hstart). apply inBounds_iff in Hin. cbn [fst snd] in *.
    unfold edge. destruct (pl =? PLAYER_RED); subst; apply in_map_iff.
    - exists c. split; auto. apply in_zrange. lia.
    - exists r. split; auto. apply in_zrange. lia. }
  destruct (seed_good edge Hedge Hall) as [Hg0 Hseed0].
  destruct (relaxLoop_complete _ Hg0 Hseed0) as [Hg Hc].
  assert (Hres0 : (if pl =? PLAYER_RED
                   then seedEdge g pl (map (fun col => (0, col)) (zrange (size g)))
                   else seedEdge g pl (map (fun row => (row, 0)) (zrange (size g))))
                  = seedEdge g pl edge) by (unfold edge; destruct (pl =? PLAYER_RED); reflexivity).
  unfold calculateResistance. rewrite Hres0.
  set (res := relaxLoop (Z.to_nat (size g * size g)) g pl (seedEdge g pl edge)) in *.
  pose proof Hg as (_ & Hb & Hz).
  assert (Hfar : forall t, inBounds (size g) (fst t) (snd t) = true ->
            farGoal g pl (fst t) (snd t) = true -> cell res (fst t) (snd t) = 0 ->
            chained g pl (ownSeed g pl) (farGoal g pl)).
  { intros [r c] Hin Hgoal Hzero. cbn [fst snd] in *.
    destruct (Hz r c Hin Hzero) as (s & Hs & Hreach). exists s, (r, c). auto. }
  assert (Hback : chained g pl (ownSeed g pl) (farGoal g pl) ->
            exists t, inBounds (size g) (fst t) (snd t) = true /\
                      farGoal g pl (fst t) (snd t) = true /\ cell res (fst t) (snd t) = 0).
  { intros (s & t & Hs & Hreach & Hgoal). exists t.
    destruct (reach_on_board s t Hs Hreach) as [Hin _]. split; auto. split; auto.
    now apply (Hc s t). }
  unfold farGoal in *.
  destruct (pl =? PLAYER_RED) eqn:Hred.
  - destruct (fold_min_spec (fun col => cell res (size g - 1) col) (zrange (size g)) INF)
      as [Hrange Hiff].
    { intros col Hcol. apply in_zrange in Hcol. apply Hb. apply inBounds_iff. lia. }
    { unfold INF. lia. }
    split; auto. rewrite Hiff. split.
    + intros [HI|(col & Hcol & Hzero)]; [discriminate|]. apply in_zrange in Hcol.
      apply (Hfar (size g - 1, col)); cbn [fst snd]; auto.
      * apply inBounds_iff. lia.
      * apply Z.eqb_refl.
    + intros Hch. destruct (Hback Hch) as ([r c] & Hin & Hgoal & Hzero). cbn [fst snd] in *.
      apply Z.eqb_eq in Hgoal. subst r. apply inBounds_iff in Hin.
      right. exists c. split; auto. apply in_zrange. lia.
  - destruct (fold_min_spec (fun row => cell res row (size g - 1)) (zrange (size g)) INF)
      as [Hrange Hiff].
    { intros row Hrow. apply in_zrange in Hrow. apply Hb. apply inBounds_iff. lia. }
    { unfold INF. lia. }
    split; auto. rewrite Hiff. split.
    + intros [HI|(row & Hrow & Hzero)]; [discriminate|]. apply in_zrange in Hrow.
      apply (Hfar (row, size g - 1)); cbn [fst snd]; auto.
      * apply inBounds_iff. lia.
      * apply Z.eqb_refl.
    + intros Hch. destruct (Hback Hch) as ([r c] & Hin & Hgoal & Hzero). cbn [fst snd] in *.
      apply Z.eqb_eq in Hgoal. subst c. apply inBounds_iff in Hin.
      right. exists r. split; auto. apply in_zrange. lia.
Qed.

End ResistanceFacts.

(** X26: the resistance [HexEvaluator.calculateResistance] computes for a
    side is a number between 0 and 1000000, and it is 0 exactly when that
    side has already connected its two edges, that is, exactly when
    [checkWin] answers [true] for it: the relaxation has always converged
    on the cells at 0 when its [size * size] iterations are used up. *)
Theorem X26_resistance_zero_iff_connected (g : HexGame.t) (pl : Z) :
  HexGame.wf g -> pl = PLAYER_RED \/ pl = PLAYER_BLUE ->
  (Resistance.calculateResistance g pl = 0 <-> HexGame.checkWin g pl = true) /\
  0 <= Resistance.calculateResistance g pl <= Resistance.INF.
Proof.
  intros Hwf Hpl. destruct (resistance_spec g pl Hwf Hpl) as [Hiff Hrange].
  split; auto. rewrite Hiff. symmetry. apply (checkWin_chained g pl Hwf Hpl).
Qed.

Lemma X26_resistance_zero_iff_connected_witness :
  Resistance.calculateResistance blueWonGame PLAYER_BLUE = 0 /\
  HexGame.checkWin blueWonGame PLAYER_BLUE = true.
Proof.
  destruct (X26_resistance_zero_iff_connected blueWonGame PLAYER_BLUE) as [Hiff _].
  - apply wfb_sound. reflexivity.
  - now right.
  - split; [vm_compute; reflexivity | apply Hiff; vm_compute; reflexivity].
Defined.


(** ** The flat game follows the reference game *)

Section Mirror.

(** Writing a cell of the grid is writing its index on the flat board. *)
Lemma flatten_setCell g g1 r c v :
  HexGame.wf g -> 0 <= r < HexGame.size g -> 0 <= c < HexGame.size g ->
  HexGame.size g1 = HexGame.size g ->
  HexGame.board g1 = HexGame.setCell (HexGame.board g) r c v ->
  FastHexGame.flatten g1 = zset (FastHexGame.flatten g) (r * HexGame.size g + c) v.
Proof.
  intros Hwf Hr Hc Hs Hb. pose proof Hwf as (Hn & Hlen & Hrows & _).
  assert (Hl : length (FastHexGame.flatten g) = Z.to_nat (HexGame.size g * HexGame.size g))
    by (apply flatten_length; lia).
  assert (Hl1 : length (FastHexGame.flatten g1) = Z.to_nat (HexGame.size g * HexGame.size g))
    by (rewrite flatten_length, Hs by lia; reflexivity).
  assert (Hread : forall h i, HexGame.size h = HexGame.size g ->
            0 <= i < HexGame.size g * HexGame.size g ->
            zget (FastHexGame.flatten h) i =
            HexGame.cell (HexGame.board h) (i / HexGame.size g) (Z.rem i (HexGame.size g))).
  { intros h i Hh Hi. destruct (unflat_range _ i Hn Hi) as (Hr' & Hc' & Heq).
    pose proof (zget_flatten h (i / HexGame.size g) (Z.rem i (HexGame.size g))) as H.
    rewrite Hh in H. rewrite <- Heq in H. apply H; auto. }
  apply nth_ext with (d := 0) (d' := 0); [now rewrite zset_length, Hl1, Hl|].
  intros k Hk. rewrite Hl1 in Hk.
  assert (Hi : 0 <= Z.of_nat k < HexGame.size g * HexGame.size g) by nia.
  pose proof (Hread g1 _ Hs Hi) as H1. pose proof (Hread g _ eq_refl Hi) as H0.
  destruct (unflat_range _ _ Hn Hi) as (Hr' & Hc' & Heq).
  unfold zget in H1, H0. rewrite Nat2Z.id in H1, H0. rewrite H1, Hb.
  set (i := Z.of_nat k) in *.
  assert (Hgoal : zget (zset (FastHexGame.flatten g) (r * HexGame.size g + c) v) i =
                  HexGame.cell (HexGame.setCell (HexGame.board g) r c v)
                               (i / HexGame.size g) (Z.rem i (HexGame.size g))).
  { destruct (Z.eq_dec (i / HexGame.size g) r) as [Er|Er];
      [destruct (Z.eq_dec (Z.rem i (HexGame.size g)) c) as [Ec|Ec]|].
    - rewrite Er, Ec. rewrite cell_setCell_same;
        [| lia | rewrite Hrows; [lia | apply nth_In; lia]].
      replace i with (r * HexGame.size g + c) by (rewrite Heq, Er, Ec; reflexivity).
      apply zget_zset_same. rewrite Hl. nia.
    - rewrite cell_setCell_other by (try lia; congruence).
      rewrite zget_zset_other by (try nia; rewrite Heq, Er; lia).
      unfold zget. unfold i. rewrite Nat2Z.id. exact H0.
    - rewrite cell_setCell_other by (try lia; congruence).
      rewrite zget_zset_other; [| nia | lia |].
      + unfold zget. unfold i. rewrite Nat2Z.id. exact H0.
      + intros E. apply Er. rewrite <- E. rewrite flat_div; auto. }
  rewrite <- Hgoal. unfold zget, i. now rewrite Nat2Z.id.
Qed.

(** X27: the flat game follows the reference game move by move.  When a
    flat game shows the grid of a reference game, with the same side to
    move and its tracker in step, and [HexGame.makeMove] accepts a move,
    then after [FastHexGame.makeMove] with the same cell the flat board is
    again the reference grid and the tracker is in step with it; the
    reference game is over exactly when the tracker's [checkWin] finds the
    mover connected, and while the game goes on the same side is to move in
    both. *)
Theorem X27_flat_game_follows_makeMove
    (g g' : HexGame.t) (fg : FastHexGame.t) (r c : Z) :
  sameGrid g fg -> inStep fg ->
  HexGame.currentPlayer g = FastHexGame.currentPlayer fg ->
  HexGame.makeMove g r c = (true, g') ->
  sameGrid g' (FastHexGame.makeMove fg r c) /\
  inStep (FastHexGame.makeMove fg r c) /\
  (HexGame.gameOver g' = true <->
   fst (FastHexGame.checkWin (FastHexGame.makeMove fg r c) (HexGame.currentPlayer g)) = true) /\
  (HexGame.gameOver g' = false ->
   HexGame.currentPlayer g' = FastHexGame.currentPlayer (FastHexGame.makeMove fg r c)).
Proof.
  intros (Hwf & Hsize & Hflat) Hin Hcur Hmove.
  destruct (makeMove_cases g r c) as [Hrej | (Hv & Ho & _)]; [congruence|].
  destruct (isValidMove_inv g r c Hv) as (Hr & Hc & He & _).
  assert (Hside : HexGame.currentPlayer g = 1 \/ HexGame.currentPlayer g = 2)
    by (rewrite Hcur; apply Hin).
  set (g1 := HexGame.Make (HexGame.size g)
               (HexGame.setCell (HexGame.board g) r c (HexGame.currentPlayer g))
               (HexGame.currentPlayer g) (HexGame.moveCount g + 1) false
               (HexGame.winner g)
               (if HexGame.moveCount g + 1 =? 1 then true else HexGame.swapAvailable g)
               (HexGame.history g ++ [HexGame.MoveEntry r c (HexGame.currentPlayer g)])).
  assert (Hshape : HexGame.size g' = HexGame.size g /\
                   HexGame.board g' = HexGame.board g1 /\
                   HexGame.gameOver g' = HexGame.checkWin g1 (HexGame.currentPlayer g) /\
                   (HexGame.gameOver g' = false ->
                    HexGame.currentPlayer g' = other (HexGame.currentPlayer g))).
  { unfold HexGame.makeMove in Hmove. rewrite Hv, Ho in Hmove. cbn [negb orb] in Hmove.
    cbv zeta in Hmove. fold g1 in Hmove.
    destruct (HexGame.checkWin g1 (HexGame.currentPlayer g));
      cbv iota in Hmove; injection Hmove as <-; cbn; repeat split; auto; discriminate. }
  destruct Hshape as (Hs' & Hb' & Hover & Hturn).
  assert (Hwf' : HexGame.wf g').
  { pose proof (wf_setCell g r c (HexGame.currentPlayer g) (HexGame.currentPlayer g')
                  (HexGame.moveCount g') (HexGame.gameOver g') (HexGame.winner g')
                  (HexGame.swapAvailable g') (HexGame.history g') Hwf ltac:(lia) ltac:(lia)
                  Hside) as H.
    destruct g'. cbn in *. subst. exact H. }
  assert (Hempty : zget (FastHexGame.board fg) (r * FastHexGame.size fg + c) = 0).
  { rewrite <- Hflat, <- Hsize, zget_flatten by auto. exact He. }
  assert (Hin' : inStep (FastHexGame.makeMove fg r c))
    by (apply makeMove_inStep; auto; rewrite <- Hsize; auto).
  assert (Hflat' : FastHexGame.flatten g' = FastHexGame.board (FastHexGame.makeMove fg r c)).
  { rewrite (flatten_setCell g g' r c (HexGame.currentPlayer g)); auto.
    unfold FastHexGame.makeMove, FastHexGame.place. cbn [FastHexGame.board].
    rewrite Hflat, Hsize, <- Hcur. rewrite toInt8_small by lia. reflexivity. }
  assert (Hsz' : HexGame.size g' = FastHexGame.size (FastHexGame.makeMove fg r c))
    by (rewrite makeMove_size; congruence).
  split; [split; [|split]; auto|]. split; auto. split.
  - rewrite Hover.
    rewrite <- (checkWin_fields g1 g' (HexGame.currentPlayer g)) by auto.
    destruct (checkWin_linked _ (HexGame.currentPlayer g) Hin' Hside) as (Hfast & _).
    rewrite Hfast, <- Hsz'.
    rewrite <- (chained_linked g' _ (HexGame.currentPlayer g) Hwf' Hflat' Hside).
    apply (checkWin_chained g' (HexGame.currentPlayer g) Hwf' Hside).
  - intros Hgo. rewrite (Hturn Hgo).
    unfold FastHexGame.makeMove, FastHexGame.place. cbn [FastHexGame.currentPlayer].
    rewrite <- Hcur. reflexivity.
Qed.

Lemma X27_flat_game_follows_makeMove_witness :
  sameGrid (snd (HexGame.makeMove (HexGame.create 2) 0 0))
           (FastHexGame.makeMove (FastHexGame.create (HexGame.create 2)) 0 0) /\
  inStep (FastHexGame.makeMove (FastHexGame.create (HexGame.create 2)) 0 0).
Proof.
  destruct (create_inStep (HexGame.create 2)) as (Hin & Hs & Hb);
    [apply wfb_sound; reflexivity | vm_compute; discriminate | now left |].
  destruct (X27_flat_game_follows_makeMove (HexGame.create 2)
              (snd (HexGame.makeMove (HexGame.create 2) 0 0))
              (FastHexGame.create (HexGame.create 2)) 0 0) as (H1 & H2 & _).
  - split; [apply wfb_sound; reflexivity|]. split; [reflexivity | symmetry; exact Hb].
  - exact Hin.
  - reflexivity.
  - reflexivity.
  - split; assumption.
Defined.

End Mirror.


(** ** The swap after the first move *)

Section SwapOffer.
Import HexGame.

Lemma cell_create n r c : cell (board (create n)) r c = EMPTY.
Proof.
  unfold cell, create, grid. cbn [board].
  destruct (Nat.lt_ge_cases (Z.to_nat r) (Z.to_nat n)) as [Hr|Hr].
  - rewrite (nth_indep _ [] (repeat EMPTY (Z.to_nat n))) by (rewrite repeat_length; lia).
    rewrite nth_repeat.
    destruct (Nat.lt_ge_cases (Z.to_nat c) (Z.to_nat n)) as [Hc|Hc].
    + rewrite (nth_indep _ 0 EMPTY) by (rewrite repeat_length; lia). apply nth_repeat.
    + rewrite nth_overflow by (rewrite repeat_length; lia). reflexivity.
  - rewrite (nth_overflow (repeat _ _)) by (rewrite repeat_length; lia).
    destruct (Z.to_nat c); reflexivity.
Qed.

(** C3: the swap is refused after the first move.  On a board of two or
    more rows, after one accepted [makeMove] on a new game (one stone on
    the board, one entry in the move log, no swap made), [swapAvailable] is
    already [false] again and [swapSides] answers [false] and changes
    nothing: [makeMove] sets the flag when the move count reaches 1 and
    clears it a few lines further down, before it returns. *)
Theorem C3_swap_refused_after_first_move (n r c : Z) :
  2 <= n -> isValidMove (create n) r c = true ->
  fst (makeMove (create n) r c) = true /\
  moveCount (snd (makeMove (create n) r c)) = 1 /\
  length (history (snd (makeMove (create n) r c))) = 1%nat /\
  gameOver (snd (makeMove (create n) r c)) = false /\
  swapAvailable (snd (makeMove (create n) r c)) = false /\
  swapSides (snd (makeMove (create n) r c)) = (false, snd (makeMove (create n) r c)).
Proof.
  intros Hn Hv. destruct (isValidMove_inv _ _ _ Hv) as (Hr & Hc & _ & _).
  cbn [size create] in Hr, Hc.
  assert (Hwf : wf (create n)) by (apply consistent_create; lia).
  set (g1 := Make n (setCell (board (create n)) r c PLAYER_RED) PLAYER_RED 1 false None true
                  [MoveEntry r c PLAYER_RED]).
  assert (Hno : checkWin g1 PLAYER_RED = false).
  { apply (lone_stone_no_win g1 PLAYER_RED (r, c)); auto.
    - apply (wf_setCell (create n)); auto; lia.
    - intros r' c' Hr' Hc' Hne. unfold g1. cbn [board size] in *.
      rewrite cell_setCell_other by (try lia; congruence). apply cell_create. }
  assert (Hmove : makeMove (create n) r c =
                  (true, Make n (setCell (board (create n)) r c PLAYER_RED) PLAYER_BLUE 1
                              false None false [MoveEntry r c PLAYER_RED])).
  { unfold makeMove. rewrite Hv. cbn [negb orb gameOver create].
    match goal with |- context [checkWin ?x ?p] =>
      change (checkWin x p) with (checkWin g1 PLAYER_RED) end.
    rewrite Hno. reflexivity. }
  rewrite Hmove. cbn [fst snd moveCount history length gameOver swapAvailable].
  repeat split.
Qed.

Lemma C3_swap_refused_after_first_move_witness :
  moveCount (snd (makeMove (create 7) 0 0)) = 1 /\
  swapSides (snd (makeMove (create 7) 0 0)) = (false, snd (makeMove (create 7) 0 0)).
Proof.
  destruct (C3_swap_refused_after_first_move 7 0 0) as (_ & H1 & _ & _ & _ & H2);
    [lia | reflexivity |].
  split; assumption.
Defined.

End SwapOffer.

(** ** The evaluator's numbers and the playout policy *)

Section EvaluatorNumbers.
Import HexGame.

Lemma kadd_finite_l k : kadd KFinite k = k.
Proof. destruct k; reflexivity. Qed.

Lemma kadd_finite_r k : kadd k KFinite = k.
Proof. destruct k; reflexivity. Qed.

Lemma quotientKind_nonzero a b : b <> 0 -> quotientKind a b = KFinite.
Proof. intros Hb. unfold quotientKind. destruct (Z.eqb_spec b 0); [contradiction | reflexivity]. Qed.

Lemma evaluatePosition_is_centerControl g player :
  0 < size g ->
  EvaluatorKind.evaluatePosition g player = EvaluatorKind.evaluateCenterControl g player.
Proof.
  intros Hn. unfold EvaluatorKind.evaluatePosition, EvaluatorKind.evaluateEdgeConnection,
    EvaluatorKind.countVirtualConnections.
  rewrite !quotientKind_nonzero by nia. now rewrite !kadd_finite_r, kadd_finite_l.
Qed.

Lemma centerControl2_small g player :
  0 < size g <= 3 ->
  EvaluatorKind.centerControl2 g player =
  if cell (board g) (size g / 2) (size g / 2) =? player then 2
  else if negb (cell (board g) (size g / 2) (size g / 2) =? EMPTY) then -1 else 0.
Proof.
  intros Hn. unfold EvaluatorKind.centerControl2.
  assert (Hr : size g / 4 = 0) by (apply Z.div_small; lia).
  rewrite Hr, Z.sub_0_r, Z.add_0_r. unfold EvaluatorKind.fromTo.
  replace (size g / 2 - size g / 2 + 1) with 1 by lia.
  change (zrange 1) with [0]. cbn [map fold_left]. rewrite Z.add_0_r.
  assert (Hc : 0 <= size g / 2 < size g).
  { split; [apply Z.div_pos; lia | apply Z.div_lt_upper_bound; lia]. }
  replace ((size g / 2 >=? 0) && (size g / 2 <? size g) && (size g / 2 >=? 0)
           && (size g / 2 <? size g)) with true.
  - destruct (_ =? player); [reflexivity|]. destruct (negb _); reflexivity.
  - symmetry. rewrite !andb_true_iff, Z.geb_leb, Z.leb_le, Z.ltb_lt. lia.
Qed.

(** X28: where the evaluator leaves the finite numbers.  On a board of
    four or more rows [HexEvaluator.evaluatePosition] is finite.  On a board
    of one, two or three rows [evaluateCenterControl] divides by
    [radius * radius * 4 = 0] and the result is never finite: +Infinity when
    the centre cell holds the player's stone, -Infinity when it holds
    another stone, NaN when it is empty. *)
Theorem X28_evaluator_finite_from_four_rows (g : t) (player : Z) :
  0 < size g ->
  (3 < size g -> EvaluatorKind.evaluatePosition g player = KFinite) /\
  (size g <= 3 ->
   EvaluatorKind.evaluatePosition g player =
   if cell (board g) (size g / 2) (size g / 2) =? player then KPosInf
   else if cell (board g) (size g / 2) (size g / 2) =? EMPTY then KNaN else KNegInf).
Proof.
  intros Hn. rewrite evaluatePosition_is_centerControl by auto.
  unfold EvaluatorKind.evaluateCenterControl. split.
  - intros H4. apply quotientKind_nonzero.
    assert (1 <= size g / 4) by (apply Z.div_le_lower_bound; lia). nia.
  - intros H3. rewrite centerControl2_small by lia.
    replace (size g / 4) with 0 by (symmetry; apply Z.div_small; lia).
    unfold quotientKind. cbn [Z.mul Z.eqb].
    destruct (_ =? player); [reflexivity|].
    destruct (_ =? EMPTY); reflexivity.
Qed.

Lemma X28_evaluator_finite_from_four_rows_witness :
  EvaluatorKind.evaluatePosition (create 4) PLAYER_RED = KFinite /\
  EvaluatorKind.evaluatePosition (create 3) PLAYER_RED = KNaN.
Proof.
  split.
  - apply (X28_evaluator_finite_from_four_rows (create 4) PLAYER_RED); cbn; lia.
  - apply (X28_evaluator_finite_from_four_rows (create 3) PLAYER_RED); cbn; lia.
Defined.

End EvaluatorNumbers.

Section PlayoutPolicy.
Import HexGame MCTS.

(** Every run of the playout loop is a run of [simulateFrom] on the list of
    the moves it selected. *)
Lemma simulateLoop_choices : forall fuel rs g acc res,
  MCTSNode.simulateLoop fuel rs g acc = Some res ->
  exists choices, simulateFrom choices g acc = Some res.
Proof.
  induction fuel as [|fuel IH]; intros rs g acc res; cbn [MCTSNode.simulateLoop];
    [discriminate|].
  destruct (gameOver g) eqn:Ho.
  { intros H. exists []. cbn [simulateFrom]. now rewrite Ho. }
  destruct (getValidMoves g) as [|m0 moves] eqn:Hv.
  { intros H. exists []. cbn [simulateFrom]. now rewrite Ho, Hv. }
  match goal with |- match ?sel with _ => _ end = _ -> _ =>
    destruct sel as [[selected rs']|] end; [|discriminate].
  intros H. apply IH in H. destruct H as (choices & Hsim).
  exists (selected :: choices). cbn [simulateFrom]. now rewrite Ho, Hv.
Qed.

End PlayoutPolicy.

